(** * Local Catan: a shallow embedding of the rules engine

    The development follows [src/local-catan/src/main.ts] (classes
    [GameEngine] and [InitialPlacementManager], and the declarations of
    [types.ts]) and the pass of the renderer that completes the board
    ([GameRenderer.calculateVertexPositions] and
    [GameRenderer.connectEdgesToVertices], as [drawBoard] runs them).

    Conventions.
    - Array positions, entity ids and seats are [nat]; counters and
      victory points are [Z] (JavaScript numbers that are decremented).
    - A JavaScript [Map] is a [gmap]; [m.get(k) || 0] is [getCount].
    - Coordinates are rationals.  The floating-point library functions
      the source calls ([Math.sqrt], [Math.cos], [Math.sin],
      [Math.atan2], [Math.PI]) are the fields of the class [JsMath]:
      every definition and theorem is parametric in them, and rounding
      of [+], [-], [*], [/] is not modelled.  Where a property depends
      on their values it assumes them [accurate].
    - [Math.random] is an explicit supply of naturals held by the
      engine; [Math.floor(Math.random() * n)] takes the next one
      modulo [n].
    - Dereferencing [undefined] raises [TypeError]; a raised error keeps
      every mutation performed before it, as in the source. *)

From Stdlib Require Import QArith Qround Qabs Lqa.
From stdpp Require Import gmap list fin_maps.

#[local] Open Scope Z_scope.

(* ===================================================================== *)
(** ** Enumerations of [types.ts] *)

Inductive ResourceType := Brick | Wood | Sheep | Wheat | Ore | Desert.
Inductive PlayerColor := Red | Blue | Orange | White.
Inductive Building := settlement | city.
Inductive GamePhase :=
  | InitialPlacement | RollingDice | MainPhase | Trading
  | BuildingPhase | EndTurn | GameOver.

(** [ResourceType | '3:1'] *)
Inductive PortType := ResourcePort (r : ResourceType) | Port31.

#[global] Instance ResourceType_eq_dec : EqDecision ResourceType.
Proof. solve_decision. Defined.
#[global] Instance PlayerColor_eq_dec : EqDecision PlayerColor.
Proof. solve_decision. Defined.
#[global] Instance Building_eq_dec : EqDecision Building.
Proof. solve_decision. Defined.
#[global] Instance GamePhase_eq_dec : EqDecision GamePhase.
Proof. solve_decision. Defined.
#[global] Instance PortType_eq_dec : EqDecision PortType.
Proof. solve_decision. Defined.

Definition resource_index (r : ResourceType) : nat :=
  match r with
  | Brick => 0 | Wood => 1 | Sheep => 2 | Wheat => 3 | Ore => 4 | Desert => 5
  end%nat.

Definition resource_of_index (n : nat) : ResourceType :=
  match n with
  | 0 => Brick | 1 => Wood | 2 => Sheep | 3 => Wheat | 4 => Ore | _ => Desert
  end%nat.

#[global] Instance ResourceType_countable : Countable ResourceType.
Proof.
  refine (inj_countable' resource_index resource_of_index _).
  by intros [].
Defined.

(** [Object.values(ResourceType)] without the desert marker: the key
    order in which [createPlayer] fills a resource map. *)
Definition productive : list ResourceType := [Brick; Wood; Sheep; Wheat; Ore].

(** [m.get(k) || 0] *)
Definition getCount `{Countable K} (m : gmap K Z) (k : K) : Z :=
  default 0 (m !! k).

(* ===================================================================== *)
(** ** Records of [types.ts] *)

Module Player.
Record t := mk {
  id : nat;
  color : PlayerColor;
  resources : gmap ResourceType Z;
  victoryPoints : Z;
  settlements : Z;
  cities : Z;
  roads : Z;
  longestRoad : Z;
  knights : Z;
  hasLongestRoad : bool;
  hasLargestArmy : bool
}.

Definition set_resources (f : gmap ResourceType Z → gmap ResourceType Z) (p : t) : t :=
  mk (id p) (color p) (f (resources p)) (victoryPoints p) (settlements p)
     (cities p) (roads p) (longestRoad p) (knights p) (hasLongestRoad p)
     (hasLargestArmy p).
Definition set_victoryPoints (f : Z → Z) (p : t) : t :=
  mk (id p) (color p) (resources p) (f (victoryPoints p)) (settlements p)
     (cities p) (roads p) (longestRoad p) (knights p) (hasLongestRoad p)
     (hasLargestArmy p).
Definition set_settlements (f : Z → Z) (p : t) : t :=
  mk (id p) (color p) (resources p) (victoryPoints p) (f (settlements p))
     (cities p) (roads p) (longestRoad p) (knights p) (hasLongestRoad p)
     (hasLargestArmy p).
Definition set_cities (f : Z → Z) (p : t) : t :=
  mk (id p) (color p) (resources p) (victoryPoints p) (settlements p)
     (f (cities p)) (roads p) (longestRoad p) (knights p) (hasLongestRoad p)
     (hasLargestArmy p).
Definition set_roads (f : Z → Z) (p : t) : t :=
  mk (id p) (color p) (resources p) (victoryPoints p) (settlements p)
     (cities p) (f (roads p)) (longestRoad p) (knights p) (hasLongestRoad p)
     (hasLargestArmy p).
Definition set_hasLongestRoad (b : bool) (p : t) : t :=
  mk (id p) (color p) (resources p) (victoryPoints p) (settlements p)
     (cities p) (roads p) (longestRoad p) (knights p) b (hasLargestArmy p).
End Player.

Module Hex.
Record t := mk {
  id : nat;
  x : Q;
  y : Q;
  resourceType : ResourceType;
  numberToken : option nat;
  hasRobber : bool
}.
Definition set_hasRobber (b : bool) (h : t) : t :=
  mk (id h) (x h) (y h) (resourceType h) (numberToken h) b.
End Hex.

Module Vertex.
Record t := mk {
  id : nat;
  x : Q;
  y : Q;
  building : option Building;
  playerColor : option PlayerColor
}.
Definition set_building (b : option Building) (v : t) : t :=
  mk (id v) (x v) (y v) b (playerColor v).
Definition set_playerColor (c : option PlayerColor) (v : t) : t :=
  mk (id v) (x v) (y v) (building v) c.
End Vertex.

Module Edge.
Record t := mk {
  id : nat;
  vertex1 : nat;
  vertex2 : nat;
  road : option PlayerColor;
  port : option PortType
}.
Definition set_road (c : option PlayerColor) (e : t) : t :=
  mk (id e) (vertex1 e) (vertex2 e) c (port e).
Definition set_port (p : option PortType) (e : t) : t :=
  mk (id e) (vertex1 e) (vertex2 e) (road e) p.
Definition set_vertices (v1 v2 : nat) (e : t) : t :=
  mk (id e) v1 v2 (road e) (port e).
End Edge.

(** [GameState]; [developmentCardDeck] (always empty, never read) is left
    out, as are the players' names and development cards. *)
Record GameState := mkState {
  players : list Player.t;
  currentPlayerIndex : nat;
  phase : GamePhase;
  hexes : list Hex.t;
  vertices : list Vertex.t;
  edges : list Edge.t;
  diceRolled : bool;
  lastDiceRoll : option nat;
  lastDie1 : option nat;
  lastDie2 : option nat;
  rollHistory : gmap nat Z;
  bank : gmap ResourceType Z;
  longestRoadPlayer : option nat;
  largestArmyPlayer : option nat;
  longestRoadLength : Z;
  largestArmySize : Z;
  turnNumber : Z;
  initialPlacementPhase : bool;
  initialPlacementRound : nat
}.

Definition set_players (f : list Player.t → list Player.t) (s : GameState) :=
  mkState (f (players s)) (currentPlayerIndex s) (phase s) (hexes s) (vertices s)
    (edges s) (diceRolled s) (lastDiceRoll s) (lastDie1 s) (lastDie2 s)
    (rollHistory s) (bank s) (longestRoadPlayer s) (largestArmyPlayer s)
    (longestRoadLength s) (largestArmySize s) (turnNumber s)
    (initialPlacementPhase s) (initialPlacementRound s).
Definition set_currentPlayerIndex (i : nat) (s : GameState) :=
  mkState (players s) i (phase s) (hexes s) (vertices s)
    (edges s) (diceRolled s) (lastDiceRoll s) (lastDie1 s) (lastDie2 s)
    (rollHistory s) (bank s) (longestRoadPlayer s) (largestArmyPlayer s)
    (longestRoadLength s) (largestArmySize s) (turnNumber s)
    (initialPlacementPhase s) (initialPlacementRound s).
Definition set_phase (p : GamePhase) (s : GameState) :=
  mkState (players s) (currentPlayerIndex s) p (hexes s) (vertices s)
    (edges s) (diceRolled s) (lastDiceRoll s) (lastDie1 s) (lastDie2 s)
    (rollHistory s) (bank s) (longestRoadPlayer s) (largestArmyPlayer s)
    (longestRoadLength s) (largestArmySize s) (turnNumber s)
    (initialPlacementPhase s) (initialPlacementRound s).
Definition set_hexes (f : list Hex.t → list Hex.t) (s : GameState) :=
  mkState (players s) (currentPlayerIndex s) (phase s) (f (hexes s)) (vertices s)
    (edges s) (diceRolled s) (lastDiceRoll s) (lastDie1 s) (lastDie2 s)
    (rollHistory s) (bank s) (longestRoadPlayer s) (largestArmyPlayer s)
    (longestRoadLength s) (largestArmySize s) (turnNumber s)
    (initialPlacementPhase s) (initialPlacementRound s).
Definition set_vertices (f : list Vertex.t → list Vertex.t) (s : GameState) :=
  mkState (players s) (currentPlayerIndex s) (phase s) (hexes s) (f (vertices s))
    (edges s) (diceRolled s) (lastDiceRoll s) (lastDie1 s) (lastDie2 s)
    (rollHistory s) (bank s) (longestRoadPlayer s) (largestArmyPlayer s)
    (longestRoadLength s) (largestArmySize s) (turnNumber s)
    (initialPlacementPhase s) (initialPlacementRound s).
Definition set_edges (f : list Edge.t → list Edge.t) (s : GameState) :=
  mkState (players s) (currentPlayerIndex s) (phase s) (hexes s) (vertices s)
    (f (edges s)) (diceRolled s) (lastDiceRoll s) (lastDie1 s) (lastDie2 s)
    (rollHistory s) (bank s) (longestRoadPlayer s) (largestArmyPlayer s)
    (longestRoadLength s) (largestArmySize s) (turnNumber s)
    (initialPlacementPhase s) (initialPlacementRound s).
(** the four fields [rollDice] and [endTurn] write together *)
Definition set_dice (rolled : bool) (total d1 d2 : option nat) (s : GameState) :=
  mkState (players s) (currentPlayerIndex s) (phase s) (hexes s) (vertices s)
    (edges s) rolled total d1 d2
    (rollHistory s) (bank s) (longestRoadPlayer s) (largestArmyPlayer s)
    (longestRoadLength s) (largestArmySize s) (turnNumber s)
    (initialPlacementPhase s) (initialPlacementRound s).
Definition set_rollHistory (f : gmap nat Z → gmap nat Z) (s : GameState) :=
  mkState (players s) (currentPlayerIndex s) (phase s) (hexes s) (vertices s)
    (edges s) (diceRolled s) (lastDiceRoll s) (lastDie1 s) (lastDie2 s)
    (f (rollHistory s)) (bank s) (longestRoadPlayer s) (largestArmyPlayer s)
    (longestRoadLength s) (largestArmySize s) (turnNumber s)
    (initialPlacementPhase s) (initialPlacementRound s).
Definition set_bank (f : gmap ResourceType Z → gmap ResourceType Z) (s : GameState) :=
  mkState (players s) (currentPlayerIndex s) (phase s) (hexes s) (vertices s)
    (edges s) (diceRolled s) (lastDiceRoll s) (lastDie1 s) (lastDie2 s)
    (rollHistory s) (f (bank s)) (longestRoadPlayer s) (largestArmyPlayer s)
    (longestRoadLength s) (largestArmySize s) (turnNumber s)
    (initialPlacementPhase s) (initialPlacementRound s).
Definition set_longestRoad (holder : option nat) (len : Z) (s : GameState) :=
  mkState (players s) (currentPlayerIndex s) (phase s) (hexes s) (vertices s)
    (edges s) (diceRolled s) (lastDiceRoll s) (lastDie1 s) (lastDie2 s)
    (rollHistory s) (bank s) holder (largestArmyPlayer s)
    len (largestArmySize s) (turnNumber s)
    (initialPlacementPhase s) (initialPlacementRound s).
Definition set_turnNumber (f : Z → Z) (s : GameState) :=
  mkState (players s) (currentPlayerIndex s) (phase s) (hexes s) (vertices s)
    (edges s) (diceRolled s) (lastDiceRoll s) (lastDie1 s) (lastDie2 s)
    (rollHistory s) (bank s) (longestRoadPlayer s) (largestArmyPlayer s)
    (longestRoadLength s) (largestArmySize s) (f (turnNumber s))
    (initialPlacementPhase s) (initialPlacementRound s).
Definition set_initialPlacementPhase (b : bool) (s : GameState) :=
  mkState (players s) (currentPlayerIndex s) (phase s) (hexes s) (vertices s)
    (edges s) (diceRolled s) (lastDiceRoll s) (lastDie1 s) (lastDie2 s)
    (rollHistory s) (bank s) (longestRoadPlayer s) (largestArmyPlayer s)
    (longestRoadLength s) (largestArmySize s) (turnNumber s)
    b (initialPlacementRound s).
Definition set_initialPlacementRound (r : nat) (s : GameState) :=
  mkState (players s) (currentPlayerIndex s) (phase s) (hexes s) (vertices s)
    (edges s) (diceRolled s) (lastDiceRoll s) (lastDie1 s) (lastDie2 s)
    (rollHistory s) (bank s) (longestRoadPlayer s) (largestArmyPlayer s)
    (longestRoadLength s) (largestArmySize s) (turnNumber s)
    (initialPlacementPhase s) r.

(** The per-seat counters of [InitialPlacementManager.placementsPerPlayer]. *)
Record Placements := mkPlacements { p_settlements : Z; p_roads : Z }.

(** The [GameEngine] object together with the two ambient effects of
    the source: the random supply and the console.  The placement
    manager shares the engine's [state] object, so it only contributes
    its own map; [initialPlacement = None] is the [null] manager.
    [console] collects the argument of each [console.warn] (the number
    of border edges found). *)
Record Engine := mkEngine {
  state : GameState;
  initialPlacement : option (gmap nat Placements);
  rng : list nat;
  console : list nat
}.

(* ===================================================================== *)
(** ** Errors and the engine monad *)

(** [RangeError] is the overflow of the call stack. *)
Inductive JsError := TypeError | DiceAlreadyRolled | RangeError.

Inductive res (A : Type) := Ok (a : A) | Throw (e : JsError).
Arguments Ok {A} a.
Arguments Throw {A} e.

#[global] Instance res_ret : MRet res := λ A a, Ok a.
#[global] Instance res_bind : MBind res := λ A B f r,
  match r with Ok a => f a | Throw e => Throw e end.

(** [o] is a value that is dereferenced next. *)
Definition deref {A} (o : option A) : res A :=
  match o with Some a => Ok a | None => Throw TypeError end.

Definition M (A : Type) : Type := Engine → res A * Engine.

#[global] Instance M_ret : MRet M := λ A a e, (Ok a, e).
#[global] Instance M_bind : MBind M := λ A B f m e,
  match m e with
  | (Ok a, e') => f a e'
  | (Throw err, e') => (Throw err, e')
  end.

Definition getS : M GameState := λ e, (Ok (state e), e).
Definition modifyS (f : GameState → GameState) : M unit :=
  λ e, (Ok tt, mkEngine (f (state e)) (initialPlacement e) (rng e) (console e)).
Definition liftR {A} (r : res A) : M A := λ e, (r, e).
Definition throw {A} (err : JsError) : M A := λ e, (Throw err, e).
Definition getPlacements : M (option (gmap nat Placements)) :=
  λ e, (Ok (initialPlacement e), e).
Definition modifyPlacements (f : gmap nat Placements → gmap nat Placements) : M unit :=
  λ e, (Ok tt, mkEngine (state e) (f <$> initialPlacement e) (rng e) (console e)).
Definition warn (n : nat) : M unit :=
  λ e, (Ok tt, mkEngine (state e) (initialPlacement e) (rng e) (console e ++ [n])).

(** [Math.floor(Math.random() * n)] *)
Definition draw (n : nat) (supply : list nat) : nat * list nat :=
  match supply with
  | [] => (0%nat, [])
  | r :: rest => ((r `mod` n)%nat, rest)
  end.
Definition random (n : nat) : M nat :=
  λ e, let '(r, rest) := draw n (rng e) in
       (Ok r, mkEngine (state e) (initialPlacement e) rest (console e)).

(** [l.forEach(f)] *)
Fixpoint forEach {A} (l : list A) (f : A → M unit) : M unit :=
  match l with
  | [] => mret tt
  | a :: l' => f a ;; forEach l' f
  end.

Definition liftS {A} (f : GameState → res A) : M A := λ e, (f (state e), e).

(** [for (const a of l) { b = f(b, a) }] where the body may raise *)
Fixpoint foldlR {A B} (f : B → A → res B) (b : B) (l : list A) : res B :=
  match l with
  | [] => Ok b
  | a :: l' => b' ← f b a; foldlR f b' l'
  end.

(** [players[i]] is an alias of the array element: a write through it
    updates position [i]. *)
Definition updatePlayer (i : nat) (f : Player.t → Player.t) : M unit :=
  modifyS (set_players (alter f i)).
Definition updateVertex (i : nat) (f : Vertex.t → Vertex.t) : M unit :=
  modifyS (set_vertices (alter f i)).
Definition updateEdge (i : nat) (f : Edge.t → Edge.t) : M unit :=
  modifyS (set_edges (alter f i)).

(** [m.set(r, (m.get(r) || 0) + d)] *)
Definition addCount `{Countable K} (k : K) (d : Z) (m : gmap K Z) : gmap K Z :=
  <[k := getCount m k + d]> m.

(* ===================================================================== *)
(** ** Floating-point primitives *)

Class JsMath := {
  (** [Math.sqrt(3)] *)
  sqrt3 : Q;
  (** [Math.sqrt] *)
  js_sqrt : Q → Q;
  (** [Math.cos(angle)] and [Math.sin(angle)] for
      [angle = (Math.PI / 3) * i - Math.PI / 2], the direction of
      corner [i] of a hex *)
  cosCorner : nat → Q;
  sinCorner : nat → Q;
  (** [Math.atan2(dy, dx)] and [Math.PI] *)
  js_atan2 : Q → Q → Q;
  js_PI : Q
}.

Definition Qltb (a b : Q) : bool := negb (Qle_bool b a).

Definition hexSize : Q := 60.

Section Engine.
Context `{JsMath}.

(** [Math.sqrt(dx * dx + dy * dy)] *)
Definition distance (ax ay bx b_y : Q) : Q :=
  let dx := (ax - bx)%Q in
  let dy := (ay - b_y)%Q in
  js_sqrt (dx * dx + dy * dy)%Q.

(** the point [(vx, vy)] of corner [i] *)
Definition cornerX (hex : Hex.t) (i : nat) : Q := (Hex.x hex + hexSize * cosCorner i)%Q.
Definition cornerY (hex : Hex.t) (i : nat) : Q := (Hex.y hex + hexSize * sinCorner i)%Q.

(** The inner [vertices.forEach] of [getVerticesAdjacentToHex]: the
    running pair is [(closestVertexId, minDistance)], [None] standing
    for [-1] and for [Infinity]. *)
Definition closerVertex (vx vy : Q) (acc : option nat * option Q)
    (iv : nat * Vertex.t) : option nat * option Q :=
  let d := distance (Vertex.x iv.2) (Vertex.y iv.2) vx vy in
  let belowMin := match acc.2 with None => true | Some m => Qltb d m end in
  if belowMin && Qltb d 5 then (Some iv.1, Some d) else acc.

Definition closestVertex (vs : list Vertex.t) (vx vy : Q) : option nat :=
  (foldl (closerVertex vx vy) (None, None) (imap pair vs)).1.

(** the corner loop of [getVerticesAdjacentToHex]: for each of the six
    corners, the closest vertex within 5 pixels, without repetition *)
Definition cornerVertices (vs : list Vertex.t) (hex : Hex.t) : list nat :=
  foldl (λ adjacentVertices i,
        match closestVertex vs (cornerX hex i) (cornerY hex i) with
        | Some v => if bool_decide (v ∈ adjacentVertices) then adjacentVertices
                    else adjacentVertices ++ [v]
        | None => adjacentVertices
        end) [] (seq 0 6).

(** [GameEngine.getVerticesAdjacentToHex] *)
Definition getVerticesAdjacentToHex (s : GameState) (hexId : nat) : res (list nat) :=
  hex ← deref (hexes s !! hexId);
  Ok (cornerVertices (vertices s) hex).

(** the test shared by [getHexesAdjacentToVertex] and
    [findBorderVertices]: some corner of [hex] lies within 5 pixels *)
Definition hexTouches (vertex : Vertex.t) (hex : Hex.t) : bool :=
  existsb (λ i, Qltb (distance (Vertex.x vertex) (Vertex.y vertex)
                               (cornerX hex i) (cornerY hex i)) 5)
          (seq 0 6).

(** [InitialPlacementManager.getHexesAdjacentToVertex] *)
Definition getHexesAdjacentToVertex (s : GameState) (vertexId : nat) : res (list Hex.t) :=
  vertex ← deref (vertices s !! vertexId);
  Ok (List.filter (hexTouches vertex) (hexes s)).

(* --------------------------------------------------------------------- *)
(** *** Costs *)

Definition canAffordSettlement (player : Player.t) : bool :=
  (1 <=? getCount (Player.resources player) Brick) &&
  (1 <=? getCount (Player.resources player) Wood) &&
  (1 <=? getCount (Player.resources player) Sheep) &&
  (1 <=? getCount (Player.resources player) Wheat).

Definition canAffordCity (player : Player.t) : bool :=
  (2 <=? getCount (Player.resources player) Wheat) &&
  (3 <=? getCount (Player.resources player) Ore).

Definition canAffordRoad (player : Player.t) : bool :=
  (1 <=? getCount (Player.resources player) Brick) &&
  (1 <=? getCount (Player.resources player) Wood).

Definition payForSettlement : Player.t → Player.t :=
  Player.set_resources
    (λ m, addCount Wheat (-1) (addCount Sheep (-1) (addCount Wood (-1) (addCount Brick (-1) m)))).

Definition payForCity : Player.t → Player.t :=
  Player.set_resources (λ m, addCount Ore (-3) (addCount Wheat (-2) m)).

Definition payForRoad : Player.t → Player.t :=
  Player.set_resources (λ m, addCount Wood (-1) (addCount Brick (-1) m)).

(* --------------------------------------------------------------------- *)
(** *** Adjacency read off the edge array *)

(** [getAdjacentVertices]: a [Set] filled in edge order, then
    [Array.from].  The same method is declared, with the same body, in
    [GameEngine] and in [InitialPlacementManager]. *)
Definition getAdjacentVertices (s : GameState) (vertexId : nat) : list nat :=
  foldl (λ adjacent edge,
           let other :=
             if decide (Edge.vertex1 edge = vertexId) then Some (Edge.vertex2 edge)
             else if decide (Edge.vertex2 edge = vertexId) then Some (Edge.vertex1 edge)
             else None in
           match other with
           | Some v => if bool_decide (v ∈ adjacent) then adjacent else adjacent ++ [v]
           | None => adjacent
           end) [] (edges s).

(** the [for ... of] loop of [checkDistanceRule], with its early return *)
Fixpoint noBuildingAt (s : GameState) (adjacentVertices : list nat) : res bool :=
  match adjacentVertices with
  | [] => Ok true
  | adjId :: rest =>
      adjVertex ← deref (vertices s !! adjId);
      if Vertex.building adjVertex is Some _ then Ok false else noBuildingAt s rest
  end.

(** [checkDistanceRule] (declared identically in both classes) *)
Definition checkDistanceRule (s : GameState) (vertexId : nat) : res bool :=
  noBuildingAt s (getAdjacentVertices s vertexId).

(** positions of the edges satisfying [P] *)
Definition edgeIndices (P : nat → Edge.t → bool) (es : list Edge.t) : list nat :=
  omap (λ ie : nat * Edge.t, if P ie.1 ie.2 then Some ie.1 else None) (imap pair es).

(** [getConnectedEdges] *)
Definition getConnectedEdges (s : GameState) (edgeId : nat) : res (list nat) :=
  match edges s with
  | [] => Ok []
  | _ =>
      edge ← deref (edges s !! edgeId);
      Ok (edgeIndices (λ index otherEdge,
            negb (bool_decide (index = edgeId)) &&
            (bool_decide (Edge.vertex1 otherEdge = Edge.vertex1 edge) ||
             bool_decide (Edge.vertex1 otherEdge = Edge.vertex2 edge) ||
             bool_decide (Edge.vertex2 otherEdge = Edge.vertex1 edge) ||
             bool_decide (Edge.vertex2 otherEdge = Edge.vertex2 edge)))
          (edges s))
  end.

(** [getEdgesConnectedToVertex] *)
Definition getEdgesConnectedToVertex (s : GameState) (vertexId : nat) : list nat :=
  edgeIndices (λ _ edge,
     bool_decide (Edge.vertex1 edge = vertexId) ||
     bool_decide (Edge.vertex2 edge = vertexId)) (edges s).

Definition ownedBy (color : PlayerColor) (v : Vertex.t) : bool :=
  bool_decide (Vertex.building v ≠ None) &&
  bool_decide (Vertex.playerColor v = Some color).

(** [isRoadConnected] *)
Definition isRoadConnected (s : GameState) (edgeId playerId : nat) : res bool :=
  edge ← deref (edges s !! edgeId);
  v1 ← deref (vertices s !! Edge.vertex1 edge);
  (* [v1.building !== null && v1.playerColor === player.color] *)
  at1 ← (if Vertex.building v1 is Some _ then
           player ← deref (players s !! playerId);
           Ok (bool_decide (Vertex.playerColor v1 = Some (Player.color player)))
         else Ok false);
  if at1 : bool then Ok true else
  v2 ← deref (vertices s !! Edge.vertex2 edge);
  at2 ← (if Vertex.building v2 is Some _ then
           player ← deref (players s !! playerId);
           Ok (bool_decide (Vertex.playerColor v2 = Some (Player.color player)))
         else Ok false);
  if at2 : bool then Ok true else
  connectedEdges ← getConnectedEdges s edgeId;
  match connectedEdges with
  | [] => Ok false
  | _ =>
      player ← deref (players s !! playerId);
      Ok (existsb (λ connectedEdgeId,
            match edges s !! connectedEdgeId with
            | Some connectedEdge =>
                bool_decide (Edge.road connectedEdge = Some (Player.color player))
            | None => false
            end) connectedEdges)
  end.

(* --------------------------------------------------------------------- *)
(** *** Longest road *)

(** [findLongestPathFromEdge].  The source adds [edgeId] to the shared
    [visited] set on entry and deletes it before returning, so every
    call leaves the set as it found it: the model passes the enlarged
    set down.  Recursion depth is bounded by the number of edges; the
    model counts it down in [depth] and reports exhaustion as
    [RangeError] ([depth_suffices] shows that [calculateLongestRoad]
    never runs out). *)
Fixpoint findLongestPathFromEdge (depth : nat) (s : GameState)
    (edgeId playerId : nat) (visited : gset nat) : res Z :=
  match depth with
  | O => Throw RangeError
  | S depth' =>
      let visited' := {[edgeId]} ∪ visited in
      edge ← deref (edges s !! edgeId);
      foldlR (λ maxLength vertexId,
        foldlR (λ maxLength nextEdgeId,
          if negb (bool_decide (nextEdgeId = edgeId)) &&
             negb (bool_decide (nextEdgeId ∈ visited'))
          then
            nextEdge ← deref (edges s !! nextEdgeId);
            player ← deref (players s !! playerId);
            if bool_decide (Edge.road nextEdge = Some (Player.color player)) then
              sub ← findLongestPathFromEdge depth' s nextEdgeId playerId visited';
              Ok (Z.max maxLength (1 + sub))
            else Ok maxLength
          else Ok maxLength)
          maxLength (getEdgesConnectedToVertex s vertexId))
        1 [Edge.vertex1 edge; Edge.vertex2 edge]
  end.

(** [calculateLongestRoad] *)
Definition calculateLongestRoad (s : GameState) (playerId : nat) : res Z :=
  match edges s with
  | [] => Ok 0
  | _ =>
      player ← deref (players s !! playerId);
      let playerRoads :=
        edgeIndices (λ _ edge, bool_decide (Edge.road edge = Some (Player.color player)))
                    (edges s) in
      match playerRoads with
      | [] => Ok 0
      | _ =>
          foldlR (λ maxLength startEdgeId,
                    length ← findLongestPathFromEdge (length (edges s)) s startEdgeId playerId ∅;
                    Ok (Z.max maxLength length))
                 0 playerRoads
      end
  end.

(** one iteration of the [players.forEach] of [updateLongestRoad]; the
    accumulator is [(longestPlayer, longestLength)] *)
Definition longestRoadStep (s : GameState) (acc : option nat * Z)
    (player : Player.t) : res (option nat * Z) :=
  length ← calculateLongestRoad s (Player.id player);
  if acc.2 <? length then Ok (Some (Player.id player), length)
  else if (length =? acc.2) && (5 <=? length) then
    if bool_decide (longestRoadPlayer s = Some (Player.id player))
    then Ok (Some (Player.id player), acc.2)
    else Ok acc
  else Ok acc.

(** [updateLongestRoad] *)
Definition updateLongestRoad : M unit :=
  s ← getS;
  '(longestPlayer, longestLength) ← liftR (foldlR (longestRoadStep s) (None, 0) (players s));
  if 5 <=? longestLength then
    (* Remove VP from previous holder *)
    match longestRoadPlayer s with
    | Some holder =>
        prevPlayer ← liftR (deref (players s !! holder));
        if Player.hasLongestRoad prevPlayer then
          updatePlayer holder
            (λ p, Player.set_hasLongestRoad false (Player.set_victoryPoints (λ v, v - 2) p))
        else mret tt
    | None => mret tt
    end;;
    (* Award VP to new holder *)
    match longestPlayer with
    | Some newHolder =>
        if bool_decide (longestRoadPlayer s ≠ Some newHolder) then
          s' ← getS;
          _ ← liftR (deref (players s' !! newHolder));
          updatePlayer newHolder
            (λ p, Player.set_hasLongestRoad true (Player.set_victoryPoints (λ v, v + 2) p));;
          modifyS (set_longestRoad (Some newHolder) longestLength)
        else mret tt
    | None => mret tt
    end
  else mret tt.

(* --------------------------------------------------------------------- *)
(** *** Dice, production and the robber *)

(** [shuffleArray]: Fisher-Yates from the last position down to 1 *)
Definition swap {A} (i j : nat) (l : list A) : list A :=
  match l !! i, l !! j with
  | Some a, Some b => <[j := a]> (<[i := b]> l)
  | _, _ => l
  end.

Fixpoint shuffleFrom {A} (i : nat) (shuffled : list A) (supply : list nat)
    : list A * list nat :=
  match i with
  | O => (shuffled, supply)
  | S i' =>
      let '(j, supply') := draw (S i) supply in
      shuffleFrom i' (swap i j shuffled) supply'
  end.

Definition shuffleArray {A} (array : list A) (supply : list nat) : list A * list nat :=
  shuffleFrom (length array - 1) array supply.

Definition shuffleM {A} (array : list A) : M (list A) :=
  λ e, let '(shuffled, rest) := shuffleArray array (rng e) in
       (Ok shuffled, mkEngine (state e) (initialPlacement e) rest (console e)).

(** the body of the inner [adjacentVertices.forEach] of
    [distributeResources] *)
Definition creditVertex (hex : Hex.t) (vertexId : nat) : M unit :=
  s ← getS;
  vertex ← liftR (deref (vertices s !! vertexId));
  match Vertex.building vertex, Vertex.playerColor vertex with
  | Some building, Some color =>
      match list_find (λ p, Player.color p = color) (players s) with
      | Some (i, _) =>
          if bool_decide (Hex.resourceType hex ≠ Desert) then
            let amount := if bool_decide (building = city) then 2 else 1 in
            updatePlayer i (Player.set_resources (addCount (Hex.resourceType hex) amount))
          else mret tt
      | None => mret tt
      end
  | _, _ => mret tt
  end.

Definition producesOn (diceRoll : nat) (hex : Hex.t) : bool :=
  bool_decide (Hex.numberToken hex = Some diceRoll) && negb (Hex.hasRobber hex).

(** [distributeResources] *)
Definition distributeResources (diceRoll : nat) : M unit :=
  s ← getS;
  let matchingHexes := List.filter (producesOn diceRoll) (hexes s) in
  forEach matchingHexes (λ hex,
    adjacentVertices ← liftS (λ s, getVerticesAdjacentToHex s (Hex.id hex));
    forEach adjacentVertices (creditVertex hex)).

(** The cards of a hand in the iteration order of the resource [Map]:
    [createPlayer] inserts the keys in enumeration order and no key is
    ever deleted. *)
Definition handCards (m : gmap ResourceType Z) : list ResourceType :=
  flat_map (λ r, match m !! r with
                 | Some amount => replicate (Z.to_nat amount) r
                 | None => []
                 end)
           (productive ++ [Desert]).

(** [Array.from(m.values()).reduce((sum, count) => sum + count, 0)] *)
Definition totalCards (m : gmap ResourceType Z) : Z :=
  foldr Z.add 0 ((map_to_list m).*2).

(** [discardResources] *)
Definition discardResources (i : nat) (player : Player.t) (count : Z) : M unit :=
  shuffled ← shuffleM (handCards (Player.resources player));
  forEach (take (Z.to_nat count) shuffled) (λ resource,
    updatePlayer i (Player.set_resources (addCount resource (-1)));;
    modifyS (set_bank (addCount resource 1))).

(** [handleRobberActivation] *)
Definition handleRobberActivation : M unit :=
  s ← getS;
  forEach (imap pair (players s)) (λ ip,
    s' ← getS;
    match players s' !! ip.1 with
    | Some player =>
        let totalResources := totalCards (Player.resources player) in
        if 7 <? totalResources then discardResources ip.1 player (totalResources `div` 2)
        else mret tt
    | None => mret tt
    end).

(** [rollDice] *)
Definition rollDice : M (nat * nat * nat) :=
  s ← getS;
  if diceRolled s then throw DiceAlreadyRolled else
  r1 ← random 6;
  r2 ← random 6;
  let die1 := (r1 + 1)%nat in
  let die2 := (r2 + 1)%nat in
  let total := (die1 + die2)%nat in
  modifyS (set_dice true (Some total) (Some die1) (Some die2));;
  modifyS (set_rollHistory (addCount total 1));;
  (if bool_decide (total = 7%nat) then handleRobberActivation
   else distributeResources total);;
  modifyS (set_phase MainPhase);;
  mret (die1, die2, total).

(** [moveRobber] *)
Definition moveRobber (hexId : nat) : M unit :=
  modifyS (set_hexes (fmap (λ hex, if Hex.hasRobber hex
                                   then Hex.set_hasRobber false hex else hex)));;
  s ← getS;
  match hexes s !! hexId with
  | Some targetHex =>
      if bool_decide (Hex.resourceType targetHex ≠ Desert)
      then modifyS (set_hexes (alter (Hex.set_hasRobber true) hexId))
      else mret tt
  | None => mret tt
  end.

(** [endTurn] *)
Definition endTurn : M unit :=
  modifyS (λ s, set_dice false (lastDiceRoll s) None None s);;
  modifyS (λ s, set_currentPlayerIndex ((currentPlayerIndex s + 1) `mod` 4)%nat s);;
  modifyS (set_turnNumber (λ n, n + 1));;
  modifyS (set_phase RollingDice);;
  s ← getS;
  currentPlayer ← liftR (deref (players s !! currentPlayerIndex s));
  if 10 <=? Player.victoryPoints currentPlayer
  then modifyS (set_phase GameOver)
  else mret tt.

(* --------------------------------------------------------------------- *)
(** *** [InitialPlacementManager] *)

(** [this.placementsPerPlayer.get(playerId)]; a [null] manager has no
    entry for anybody *)
Definition placementsOf (e : Engine) (playerId : nat) : option Placements :=
  initialPlacement e ≫= (λ m, m !! playerId).

(** [canPlaceSettlement] *)
Definition canPlaceSettlement (e : Engine) (vertexId playerId : nat) : res bool :=
  let s := state e in
  if bool_decide (currentPlayerIndex s ≠ playerId) then Ok false else
  placements ← deref (placementsOf e playerId);
  if (if bool_decide (initialPlacementRound s = 1%nat)
      then 1 <=? p_settlements placements
      else 2 <=? p_settlements placements)
  then Ok false else
  vertex ← deref (vertices s !! vertexId);
  if Vertex.building vertex is Some _ then Ok false else
  checkDistanceRule s vertexId.

(** [canPlaceRoad]; its third parameter [vertexId] is not read *)
Definition canPlaceRoad (e : Engine) (edgeId playerId vertexId : nat) : res bool :=
  let s := state e in
  if bool_decide (currentPlayerIndex s ≠ playerId) then Ok false else
  placements ← deref (placementsOf e playerId);
  if (if bool_decide (initialPlacementRound s = 1%nat)
      then (p_settlements placements <? 1) || (1 <=? p_roads placements)
      else (p_settlements placements <? 2) || (2 <=? p_roads placements))
  then Ok false else
  edge ← deref (edges s !! edgeId);
  if Edge.road edge is Some _ then Ok false else
  vertex1 ← deref (vertices s !! Edge.vertex1 edge);
  at1 ← (if bool_decide (Vertex.building vertex1 = Some settlement) then
           player ← deref (players s !! playerId);
           Ok (bool_decide (Vertex.playerColor vertex1 = Some (Player.color player)))
         else Ok false);
  if at1 : bool then Ok true else
  vertex2 ← deref (vertices s !! Edge.vertex2 edge);
  if bool_decide (Vertex.building vertex2 = Some settlement) then
    player ← deref (players s !! playerId);
    Ok (bool_decide (Vertex.playerColor vertex2 = Some (Player.color player)))
  else Ok false.

(** [giveInitialResources] *)
Definition giveInitialResources (vertexId playerId : nat) : M unit :=
  adjacentHexes ← liftS (λ s, getHexesAdjacentToVertex s vertexId);
  forEach adjacentHexes (λ hex,
    if bool_decide (Hex.resourceType hex ≠ Desert) &&
       bool_decide (Hex.numberToken hex ≠ None)
    then
      s ← getS;
      _ ← liftR (deref (players s !! playerId));
      updatePlayer playerId (Player.set_resources (addCount (Hex.resourceType hex) 1))
    else mret tt).

Definition bumpSettlements (p : Placements) : Placements :=
  mkPlacements (p_settlements p + 1) (p_roads p).
Definition bumpRoads (p : Placements) : Placements :=
  mkPlacements (p_settlements p) (p_roads p + 1).

(** [placeInitialSettlement] *)
Definition placeInitialSettlement (vertexId playerId : nat) : M bool :=
  ok ← (λ e, (canPlaceSettlement e vertexId playerId, e));
  if negb ok then mret false else
  s ← getS;
  updateVertex vertexId (Vertex.set_building (Some settlement));;
  player ← liftR (deref (players s !! playerId));
  updateVertex vertexId (Vertex.set_playerColor (Some (Player.color player)));;
  updatePlayer playerId (Player.set_settlements (λ n, n + 1));;
  updatePlayer playerId (Player.set_victoryPoints (λ n, n + 1));;
  modifyPlacements (alter bumpSettlements playerId);;
  if bool_decide (initialPlacementRound s = 2%nat)
  then giveInitialResources vertexId playerId;; mret true
  else mret true.

(** [placeInitialRoad] *)
Definition placeInitialRoad (edgeId playerId vertexId : nat) : M bool :=
  ok ← (λ e, (canPlaceRoad e edgeId playerId vertexId, e));
  if negb ok then mret false else
  s ← getS;
  player ← liftR (deref (players s !! playerId));
  updateEdge edgeId (Edge.set_road (Some (Player.color player)));;
  updatePlayer playerId (Player.set_roads (λ n, n + 1));;
  modifyPlacements (alter bumpRoads playerId);;
  mret true.

(** [advanceToNextPlayer] *)
Definition advanceToNextPlayer : M unit :=
  s ← getS;
  if bool_decide (initialPlacementRound s = 1%nat) then
    if bool_decide (currentPlayerIndex s = 3%nat)
    then modifyS (set_initialPlacementRound 2)
    else modifyS (set_currentPlayerIndex ((currentPlayerIndex s + 1) `mod` 4)%nat)
  else
    if bool_decide (currentPlayerIndex s = 0%nat)
    then
      modifyS (set_initialPlacementPhase false);;
      modifyS (set_phase RollingDice);;
      modifyS (set_currentPlayerIndex 0)
    else modifyS (set_currentPlayerIndex ((currentPlayerIndex s - 1 + 4) `mod` 4)%nat).

(** [getCurrentPlacementStatus] *)
Definition getCurrentPlacementStatus (e : Engine) (playerId : nat) : Placements :=
  default (mkPlacements 0 0) (placementsOf e playerId).

(* --------------------------------------------------------------------- *)
(** *** Build commands of [GameEngine] *)

(** [this.state.initialPlacementPhase && this.initialPlacement] *)
Definition inInitialPlacement (e : Engine) : bool :=
  initialPlacementPhase (state e) && bool_decide (initialPlacement e ≠ None).

(** [buildSettlement] *)
Definition buildSettlement (vertexId playerId : nat) : M bool :=
  λ e,
  if inInitialPlacement e then placeInitialSettlement vertexId playerId e
  else
    (s ← getS;
     player ← liftR (deref (players s !! playerId));
     if negb (canAffordSettlement player) then mret false else
     vertex ← liftR (deref (vertices s !! vertexId));
     if Vertex.building vertex is Some _ then mret false else
     far ← liftR (checkDistanceRule s vertexId);
     if negb far then mret false else
     updateVertex vertexId (Vertex.set_building (Some settlement));;
     updateVertex vertexId (Vertex.set_playerColor (Some (Player.color player)));;
     updatePlayer playerId (Player.set_settlements (λ n, n + 1));;
     updatePlayer playerId (Player.set_victoryPoints (λ n, n + 1));;
     updatePlayer playerId payForSettlement;;
     mret true) e.

(** [buildCity] *)
Definition buildCity (vertexId playerId : nat) : M bool :=
  s ← getS;
  vertex ← liftR (deref (vertices s !! vertexId));
  if negb (bool_decide (Vertex.building vertex = Some settlement)) then mret false else
  player ← liftR (deref (players s !! playerId));
  if negb (bool_decide (Vertex.playerColor vertex = Some (Player.color player)))
  then mret false else
  if negb (canAffordCity player) then mret false else
  updateVertex vertexId (Vertex.set_building (Some city));;
  updatePlayer playerId (Player.set_cities (λ n, n + 1));;
  updatePlayer playerId (Player.set_settlements (λ n, n - 1));;
  updatePlayer playerId (Player.set_victoryPoints (λ n, n + 1));;
  updatePlayer playerId payForCity;;
  mret true.

(** the "normal game phase" part of [buildRoad] *)
Definition buildRoadNormal (edgeId playerId : nat) : M bool :=
  s ← getS;
  edge ← liftR (deref (edges s !! edgeId));
  if Edge.road edge is Some _ then mret false else
  player ← liftR (deref (players s !! playerId));
  if negb (canAffordRoad player) then mret false else
  connected ← liftR (isRoadConnected s edgeId playerId);
  if negb connected then mret false else
  updateEdge edgeId (Edge.set_road (Some (Player.color player)));;
  updatePlayer playerId (Player.set_roads (λ n, n + 1));;
  updatePlayer playerId payForRoad;;
  updateLongestRoad;;
  mret true.

(** the block of [buildRoad] that follows a successful
    [placeInitialRoad] *)
Definition advanceIfTurnComplete (playerId : nat) : M unit :=
  λ e,
  let status := getCurrentPlacementStatus e playerId in
  let round := initialPlacementRound (state e) in
  if bool_decide (round = 1%nat) then
    if (1 <=? p_settlements status) && (1 <=? p_roads status)
    then advanceToNextPlayer e else (Ok tt, e)
  else if bool_decide (round = 2%nat) then
    if (2 <=? p_settlements status) && (2 <=? p_roads status)
    then advanceToNextPlayer e else (Ok tt, e)
  else (Ok tt, e).

(** [buildRoad]; [vertexId = None] is the omitted optional argument *)
Definition buildRoad (edgeId playerId : nat) (vertexId : option nat) : M bool :=
  λ e,
  match vertexId with
  | Some vid =>
      if inInitialPlacement e then
        (success ← placeInitialRoad edgeId playerId vid;
         (if success : bool then advanceIfTurnComplete playerId else mret tt);;
         mret success) e
      else buildRoadNormal edgeId playerId e
  | None => buildRoadNormal edgeId playerId e
  end.

(* --------------------------------------------------------------------- *)
(** *** Game creation *)

(** [NUMBER_TOKENS] *)
Definition NUMBER_TOKENS : list nat :=
  [2; 3; 3; 4; 4; 5; 5; 6; 6; 8; 8; 9; 9; 10; 10; 11; 11; 12]%nat.

(** [RESOURCE_DISTRIBUTION] *)
Definition RESOURCE_DISTRIBUTION (r : ResourceType) : Z :=
  match r with
  | Brick => 3 | Wood => 4 | Sheep => 4 | Wheat => 4 | Ore => 3 | Desert => 1
  end.

(** the tile list of [createBoard] *)
Definition boardResources : list ResourceType :=
  [Brick; Brick; Brick; Wood; Wood; Wood; Wood; Sheep; Sheep; Sheep; Sheep;
   Wheat; Wheat; Wheat; Wheat; Ore; Ore; Ore; Desert].

(** [layout], flattened in the order the two nested [forEach] visit it *)
Definition layout : list (nat * list nat) :=
  [(0, [1; 2; 3]); (1, [0; 1; 2; 3]); (2, [0; 1; 2; 3; 4]);
   (3, [0; 1; 2; 3]); (4, [1; 2; 3])]%nat.
Definition layoutCells : list (nat * nat) :=
  flat_map (λ rc : nat * list nat, (λ col, (rc.1, col)) <$> rc.2) layout.

Definition hexWidth : Q := (hexSize * sqrt3)%Q.
Definition hexHeight : Q := (hexSize * (3 # 2))%Q.

(** One visit of a layout cell.  The accumulator is
    [(hexes, numberIndex)]; [hexId] is the number of hexes pushed so
    far.  The cell arrives with [shuffledResources[hexId]]
    (see [createBoard]). *)
Definition placeHex (shuffledNumbers : list nat) (acc : list Hex.t * nat)
    (cell : nat * nat * ResourceType) : list Hex.t * nat :=
  let '(row, col, resource) := cell in
  let '(hexes, numberIndex) := acc in
  let isDesert := bool_decide (resource = Desert) in
  let numberToken := if isDesert then None else shuffledNumbers !! numberIndex in
  let isOddRow := bool_decide ((row `mod` 2)%nat = 1%nat) in
  let x := ((inject_Z (Z.of_nat col) + (if isOddRow then 1 # 2 else 0)) * hexWidth)%Q in
  let y := (inject_Z (Z.of_nat row) * hexHeight)%Q in
  (hexes ++ [Hex.mk (length hexes) x y resource numberToken isDesert],
   if isDesert then numberIndex else S numberIndex).

(** [createBoard].  The source reads [shuffledResources[hexId]] with
    [hexId] counting the cells; both lists have 19 elements
    ([createBoard_resources_length]), so pairing them position by
    position reads the same tiles. *)
Definition createBoard (supply : list nat)
    : list Hex.t * list Vertex.t * list Edge.t * list nat :=
  let '(shuffledResources, supply1) := shuffleArray boardResources supply in
  let '(shuffledNumbers, supply2) := shuffleArray NUMBER_TOKENS supply1 in
  let hexes := (foldl (placeHex shuffledNumbers) ([], 0%nat)
                      (zip layoutCells shuffledResources)).1 in
  let vertices := (λ i, Vertex.mk i 0 0 None None) <$> seq 0 54 in
  let edges := (λ i, Edge.mk i 0 0 None None) <$> seq 0 72 in
  (hexes, vertices, edges, supply2).

(** [createPlayer] *)
Definition createPlayer (id : nat) (color : PlayerColor) : Player.t :=
  Player.mk id color
    (foldl (λ resources r, <[r := 0]> resources) ∅ productive)
    0 0 0 0 0 0 false false.

(** [initializeGame] *)
Definition initializeGame (supply : list nat) : GameState * list nat :=
  let players := [createPlayer 0 Red; createPlayer 1 Blue;
                  createPlayer 2 Orange; createPlayer 3 White] in
  let bank := foldl (λ bank r, <[r := RESOURCE_DISTRIBUTION r * 19]> bank) ∅ productive in
  let '(hexes, vertices, edges, supply') := createBoard supply in
  (mkState players 0 InitialPlacement hexes vertices edges false None None None
           ∅ bank None None 5 3 0 true 1,
   supply').

(** [new GameEngine()] followed by nothing else: the constructor of
    [InitialPlacementManager] gives every player the counters [0, 0]. *)
Definition newGameEngine (supply : list nat) : Engine :=
  let '(s, supply') := initializeGame supply in
  mkEngine s
    (if initialPlacementPhase s
     then Some (foldl (λ m player, <[Player.id player := mkPlacements 0 0]> m) ∅ (players s))
     else None)
    supply' [].

(* --------------------------------------------------------------------- *)
(** *** The renderer's edge connection *)

(** the body of the inner loop of [connectEdgesToVertices]; the
    accumulator is [(edges, edgeIndex)] *)
Definition connectPair (v1 : Vertex.t) (acc : list Edge.t * nat) (v2 : Vertex.t)
    : list Edge.t * nat :=
  if (acc.2 <? length acc.1)%nat then
    let d := distance (Vertex.x v2) (Vertex.y v2) (Vertex.x v1) (Vertex.y v1) in
    if Qltb (hexSize * (8 # 10)) d && Qltb d (hexSize * (12 # 10))
    then (alter (Edge.set_vertices (Vertex.id v1) (Vertex.id v2)) acc.2 acc.1, S acc.2)
    else acc
  else acc.

(** the outer loop: [v1] ranges over the vertices, [v2] over those
    after it *)
Fixpoint connectFrom (vs : list Vertex.t) (acc : list Edge.t * nat) : list Edge.t * nat :=
  match vs with
  | [] => acc
  | v1 :: rest => connectFrom rest (foldl (connectPair v1) acc rest)
  end.

(** [GameRenderer.connectEdgesToVertices] *)
Definition connectEdgesToVertices (vertices : list Vertex.t) (edges : list Edge.t)
    : list Edge.t :=
  (connectFrom vertices (edges, 0%nat)).1.

(* --------------------------------------------------------------------- *)
(** *** Ports *)

(** [findBorderVertices] *)
Definition findBorderVertices (s : GameState) : list nat :=
  omap (λ iv : nat * Vertex.t,
          if Qeq_bool (Vertex.x iv.2) 0 && Qeq_bool (Vertex.y iv.2) 0 then None
          else
            let adjacentHexCount := length (List.filter (hexTouches iv.2) (hexes s)) in
            if (adjacentHexCount <=? 2)%nat then Some iv.1 else None)
       (imap pair (vertices s)).

(** [findBorderEdges] *)
Definition findBorderEdges (s : GameState) : list nat :=
  let borderVertices := findBorderVertices s in
  edgeIndices (λ _ edge,
     bool_decide (Edge.vertex1 edge ∈ borderVertices) &&
     bool_decide (Edge.vertex2 edge ∈ borderVertices) &&
     bool_decide (Edge.road edge = None)) (edges s).

Definition Qlist_min (d : Q) (l : list Q) : Q :=
  foldl (λ m q, if Qltb q m then q else m) d l.
Definition Qlist_max (d : Q) (l : list Q) : Q :=
  foldl (λ m q, if Qltb m q then q else m) d l.

(** [getBoardCenterX], [getBoardCenterY] *)
Definition getBoardCenterX (s : GameState) : Q :=
  match Hex.x <$> hexes s with
  | [] => 0
  | x :: xs => ((Qlist_min x xs + Qlist_max x xs) / 2)%Q
  end.
Definition getBoardCenterY (s : GameState) : Q :=
  match Hex.y <$> hexes s with
  | [] => 0
  | y :: ys => ((Qlist_min y ys + Qlist_max y ys) / 2)%Q
  end.

(** the angle [sortEdgesByPerimeterPosition] computes for one edge *)
Definition perimeterAngle (s : GameState) (edgeId : nat) : res Q :=
  edge ← deref (edges s !! edgeId);
  v1 ← deref (vertices s !! Edge.vertex1 edge);
  v2 ← deref (vertices s !! Edge.vertex2 edge);
  let midX := ((Vertex.x v1 + Vertex.x v2) / 2)%Q in
  let midY := ((Vertex.y v1 + Vertex.y v2) / 2)%Q in
  let dx := (midX - getBoardCenterX s)%Q in
  let dy := (midY - getBoardCenterY s)%Q in
  let angle := (js_atan2 dy dx + js_PI / 2)%Q in
  Ok (if Qltb angle 0 then (angle + 2 * js_PI)%Q else angle).

(** [Array.prototype.sort] with the comparator [a.angle - b.angle]:
    a stable sort by angle *)
Fixpoint insertByAngle (x : nat * Q) (l : list (nat * Q)) : list (nat * Q) :=
  match l with
  | [] => [x]
  | y :: l' => if Qltb x.2 y.2 then x :: y :: l' else y :: insertByAngle x l'
  end.
Definition sortByAngle (l : list (nat * Q)) : list (nat * Q) :=
  foldl (λ sorted x, insertByAngle x sorted) [] l.

(** [sortEdgesByPerimeterPosition] *)
Definition sortEdgesByPerimeterPosition (s : GameState) (edgeIds : list nat)
    : res (list nat) :=
  edgesWithPositions ←
    foldlR (λ acc edgeId, angle ← perimeterAngle s edgeId; Ok (acc ++ [(edgeId, angle)]))
           [] edgeIds;
  Ok ((sortByAngle edgesWithPositions).*1).

Definition allPortTypes : list PortType :=
  [ResourcePort Brick; ResourcePort Wood; ResourcePort Sheep; ResourcePort Wheat;
   ResourcePort Ore; Port31; Port31; Port31; Port31].

(** [assignPorts] *)
Definition assignPorts : M unit :=
  s ← getS;
  let borderEdges := findBorderEdges s in
  if (length borderEdges <? 9)%nat then warn (length borderEdges) else
  shuffledPortTypes ← shuffleM allPortTypes;
  sortedBorderEdges ← liftR (sortEdgesByPerimeterPosition s borderEdges);
  let portCount := 9%nat in
  let interval := (length sortedBorderEdges `div` portCount)%nat in
  let fixedPortEdges :=
    omap (λ i, sortedBorderEdges !! ((i * interval) `mod` length sortedBorderEdges)%nat)
         (seq 0 portCount) in
  forEach (zip fixedPortEdges shuffledPortTypes) (λ ep,
    s' ← getS;
    _ ← liftR (deref (edges s' !! ep.1));
    updateEdge ep.1 (Edge.set_port (Some ep.2))).

(* --------------------------------------------------------------------- *)
(** *** The renderer's vertex positions and [drawBoard] *)

(** [Math.round(v * 10) / 10] *)
Definition round10 (v : Q) : Q := (inject_Z (Qfloor (v * 10 + (1 # 2))) / 10)%Q.

Definition sameKey (k1 k2 : Q * Q) : bool := Qeq_bool k1.1 k2.1 && Qeq_bool k1.2 k2.2.

(** the [vertexPositions] map of [calculateVertexPositions], as the
    list of its entries in insertion order; an entry is
    [(key, (x, y))] and its [id] is its position *)
Definition cornerPositions (hexes : list Hex.t) : list (Q * Q * (Q * Q)) :=
  foldl (λ vertexPositions hex,
    foldl (λ vertexPositions i,
      let vx := cornerX hex i in
      let vy := cornerY hex i in
      let key := (round10 vx, round10 vy) in
      if existsb (λ entry : Q * Q * (Q * Q), sameKey entry.1 key) vertexPositions
      then vertexPositions
      else vertexPositions ++ [(key, (vx, vy))])
      vertexPositions (seq 0 6))
    [] hexes.

(** the comparator of the sort in [calculateVertexPositions] is
    negative *)
Definition positionBefore (a b : Q * Q) : bool :=
  if Qltb (Qabs (a.2 - b.2)) 1 then Qltb a.1 b.1 else Qltb a.2 b.2.

Fixpoint insertPosition (p : Q * Q) (l : list (Q * Q)) : list (Q * Q) :=
  match l with
  | [] => [p]
  | q :: l' => if positionBefore p q then p :: q :: l' else q :: insertPosition p l'
  end.

(** [GameRenderer.calculateVertexPositions]: the sorted positions are
    written to the first vertices of the engine's array *)
Definition calculateVertexPositions (hexes : list Hex.t) (vertices : list Vertex.t)
    : list Vertex.t :=
  let sortedVertices :=
    foldl (λ sorted p, insertPosition p sorted) [] ((cornerPositions hexes).*2) in
  foldl (λ vertices ip,
           alter (λ v, Vertex.mk (Vertex.id v) ip.2.1 ip.2.2
                                 (Vertex.building v) (Vertex.playerColor v))
                 ip.1 vertices)
        vertices (imap pair sortedVertices).

(** What [GameRenderer.drawBoard] does to the engine: [getState]
    copies the state object shallowly, so the renderer writes to the
    engine's own vertex and edge arrays. *)
Definition drawBoard : M unit :=
  s ← getS;
  modifyS (set_vertices (calculateVertexPositions (hexes s)));;
  s1 ← getS;
  modifyS (set_edges (connectEdgesToVertices (vertices s1)));;
  s2 ← getS;
  let hasPorts := existsb (λ e, bool_decide (Edge.port e ≠ None)) (edges s2) in
  if negb hasPorts then assignPorts else mret tt.

End Engine.

(* ===================================================================== *)
(** ** Queries of the engine and of the placement manager *)

(** What the menus offer: the strings ['settlement'], ['city'] and
    ['road'] of [getVertexPlacementOptions] and
    [getEdgePlacementOptions]. *)
Inductive PlacementOption := OfferSettlement | OfferCity | OfferRoad.

#[global] Instance PlacementOption_eq_dec : EqDecision PlacementOption.
Proof. solve_decision. Defined.

(** [getCurrentPlayer]: [players[currentPlayerIndex]], which may be
    [undefined] *)
Definition getCurrentPlayer (s : GameState) : option Player.t :=
  players s !! currentPlayerIndex s.

(** [isInitialPlacementPhase] *)
Definition isInitialPlacementPhase (e : Engine) : bool :=
  initialPlacementPhase (state e).

(** [checkInitialPlacementComplete]: the [for ... of] loop with its
    early return *)
Fixpoint allPlaced (e : Engine) (ps : list Player.t) : res bool :=
  match ps with
  | [] => Ok true
  | player :: rest =>
      placements ← deref (placementsOf e (Player.id player));
      if (p_settlements placements <? 2) || (p_roads placements <? 2)
      then Ok false else allPlaced e rest
  end.
Definition checkInitialPlacementComplete (e : Engine) : res bool :=
  allPlaced e (players (state e)).

(** [getVertexPlacementOptions] *)
Definition getVertexPlacementOptions (vertexId : nat) (e : Engine)
    : res (list PlacementOption) :=
  let s := state e in
  if inInitialPlacement e then
    currentPlayer ← deref (getCurrentPlayer s);
    ok ← canPlaceSettlement e vertexId (Player.id currentPlayer);
    Ok (if ok : bool then [OfferSettlement] else [])
  else
    vertex ← deref (vertices s !! vertexId);
    match Vertex.building vertex with
    | None =>
        currentPlayer ← deref (getCurrentPlayer s);
        if canAffordSettlement currentPlayer then
          far ← checkDistanceRule s vertexId;
          Ok (if far : bool then [OfferSettlement] else [])
        else Ok []
    | Some building =>
        if bool_decide (building = settlement) then
          currentPlayer ← deref (getCurrentPlayer s);
          if bool_decide (Vertex.playerColor vertex = Some (Player.color currentPlayer))
          then Ok (if canAffordCity currentPlayer then [OfferCity] else [])
          else Ok []
        else Ok []
    end.

(** [getEdgePlacementOptions]; [vertexId = None] is the omitted
    optional argument *)
Definition getEdgePlacementOptions (edgeId : nat) (vertexId : option nat)
    (e : Engine) : res (list PlacementOption) :=
  let s := state e in
  match (if inInitialPlacement e then vertexId else None) with
  | Some vid =>
      currentPlayer ← deref (getCurrentPlayer s);
      ok ← canPlaceRoad e edgeId (Player.id currentPlayer) vid;
      Ok (if ok : bool then [OfferRoad] else [])
  | None =>
      edge ← deref (edges s !! edgeId);
      if Edge.road edge is Some _ then Ok [] else
      currentPlayer ← deref (getCurrentPlayer s);
      if canAffordRoad currentPlayer then
        connected ← isRoadConnected s edgeId (Player.id currentPlayer);
        Ok (if connected : bool then [OfferRoad] else [])
      else Ok []
  end.

(* ===================================================================== *)
(** ** Exact stand-ins for the floating-point primitives

    Used to run the model on concrete boards.  [Math.sqrt(3)] is
    replaced by 7/4 and the corner directions by the matching exact
    values, so that corners shared by neighbouring hexes coincide
    exactly; [Math.sqrt] is the integer square root of the floor. *)

Definition exactCos (i : nat) : Q :=
  match i with
  | 0%nat | 3%nat => 0
  | 1%nat | 2%nat => 7 # 8
  | _ => - (7 # 8)
  end.

Definition exactSin (i : nat) : Q :=
  match i with
  | 0%nat => - (1)
  | 1%nat | 5%nat => - (1 # 2)
  | 2%nat | 4%nat => 1 # 2
  | _ => 1
  end.

Definition exactMath : JsMath := {|
  sqrt3 := 7 # 4;
  js_sqrt q := inject_Z (Z.sqrt (Qfloor q));
  cosCorner := exactCos;
  sinCorner := exactSin;
  js_atan2 dy dx := 0%Q;
  js_PI := 355 # 113
|}.

(* ===================================================================== *)

(* ===================================================================== *)
(** * Vocabulary of the properties

    What the statements below are written in: observations of the
    state, the commands and the reachable states, the control fields
    of the setup, and the states of a sample game. *)

(** ** Frames *)

(** [m] never changes the observation [f] of the engine, whether it
    returns or raises. *)
Definition preserves {A X} (f : Engine → X) (m : M A) : Prop :=
  ∀ e, f (m e).2 = f e.

(** ** The board *)

Definition robberCount (hexes : list Hex.t) : nat :=
  length (List.filter Hex.hasRobber hexes).

(** Invariants of the hex array. *)
Definition robberOnDesert (h : Hex.t) : Prop :=
  Hex.hasRobber h = bool_decide (Hex.resourceType h = Desert).

Definition tokenIfProductive (h : Hex.t) : Prop :=
  Hex.resourceType h ≠ Desert → Hex.numberToken h ≠ None.

Definition hexIdsArePositions (hexes : list Hex.t) : Prop :=
  ∀ i h, hexes !! i = Some h → Hex.id h = i.

Definition countDesert (l : list ResourceType) : nat :=
  length (filter (λ r, r = Desert) l).

Definition countProductive (l : list ResourceType) : nat :=
  length (filter (λ r, r ≠ Desert) l).

(** An edge is still the placeholder [createBoard] made, or joins two
    different vertices of an [n]-vertex board. *)
Definition placeholderOrProper (n : nat) (e : Edge.t) : Prop :=
  (Edge.vertex1 e = 0 ∧ Edge.vertex2 e = 0)%nat ∨
  (Edge.vertex1 e < Edge.vertex2 e < n)%nat.

(** the vertices of [vs] carry the ids [k], [k + 1], ... *)
Definition vertexIdsFrom (k : nat) (vs : list Vertex.t) : Prop :=
  ∀ i v, vs !! i = Some v → Vertex.id v = (k + i)%nat.

(** ** Commands and reachable states *)

(** The public operations of the engine, with the renderer's redraw. *)
Inductive Command :=
  | CmdDrawBoard
  | CmdRollDice
  | CmdBuildSettlement (vertexId playerId : nat)
  | CmdBuildCity (vertexId playerId : nat)
  | CmdBuildRoad (edgeId playerId : nat) (vertexId : option nat)
  | CmdMoveRobber (hexId : nat)
  | CmdEndTurn.

(** the engine after a command, whether it returned or raised *)
Definition execute `{JsMath} (c : Command) (e : Engine) : Engine :=
  match c with
  | CmdDrawBoard => (drawBoard e).2
  | CmdRollDice => (rollDice e).2
  | CmdBuildSettlement v p => (buildSettlement v p e).2
  | CmdBuildCity v p => (buildCity v p e).2
  | CmdBuildRoad ed p v => (buildRoad ed p v e).2
  | CmdMoveRobber h => (moveRobber h e).2
  | CmdEndTurn => (endTurn e).2
  end.

Inductive reachable `{JsMath} : Engine → Prop :=
  | reachable_new supply : reachable (newGameEngine supply)
  | reachable_step e c : reachable e → reachable (execute c e).

Definition isMoveRobber (c : Command) : bool :=
  match c with CmdMoveRobber _ => true | _ => false end.

Definition liftRobber (hex : Hex.t) : Hex.t :=
  if Hex.hasRobber hex then Hex.set_hasRobber false hex else hex.

(** the engine after a sequence of commands *)
Definition executeAll `{JsMath} (cs : list Command) (e : Engine) : Engine :=
  foldl (λ e c, execute c e) e cs.

(** ** Production *)

Definition sumZ (l : list Z) : Z := foldr Z.add 0 l.

(** the seat a building of colour [c] pays: the first player of that
    colour *)
Definition seatOf (colors : list PlayerColor) (c : PlayerColor) : option nat :=
  fst <$> list_find (λ c', c' = c) colors.

(** units of resource [r] that the building on [vertexId], if any, earns
    seat [i] when [hex] produces: 1 for a settlement and 2 for a city of
    that seat's colour, in the resource of the hex *)
Definition credit (vs : list Vertex.t) (colors : list PlayerColor) (hex : Hex.t)
    (i : nat) (r : ResourceType) (vertexId : nat) : Z :=
  match vs !! vertexId with
  | Some vertex =>
      match Vertex.building vertex, Vertex.playerColor vertex with
      | Some b, Some c =>
          if bool_decide (seatOf colors c = Some i) &&
             bool_decide (Hex.resourceType hex = r) &&
             bool_decide (r ≠ Desert)
          then match b with settlement => 1 | city => 2 end
          else 0
      | _, _ => 0
      end
  | None => 0
  end.

(** [s'] is [s] with resources added to the players' hands: seat [i]
    holds [Δ i r] more of [r]; nothing else differs. *)
Definition creditedBy (Δ : nat → ResourceType → Z) (s s' : GameState) : Prop :=
  ∃ ps', s' = set_players (λ _, ps') s ∧
    length ps' = length (players s) ∧
    ∀ i p, players s !! i = Some p →
      ∃ m, ps' !! i = Some (Player.set_resources (λ _, m) p) ∧
           ∀ r, getCount m r = getCount (Player.resources p) r + Δ i r.

Definition colorsOf (s : GameState) : list PlayerColor := Player.color <$> players s.

Definition withState (s : GameState) (e : Engine) : Engine :=
  mkEngine s (initialPlacement e) (rng e) (console e).

(** what a roll of [roll] earns seat [i] in resource [r] *)
Definition production `{JsMath} (s : GameState) (roll : nat) (i : nat) (r : ResourceType) : Z :=
  sumZ ((λ hex, sumZ (credit (vertices s) (colorsOf s) hex i r
                        <$> cornerVertices (vertices s) hex))
        <$> List.filter (producesOn roll) (hexes s)).

(** ** The setup *)

(** the number of hexes with a corner on [vertex] that carry the
    productive resource [r] *)
Definition incidentHexes `{JsMath} (s : GameState) (vertex : Vertex.t) (r : ResourceType) : Z :=
  Z.of_nat (length (List.filter
    (λ hex, hexTouches vertex hex && bool_decide (Hex.resourceType hex = r) &&
            bool_decide (r ≠ Desert))
    (hexes s))).

(** the engine right after the writes of [placeInitialSettlement] that
    precede the resource grant *)
Definition settled (vertexId playerId : nat) (color : PlayerColor) (e : Engine) : Engine :=
  mkEngine
    (set_players (alter (Player.set_victoryPoints (λ n, n + 1)) playerId)
      (set_players (alter (Player.set_settlements (λ n, n + 1)) playerId)
        (set_vertices (alter (Vertex.set_playerColor (Some color)) vertexId)
          (set_vertices (alter (Vertex.set_building (Some settlement)) vertexId)
            (state e)))))
    (alter bumpSettlements playerId <$> initialPlacement e) (rng e) (console e).

(** The fields that steer the setup: the phase flag, the round, the
    seat, and the manager's counters. *)
Record Control := mkControl {
  c_setup : bool;
  c_round : nat;
  c_seat : nat;
  c_placements : option (gmap nat Placements)
}.

Definition controlOf (e : Engine) : Control :=
  mkControl (initialPlacementPhase (state e)) (initialPlacementRound (state e))
            (currentPlayerIndex (state e)) (initialPlacement e).

(** What an accepted setup settlement of seat [p] requires of the
    control fields, and what it does to them. *)
Definition acceptSettlement (p : nat) (c : Control) : option Control :=
  if bool_decide (c_seat c ≠ p) then None else
  match c_placements c ≫= (.!! p) with
  | None => None
  | Some pl =>
      if (if bool_decide (c_round c = 1%nat)
          then 1 <=? p_settlements pl else 2 <=? p_settlements pl)
      then None
      else Some (mkControl (c_setup c) (c_round c) (c_seat c)
                           (alter bumpSettlements p <$> c_placements c))
  end.

(** [advanceToNextPlayer] on the control fields *)
Definition advanceControl (c : Control) : Control :=
  if bool_decide (c_round c = 1%nat) then
    if bool_decide (c_seat c = 3%nat)
    then mkControl (c_setup c) 2 (c_seat c) (c_placements c)
    else mkControl (c_setup c) (c_round c) ((c_seat c + 1) `mod` 4)%nat (c_placements c)
  else
    if bool_decide (c_seat c = 0%nat)
    then mkControl false (c_round c) 0 (c_placements c)
    else mkControl (c_setup c) (c_round c) ((c_seat c - 1 + 4) `mod` 4)%nat
                   (c_placements c).

(** the same for an accepted setup road, with the advance that
    [buildRoad] performs after it *)
Definition acceptRoad (p : nat) (c : Control) : option Control :=
  if bool_decide (c_seat c ≠ p) then None else
  match c_placements c ≫= (.!! p) with
  | None => None
  | Some pl =>
      if (if bool_decide (c_round c = 1%nat)
          then (p_settlements pl <? 1) || (1 <=? p_roads pl)
          else (p_settlements pl <? 2) || (2 <=? p_roads pl))
      then None
      else
        let c1 := mkControl (c_setup c) (c_round c) (c_seat c)
                            (alter bumpRoads p <$> c_placements c) in
        let status := default (mkPlacements 0 0) (c_placements c1 ≫= (.!! p)) in
        Some (if bool_decide (c_round c1 = 1%nat) then
                if (1 <=? p_settlements status) && (1 <=? p_roads status)
                then advanceControl c1 else c1
              else if bool_decide (c_round c1 = 2%nat) then
                if (2 <=? p_settlements status) && (2 <=? p_roads status)
                then advanceControl c1 else c1
              else c1)
  end.

(** A setup placement as the UI issues it. *)
Inductive SetupCommand :=
  | PlaceSettlement (vertexId playerId : nat)
  | PlaceRoad (edgeId playerId vertexId : nat).

(** [true] for a settlement, [false] for a road *)
Definition setupKind (c : SetupCommand) : bool :=
  match c with PlaceSettlement _ _ => true | PlaceRoad _ _ _ => false end.

Definition setupSeat (c : SetupCommand) : nat :=
  match c with PlaceSettlement _ p => p | PlaceRoad _ p _ => p end.

Definition runSetupCommand `{JsMath} (c : SetupCommand) : M bool :=
  match c with
  | PlaceSettlement v p => buildSettlement v p
  | PlaceRoad ed p v => buildRoad ed p (Some v)
  end.

(** the engine after a sequence of setup placements each of which is
    issued during initial placement and accepted; [None] if some
    command is rejected, raises, or comes after the setup has ended *)
Fixpoint runSetup `{JsMath} (cs : list SetupCommand) (e : Engine) : option Engine :=
  match cs with
  | [] => Some e
  | c :: cs' =>
      if inInitialPlacement e then
        match runSetupCommand c e with
        | (Ok true, e') => runSetup cs' e'
        | _ => None
        end
      else None
  end.

(** who places what, in order: round 1 forward, round 2 backward *)
Definition setupSchedule : list (bool * nat) :=
  [(true, 0); (false, 0); (true, 1); (false, 1); (true, 2); (false, 2);
   (true, 3); (false, 3); (true, 3); (false, 3); (true, 2); (false, 2);
   (true, 1); (false, 1); (true, 0); (false, 0)]%nat.

(** the control fields of a new engine *)
Definition startControl : Control :=
  mkControl true 1 0
    (Some (foldl (λ m i, <[i := mkPlacements 0 0]> m) ∅ [0; 1; 2; 3]%nat)).

Definition acceptCommand (kind : bool) (p : nat) (c : Control) : option Control :=
  if c_setup c && bool_decide (c_placements c ≠ None) then
    if kind then acceptSettlement p c else acceptRoad p c
  else None.

(** the control fields after [k] accepted placements *)
Fixpoint controlAt (k : nat) : Control :=
  match k with
  | O => startControl
  | S k' =>
      match setupSchedule !! k' with
      | Some (kind, p) => default (controlAt k') (acceptCommand kind p (controlAt k'))
      | None => controlAt k'
      end
  end.

(** ** Players and roads *)

(** Array positions of players are what ids refer to: every player's
    id, and the recorded holder of the longest road, is a position of
    the player array. *)
Definition playersWf (s : GameState) : Prop :=
  (∀ player, player ∈ players s → is_Some (players s !! Player.id player)) ∧
  (∀ h, longestRoadPlayer s = Some h → is_Some (players s !! h)).

(** what [updateLongestRoad] may write of a player: the victory points
    and the bonus flag *)
Definition playerBuilt (p : Player.t) : PlayerColor * gmap ResourceType Z * Z * Z * Z * nat :=
  (Player.color p, Player.resources p, Player.settlements p, Player.cities p,
   Player.roads p, Player.id p).

(** *** The longest-road bonus *)

(** what the scan of [updateLongestRoad] has established after the
    players [seen]: the accumulator holds the greatest length so far
    and a player who has it, the recorded holder whenever the holder
    has it and it is 5 or more *)
Definition scanned (s : GameState) (len : nat → Z) (seen : list Player.t)
    (acc : option nat * Z) : Prop :=
  0 ≤ acc.2 ∧
  (∀ p, p ∈ seen → len (Player.id p) ≤ acc.2) ∧
  (∀ n, acc.1 = Some n → (∃ p, p ∈ seen ∧ Player.id p = n) ∧ len n = acc.2) ∧
  (acc.1 = None → acc.2 = 0) ∧
  (∀ p, p ∈ seen → longestRoadPlayer s = Some (Player.id p) →
        len (Player.id p) = acc.2 → 5 ≤ acc.2 → acc.1 = Some (Player.id p)).

(** the writes of a lost and of a won bonus *)
Definition loseBonus (p : Player.t) : Player.t :=
  Player.set_hasLongestRoad false (Player.set_victoryPoints (λ v, v - 2) p).

Definition winBonus (p : Player.t) : Player.t :=
  Player.set_hasLongestRoad true (Player.set_victoryPoints (λ v, v + 2) p).

(** the state after the "remove from previous holder" step *)
Definition stripHolder (s : GameState) : GameState :=
  match longestRoadPlayer s with
  | Some h =>
      if bool_decide (Player.hasLongestRoad <$> players s !! h = Some true)
      then set_players (alter loseBonus h) s else s
  | None => s
  end.

(** *** The longest-road search *)

(** two edges have an endpoint in common *)
Definition sharesVertex (a b : Edge.t) : Prop :=
  Edge.vertex1 b = Edge.vertex1 a ∨ Edge.vertex2 b = Edge.vertex1 a ∨
  Edge.vertex1 b = Edge.vertex2 a ∨ Edge.vertex2 b = Edge.vertex2 a.

#[global] Instance sharesVertex_dec a b : Decision (sharesVertex a b).
Proof. unfold sharesVertex. apply _. Defined.

(** [es] lists the edges that carry a road of [color], each once, and
    every edge of the list has an endpoint in common with the next *)
Definition adjacentSequence (s : GameState) (color : PlayerColor) (es : list nat) : Prop :=
  NoDup es ∧
  (∀ i, i ∈ es ↔ ∃ edge, edges s !! i = Some edge ∧ Edge.road edge = Some color) ∧
  (∀ k a b ea eb, es !! k = Some a → es !! S k = Some b →
     edges s !! a = Some ea → edges s !! b = Some eb → sharesVertex ea eb).

(** the body of the inner loop of [findLongestPathFromEdge] *)
Definition continueThrough (depth' : nat) (s : GameState) (edgeId playerId : nat)
    (visited' : gset nat) (maxLength : Z) (nextEdgeId : nat) : res Z :=
  if negb (bool_decide (nextEdgeId = edgeId)) &&
     negb (bool_decide (nextEdgeId ∈ visited'))
  then
    nextEdge ← deref (edges s !! nextEdgeId);
    player ← deref (players s !! playerId);
    if bool_decide (Edge.road nextEdge = Some (Player.color player)) then
      sub ← findLongestPathFromEdge depth' s nextEdgeId playerId visited';
      Ok (Z.max maxLength (1 + sub))
    else Ok maxLength
  else Ok maxLength.

(** Modelled on the spec's words, for comparison with
    [calculateLongestRoad]: "the longest trail (a walk that never
    reuses an edge, but may revisit a vertex)" through edges the player
    owns.  [trailFrom] is the length of the longest trail that starts
    at vertex [v] and avoids the edges in [used]. *)
Fixpoint trailFrom (fuel : nat) (es : list Edge.t) (color : PlayerColor)
    (v : nat) (used : list nat) : Z :=
  match fuel with
  | O => 0
  | S fuel' =>
      foldl Z.max 0
        (omap (λ ie : nat * Edge.t,
                 if bool_decide (Edge.road ie.2 = Some color) &&
                    negb (bool_decide (ie.1 ∈ used))
                 then
                   if bool_decide (Edge.vertex1 ie.2 = v)
                   then Some (1 + trailFrom fuel' es color (Edge.vertex2 ie.2) (ie.1 :: used))
                   else if bool_decide (Edge.vertex2 ie.2 = v)
                   then Some (1 + trailFrom fuel' es color (Edge.vertex1 ie.2) (ie.1 :: used))
                   else None
                 else None)
              (imap pair es))
  end.

(** the longest trail of the player's colour, over all start vertices *)
Definition longestTrail (s : GameState) (playerId : nat) : option Z :=
  player ← players s !! playerId;
  Some (foldl Z.max 0
          ((λ v, trailFrom (S (length (edges s))) (edges s) (Player.color player) v [])
           <$> seq 0 (length (vertices s)))).

(** ** Observations of a game *)

(** the hands of the four seats, as brick, wood, sheep, wheat, ore *)
Definition hands (e : Engine) : list (list Z) :=
  (λ p, (λ r, getCount (Player.resources p) r) <$> productive) <$> players (state e).

(** the building on a vertex, and the road on an edge *)
Definition buildingAt (e : Engine) (v : nat) : option (Building * PlayerColor) :=
  vertex ← vertices (state e) !! v;
  b ← Vertex.building vertex; c ← Vertex.playerColor vertex; Some (b, c).

Definition roadAt (e : Engine) (ed : nat) : option PlayerColor :=
  edges (state e) !! ed ≫= Edge.road.

Definition seatPoints (e : Engine) (seat : nat) : option (Z * bool) :=
  (λ p, (Player.victoryPoints p, Player.hasLongestRoad p)) <$> players (state e) !! seat.

(** the owned edges of a colour, as pairs of endpoints *)
Definition roadsOf (e : Engine) (color : PlayerColor) : list (nat * nat) :=
  (λ e, (Edge.vertex1 e, Edge.vertex2 e))
    <$> List.filter (λ e, bool_decide (Edge.road e = Some color)) (edges (state e)).

(** ** Phases *)

(** the engine in another phase *)
Definition inPhase (ph : GamePhase) (e : Engine) : Engine :=
  withState (set_phase ph (state e)) e.

(** [m] never reads the phase: started in another phase it gives the
    same answer and, up to the phase, the same engine *)
Definition phaseBlind {A} (m : M A) : Prop :=
  ∀ ph e, (m (inPhase ph e)).1 = (m e).1 ∧
          ∃ ph', (m (inPhase ph e)).2 = inPhase ph' (m e).2.

(** [m] never enters the game-over phase *)
Definition neverEnds {A} (m : M A) : Prop :=
  ∀ e, phase (state (m e).2) = GameOver → phase (state e) = GameOver.

(** ** The accuracy of the floating-point primitives

    What the renderer's geometry needs of [Math.sqrt], [Math.cos] and
    [Math.sin]: values within [10^-7] of the real ones, and a square
    root between 48 and 72 for arguments next to [60 * 60]. *)

(** the cosine of the direction of corner [i], to ten digits; the
    sines are [exactSin] *)
Definition cornerCos (i : nat) : Q :=
  match i with
  | 0%nat | 3%nat => 0
  | 1%nat | 2%nat => 8660254038 # 10000000000
  | _ => - (8660254038 # 10000000000)
  end.

Definition tolerance : Q := 1 # 10000000.

Definition accurate `{JsMath} : Prop :=
  ((17320508 # 10000000) <= sqrt3)%Q ∧ (sqrt3 <= (17320509 # 10000000))%Q ∧
  (∀ i, (i < 6)%nat →
     (cornerCos i - tolerance <= cosCorner i)%Q ∧
     (cosCorner i <= cornerCos i + tolerance)%Q ∧
     (exactSin i - tolerance <= sinCorner i)%Q ∧
     (sinCorner i <= exactSin i + tolerance)%Q) ∧
  (∀ q, (3599 <= q)%Q → (q <= 3601)%Q → (48 < js_sqrt q)%Q ∧ (js_sqrt q < 72)%Q).

(** primitives that are accurate in this sense *)
Definition nearMath : JsMath := {|
  sqrt3 := 17320508 # 10000000;
  js_sqrt q := inject_Z (Z.sqrt (Qfloor q));
  cosCorner := cornerCos;
  sinCorner := exactSin;
  js_atan2 dy dx := 0%Q;
  js_PI := 355 # 113
|}.

(** the pixel position [createBoard] gives the hex of a layout cell *)
Definition cellPosition `{JsMath} (cell : nat * nat) : Q * Q :=
  (((inject_Z (Z.of_nat cell.2)
     + (if bool_decide ((cell.1 `mod` 2)%nat = 1%nat) then 1 # 2 else 0)) * hexWidth)%Q,
   (inject_Z (Z.of_nat cell.1) * hexHeight)%Q).

(** a rectangle [((xlo, xhi), (ylo, yhi))] of the plane, in
    millionths of a pixel *)
Definition grid : Q := 1000000.

Definition inBox (p : Q * Q) (b : Z * Z * (Z * Z)) : Prop :=
  (inject_Z b.1.1 <= p.1 * grid)%Q ∧ (p.1 * grid <= inject_Z b.1.2)%Q ∧
  (inject_Z b.2.1 <= p.2 * grid)%Q ∧ (p.2 * grid <= inject_Z b.2.2)%Q.

(** the rectangle in which accurate primitives put corner [i] of the
    hex of a layout cell *)
Definition cornerBox (cell : nat * nat) (i : nat) : Z * Z * (Z * Z) :=
  let k := (inject_Z (Z.of_nat cell.2)
            + (if bool_decide ((cell.1 `mod` 2)%nat = 1%nat) then 1 # 2 else 0))%Q in
  let y := (inject_Z (Z.of_nat cell.1) * (hexSize * (3 # 2)))%Q in
  ((Qfloor ((k * (hexSize * (17320508 # 10000000))
             + hexSize * (cornerCos i - tolerance)) * grid),
    Qceiling ((k * (hexSize * (17320509 # 10000000))
               + hexSize * (cornerCos i + tolerance)) * grid)),
   (Qfloor ((y + hexSize * (exactSin i - tolerance)) * grid),
    Qceiling ((y + hexSize * (exactSin i + tolerance)) * grid))).

Definition layoutBoxes : list (Z * Z * (Z * Z)) :=
  flat_map (λ cell, cornerBox cell <$> seq 0 6) layoutCells.

(** [Math.round(v * 10)] for [v] on the grid *)
Definition gridKey (z : Z) : Z := (10 * z + 500000) `div` 1000000.

Definition boxKey (b : Z * Z * (Z * Z)) : Z * Z := (gridKey b.1.1, gridKey b.2.1).

(** every point of the rectangle has the same key *)
Definition robust (b : Z * Z * (Z * Z)) : bool :=
  (gridKey b.1.1 =? gridKey b.1.2) && (gridKey b.2.1 =? gridKey b.2.2).

(** the rectangles with a new key, in order *)
Definition noteBox (acc : list (Z * Z * (Z * Z))) (b : Z * Z * (Z * Z))
    : list (Z * Z * (Z * Z)) :=
  if existsb (λ b', bool_decide (boxKey b' = boxKey b)) acc then acc else acc ++ [b].

Definition distinctBoxes (bs : list (Z * Z * (Z * Z))) : list (Z * Z * (Z * Z)) :=
  foldl noteBox [] bs.

(** bounds of [d * d] for [lo <= d <= hi] *)
Definition squareBounds (lo hi : Z) : Z * Z :=
  let least := if 0 <=? lo then lo else if hi <=? 0 then - hi else 0 in
  let most := if - lo <=? hi then hi else - lo in
  (least * least, most * most).

(** every point of [b] is at a squared distance between 3599 and
    3601 of every point of [a] *)
Definition boxNear (a b : Z * Z * (Z * Z)) : bool :=
  let dx := squareBounds (b.1.1 - a.1.2) (b.1.2 - a.1.1) in
  let dy := squareBounds (b.2.1 - a.2.2) (b.2.2 - a.2.1) in
  (3599000000000000 <=? dx.1 + dy.1) && (dx.2 + dy.2 <=? 3601000000000000).

Definition boxAdjacent (a b : Z * Z * (Z * Z)) : bool := boxNear a b && boxNear b a.

Definition countIf {A} (f : A → bool) (l : list A) : nat := length (List.filter f l).

(** the number of pairs of an earlier and a later element that [f]
    accepts *)
Fixpoint countPairs {A} (f : A → A → bool) (l : list A) : nat :=
  match l with
  | [] => 0
  | a :: rest => countIf (f a) rest + countPairs f rest
  end.

(** the rectangles of the 54 corners of the layout *)
Definition cornerSpots : list (Z * Z * (Z * Z)) :=
  Eval vm_compute in distinctBoxes layoutBoxes.

(** the test of [connectEdgesToVertices] on a pair of vertices *)
Definition closeTo `{JsMath} (v1 v2 : Vertex.t) : bool :=
  let d := distance (Vertex.x v2) (Vertex.y v2) (Vertex.x v1) (Vertex.y v1) in
  Qltb (hexSize * (8 # 10)) d && Qltb d (hexSize * (12 # 10)).

(** the edges before [k] join two different vertices below [n] *)
Definition filledTo (n k : nat) (es : list Edge.t) : Prop :=
  ∀ j edge, (j < k)%nat → es !! j = Some edge →
    (Edge.vertex1 edge < Edge.vertex2 edge < n)%nat.

(** the six corners of a hex, in the order [calculateVertexPositions]
    visits them *)
Definition hexCorners `{JsMath} (hex : Hex.t) : list (Q * Q) :=
  (λ i, (cornerX hex i, cornerY hex i)) <$> seq 0 6.

(** the body of the inner loop of [calculateVertexPositions] *)
Definition noteCorner (vertexPositions : list (Q * Q * (Q * Q))) (p : Q * Q)
    : list (Q * Q * (Q * Q)) :=
  let key := (round10 p.1, round10 p.2) in
  if existsb (λ entry : Q * Q * (Q * Q), sameKey entry.1 key) vertexPositions
  then vertexPositions
  else vertexPositions ++ [(key, p)].

(** an entry of the map of corners lies in a rectangle all of whose
    points have its key *)
Definition entryInBox (entry : Q * Q * (Q * Q)) (b : Z * Z * (Z * Z)) : Prop :=
  entry.1 = (round10 entry.2.1, round10 entry.2.2) ∧ inBox entry.2 b ∧ robust b = true.

Definition vertexInBox (v : Vertex.t) (b : Z * Z * (Z * Z)) : Prop :=
  inBox (Vertex.x v, Vertex.y v) b.

(** the two endpoints of an edge *)
Definition edgeEnds (e : Edge.t) : nat * nat := (Edge.vertex1 e, Edge.vertex2 e).

(** ** Further observations

    What the properties beyond the board, the setup and the roads are
    written in. *)

(** [m] never answers [false] *)
Definition neverFalse (m : M bool) : Prop := ∀ e, (m e).1 ≠ Ok false.
(** when [m] answers [false] it has changed nothing *)
Definition quiet (m : M bool) : Prop := ∀ e, (m e).1 = Ok false → (m e).2 = e.

(** [edge] joins [v] to [w] *)
Definition joins (edge : Edge.t) (v w : nat) : Prop :=
  (Edge.vertex1 edge = v ∧ Edge.vertex2 edge = w) ∨
  (Edge.vertex2 edge = v ∧ Edge.vertex1 edge = w).

(** the number of cards of [r] in a list of cards *)
Definition cardCount (r : ResourceType) (l : list ResourceType) : Z :=
  Z.of_nat (length (filter (λ x, x = r) l)).

(** the cards of [r] that the hands and the bank hold together *)
Definition inPlay (s : GameState) (r : ResourceType) : Z :=
  sumZ ((λ p, getCount (Player.resources p) r) <$> players s) + getCount (bank s) r.

(** [p'] is [p] after its discard: only the hand differs, no count
    has grown or gone below zero, and a hand of more than 7 cards has
    lost half of them, rounded down *)
Definition discarded (p p' : Player.t) : Prop :=
  p' = Player.set_resources (λ _, Player.resources p') p ∧
  (∀ r, 0 ≤ getCount (Player.resources p') r ≤ getCount (Player.resources p) r) ∧
  totalCards (Player.resources p')
  = if 7 <? totalCards (Player.resources p)
    then totalCards (Player.resources p) - totalCards (Player.resources p) `div` 2
    else totalCards (Player.resources p).

(** what identifies a vertex and an edge to the game, as opposed to
    where the renderer has put them *)
Definition vertexOwner (v : Vertex.t) : nat * option Building * option PlayerColor :=
  (Vertex.id v, Vertex.building v, Vertex.playerColor v).

Definition edgeOwner (e : Edge.t) : nat * option PlayerColor :=
  (Edge.id e, Edge.road e).

(** an edge without its port *)
Definition edgeLine (e : Edge.t) : nat * nat * nat * option PlayerColor :=
  (Edge.id e, Edge.vertex1 e, Edge.vertex2 e, Edge.road e).

(** the number of edges that carry a road of [color] *)
Definition roadCount (s : GameState) (color : PlayerColor) : nat :=
  length (List.filter (λ e, bool_decide (Edge.road e = Some color)) (edges s)).

(** [es] is a chain of roads of [color]: edges of that colour, each
    once, every one with an end in common with the next *)
Definition roadChain (s : GameState) (color : PlayerColor) (es : list nat) : Prop :=
  NoDup es ∧
  (∀ i, i ∈ es → ∃ edge, edges s !! i = Some edge ∧ Edge.road edge = Some color) ∧
  (∀ k a b ea eb, es !! k = Some a → es !! S k = Some b →
     edges s !! a = Some ea → edges s !! b = Some eb → sharesVertex ea eb).

(** the books of a player balance: the victory points are those of
    the settlements, the cities and the longest-road bonus, and no
    count of the hand is negative *)
Definition accounted (p : Player.t) : Prop :=
  Player.victoryPoints p
  = Player.settlements p + 2 * Player.cities p + (if Player.hasLongestRoad p then 2 else 0) ∧
  ∀ r, 0 ≤ getCount (Player.resources p) r.

(** every player is accounted for, and only the recorded holder of
    the longest road carries its flag *)
Definition sound (s : GameState) : Prop :=
  ∀ i p, players s !! i = Some p →
    accounted p ∧ (Player.hasLongestRoad p = true → longestRoadPlayer s = Some i).

(** [m] keeps the invariant, whether it returns or raises *)
Definition keeps {A} (m : M A) : Prop :=
  ∀ e, sound (state e) → sound (state (m e).2).

(** what [createBoard] deals to a hex *)
Definition hexTile (h : Hex.t) : nat * Q * Q * ResourceType * option nat :=
  (Hex.id h, Hex.x h, Hex.y h, Hex.resourceType h, Hex.numberToken h).

(** who sits where, the tiles, and the ids of the vertices and edges *)
Definition shape (e : Engine) :=
  (Player.id <$> players (state e), Player.color <$> players (state e),
   hexTile <$> hexes (state e), Vertex.id <$> vertices (state e),
   Edge.id <$> edges (state e)).

(** every building of [e] is still there in [e'], in the same colour,
    as it was or as a city, and every road of [e] is still there in
    the same colour *)
Definition piecesKept (e e' : Engine) : Prop :=
  (∀ i vertex b,
     vertices (state e) !! i = Some vertex → Vertex.building vertex = Some b →
     ∃ vertex', vertices (state e') !! i = Some vertex' ∧
       Vertex.playerColor vertex' = Vertex.playerColor vertex ∧
       (Vertex.building vertex' = Some b ∨ Vertex.building vertex' = Some city)) ∧
  (∀ j edge c,
     edges (state e) !! j = Some edge → Edge.road edge = Some c →
     ∃ edge', edges (state e') !! j = Some edge' ∧ Edge.road edge' = Some c).

(** ** A sample game

    One game, run with the exact stand-ins, supplies the concrete
    states of the examples.  Each state is stored in evaluated form;
    the lemmas [sampleNew_eq], [sampleDrawn_eq], [setupHalf_run], ...
    tie it to the commands that produce it. *)

Section SampleStates.
#[local] Existing Instance exactMath.

(** The dice of the game, in the order rolled. *)
Definition sampleDice : list (nat * nat) :=
  [(1, 2); (2, 3); (2, 3); (3, 5);
   (5, 6); (4, 5); (4, 5); (4, 5); (5, 6); (3, 3); (4, 5); (1, 1); (2, 3); (3, 3); (4, 5);
   (1, 1); (2, 3); (3, 3); (4, 5); (1, 1); (5, 6); (2, 3); (3, 3); (4, 5);
   (2, 3)]%nat.

(** The random supply: 43 zeros for the three shuffles of board
    creation and port assignment, then, for each die, its face less
    one. *)
Definition sampleSupply : list nat :=
  replicate 43 0%nat ++ mjoin ((λ d, [d.1 - 1; d.2 - 1]%nat) <$> sampleDice).

(** the new engine *)
Definition sampleNew : Engine := Eval vm_compute in newGameEngine sampleSupply.

(** the board drawn: vertices positioned, edges connected, ports
    assigned *)
Definition sampleDrawn : Engine := Eval vm_compute in execute CmdDrawBoard sampleNew.

(** the sixteen setup placements *)
Definition setupMoves : list SetupCommand :=
  [PlaceSettlement 17 0; PlaceRoad 19 0 17; PlaceSettlement 19 1; PlaceRoad 29 1 19;
   PlaceSettlement 28 2; PlaceRoad 40 2 28; PlaceSettlement 30 3; PlaceRoad 44 3 30;
   PlaceSettlement 10 3; PlaceRoad 16 3 10; PlaceSettlement 39 2; PlaceRoad 55 2 39;
   PlaceSettlement 41 1; PlaceRoad 52 1 41; PlaceSettlement 8 0; PlaceRoad 12 0 8]%nat.

(** after round 1 *)
Definition setupHalf : Engine :=
  Eval vm_compute in default sampleDrawn (runSetup (take 8 setupMoves) sampleDrawn).

(** after round 2 *)
Definition setupDone : Engine :=
  Eval vm_compute in default setupHalf (runSetup (drop 8 setupMoves) setupHalf).

(** three rolls (3, 5, 5): seat 2 is in its main phase; seat 0 (red)
    has settlements on vertices 17 and 8, roads on edges 19 and 12,
    four brick and five wood *)
Definition roadGame : Engine :=
  Eval vm_compute in
    executeAll [CmdRollDice; CmdEndTurn; CmdRollDice; CmdEndTurn; CmdRollDice] setupDone.

(** seat 3 is to roll; the dice will show 3 and 5 *)
Definition sheepGame : Engine := Eval vm_compute in execute CmdEndTurn roadGame.

(** seat 3 has rolled the 8 *)
Definition sheepRolled : Engine := Eval vm_compute in execute CmdRollDice sheepGame.

(** [roadGame] after seat 0 has built the roads 26, 35 and 43: with
    roads 12 and 19 they form the chain 8-12-17-23-29-35 *)
Definition bonusGame : Engine :=
  Eval vm_compute in
    executeAll [CmdBuildRoad 26 0 None; CmdBuildRoad 35 0 None; CmdBuildRoad 43 0 None]
               roadGame.

(** [roadGame] after seat 0 has built the roads 26 and 35, with its
    road written on edge 43 and the scoring still to run *)
Definition fifthRoadLaid : Engine :=
  Eval vm_compute in
    let before := executeAll [CmdBuildRoad 26 0 None; CmdBuildRoad 35 0 None] roadGame in
    withState (set_edges (alter (Edge.set_road (Some Red)) 43%nat) (state before)) before.

(** [roadGame] after seat 0 has built the roads 7, 25 and 11: with
    roads 12 and 19 its network is a "Y" around vertex 12, with the
    branches 12-8-4, 12-17-22 and 12-7 *)
Definition forkGame : Engine :=
  Eval vm_compute in
    executeAll [CmdBuildRoad 7 0 None; CmdBuildRoad 25 0 None; CmdBuildRoad 11 0 None]
               roadGame.

(** Twenty more turns.  Seat 1 (blue) upgrades its settlements on
    vertices 19 and 41 and builds on vertices 0, 1, 2, 50 and 51, all
    of it while other seats are current.  At the end seat 0 is to
    roll, and seat 1 has 9 victory points and three or more of every
    resource. *)
Definition turn : list Command := [CmdEndTurn; CmdRollDice].
Definition longGame : list Command :=
  turn ++ turn ++ turn ++ [CmdBuildCity 19 1] ++
  turn ++ turn ++ [CmdBuildCity 41 1] ++
  turn ++ turn ++ [CmdBuildSettlement 0 1] ++
  turn ++ [CmdBuildSettlement 1 1] ++
  turn ++ turn ++ turn ++ [CmdBuildSettlement 2 1] ++
  turn ++ [CmdBuildSettlement 50 1] ++
  turn ++ turn ++ turn ++ [CmdBuildSettlement 51 1] ++
  turn ++ turn ++ turn ++ turn ++ turn ++ [CmdEndTurn].

Definition idleGame : Engine := Eval vm_compute in executeAll longGame sheepRolled.

(** seat 1 builds its tenth point *)
Definition wonGame : Engine :=
  Eval vm_compute in execute (CmdBuildSettlement 52 1) idleGame.

(** seat 0 rolls and ends its turn: seat 1 is current *)
Definition overGame : Engine :=
  Eval vm_compute in executeAll [CmdRollDice; CmdEndTurn] wonGame.

(** the drawn board of the sample game, without its ports *)
Definition samplePortless : Engine :=
  withState (set_edges (fmap (Edge.set_port None)) (state sampleDrawn)) sampleDrawn.

End SampleStates.

(** * Properties *)

(** ** Reasoning about the engine monad *)

Lemma bind_Ok {A B} (m : M A) (k : A → M B) e a e1 :
  m e = (Ok a, e1) → (m ≫= k) e = k a e1.
Proof. intros Hm. unfold mbind, M_bind. by rewrite Hm. Qed.

Lemma bind_Throw {A B} (m : M A) (k : A → M B) e err e1 :
  m e = (Throw err, e1) → (m ≫= k) e = (Throw err, e1).
Proof. intros Hm. unfold mbind, M_bind. by rewrite Hm. Qed.

Lemma bind_inv_Ok {A B} (m : M A) (k : A → M B) e b e2 :
  (m ≫= k) e = (Ok b, e2) → ∃ a e1, m e = (Ok a, e1) ∧ k a e1 = (Ok b, e2).
Proof.
  unfold mbind, M_bind. destruct (m e) as [[a|err] e1]; [eauto | discriminate].
Qed.

Lemma preserves_ret {A X} (f : Engine → X) (a : A) : preserves f (mret a).
Proof. done. Qed.

Lemma preserves_bind {A B X} (f : Engine → X) (m : M A) (k : A → M B) :
  preserves f m → (∀ a, preserves f (k a)) → preserves f (m ≫= k).
Proof.
  intros Hm Hk e. unfold mbind, M_bind. specialize (Hm e).
  destruct (m e) as [[a|err] e1]; simpl in *; [|done].
  by rewrite Hk.
Qed.

Lemma preserves_forEach {A X} (f : Engine → X) (l : list A) (body : A → M unit) :
  (∀ a, preserves f (body a)) → preserves f (forEach l body).
Proof.
  intros Hb. induction l as [|a l IH]; simpl; [done|].
  apply preserves_bind; auto.
Qed.

Lemma preserves_liftR {A X} (f : Engine → X) (r : res A) : preserves f (liftR r).
Proof. done. Qed.
Lemma preserves_liftS {A X} (f : Engine → X) (g : GameState → res A) :
  preserves f (liftS g).
Proof. done. Qed.
Lemma preserves_getS {X} (f : Engine → X) : preserves f getS.
Proof. done. Qed.
Lemma preserves_throw {A X} (f : Engine → X) err : preserves f (@throw A err).
Proof. done. Qed.

Lemma preserves_if {A X} (f : Engine → X) (b : bool) (m1 m2 : M A) :
  preserves f m1 → preserves f m2 → preserves f (if b then m1 else m2).
Proof. by destruct b. Qed.

Lemma forEach_app {A} (l1 l2 : list A) (body : A → M unit) e :
  forEach (l1 ++ l2) body e = (forEach l1 body ;; forEach l2 body) e.
Proof.
  revert e. induction l1 as [|a l1 IH]; intros e; simpl.
  - done.
  - unfold mbind, M_bind in *. destruct (body a e) as [[[]|err] e1]; [|done].
    apply IH.
Qed.

(** ** Shuffling *)

Lemma swap_Permutation {A} (i j : nat) (l : list A) : swap i j l ≡ₚ l.
Proof.
  unfold swap. destruct (l !! i) as [a|] eqn:Hi; [|done].
  destruct (l !! j) as [b|] eqn:Hj; [|done].
  by apply Permutation_insert_swap.
Qed.

Lemma shuffleFrom_Permutation {A} (i : nat) (l : list A) (supply : list nat) :
  (shuffleFrom i l supply).1 ≡ₚ l.
Proof.
  revert l supply. induction i as [|i IH]; intros l supply; simpl; [done|].
  destruct (draw (S (S i)) supply) as [j supply'].
  rewrite IH. apply swap_Permutation.
Qed.

Lemma shuffleArray_Permutation {A} (l : list A) (supply : list nat) :
  (shuffleArray l supply).1 ≡ₚ l.
Proof. apply shuffleFrom_Permutation. Qed.

Lemma shuffleArray_length {A} (l : list A) (supply : list nat) :
  length (shuffleArray l supply).1 = length l.
Proof. apply Permutation_length, shuffleArray_Permutation. Qed.

(** ** Board creation *)

Lemma robberCount_app hs1 hs2 :
  robberCount (hs1 ++ hs2) = (robberCount hs1 + robberCount hs2)%nat.
Proof. unfold robberCount. by rewrite List.filter_app, length_app. Qed.

Section PlaceHex.
Context `{JsMath}.
Variable nums : list nat.

Lemma placeHex_fold_length cells acc :
  length (foldl (placeHex nums) acc cells).1 = (length acc.1 + length cells)%nat.
Proof.
  revert acc. induction cells as [|[[row col] r] cells IH]; intros [hs k]; simpl.
  - lia.
  - rewrite IH. simpl. rewrite length_app. simpl. lia.
Qed.

Lemma placeHex_fold_robber cells acc :
  robberCount (foldl (placeHex nums) acc cells).1
  = (robberCount acc.1 + countDesert cells.*2)%nat.
Proof.
  revert acc. induction cells as [|[[row col] r] cells IH]; intros [hs k]; simpl.
  - unfold countDesert. simpl. lia.
  - rewrite IH. cbn [fst snd]. rewrite robberCount_app.
    change (list_fmap _ _ snd cells) with (cells.*2).
    unfold countDesert. rewrite filter_cons.
    unfold robberCount at 2. cbn [List.filter Hex.hasRobber snd].
    case_bool_decide; case_decide; try done; cbn [length]; lia.
Qed.

Lemma placeHex_fold_ids cells acc :
  hexIdsArePositions acc.1 →
  hexIdsArePositions (foldl (placeHex nums) acc cells).1.
Proof.
  revert acc. induction cells as [|[[row col] r] cells IH]; intros [hs k] Hids; simpl.
  - done.
  - apply IH. simpl. intros i h Hi.
    destruct (decide (i < length hs)%nat) as [Hlt|Hge].
    + rewrite lookup_app_l in Hi by done. by apply Hids.
    + rewrite lookup_app_r in Hi by lia.
      destruct (i - length hs)%nat eqn:Hd; simpl in Hi; [|done].
      inversion Hi; subst; simpl. lia.
Qed.

Lemma placeHex_fold_tokens cells acc :
  (acc.2 + countProductive cells.*2 ≤ length nums)%nat →
  Forall tokenIfProductive acc.1 →
  Forall tokenIfProductive (foldl (placeHex nums) acc cells).1.
Proof.
  revert acc. induction cells as [|[[row col] r] cells IH]; intros [hs k] Hk Hall.
  - done.
  - rewrite fmap_cons in Hk. unfold countProductive in Hk.
    rewrite filter_cons in Hk. fold (countProductive cells.*2) in Hk.
    cbn [fst snd] in Hk, Hall. cbn [foldl]. apply IH; cbn [placeHex fst snd].
    + unfold countProductive.
      case_bool_decide; case_decide; cbn [length] in *; try done; lia.
    + apply Forall_app_2; [done|]. constructor; [|done].
      unfold tokenIfProductive; cbn. intros Hr.
      rewrite bool_decide_eq_false_2 by done.
      rewrite decide_True in Hk by done. cbn [length] in Hk.
      intros Hnone. apply lookup_ge_None in Hnone. lia.
Qed.

End PlaceHex.

Lemma countDesert_boardResources : countDesert boardResources = 1%nat.
Proof. reflexivity. Qed.
Lemma countProductive_boardResources : countProductive boardResources = 18%nat.
Proof. reflexivity. Qed.

(** The two lists [createBoard] pairs cell by cell have the same length. *)
Lemma createBoard_resources_length supply :
  length (shuffleArray boardResources supply).1 = length layoutCells.
Proof. by rewrite shuffleArray_length. Qed.

Section CreateBoard.
Context `{JsMath}.

Lemma createBoard_hexes supply :
  let hexes := (createBoard supply).1.1.1 in
  length hexes = 19%nat ∧ robberCount hexes = 1%nat ∧
  hexIdsArePositions hexes ∧ Forall tokenIfProductive hexes.
Proof.
  unfold createBoard.
  pose proof (shuffleArray_Permutation boardResources supply) as Hperm.
  pose proof (shuffleArray_length boardResources supply) as Hlen.
  destruct (shuffleArray boardResources supply) as [shuffledResources supply1].
  pose proof (shuffleArray_length NUMBER_TOKENS supply1) as Hlen2.
  destruct (shuffleArray NUMBER_TOKENS supply1) as [shuffledNumbers supply2].
  cbn [fst snd] in *.
  assert (Hsnd : (zip layoutCells shuffledResources).*2 = shuffledResources).
  { apply snd_zip. rewrite Hlen. cbn. lia. }
  repeat split.
  - rewrite placeHex_fold_length, length_zip, Hlen. reflexivity.
  - rewrite placeHex_fold_robber, Hsnd. cbn [fst]. unfold countDesert.
    rewrite Hperm. reflexivity.
  - apply placeHex_fold_ids. by intros i h Hi.
  - apply placeHex_fold_tokens; [|constructor]. cbn [fst snd].
    rewrite Hsnd. unfold countProductive. rewrite Hperm, Hlen2.
    change (0 + 18 ≤ 18)%nat. lia.
Qed.

Lemma createBoard_vertices supply :
  (createBoard supply).1.1.2 = (λ i, Vertex.mk i 0 0 None None) <$> seq 0 54.
Proof.
  unfold createBoard.
  destruct (shuffleArray boardResources supply) as [? supply1].
  by destruct (shuffleArray NUMBER_TOKENS supply1).
Qed.

Lemma createBoard_edges supply :
  (createBoard supply).1.2 = (λ i, Edge.mk i 0 0 None None) <$> seq 0 72.
Proof.
  unfold createBoard.
  destruct (shuffleArray boardResources supply) as [? supply1].
  by destruct (shuffleArray NUMBER_TOKENS supply1).
Qed.

End CreateBoard.

(** ** Edge connection (C9) *)

Section Connect.
Context `{JsMath}.

Lemma connectPair_length v1 acc v2 :
  length (connectPair v1 acc v2).1 = length acc.1.
Proof.
  unfold connectPair. repeat case_match; simpl; by rewrite ?length_alter.
Qed.

Lemma connectPair_proper n v1 acc v2 :
  (Vertex.id v1 < Vertex.id v2 < n)%nat →
  Forall (placeholderOrProper n) acc.1 →
  Forall (placeholderOrProper n) (connectPair v1 acc v2).1.
Proof.
  intros Hid Hall. unfold connectPair. repeat case_match; simpl; try done.
  apply Forall_alter; [done|]. intros e _ _. by right.
Qed.

Lemma connectInner_spec n v1 rest acc :
  Forall (λ v2, Vertex.id v1 < Vertex.id v2 < n)%nat rest →
  Forall (placeholderOrProper n) acc.1 →
  length (foldl (connectPair v1) acc rest).1 = length acc.1 ∧
  Forall (placeholderOrProper n) (foldl (connectPair v1) acc rest).1.
Proof.
  revert acc. induction rest as [|v2 rest IH]; intros acc Hids Hall; simpl; [done|].
  inversion Hids; subst.
  destruct (IH (connectPair v1 acc v2)) as [Hlen Hres];
    [done | by apply connectPair_proper |].
  by rewrite Hlen, connectPair_length.
Qed.

Lemma connectFrom_spec k vs acc :
  vertexIdsFrom k vs →
  Forall (placeholderOrProper (k + length vs)) acc.1 →
  length (connectFrom vs acc).1 = length acc.1 ∧
  Forall (placeholderOrProper (k + length vs)) (connectFrom vs acc).1.
Proof.
  revert k acc. induction vs as [|v1 rest IH]; intros k acc Hids Hall; simpl; [done|].
  assert (Hrest : vertexIdsFrom (S k) rest).
  { intros i v Hi. rewrite (Hids (S i) v Hi). lia. }
  assert (Hv1 : Vertex.id v1 = k).
  { rewrite (Hids 0%nat v1 eq_refl). lia. }
  destruct (connectInner_spec (k + S (length rest)) v1 rest acc) as [Hlen Hin]; [|done|].
  { apply Forall_lookup. intros i v2 Hi. rewrite (Hrest i v2 Hi), Hv1.
    apply lookup_lt_Some in Hi. lia. }
  replace (k + S (length rest))%nat with (S k + length rest)%nat in * by lia.
  destruct (IH (S k) (foldl (connectPair v1) acc rest) Hrest Hin) as [Hlen' Hall'].
  by rewrite Hlen', Hlen.
Qed.

(** [connectEdgesToVertices] keeps the number of edges, and every edge
    it leaves is a placeholder or joins two different vertices. *)
Lemma connectEdgesToVertices_spec vs es :
  vertexIdsFrom 0 vs →
  Forall (placeholderOrProper (length vs)) es →
  length (connectEdgesToVertices vs es) = length es ∧
  Forall (placeholderOrProper (length vs)) (connectEdgesToVertices vs es).
Proof. intros Hids Hall. by apply (connectFrom_spec 0 vs (es, 0%nat)). Qed.

Lemma calculateVertexPositions_ids hs vs :
  Vertex.id <$> calculateVertexPositions hs vs = Vertex.id <$> vs.
Proof.
  unfold calculateVertexPositions.
  generalize (imap pair (foldl (λ sorted p, insertPosition p sorted) []
                               ((cornerPositions hs).*2))).
  intros ps. revert vs. induction ps as [|[i p] ps IH]; intros vs; simpl; [done|].
  rewrite IH. apply list_eq. intros j.
  rewrite !list_lookup_fmap, list_lookup_alter.
  case_decide; [|done]. subst. by destruct (vs !! _).
Qed.

Lemma vertexIdsFrom_fmap vs n :
  Vertex.id <$> vs = seq 0 n → vertexIdsFrom 0 vs ∧ length vs = n.
Proof.
  intros Hids. split.
  - intros i v Hi.
    assert ((Vertex.id <$> vs) !! i = Some (Vertex.id v)) as Hl
      by (by rewrite list_lookup_fmap, Hi).
    rewrite Hids in Hl. apply lookup_seq in Hl. lia.
  - by rewrite <- (length_fmap Vertex.id), Hids, length_seq.
Qed.

End Connect.

(** ** Ports (C8) *)

(** C8, as the code has it.  With fewer than 9 eligible border edges
    [assignPorts] writes one warning to the console and returns
    normally: no error is raised, no port is assigned, and the game
    state, the placement manager and the random supply are exactly as
    before. *)
Theorem assignPorts_too_few_border_edges `{JsMath} (e : Engine) :
  (length (findBorderEdges (state e)) < 9)%nat →
  assignPorts e =
    (Ok tt, mkEngine (state e) (initialPlacement e) (rng e)
                     (console e ++ [length (findBorderEdges (state e))])).
Proof.
  intros Hfew. unfold assignPorts.
  unfold mbind, M_bind, getS. cbn beta iota.
  apply Nat.ltb_lt in Hfew. by rewrite Hfew.
Qed.


(** ** Frame lemmas: what a command leaves alone *)

Lemma preserves_modifyS {X} (obs : GameState → X) (f : GameState → GameState) :
  (∀ s, obs (f s) = obs s) → preserves (λ e, obs (state e)) (modifyS f).
Proof. intros Hf e. apply Hf. Qed.

(** computations that do not write the game state at all *)
Lemma preserves_state_only {A X} (obs : GameState → X) (m : M A) :
  (∀ e, state (m e).2 = state e) → preserves (λ e, obs (state e)) m.
Proof. intros Hm e. simpl. by rewrite Hm. Qed.

Lemma preserves_case {A X} (f : Engine → X) (c : Engine → bool) (m1 m2 : M A) :
  preserves f m1 → preserves f m2 →
  preserves f (λ e, if c e then m1 e else m2 e).
Proof. intros H1 H2 e. destruct (c e); [apply H1 | apply H2]. Qed.

Lemma shuffleM_state {A} (l : list A) e : state (shuffleM l e).2 = state e.
Proof. unfold shuffleM. by destruct (shuffleArray l (rng e)). Qed.

Lemma random_state n e : state (random n e).2 = state e.
Proof. unfold random. by destruct (draw n (rng e)). Qed.

(** One step of a frame proof for an observation that is a field of
    the game state: split the computation, and close each write by
    computation. *)
Ltac preserves_step :=
  first
    [ apply preserves_ret | apply preserves_getS | apply preserves_liftR
    | apply preserves_liftS | apply preserves_throw
    | apply preserves_modifyS; intros; reflexivity
    | apply preserves_state_only; intros;
        first [ reflexivity | apply shuffleM_state | apply random_state ]
    | apply preserves_bind; [|intros]
    | apply preserves_forEach; intros
    | apply preserves_case
    | match goal with
      | |- preserves _ (match ?x with _ => _ end) => destruct x
      | |- preserves _ (if ?b then _ else _) => destruct b
      end ].

Ltac unfold_engine :=
  unfold drawBoard, assignPorts, rollDice, handleRobberActivation, discardResources,
    distributeResources, creditVertex, endTurn, buildSettlement, buildCity,
    placeInitialSettlement, placeInitialRoad, giveInitialResources,
    buildRoadNormal, updateLongestRoad, advanceToNextPlayer,
    updatePlayer, updateVertex, updateEdge.

Ltac preserves_auto := unfold_engine; repeat preserves_step.

Section HexFrame.
Context `{JsMath}.

Let O : Engine → list Hex.t := λ e, hexes (state e).

Lemma hexes_advanceIfTurnComplete p : preserves O (advanceIfTurnComplete p).
Proof.
  intros e. unfold advanceIfTurnComplete.
  repeat case_match; try reflexivity;
    apply (ltac:(preserves_auto) : preserves O advanceToNextPlayer).
Qed.

Lemma hexes_buildRoad ed p v : preserves O (buildRoad ed p v).
Proof.
  unfold buildRoad. destruct v as [vid|].
  - repeat first [ apply hexes_advanceIfTurnComplete | preserves_step ];
      preserves_auto.
  - change (preserves O (buildRoadNormal ed p)). preserves_auto.
Qed.

Lemma hexes_drawBoard : preserves O drawBoard.
Proof. preserves_auto. Qed.
Lemma hexes_rollDice : preserves O rollDice.
Proof. preserves_auto. Qed.
Lemma hexes_buildSettlement v p : preserves O (buildSettlement v p).
Proof. preserves_auto. Qed.
Lemma hexes_buildCity v p : preserves O (buildCity v p).
Proof. preserves_auto. Qed.
Lemma hexes_endTurn : preserves O endTurn.
Proof. preserves_auto. Qed.

End HexFrame.

(** ** The robber (C2) *)

Section Reachability.
Context `{JsMath}.

Lemma execute_hexes c e :
  isMoveRobber c = false → hexes (state (execute c e)) = hexes (state e).
Proof.
  destruct c; simpl; try discriminate; intros _.
  - apply hexes_drawBoard.
  - apply hexes_rollDice.
  - apply hexes_buildSettlement.
  - apply hexes_buildCity.
  - apply hexes_buildRoad.
  - apply hexes_endTurn.
Qed.

Lemma robberCount_lifted hs : robberCount (liftRobber <$> hs) = 0%nat.
Proof.
  unfold robberCount. induction hs as [|h hs IH]; [done|].
  rewrite fmap_cons. cbn [List.filter]. unfold liftRobber at 1.
  by destruct (Hex.hasRobber h) eqn:Hr; cbn [Hex.hasRobber Hex.set_hasRobber]; rewrite ?Hr.
Qed.

Lemma robberCount_place hs i :
  robberCount hs = 0%nat →
  robberCount (alter (Hex.set_hasRobber true) i hs)
  = if hs !! i is Some _ then 1%nat else 0%nat.
Proof.
  unfold robberCount. revert i. induction hs as [|h hs IH]; intros i Hz; [done|].
  cbn [List.filter] in Hz. destruct (Hex.hasRobber h) eqn:Hr; [done|].
  destruct i as [|i]; cbn [alter list_alter List.filter lookup list_lookup].
  - cbn [Hex.hasRobber Hex.set_hasRobber length]. by rewrite Hz.
  - rewrite Hr. by apply IH.
Qed.

(** the robber count after [moveRobber hexId] *)
Lemma moveRobber_count hexId e :
  robberCount (hexes (state (moveRobber hexId e).2))
  = match hexes (state e) !! hexId with
    | Some target => if bool_decide (Hex.resourceType target ≠ Desert) then 1%nat else 0%nat
    | None => 0%nat
    end.
Proof.
  unfold moveRobber, mbind, M_bind, modifyS, getS. cbn.
  fold liftRobber. rewrite list_lookup_fmap.
  destruct (hexes (state e) !! hexId) as [target|] eqn:Ht; cbn.
  - assert (Hex.resourceType (liftRobber target) = Hex.resourceType target) as ->
      by (unfold liftRobber; by destruct (Hex.hasRobber target)).
    case_bool_decide; cbn.
    + fold (robberCount (alter (Hex.set_hasRobber true) hexId
                                 (liftRobber <$> hexes (state e)))).
      rewrite robberCount_place by apply robberCount_lifted.
      by rewrite list_lookup_fmap, Ht.
    + apply robberCount_lifted.
  - apply robberCount_lifted.
Qed.

Lemma newGameEngine_robber supply :
  robberCount (hexes (state (newGameEngine supply))) = 1%nat.
Proof.
  unfold newGameEngine, initializeGame.
  pose proof (createBoard_hexes supply) as (_ & Hr & _).
  destruct (createBoard supply) as [[[hs vs] es] supply']. exact Hr.
Qed.

End Reachability.

(** C2, as the code has it.  A new game has exactly one hex with the
    robber flag; no command other than [moveRobber] writes the hex
    array; [moveRobber] leaves exactly one flagged hex when its target
    exists and is not the desert, and none when the target is the desert
    or no hex at all.  Hence every reachable state has at most one
    flagged hex. *)
Theorem robber_on_at_most_one_hex `{JsMath} :
  (∀ supply, robberCount (hexes (state (newGameEngine supply))) = 1%nat) ∧
  (∀ c e, isMoveRobber c = false → hexes (state (execute c e)) = hexes (state e)) ∧
  (∀ hexId e,
     robberCount (hexes (state (execute (CmdMoveRobber hexId) e)))
     = match hexes (state e) !! hexId with
       | Some target =>
           if bool_decide (Hex.resourceType target ≠ Desert) then 1%nat else 0%nat
       | None => 0%nat
       end) ∧
  (∀ e, reachable e → (robberCount (hexes (state e)) ≤ 1)%nat).
Proof.
  split; [apply newGameEngine_robber|]. split; [apply execute_hexes|].
  split; [intros; apply moveRobber_count|].
  intros e Hre. induction Hre as [supply|e c Hre IH].
  - by rewrite newGameEngine_robber.
  - destruct (isMoveRobber c) eqn:Hc.
    + destruct c; try discriminate. cbn [execute]. rewrite moveRobber_count.
      repeat case_match; lia.
    + by rewrite execute_hexes.
Qed.


(** ** Production (C1) *)

Lemma set_players_id s : set_players (λ _, players s) s = s.
Proof. by destruct s. Qed.
Lemma set_resources_id p : Player.set_resources (λ _, Player.resources p) p = p.
Proof. by destruct p. Qed.

Lemma creditedBy_refl s : creditedBy (λ _ _, 0) s s.
Proof.
  exists (players s). split; [by rewrite set_players_id|]. split; [done|].
  intros i p Hp. exists (Player.resources p).
  rewrite set_resources_id. split; [done|]. intros; lia.
Qed.

Lemma creditedBy_trans Δ1 Δ2 s s1 s2 :
  creditedBy Δ1 s s1 → creditedBy Δ2 s1 s2 →
  creditedBy (λ i r, Δ1 i r + Δ2 i r) s s2.
Proof.
  intros (ps1 & -> & Hl1 & H1) (ps2 & -> & Hl2 & H2). cbn in *.
  exists ps2. split; [done|]. split; [congruence|].
  intros i p Hp. destruct (H1 i p Hp) as (m1 & Hp1 & Hm1).
  destruct (H2 i _ Hp1) as (m2 & Hp2 & Hm2). exists m2.
  split; [done|]. intros r. rewrite Hm2. cbn. rewrite Hm1. lia.
Qed.

Lemma creditedBy_ext Δ1 Δ2 s s' :
  (∀ i r, Δ1 i r = Δ2 i r) → creditedBy Δ1 s s' → creditedBy Δ2 s s'.
Proof.
  intros Heq (ps' & -> & Hl & H1). exists ps'. split; [done|]. split; [done|].
  intros i p Hp. destruct (H1 i p Hp) as (m & Hm & Hc). exists m.
  split; [done|]. intros r. by rewrite Hc, Heq.
Qed.

Lemma creditedBy_frame Δ s s' :
  creditedBy Δ s s' →
  vertices s' = vertices s ∧ hexes s' = hexes s ∧ bank s' = bank s ∧
  colorsOf s' = colorsOf s.
Proof.
  intros (ps' & -> & Hl & H1). repeat split. unfold colorsOf. cbn.
  apply list_eq. intros i. rewrite !list_lookup_fmap.
  destruct (players s !! i) as [p|] eqn:Hp.
  - destruct (H1 i p Hp) as (m & -> & _). done.
  - apply lookup_ge_None in Hp. rewrite lookup_ge_None_2 by lia. done.
Qed.

Lemma seatOf_players ps c :
  fst <$> list_find (λ p, Player.color p = c) ps = seatOf (Player.color <$> ps) c.
Proof.
  unfold seatOf. rewrite list_find_fmap.
  change (list_find ((λ c', c' = c) ∘ Player.color) ps)
    with (list_find (λ p, Player.color p = c) ps).
  by destruct (list_find _ ps) as [[i p]|].
Qed.

Section Production.
Context `{JsMath}.

Lemma closerVertex_bound n vx vy acc iv :
  (iv.1 < n)%nat → (∀ i, acc.1 = Some i → (i < n)%nat) →
  ∀ i, (closerVertex vx vy acc iv).1 = Some i → (i < n)%nat.
Proof.
  intros Hiv Hacc i. unfold closerVertex. case_match; cbn; [|by apply Hacc].
  intros [= <-]. done.
Qed.

Lemma closestVertex_lt vs vx vy i :
  closestVertex vs vx vy = Some i → (i < length vs)%nat.
Proof.
  unfold closestVertex.
  assert (Hgen : ∀ (l : list (nat * Vertex.t)) acc,
            Forall (λ iv, iv.1 < length vs)%nat l →
            (∀ i, acc.1 = Some i → (i < length vs)%nat) →
            ∀ i, (foldl (closerVertex vx vy) acc l).1 = Some i → (i < length vs)%nat).
  { induction l as [|iv l IH]; intros acc Hl Hacc j; cbn; [by apply Hacc|].
    inversion Hl; subst. apply IH; [done|].
    by apply closerVertex_bound. }
  apply Hgen; [|done].
  apply Forall_lookup. intros j [k v] Hj. cbn.
  apply list_lookup_imap_Some in Hj as (v' & Hv' & [= -> ->]).
  by apply lookup_lt_Some in Hv'.
Qed.

Lemma cornerVertices_lt vs hex :
  Forall (λ v, v < length vs)%nat (cornerVertices vs hex).
Proof.
  unfold cornerVertices. generalize (seq 0 6). intros l.
  assert (Hgen : ∀ acc, Forall (λ v, v < length vs)%nat acc →
    Forall (λ v, v < length vs)%nat
      (foldl (λ adjacentVertices i,
        match closestVertex vs (cornerX hex i) (cornerY hex i) with
        | Some v => if bool_decide (v ∈ adjacentVertices) then adjacentVertices
                    else adjacentVertices ++ [v]
        | None => adjacentVertices
        end) acc l)).
  { induction l as [|i l IH]; intros acc Hacc; cbn; [done|].
    apply IH. destruct (closestVertex vs _ _) as [v|] eqn:Hc; [|done].
    case_bool_decide; [done|]. apply Forall_app_2; [done|].
    constructor; [|done]. by apply closestVertex_lt in Hc. }
  by apply Hgen.
Qed.

Lemma withState_state e : withState (state e) e = e.
Proof. by destruct e. Qed.
Lemma withState_withState s s' e : withState s' (withState s e) = withState s' e.
Proof. done. Qed.

Lemma getCount_addCount `{Countable K} (k k' : K) d (m : gmap K Z) :
  getCount (addCount k d m) k' = if decide (k = k') then getCount m k + d else getCount m k'.
Proof.
  unfold getCount, addCount. case_decide; subst.
  - by rewrite lookup_insert_eq.
  - by rewrite lookup_insert_ne.
Qed.

(** adding [d] of [rt] to the hand of seat [i] *)
Lemma creditedBy_updatePlayer s i rt d :
  creditedBy (λ j r, if bool_decide (j = i) && bool_decide (rt = r) then d else 0) s
    (set_players (alter (Player.set_resources (addCount rt d)) i) s).
Proof.
  exists (alter (Player.set_resources (addCount rt d)) i (players s)).
  split; [done|]. split; [by rewrite length_alter|].
  intros j p Hp. destruct (decide (j = i)) as [->|Hne].
  - exists (addCount rt d (Player.resources p)).
    rewrite list_lookup_alter_eq, Hp. split; [done|]. intros r.
    rewrite getCount_addCount, bool_decide_eq_true_2 by done. cbn.
    case_decide; subst; [by rewrite bool_decide_eq_true_2|].
    rewrite bool_decide_eq_false_2 by done. lia.
  - exists (Player.resources p).
    rewrite list_lookup_alter_ne, Hp, set_resources_id by done. split; [done|].
    intros r. rewrite (bool_decide_eq_false_2 (j = i)) by done. cbn. lia.
Qed.

Lemma creditVertex_spec hex vertexId e :
  (vertexId < length (vertices (state e)))%nat →
  ∃ s', creditVertex hex vertexId e = (Ok tt, withState s' e) ∧
        creditedBy (λ i r, credit (vertices (state e)) (colorsOf (state e)) hex i r vertexId)
                   (state e) s'.
Proof.
  intros Hlt. apply lookup_lt_is_Some in Hlt as [vertex Hv].
  unfold creditVertex, credit. unfold mbind at 1, M_bind at 1, getS. cbn beta iota.
  unfold mbind at 1, M_bind at 1, liftR. rewrite Hv. cbn.
  pose proof (seatOf_players (players (state e))) as Hseat. fold (colorsOf (state e)) in Hseat.
  assert (Hnone : ∃ s', (Ok (), e) = (Ok (), withState s' e) ∧
            creditedBy (λ _ _, 0) (state e) s').
  { exists (state e). rewrite withState_state. split; [done|apply creditedBy_refl]. }
  destruct (Vertex.building vertex) as [b|]; [|exact Hnone].
  destruct (Vertex.playerColor vertex) as [c|]; [|exact Hnone].
  specialize (Hseat c). rewrite <- Hseat.
  destruct (list_find _ (players (state e))) as [[i p]|]; cbn.
  - case_bool_decide as Hd; cbn.
    + eexists. split; [reflexivity|].
      eapply creditedBy_ext; [|apply creditedBy_updatePlayer].
      intros j r. cbn.
      destruct (decide (j = i)) as [->|Hne].
      * rewrite (bool_decide_eq_true_2 (i = i)), (bool_decide_eq_true_2 (Some i = Some i))
          by done. cbn.
        case_bool_decide; subst; cbn; [|done].
        rewrite (bool_decide_eq_true_2 (_ ≠ Desert)) by done. by destruct b.
      * rewrite (bool_decide_eq_false_2 (j = i)) by done.
        rewrite (bool_decide_eq_false_2 (Some i = Some j)) by congruence. by cbn.
    + destruct Hnone as (s' & Heq & Hc). exists s'. split; [done|].
      eapply creditedBy_ext; [|exact Hc]. intros j r. cbn.
      repeat case_bool_decide; cbn; try done. subst. by destruct Hd.
  - exact Hnone.
Qed.

(** A loop whose every round credits the hands, run from any state
    satisfying an invariant [I] that crediting preserves, credits the
    sum. *)
Lemma forEach_credited {A} (I : GameState → Prop) (l : list A) (body : A → M unit)
    (Δ : A → nat → ResourceType → Z) :
  (∀ s s' Δ', I s → creditedBy Δ' s s' → I s') →
  (∀ a e, a ∈ l → I (state e) →
     ∃ s', body a e = (Ok tt, withState s' e) ∧ creditedBy (Δ a) (state e) s') →
  ∀ e, I (state e) →
    ∃ s', forEach l body e = (Ok tt, withState s' e) ∧
          creditedBy (λ i r, sumZ ((λ a, Δ a i r) <$> l)) (state e) s'.
Proof.
  intros Hstable. induction l as [|a l IH]; intros Hbody e HI.
  - exists (state e). rewrite withState_state. split; [done|apply creditedBy_refl].
  - destruct (Hbody a e) as (s1 & Hrun & Hc1); [by left|done|].
    destruct (IH (λ a' e' Ha', Hbody a' e' (list_elem_of_further _ _ _ Ha'))
                 (withState s1 e)) as (s2 & Hrun2 & Hc2).
    { cbn. by eapply Hstable. }
    exists s2. split.
    + cbn [forEach]. erewrite bind_Ok by exact Hrun. by rewrite Hrun2.
    + eapply creditedBy_ext; [|exact (creditedBy_trans _ _ _ _ _ Hc1 Hc2)].
      intros i r. cbn. done.
Qed.

Lemma distributeResources_creditedBy roll e :
  hexIdsArePositions (hexes (state e)) →
  ∃ s', distributeResources roll e = (Ok tt, withState s' e) ∧
        creditedBy (production (state e) roll) (state e) s'.
Proof.
  intros Hids. unfold distributeResources.
  unfold mbind at 1, M_bind at 1, getS. cbn beta iota.
  set (s := state e).
  set (I := λ s1, vertices s1 = vertices s ∧ colorsOf s1 = colorsOf s ∧
                  hexes s1 = hexes s).
  assert (Hstable : ∀ s1 s2 Δ', I s1 → creditedBy Δ' s1 s2 → I s2).
  { intros s1 s2 Δ' (Hv & Hc & Hh) Hcred.
    apply creditedBy_frame in Hcred as (Hv' & Hh' & _ & Hc'). unfold I. by split_and!; congruence. }
  apply (forEach_credited I); [exact Hstable| |done].
  intros hex e1 Hin (Hv & Hc & Hh).
  assert (Hlook : hexes (state e1) !! Hex.id hex = Some hex).
  { rewrite Hh. apply list_elem_of_In, List.filter_In in Hin as [Hin _].
    apply list_elem_of_In, list_elem_of_lookup in Hin as [k Hk].
    by rewrite (Hids k hex Hk). }
  unfold mbind at 1, M_bind at 1, liftS, getVerticesAdjacentToHex.
  rewrite Hlook. cbn. rewrite Hv.
  destruct (forEach_credited I (cornerVertices (vertices s) hex) (creditVertex hex)
              (λ v i r, credit (vertices s) (colorsOf s) hex i r v) Hstable)
    with (e := e1) as (s' & Hrun & Hcred); [|done|by exists s'].
  intros v e2 Hv2 (Hv' & Hc' & Hh').
  rewrite <- Hv', <- Hc'. apply creditVertex_spec.
  pose proof (cornerVertices_lt (vertices s) hex) as Hall.
  rewrite Forall_forall in Hall. rewrite Hv'. by apply Hall.
Qed.

End Production.

(** C1, as the code has it.  On a hex array whose ids are the array
    positions, [distributeResources] returns normally for every dice
    sum.  Seat [i] ends with exactly [production] more of each
    resource: over every hex whose token equals the sum and which does
    not hold the robber, and every vertex at a corner of that hex that
    holds a building, 1 unit of the hex's resource for a settlement and
    2 for a city of that seat's colour.  The bank is neither read nor
    written: no credit debits it and no distribution is skipped. *)
Theorem distributeResources_credits_owners `{JsMath} (roll : nat) (e : Engine) :
  hexIdsArePositions (hexes (state e)) →
  ∃ e', distributeResources roll e = (Ok tt, e') ∧
    bank (state e') = bank (state e) ∧
    length (players (state e')) = length (players (state e)) ∧
    ∀ i p, players (state e) !! i = Some p →
      ∃ p', players (state e') !! i = Some p' ∧
        ∀ r, getCount (Player.resources p') r
             = getCount (Player.resources p) r + production (state e) roll i r.
Proof.
  intros Hids.
  destruct (distributeResources_creditedBy roll e Hids) as (s' & Hrun & Hcred).
  exists (withState s' e). split; [done|].
  destruct Hcred as (ps' & -> & Hlen & Hps). cbn.
  split; [done|]. split; [done|].
  intros i p Hp. destruct (Hps i p Hp) as (m & Hm & Hc). eauto.
Qed.

Lemma hexIdsArePositions_check hs :
  forallb (λ ih : nat * Hex.t, bool_decide (Hex.id ih.2 = ih.1)) (imap pair hs) = true →
  hexIdsArePositions hs.
Proof.
  intros Hall i h Hi. rewrite forallb_forall in Hall.
  specialize (Hall (i, h)). cbn in Hall.
  eapply bool_decide_eq_true_1, Hall.
  apply list_elem_of_In, list_elem_of_lookup. exists i.
  by rewrite list_lookup_imap, Hi.
Qed.


(** ** Initial resources (C6) *)

Lemma sumZ_indicator {A} (f : A → bool) (l : list A) :
  sumZ ((λ a, if f a then 1 else 0) <$> l) = Z.of_nat (length (List.filter f l)).
Proof.
  induction l as [|a l IH]; [done|].
  rewrite fmap_cons. cbn [sumZ foldr List.filter]. fold (sumZ ((λ a, if f a then 1 else 0) <$> l)).
  rewrite IH. destruct (f a); cbn [length]; lia.
Qed.

Lemma filter_filter_andb {A} (f g : A → bool) (l : list A) :
  List.filter g (List.filter f l) = List.filter (λ a, f a && g a) l.
Proof.
  induction l as [|a l IH]; [done|]. cbn [List.filter].
  destruct (f a); cbn [List.filter andb]; [destruct (g a)|]; by rewrite IH.
Qed.

Section InitialResources.
Context `{JsMath}.

Lemma giveInitialResources_spec vertexId playerId e vertex :
  vertices (state e) !! vertexId = Some vertex →
  is_Some (players (state e) !! playerId) →
  Forall tokenIfProductive (hexes (state e)) →
  ∃ s', giveInitialResources vertexId playerId e = (Ok tt, withState s' e) ∧
        creditedBy (λ i r, if bool_decide (i = playerId)
                           then incidentHexes (state e) vertex r else 0)
                   (state e) s'.
Proof.
  intros Hv Hp Htok. unfold giveInitialResources.
  unfold mbind at 1, M_bind at 1, liftS, getHexesAdjacentToVertex.
  rewrite Hv. cbn [deref mbind res_bind].
  set (grant := λ (hex : Hex.t) (i : nat) (r : ResourceType),
         if bool_decide (i = playerId) && bool_decide (Hex.resourceType hex = r) &&
            bool_decide (r ≠ Desert) then 1 else 0).
  match goal with
  | |- ∃ s', forEach ?l ?body e = _ ∧ _ =>
      destruct (forEach_credited (λ s1, is_Some (players s1 !! playerId)) l body grant)
        with (e := e) as (s' & Hrun & Hcred);
        [| |done|exists s'; split; [exact Hrun|]]
  end.
  - intros s1 s2 Δ' [q Hq] (ps' & -> & _ & Hps). cbn.
    destruct (Hps _ _ Hq) as (m & -> & _). done.
  - intros hex e1 Hin [q Hq].
    assert (Htok' : tokenIfProductive hex).
    { rewrite Forall_forall in Htok. apply Htok.
      apply list_elem_of_In, List.filter_In in Hin as [Hin _]. by apply list_elem_of_In. }
    case_bool_decide as Hd; cbn.
    + rewrite (bool_decide_eq_true_2 _ (Htok' Hd)).
      unfold mbind, M_bind, getS, liftR. rewrite Hq. cbn.
      eexists. split; [reflexivity|].
      eapply creditedBy_ext; [|apply creditedBy_updatePlayer].
      intros i r. unfold grant. cbn.
      destruct (bool_decide (i = playerId)); cbn; [|done].
      case_bool_decide; subst; cbn; [|done]. by rewrite bool_decide_eq_true_2.
    + exists (state e1). rewrite withState_state. split; [done|].
      eapply creditedBy_ext; [|apply creditedBy_refl].
      intros i r. unfold grant. cbn.
      repeat case_bool_decide; cbn; try done. subst. by destruct Hd.
  - eapply creditedBy_ext; [|exact Hcred]. intros i r. cbn beta.
    unfold incidentHexes, grant.
    destruct (bool_decide (i = playerId)); cbn [andb].
    + rewrite sumZ_indicator, filter_filter_andb. do 2 f_equal.
      apply List.filter_ext. intros a. by rewrite andb_assoc.
    + clear. induction (List.filter _ _) as [|h hs IH]; [done|].
      rewrite fmap_cons. cbn [sumZ foldr]. fold (sumZ ((λ _ : Hex.t, 0) <$> hs)). lia.
Qed.

Lemma canPlaceSettlement_vertex e vertexId playerId :
  canPlaceSettlement e vertexId playerId = Ok true →
  ∃ vertex, vertices (state e) !! vertexId = Some vertex ∧
            Vertex.building vertex = None ∧
            currentPlayerIndex (state e) = playerId.
Proof.
  unfold canPlaceSettlement. case_bool_decide as Hcur; [done|].
  destruct (placementsOf e playerId) as [pl|]; cbn; [|done].
  case_match; [done|].
  destruct (vertices (state e) !! vertexId) as [vertex|]; cbn; [|done].
  destruct (Vertex.building vertex) eqn:Hb; [done|].
  intros _. exists vertex. split_and!; [done|done|].
  by destruct (decide (currentPlayerIndex (state e) = playerId)).
Qed.

Lemma placeInitialSettlement_run vertexId playerId e player :
  canPlaceSettlement e vertexId playerId = Ok true →
  players (state e) !! playerId = Some player →
  placeInitialSettlement vertexId playerId e =
    if bool_decide (initialPlacementRound (state e) = 2%nat)
    then (giveInitialResources vertexId playerId ;; mret true)
           (settled vertexId playerId (Player.color player) e)
    else (Ok true, settled vertexId playerId (Player.color player) e).
Proof.
  intros Hcan Hp. unfold placeInitialSettlement.
  unfold mbind at 1, M_bind at 1. rewrite Hcan. cbn [negb].
  unfold mbind at 1, M_bind at 1, getS. cbn beta iota.
  unfold mbind at 1, M_bind at 1, updateVertex, modifyS. cbn beta iota.
  unfold mbind at 1, M_bind at 1, liftR. cbn [state]. rewrite Hp. cbn [deref].
  unfold mbind at 1, M_bind at 1, updateVertex, modifyS. cbn beta iota.
  unfold mbind at 1, M_bind at 1, updatePlayer, modifyS. cbn beta iota.
  unfold mbind at 1, M_bind at 1, updatePlayer, modifyS. cbn beta iota.
  unfold mbind at 1, M_bind at 1, modifyPlacements. cbn beta iota.
  cbn [state initialPlacement rng console].
  case_bool_decide; reflexivity.
Qed.

End InitialResources.

(** C6.  A setup settlement that [canPlaceSettlement] accepts is placed
    (the command returns [true]).  In round 2 the placing seat then
    holds, for every resource, one more unit per hex that has a corner
    on the vertex and carries that productive resource, and the other
    seats' hands are as before; in round 1 every hand is as before.
    Hexes are as [createBoard] makes them: every non-desert hex carries
    a number token. *)
Theorem initial_settlement_resources `{JsMath} (vertexId playerId : nat) (e : Engine)
    (vertex : Vertex.t) :
  inInitialPlacement e = true →
  canPlaceSettlement e vertexId playerId = Ok true →
  vertices (state e) !! vertexId = Some vertex →
  is_Some (players (state e) !! playerId) →
  Forall tokenIfProductive (hexes (state e)) →
  ∃ e', buildSettlement vertexId playerId e = (Ok true, e') ∧
    length (players (state e')) = length (players (state e)) ∧
    ∀ i p, players (state e) !! i = Some p →
      ∃ p', players (state e') !! i = Some p' ∧
        ∀ r, getCount (Player.resources p') r
             = getCount (Player.resources p) r
               + (if bool_decide (initialPlacementRound (state e) = 2%nat ∧ i = playerId)
                  then incidentHexes (state e) vertex r else 0).
Proof.
  intros Hinit Hcan Hv [player Hp] Htok.
  unfold buildSettlement. rewrite Hinit.
  rewrite (placeInitialSettlement_run _ _ _ player Hcan Hp).
  set (e1 := settled vertexId playerId (Player.color player) e).
  assert (Hplayers1 : ∀ i p, players (state e) !! i = Some p →
            ∃ p1, players (state e1) !! i = Some p1 ∧
                  Player.resources p1 = Player.resources p).
  { intros i p Hi. unfold e1, settled. cbn.
    destruct (decide (i = playerId)) as [->|Hne].
    - rewrite !list_lookup_alter_eq, Hi. cbn. eauto.
    - rewrite !list_lookup_alter_ne by done. eauto. }
  assert (Hlen1 : length (players (state e1)) = length (players (state e))).
  { unfold e1, settled. cbn. by rewrite !length_alter. }
  case_bool_decide as Hround.
  - destruct (giveInitialResources_spec vertexId playerId e1
                (Vertex.set_playerColor (Some (Player.color player))
                   (Vertex.set_building (Some settlement) vertex)))
      as (s' & Hrun & Hcred).
    { unfold e1, settled. cbn. by rewrite !list_lookup_alter_eq, Hv. }
    { destruct (Hplayers1 _ _ Hp) as (p1 & Hp1 & _). eauto. }
    { done. }
    exists (withState s' e1). split.
    { by erewrite bind_Ok by exact Hrun. }
    destruct Hcred as (ps' & -> & Hlen & Hps). cbn [state withState players set_players].
    split; [congruence|].
    intros i p Hi. destruct (Hplayers1 i p Hi) as (p1 & Hp1 & Hres).
    destruct (Hps i p1 Hp1) as (m & Hm & Hc). eexists. split; [exact Hm|].
    intros r. cbn. rewrite Hc, Hres. f_equal.
    assert (Hinc : ∀ v', incidentHexes (state e1) (Vertex.set_playerColor v'
                     (Vertex.set_building (Some settlement) vertex)) r
                   = incidentHexes (state e) vertex r).
    { intros v'. reflexivity. }
    rewrite Hinc. repeat case_bool_decide; try done; tauto.
  - exists e1. split; [done|]. split; [done|].
    intros i p Hi. destruct (Hplayers1 i p Hi) as (p1 & Hp1 & Hres).
    exists p1. split; [done|]. intros r. rewrite Hres.
    rewrite bool_decide_eq_false_2 by tauto. lia.
Qed.

(** ** The setup sequence (C5) *)

Lemma random_frame n e :
  (random n e).2 = mkEngine (state e) (initialPlacement e) (draw n (rng e)).2 (console e).
Proof. unfold random. by destruct (draw n (rng e)). Qed.
Lemma shuffleM_frame {A} (l : list A) e :
  (shuffleM l e).2
  = mkEngine (state e) (initialPlacement e) (shuffleArray l (rng e)).2 (console e).
Proof. unfold shuffleM. by destruct (shuffleArray l (rng e)). Qed.

(** frame steps for any observation that computes *)
Ltac frame_step :=
  first
    [ apply preserves_ret | apply preserves_getS | apply preserves_liftR
    | apply preserves_liftS | apply preserves_throw
    | apply preserves_bind; [|intros]
    | apply preserves_forEach; intros
    | apply preserves_case
    | match goal with
      | |- preserves _ (match ?x with _ => _ end) => destruct x
      | |- preserves _ (if ?b then _ else _) => destruct b
      | |- preserves _ (modifyS _) => intros ?; reflexivity
      | |- preserves _ (modifyPlacements _) => intros ?; reflexivity
      | |- preserves _ (random _) => intros ?; rewrite random_frame; reflexivity
      | |- preserves _ (shuffleM _) => intros ?; rewrite shuffleM_frame; reflexivity
      end ].
Ltac frame_auto := unfold_engine; repeat frame_step.

Section Setup.
Context `{JsMath}.

Lemma control_giveInitialResources v p : preserves controlOf (giveInitialResources v p).
Proof. frame_auto. Qed.

Lemma placeInitialSettlement_accepted v p e e' :
  placeInitialSettlement v p e = (Ok true, e') →
  acceptSettlement p (controlOf e) = Some (controlOf e').
Proof.
  unfold placeInitialSettlement. intros Hrun.
  apply bind_inv_Ok in Hrun as (ok & e1 & Hcan & Hrun). injection Hcan as Hcan <-.
  destruct ok; [|discriminate]. cbn [negb] in Hrun.
  assert (Haccept : acceptSettlement p (controlOf e)
                    = Some (mkControl (c_setup (controlOf e)) (c_round (controlOf e))
                              (c_seat (controlOf e))
                              (alter bumpSettlements p <$> initialPlacement e))).
  { unfold canPlaceSettlement in Hcan. unfold acceptSettlement. cbn.
    unfold placementsOf in Hcan. cbv zeta in Hcan.
    destruct (decide (currentPlayerIndex (state e) ≠ p)) as [Hne|Heq];
      [by rewrite (bool_decide_eq_true_2 _ Hne) in Hcan|].
    rewrite (bool_decide_eq_false_2 _ Heq) in Hcan.
    rewrite (bool_decide_eq_false_2 _ Heq).
    destruct (initialPlacement e) as [m|]; [|by cbn in Hcan]. cbn in Hcan |- *.
    destruct (m !! p) as [pl|]; [|by cbn in Hcan]. cbn in Hcan |- *.
    by destruct (if bool_decide (initialPlacementRound (state e) = 1%nat)
                 then 1 <=? p_settlements pl else 2 <=? p_settlements pl). }
  rewrite Haccept. f_equal.
  apply bind_inv_Ok in Hrun as (s & e2 & [= <- <-] & Hrun).
  apply bind_inv_Ok in Hrun as ([] & e2 & [= <-] & Hrun).
  apply bind_inv_Ok in Hrun as (player & e3 & Hpl & Hrun).
  unfold liftR in Hpl. injection Hpl as Hpl <-.
  apply bind_inv_Ok in Hrun as ([] & e3 & [= <-] & Hrun).
  apply bind_inv_Ok in Hrun as ([] & e4 & [= <-] & Hrun).
  apply bind_inv_Ok in Hrun as ([] & e5 & [= <-] & Hrun).
  apply bind_inv_Ok in Hrun as ([] & e6 & [= <-] & Hrun).
  case_bool_decide.
  - apply bind_inv_Ok in Hrun as ([] & e7 & Hgive & [= <-]).
    match type of Hgive with
    | giveInitialResources _ _ ?eX = _ =>
        pose proof (control_giveInitialResources v p eX) as Hframe
    end.
    rewrite Hgive in Hframe. cbn [snd] in Hframe. by rewrite Hframe.
  - by injection Hrun as <-.
Qed.

Lemma placeInitialRoad_accepted ed p v e e' :
  placeInitialRoad ed p v e = (Ok true, e') →
  ∃ pl, initialPlacement e ≫= (.!! p) = Some pl ∧
    currentPlayerIndex (state e) = p ∧
    (if bool_decide (initialPlacementRound (state e) = 1%nat)
     then (p_settlements pl <? 1) || (1 <=? p_roads pl)
     else (p_settlements pl <? 2) || (2 <=? p_roads pl)) = false ∧
    controlOf e' = mkControl (c_setup (controlOf e)) (c_round (controlOf e))
                     (c_seat (controlOf e)) (alter bumpRoads p <$> initialPlacement e) ∧
    phase (state e') = phase (state e).
Proof.
  unfold placeInitialRoad. intros Hrun.
  apply bind_inv_Ok in Hrun as (ok & e1 & Hcan & Hrun). injection Hcan as Hcan <-.
  destruct ok; [|discriminate]. cbn [negb] in Hrun.
  unfold canPlaceRoad, placementsOf in Hcan. cbv zeta in Hcan.
  case_bool_decide as Hseat; [by cbn in Hcan|].
  destruct (initialPlacement e) as [m|] eqn:Hm; [|by cbn in Hcan]. cbn in Hcan |- *.
  destruct (m !! p) as [pl|]; [|by cbn in Hcan]. cbn in Hcan |- *.
  exists pl. split; [done|].
  split; [by destruct (decide (currentPlayerIndex (state e) = p))|].
  split; [by destruct (if bool_decide (initialPlacementRound (state e) = 1%nat)
                       then _ else _)|].
  apply bind_inv_Ok in Hrun as (s & e2 & [= <- <-] & Hrun).
  apply bind_inv_Ok in Hrun as (player & e3 & Hpl & Hrun).
  unfold liftR in Hpl. injection Hpl as Hpl <-.
  apply bind_inv_Ok in Hrun as ([] & e3 & [= <-] & Hrun).
  apply bind_inv_Ok in Hrun as ([] & e4 & [= <-] & Hrun).
  apply bind_inv_Ok in Hrun as ([] & e5 & [= <-] & Hrun).
  injection Hrun as <-. cbn. by rewrite Hm.
Qed.

Lemma advanceToNextPlayer_control e :
  (advanceToNextPlayer e).1 = Ok tt ∧
  controlOf (advanceToNextPlayer e).2 = advanceControl (controlOf e) ∧
  (c_setup (controlOf e) = true →
   c_setup (advanceControl (controlOf e)) = false →
   phase (state (advanceToNextPlayer e).2) = RollingDice).
Proof.
  unfold advanceToNextPlayer, advanceControl.
  unfold mbind, M_bind, getS, modifyS. cbn.
  repeat case_bool_decide; cbn; split_and!; try done; congruence.
Qed.

Lemma buildRoad_setup_accepted ed p v e e' :
  inInitialPlacement e = true →
  buildRoad ed p (Some v) e = (Ok true, e') →
  acceptRoad p (controlOf e) = Some (controlOf e') ∧
  (c_setup (controlOf e') = false → phase (state e') = RollingDice).
Proof.
  intros Hinit. unfold buildRoad. rewrite Hinit. intros Hrun.
  apply bind_inv_Ok in Hrun as (success & e1 & Hplace & Hrun).
  apply bind_inv_Ok in Hrun as ([] & e2 & Hadv & [= -> <-]).
  apply placeInitialRoad_accepted in Hplace as (pl & Hpl & Hseat & Hchk & Hctl & Hph).
  assert (Hsetup : c_setup (controlOf e) = true).
  { unfold inInitialPlacement in Hinit. by apply andb_prop in Hinit as [Hi _]. }
  unfold acceptRoad. cbn [c_seat c_placements controlOf c_round].
  rewrite (bool_decide_eq_false_2 (currentPlayerIndex (state e) ≠ p)) by (by intros ?).
  rewrite Hpl, Hchk.
  assert (Hctl' : mkControl (c_setup (controlOf e)) (initialPlacementRound (state e))
                    (currentPlayerIndex (state e))
                    (alter bumpRoads p <$> initialPlacement e) = controlOf e1)
    by (by rewrite Hctl).
  rewrite !Hctl'.
  assert (Hround : initialPlacementRound (state e1) = initialPlacementRound (state e))
    by (by injection Hctl).
  assert (Hplace : initialPlacement e1 = alter bumpRoads p <$> initialPlacement e)
    by (by injection Hctl).
  assert (Hsetup1 : c_setup (controlOf e1) = true) by (by rewrite Hctl).
  unfold advanceIfTurnComplete, getCurrentPlacementStatus, placementsOf in Hadv.
  cbv zeta in Hadv. rewrite Hround, Hplace in Hadv.
  destruct (advanceToNextPlayer_control e1) as (Hok & Hadvctl & Hadvph).
  destruct (bool_decide (initialPlacementRound (state e) = 1%nat)).
  - destruct (_ && _).
    + rewrite Hadv in *. cbn [fst snd] in *. rewrite Hadvctl.
      split; [done|]. by apply Hadvph.
    + injection Hadv as <-. split; [done|]. congruence.
  - destruct (bool_decide (initialPlacementRound (state e) = 2%nat)).
    + destruct (_ && _).
      * rewrite Hadv in *. cbn [fst snd] in *. rewrite Hadvctl.
        split; [done|]. by apply Hadvph.
      * injection Hadv as <-. split; [done|]. congruence.
    + injection Hadv as <-. split; [done|]. congruence.
Qed.

End Setup.

(** One accepted placement moves the control fields one position along
    the schedule, and nothing is accepted out of turn. *)
Lemma acceptCommand_schedule k kind p c' :
  (k ≤ 16)%nat →
  acceptCommand kind p (controlAt k) = Some c' →
  (k < 16)%nat ∧ setupSchedule !! k = Some (kind, p) ∧ c' = controlAt (S k).
Proof.
  intros Hk Hacc.
  assert (Hseat : p = c_seat (controlAt k)).
  { unfold acceptCommand in Hacc. destruct (c_setup _ && _); [|done].
    destruct kind; [unfold acceptSettlement in Hacc|unfold acceptRoad in Hacc];
      case_bool_decide as Hp; try done;
      by destruct (decide (c_seat (controlAt k) = p)). }
  do 17 (destruct k as [|k]; [vm_compute in Hseat; subst p; destruct kind;
           vm_compute in Hacc; try discriminate;
           injection Hacc as <-; split_and!; first [lia|reflexivity|by vm_compute] |]).
  lia.
Qed.

Lemma acceptSettlement_setup p c c' :
  acceptSettlement p c = Some c' → c_setup c' = c_setup c.
Proof.
  unfold acceptSettlement. intros Hacc.
  repeat case_match; try done; by injection Hacc as <-.
Qed.

Section SetupTheorem.
Context `{JsMath}.

Lemma runSetup_schedule cs : ∀ k e e',
  controlOf e = controlAt k → (k ≤ 16)%nat →
  runSetup cs e = Some e' →
  (k + length cs ≤ 16)%nat ∧
  (λ c, (setupKind c, setupSeat c)) <$> cs = take (length cs) (drop k setupSchedule) ∧
  controlOf e' = controlAt (k + length cs) ∧
  (cs ≠ [] → (k + length cs = 16)%nat → phase (state e') = RollingDice).
Proof.
  induction cs as [|c cs IH]; intros k e e' Hctl Hk Hrun.
  - injection Hrun as <-. rewrite Nat.add_0_r. cbn. by split_and!; [lia| | |].
  - cbn [runSetup] in Hrun.
    destruct (inInitialPlacement e) eqn:Hinit; [|done].
    destruct (runSetupCommand c e) as [[[|]|] e1] eqn:Hcmd; try done.
    assert (Hstep : acceptCommand (setupKind c) (setupSeat c) (controlOf e)
                    = Some (controlOf e1) ∧
                    (c_setup (controlOf e1) = false → phase (state e1) = RollingDice)).
    { unfold acceptCommand.
      assert (c_setup (controlOf e) && bool_decide (c_placements (controlOf e) ≠ None)
              = true) as -> by exact Hinit.
      destruct c as [v p|ed p v]; cbn [runSetupCommand setupKind setupSeat] in *.
      - unfold buildSettlement in Hcmd. rewrite Hinit in Hcmd.
        apply placeInitialSettlement_accepted in Hcmd as Hacc. split; [done|].
        apply acceptSettlement_setup in Hacc. rewrite Hacc.
        unfold inInitialPlacement in Hinit. apply andb_prop in Hinit as [Hi _].
        cbn. congruence.
      - by apply buildRoad_setup_accepted in Hcmd. }
    destruct Hstep as [Hacc Hphase]. rewrite Hctl in Hacc.
    apply acceptCommand_schedule in Hacc as (Hlt & Hsched & Hctl1); [|done].
    destruct (IH (S k) e1 e' Hctl1 ltac:(lia) Hrun) as (Hlen & Hkinds & Hfinal & Hph).
    cbn [length]. replace (k + S (length cs))%nat with (S k + length cs)%nat by lia.
    split; [done|]. split.
    + rewrite fmap_cons, Hkinds. rewrite (drop_S _ _ _ Hsched). done.
    + split; [done|]. intros _ Hend.
      destruct cs as [|c2 cs]; [|by apply Hph].
      injection Hrun as <-. apply Hphase. rewrite Hctl1.
      cbn [length] in Hend. replace k with 15%nat by lia. by vm_compute.
Qed.

End SetupTheorem.

(** C5.  Start from an engine whose control fields are those of a new
    game (setup flag set, round 1, seat 0, every counter 0).  In any
    sequence of setup placements that are all accepted, the
    placements follow the schedule: seats 0, 1, 2, 3 in round 1 and
    3, 2, 1, 0 in round 2, each a settlement and then a road; round 2
    starts on seat 3; at most 16 placements are accepted; and after
    the 16th the setup flag is cleared, the current seat is 0 and the
    phase is [RollingDice], the first phase of a turn. *)
Theorem setup_follows_schedule `{JsMath} (cs : list SetupCommand) (e e' : Engine) :
  controlOf e = startControl →
  runSetup cs e = Some e' →
  (length cs ≤ 16)%nat ∧
  (λ c, (setupKind c, setupSeat c)) <$> cs = take (length cs) setupSchedule ∧
  initialPlacementPhase (state e') = bool_decide (length cs < 16)%nat ∧
  initialPlacementRound (state e') = (if bool_decide (length cs < 8)%nat then 1 else 2)%nat ∧
  currentPlayerIndex (state e')
    = default 0%nat (snd <$> setupSchedule !! length cs) ∧
  (length cs = 16%nat → phase (state e') = RollingDice).
Proof.
  intros Hstart Hrun.
  destruct (runSetup_schedule cs 0 e e' Hstart ltac:(lia) Hrun)
    as (Hlen & Hkinds & Hctl & Hph).
  cbn [plus] in *. rewrite drop_0 in Hkinds.
  split; [done|]. split; [done|].
  assert (Hat : ∀ k, (k ≤ 16)%nat →
            c_setup (controlAt k) = bool_decide (k < 16)%nat ∧
            c_round (controlAt k) = (if bool_decide (k < 8)%nat then 1 else 2)%nat ∧
            c_seat (controlAt k) = default 0%nat (snd <$> setupSchedule !! k)).
  { intros k Hk. do 17 (destruct k as [|k]; [by vm_compute|]). lia. }
  destruct (Hat (length cs) Hlen) as (H1 & H2 & H3).
  rewrite <- Hctl in H1, H2, H3.
  split; [exact H1|]. split; [exact H2|]. split; [exact H3|].
  intros H16. apply Hph; [|done]. by destruct cs.
Qed.


(** ** The longest-road search always returns *)

Lemma foldlR_Ok {A B} (f : B → A → res B) (l : list A) (b : B) :
  (∀ b a, a ∈ l → ∃ b', f b a = Ok b') → ∃ b', foldlR f b l = Ok b'.
Proof.
  revert b. induction l as [|a l IH]; intros b Hf; cbn; [eauto|].
  destruct (Hf b a) as [b1 ->]; [by left|]. cbn.
  apply IH. intros b' a' Ha'. apply Hf. by right.
Qed.

Lemma edgeIndices_spec P es i :
  i ∈ edgeIndices P es ↔ ∃ e, es !! i = Some e ∧ P i e = true.
Proof.
  unfold edgeIndices. rewrite list_elem_of_omap. split.
  - intros ([j e] & Hin & Hsome). cbn in Hsome.
    apply list_elem_of_lookup in Hin as [k Hk].
    apply list_lookup_imap_Some in Hk as (e' & He' & [= -> ->]).
    destruct (P k e') eqn:HP; [|done]. injection Hsome as <-. eauto.
  - intros (e & He & HP). exists (i, e). split.
    + apply list_elem_of_lookup. exists i. by rewrite list_lookup_imap, He.
    + cbn. by rewrite HP.
Qed.

Section LongestRoadTotal.
Context `{JsMath}.

Lemma getEdgesConnectedToVertex_lt s v i :
  i ∈ getEdgesConnectedToVertex s v → is_Some (edges s !! i).
Proof.
  unfold getEdgesConnectedToVertex. rewrite edgeIndices_spec.
  intros (e & He & _). eauto.
Qed.

(** With as much depth as there are edges not yet visited, the search
    never overflows. *)
Lemma depth_suffices s playerId depth : ∀ edgeId (visited : gset nat),
  is_Some (players s !! playerId) →
  is_Some (edges s !! edgeId) →
  edgeId ∉ visited →
  (∀ i, i ∈ visited → (i < length (edges s))%nat) →
  (length (edges s) ≤ size visited + depth)%nat →
  ∃ n, findLongestPathFromEdge depth s edgeId playerId visited = Ok n.
Proof.
  induction depth as [|depth IH]; intros edgeId visited [player Hp] [edge He] Hfresh Hsub Hsize.
  - exfalso.
    assert (Hin : {[edgeId]} ∪ visited ⊆ (set_seq 0 (length (edges s)) : gset nat)).
    { intros i [->%elem_of_singleton|Hi]%elem_of_union; apply elem_of_set_seq.
      - apply lookup_lt_Some in He. lia.
      - specialize (Hsub i Hi). lia. }
    apply subseteq_size in Hin. rewrite size_set_seq in Hin.
    rewrite size_union, size_singleton in Hin by set_solver. lia.
  - cbn [findLongestPathFromEdge]. rewrite He. cbn [deref mbind res_bind].
    apply foldlR_Ok. intros m1 v Hv.
    apply foldlR_Ok. intros m2 next Hnext.
    apply getEdgesConnectedToVertex_lt in Hnext as [nextEdge Hne].
    destruct (negb (bool_decide (next = edgeId)) &&
              negb (bool_decide (next ∈ {[edgeId]} ∪ visited))) eqn:Hcond; [|eauto].
    rewrite Hne, Hp. cbn [deref mbind res_bind].
    apply andb_prop in Hcond as [_ Hnotin].
    apply negb_true_iff, bool_decide_eq_false_1 in Hnotin.
    destruct (bool_decide (Edge.road nextEdge = Some (Player.color player))); [|eauto].
    destruct (IH next ({[edgeId]} ∪ visited)) as [n ->]; eauto.
    + intros i [->%elem_of_singleton|Hi]%elem_of_union; [|by apply Hsub].
      by apply lookup_lt_Some in He.
    + rewrite size_union, size_singleton by set_solver. lia.
Qed.

Lemma calculateLongestRoad_returns s playerId :
  is_Some (players s !! playerId) → ∃ n, calculateLongestRoad s playerId = Ok n.
Proof.
  intros [player Hp]. unfold calculateLongestRoad.
  destruct (edges s) as [|e0 es] eqn:Hes; [eauto|]. rewrite <- Hes.
  rewrite Hp. cbn [deref mbind res_bind].
  destruct (edgeIndices _ (edges s)) as [|i0 is'] eqn:Hroads; [eauto|].
  rewrite <- Hroads. apply foldlR_Ok. intros m start Hstart.
  apply edgeIndices_spec in Hstart as (e & He & _).
  destruct (depth_suffices s playerId (length (edges s)) start ∅) as [n ->];
    eauto; first [set_solver | rewrite size_empty; lia].
Qed.

End LongestRoadTotal.

Lemma foldlR_inv {A B} (P : B → Prop) (f : B → A → res B) (l : list A) (b : B) :
  P b →
  (∀ b a, a ∈ l → P b → ∃ b', f b a = Ok b' ∧ P b') →
  ∃ b', foldlR f b l = Ok b' ∧ P b'.
Proof.
  revert b. induction l as [|a l IH]; intros b Hb Hf; cbn; [eauto|].
  destruct (Hf b a) as (b1 & -> & Hb1); [by left|done|]. cbn.
  apply IH; [done|]. intros b' a' Ha'. apply Hf. by right.
Qed.

Lemma list_lookup_alter_is_Some {A} (f : A → A) (l : list A) i j :
  is_Some (alter f i l !! j) ↔ is_Some (l !! j).
Proof. by rewrite !lookup_lt_is_Some, length_alter. Qed.

Lemma playersWf_alter s i (f : Player.t → Player.t) (g : GameState → GameState) :
  (∀ p, Player.id (f p) = Player.id p) →
  (∀ s', players (g s') = players s') →
  (∀ s', longestRoadPlayer (g s') = longestRoadPlayer s') →
  playersWf s → playersWf (g (set_players (alter f i) s)).
Proof.
  intros Hid Hg Hl [Hids Hholder]. split.
  - intros player. rewrite Hg. cbn. intros Hin.
    apply list_elem_of_lookup in Hin as [j Hj].
    rewrite list_lookup_alter in Hj.
    assert (∃ q, players s !! j = Some q ∧ Player.id player = Player.id q) as (q & Hq & ->).
    { case_decide; subst.
      - destruct (players s !! j) as [q|]; [|done]. injection Hj as <-. eauto.
      - eauto. }
    destruct (Hids q) as [q' Hq']; [by eapply list_elem_of_lookup_2|].
    rewrite list_lookup_alter_is_Some. eauto.
  - intros h. rewrite Hl, Hg. cbn. intros Hh. destruct (Hholder h Hh) as [q Hq].
    rewrite list_lookup_alter_is_Some. eauto.
Qed.

Section LongestRoadUpdate.
Context `{JsMath}.

Lemma updateLongestRoad_returns e :
  playersWf (state e) → ∃ e', updateLongestRoad e = (Ok tt, e').
Proof.
  intros [Hids Hholder]. unfold updateLongestRoad.
  unfold mbind at 1, M_bind at 1, getS. cbn beta iota.
  destruct (foldlR_inv (λ acc : option nat * Z,
              ∀ h, acc.1 = Some h → is_Some (players (state e) !! h))
              (longestRoadStep (state e)) (players (state e)) (None, 0))
    as ([longestPlayer longestLength] & Hscan & Hlp).
  { by intros h. }
  { intros acc player Hin Hacc. unfold longestRoadStep.
    destruct (calculateLongestRoad_returns (state e) (Player.id player)) as [n ->];
      [by apply Hids|].
    cbn [mbind res_bind].
    repeat case_match; eexists; split; try reflexivity; try done;
      intros h [= <-]; by apply Hids. }
  unfold mbind at 1, M_bind at 1, liftR. rewrite Hscan. cbn beta iota.
  destruct (5 <=? longestLength); [|by eexists].
  cbn [fst] in Hlp.
  assert (Hstep1 : ∃ e1, (match longestRoadPlayer (state e) with
            | Some holder =>
                prevPlayer ← liftR (deref (players (state e) !! holder));
                if Player.hasLongestRoad prevPlayer then
                  updatePlayer holder
                    (λ p, Player.set_hasLongestRoad false
                            (Player.set_victoryPoints (λ v, v - 2) p))
                else mret tt
            | None => mret tt
            end) e = (Ok tt, e1) ∧
            ∀ h, is_Some (players (state e) !! h) → is_Some (players (state e1) !! h)).
  { destruct (longestRoadPlayer (state e)) as [holder|] eqn:Hh; [|by eexists].
    destruct (Hholder holder eq_refl) as [prev Hprev].
    unfold mbind, M_bind, liftR. rewrite Hprev. cbn.
    destruct (Player.hasLongestRoad prev); eexists; (split; [reflexivity|]); [|done].
    intros h Hq. cbn. by rewrite list_lookup_alter_is_Some. }
  destruct Hstep1 as (e1 & Hrun1 & Hkeep).
  erewrite bind_Ok by exact Hrun1.
  destruct longestPlayer as [newHolder|]; [|by eexists].
  case_bool_decide; [|by eexists].
  destruct (Hkeep newHolder (Hlp newHolder eq_refl)) as [q Hq].
  unfold mbind, M_bind, getS, liftR. rewrite Hq. cbn. by eexists.
Qed.

End LongestRoadUpdate.

(** ** The longest-road bonus (C3) *)

Lemma longestRoadStep_scanned s len seen acc p :
  calculateLongestRoad s (Player.id p) = Ok (len (Player.id p)) →
  scanned s len seen acc →
  ∃ acc', longestRoadStep s acc p = Ok acc' ∧ scanned s len (seen ++ [p]) acc'.
Proof.
  intros Hlen (Hpos & Hmax & Hwho & Hnone & Hhold). unfold longestRoadStep, scanned.
  rewrite Hlen. cbn [mbind res_bind]. destruct acc as [lp L]. cbn [fst snd] in *.
  set (l := len (Player.id p)) in *.
  destruct (L <? l) eqn:Hlt.
  { apply Z.ltb_lt in Hlt. eexists. split; [reflexivity|]. cbn [fst snd].
    split_and!.
    - lia.
    - intros q [Hq | ->%list_elem_of_singleton]%elem_of_app; [|unfold l; lia].
      specialize (Hmax q Hq). lia.
    - intros n [= <-]. split; [|done]. exists p. split; [|done].
      apply elem_of_app. right. by apply list_elem_of_singleton.
    - done.
    - intros q [Hq | ->%list_elem_of_singleton]%elem_of_app Hh Heq _; [|done].
      specialize (Hmax q Hq). lia. }
  apply Z.ltb_ge in Hlt.
  destruct ((l =? L) && (5 <=? l)) eqn:Htie.
  { apply andb_true_iff in Htie as [Heq%Z.eqb_eq Hfive%Z.leb_le].
    case_bool_decide as Hh.
    - eexists. split; [reflexivity|]. cbn [fst snd]. split_and!.
      + done.
      + intros q [Hq | ->%list_elem_of_singleton]%elem_of_app; [by apply Hmax|].
        unfold l in *; lia.
      + intros n [= <-]. split; [|done]. exists p. split; [|done].
        apply elem_of_app. right. by apply list_elem_of_singleton.
      + done.
      + intros q _ Hq _ _. rewrite Hh in Hq. by injection Hq as ->.
    - eexists. split; [reflexivity|]. cbn [fst snd]. split_and!.
      + done.
      + intros q [Hq | ->%list_elem_of_singleton]%elem_of_app; [by apply Hmax|].
        unfold l in *; lia.
      + intros n Hn. destruct (Hwho n Hn) as [(q & Hq & Hid) Hl]. split; [|done].
        exists q. split; [|done]. apply elem_of_app. by left.
      + done.
      + intros q [Hq | ->%list_elem_of_singleton]%elem_of_app; [by apply Hhold|done]. }
  eexists. split; [reflexivity|]. cbn [fst snd]. split_and!.
  - done.
  - intros q [Hq | ->%list_elem_of_singleton]%elem_of_app; [by apply Hmax|].
    unfold l in *; lia.
  - intros n Hn. destruct (Hwho n Hn) as [(q & Hq & Hid) Hl]. split; [|done].
    exists q. split; [|done]. apply elem_of_app. by left.
  - done.
  - intros q [Hq | ->%list_elem_of_singleton]%elem_of_app; [by apply Hhold|].
    intros _ Heq Hfive. apply andb_false_iff in Htie as [Hne%Z.eqb_neq | Hlow%Z.leb_gt].
    + unfold l in *. lia.
    + unfold l in *. lia.
Qed.

Lemma scan_scanned s len ps seen acc :
  (∀ p, p ∈ ps → calculateLongestRoad s (Player.id p) = Ok (len (Player.id p))) →
  scanned s len seen acc →
  ∃ acc', foldlR (longestRoadStep s) acc ps = Ok acc' ∧ scanned s len (seen ++ ps) acc'.
Proof.
  revert seen acc. induction ps as [|p ps IH]; intros seen acc Hlen Hacc.
  - exists acc. by rewrite app_nil_r.
  - destruct (longestRoadStep_scanned s len seen acc p) as (acc1 & Hstep & Hacc1);
      [apply Hlen; by left|done|].
    destruct (IH (seen ++ [p]) acc1) as (acc' & Hrun & Hacc').
    { intros q Hq. apply Hlen. by right. }
    { done. }
    exists acc'. cbn [foldlR]. rewrite Hstep. cbn [mbind res_bind].
    split; [done|]. by rewrite <- app_assoc in Hacc'.
Qed.

Lemma scanned_nil s len : scanned s len [] (None, 0).
Proof.
  split_and!; cbn; try done; intros p Hp; by apply elem_of_nil in Hp.
Qed.

(** What the scan returns. *)
Lemma scan_players s len :
  (∀ p, p ∈ players s → calculateLongestRoad s (Player.id p) = Ok (len (Player.id p))) →
  ∃ acc, foldlR (longestRoadStep s) (None, 0) (players s) = Ok acc ∧
         scanned s len (players s) acc.
Proof.
  intros Hlen. apply (scan_scanned s len (players s) [] (None, 0) Hlen), scanned_nil.
Qed.

(** The first half of C3 in general.  Let the recorded holder
    [h] still carry the bonus flag, with a road of 5 or more that is at
    least as long as everybody's.  Then re-running the scoring takes
    the flag and 2 victory points away from the holder and changes
    nothing else: the holder stays the recorded holder, without the
    bonus. *)
Lemma updateLongestRoad_strips_holder (e : Engine) (h : nat) (holder : Player.t)
    (len : nat → Z) :
  (∀ p, p ∈ players (state e) →
        calculateLongestRoad (state e) (Player.id p) = Ok (len (Player.id p))) →
  longestRoadPlayer (state e) = Some h →
  players (state e) !! h = Some holder →
  Player.id holder = h →
  Player.hasLongestRoad holder = true →
  5 ≤ len h →
  (∀ p, p ∈ players (state e) → len (Player.id p) ≤ len h) →
  updateLongestRoad e
  = (Ok tt, withState (set_players (alter loseBonus h) (state e)) e).
Proof.
  intros Hlen Hh Hholder Hid Hflag Hfive Hmax.
  destruct (scan_players (state e) len Hlen) as ([lp L] & Hscan & Hpos & Hle & Hwho & Hnone & Hhold).
  cbn [fst snd] in *.
  assert (Hin : holder ∈ players (state e)) by (by eapply list_elem_of_lookup_2).
  assert (HL : L = len h).
  { apply Z.le_antisymm.
    - destruct lp as [n|].
      + destruct (Hwho n eq_refl) as [(q & Hq & <-) <-]. by apply Hmax.
      + rewrite Hnone by done. lia.
    - specialize (Hle holder Hin). by rewrite Hid in Hle. }
  assert (Hlp : lp = Some h).
  { rewrite <- Hid. apply Hhold; rewrite ?Hid; try done; lia. }
  subst lp L.
  unfold updateLongestRoad.
  unfold mbind at 1, M_bind at 1, getS. cbn beta iota.
  unfold mbind at 1, M_bind at 1, liftR. rewrite Hscan. cbn beta iota.
  apply Z.leb_le in Hfive. rewrite Hfive, Hh.
  unfold mbind, M_bind, liftR. rewrite Hholder. cbn. rewrite Hflag.
  unfold updatePlayer, modifyS. cbn.
  rewrite bool_decide_eq_false_2 by (intros Hne; by apply Hne).
  reflexivity.
Qed.

(** The second half of C3 in general.  If re-running the
    scoring makes [n] the recorded holder in place of another or of
    nobody, then [n]'s road is 5 or more, at least as long as
    everybody's, and strictly longer than the previous holder's road
    is now; the previous holder, if it still carried the flag, has
    lost it with 2 victory points, and [n] has gained both. *)
Lemma updateLongestRoad_moves_bonus (e e' : Engine) (n : nat) (len : nat → Z) :
  (∀ p, p ∈ players (state e) →
        calculateLongestRoad (state e) (Player.id p) = Ok (len (Player.id p))) →
  updateLongestRoad e = (Ok tt, e') →
  longestRoadPlayer (state e') = Some n →
  longestRoadPlayer (state e) ≠ Some n →
  5 ≤ len n ∧
  (∀ p, p ∈ players (state e) → len (Player.id p) ≤ len n) ∧
  (∀ p, p ∈ players (state e) → longestRoadPlayer (state e) = Some (Player.id p) →
        len (Player.id p) < len n) ∧
  e' = withState (set_longestRoad (Some n) (len n)
                    (set_players (alter winBonus n) (stripHolder (state e)))) e.
Proof.
  intros Hlen Hrun Hnew Hold.
  destruct (scan_players (state e) len Hlen)
    as ([lp L] & Hscan & Hpos & Hle & Hwho & Hnone & Hhold).
  cbn [fst snd] in *.
  unfold updateLongestRoad in Hrun.
  unfold mbind at 1, M_bind at 1, getS in Hrun. cbn beta iota in Hrun.
  unfold mbind at 1, M_bind at 1, liftR in Hrun. rewrite Hscan in Hrun.
  cbn beta iota in Hrun.
  destruct (5 <=? L) eqn:Hfive; [|by injection Hrun as <-].
  apply Z.leb_le in Hfive.
  assert (Hstrip : ∀ k : M unit,
    ((match longestRoadPlayer (state e) with
      | Some holder =>
          prevPlayer ← liftR (deref (players (state e) !! holder));
          if Player.hasLongestRoad prevPlayer then
            updatePlayer holder
              (λ p, Player.set_hasLongestRoad false (Player.set_victoryPoints (λ v, v - 2) p))
          else mret tt
      | None => mret tt
      end);; k) e = (Ok tt, e') →
    k (withState (stripHolder (state e)) e) = (Ok tt, e')).
  { intros k. unfold stripHolder.
    destruct (longestRoadPlayer (state e)) as [h|]; [|by rewrite withState_state].
    unfold mbind, M_bind, liftR.
    destruct (players (state e) !! h) as [prev|]; cbn -[withState]; [|done].
    destruct (Player.hasLongestRoad prev); cbn -[withState]; [done|].
    rewrite bool_decide_eq_false_2 by done. by rewrite withState_state. }
  apply Hstrip in Hrun. clear Hstrip.
  assert (Hsame : longestRoadPlayer (stripHolder (state e)) = longestRoadPlayer (state e)).
  { unfold stripHolder. destruct (longestRoadPlayer (state e)) eqn:E; [|done].
    case_bool_decide; [|done]. cbn. exact E. }
  destruct lp as [n'|]; [|injection Hrun as <-; cbn in Hnew; congruence].
  destruct (bool_decide (longestRoadPlayer (state e) ≠ Some n')) eqn:Hchange;
    [|injection Hrun as <-; cbn in Hnew; congruence].
  cbn in Hrun. unfold mbind, M_bind, getS, liftR in Hrun. cbn in Hrun.
  destruct (players (stripHolder (state e)) !! n') as [q|] eqn:Hq'; [|done].
  cbn in Hrun. injection Hrun as <-. cbn in Hnew. injection Hnew as ->.
  destruct (Hwho n eq_refl) as [_ HL]. subst L.
  split; [done|]. split; [done|]. split; [|done].
  intros p Hp Hholder.
  destruct (Z.lt_total (len (Player.id p)) (len n)) as [Hlt|[Heq|Hgt]]; [done| |].
  - specialize (Hhold p Hp Hholder Heq Hfive). rewrite Hholder in Hold. congruence.
  - specialize (Hle p Hp). lia.
Qed.

(** ** The longest-road search (C7) *)

Lemma findLongestPathFromEdge_S depth' s edgeId playerId visited :
  findLongestPathFromEdge (S depth') s edgeId playerId visited
  = (edge ← deref (edges s !! edgeId);
     foldlR (λ maxLength vertexId,
               foldlR (continueThrough depth' s edgeId playerId ({[edgeId]} ∪ visited))
                      maxLength (getEdgesConnectedToVertex s vertexId))
            1 [Edge.vertex1 edge; Edge.vertex2 edge]).
Proof. reflexivity. Qed.

Lemma foldlR_post {A B} (P : B → Prop) (f : B → A → res B) (l : list A) (b r : B) :
  P b →
  (∀ b a b', a ∈ l → P b → f b a = Ok b' → P b') →
  foldlR f b l = Ok r → P r.
Proof.
  revert b. induction l as [|a l IH]; intros b Hb Hf Hrun; cbn in Hrun.
  - by injection Hrun as <-.
  - destruct (f b a) as [b1|] eqn:Hstep; [|done]. cbn in Hrun.
    apply (IH b1); [by eapply Hf; [left| |]| |done].
    intros b' a' b'' Ha'. apply Hf. by right.
Qed.

Lemma foldlR_split {A B} (f : B → A → res B) (l1 l2 : list A) (x : A) (b r : B) :
  foldlR f b (l1 ++ x :: l2) = Ok r →
  ∃ b1 b2, foldlR f b l1 = Ok b1 ∧ f b1 x = Ok b2 ∧ foldlR f b2 l2 = Ok r.
Proof.
  revert b. induction l1 as [|a l1 IH]; intros b Hrun; cbn in Hrun.
  - destruct (f b x) as [b2|] eqn:Hstep; [|done]. by exists b, b2.
  - destruct (f b a) as [b1|] eqn:Hstep; [|done]. cbn in Hrun.
    destruct (IH b1 Hrun) as (b1' & b2 & H1 & H2 & H3).
    exists b1', b2. cbn. by rewrite Hstep.
Qed.

Lemma foldlR_mono {A} (f : Z → A → res Z) (l : list A) (b r : Z) :
  (∀ b a b', a ∈ l → f b a = Ok b' → b ≤ b') →
  foldlR f b l = Ok r → b ≤ r.
Proof.
  intros Hf. apply (foldlR_post (λ r, b ≤ r)); [lia|].
  intros b1 a b2 Ha Hb1 Hstep. specialize (Hf b1 a b2 Ha Hstep). lia.
Qed.

Lemma continueThrough_mono depth' s edgeId playerId visited' b n b' :
  continueThrough depth' s edgeId playerId visited' b n = Ok b' → b ≤ b'.
Proof.
  unfold continueThrough. intros Hstep.
  destruct (negb _ && negb _); [|injection Hstep as <-; lia].
  destruct (edges s !! n) as [nextEdge|]; [|done].
  destruct (players s !! playerId) as [player|]; [|done]. cbn in Hstep.
  destruct (bool_decide _); [|injection Hstep as <-; lia].
  destruct (findLongestPathFromEdge _ _ _ _ _) as [sub|]; [|done].
  cbn in Hstep. injection Hstep as <-. lia.
Qed.

Lemma continue_all_mono depth' s edgeId playerId visited' l b r :
  foldlR (continueThrough depth' s edgeId playerId visited') b l = Ok r → b ≤ r.
Proof.
  apply foldlR_mono. intros b1 a b2 _. apply continueThrough_mono.
Qed.

Section Sequence.
Variables (s : GameState) (playerId : nat) (player : Player.t).
Hypothesis Hplayer : players s !! playerId = Some player.

(** The search from [a] is at least as long as any sequence of the
    player's unvisited edges that starts at [a] and goes from edge to
    adjacent edge. *)
Lemma findLongestPathFromEdge_lower rest : ∀ a depth (visited : gset nat) r,
  NoDup (a :: rest) →
  (∀ x, x ∈ a :: rest → x ∉ visited) →
  (∀ x, x ∈ a :: rest →
        ∃ edge, edges s !! x = Some edge ∧ Edge.road edge = Some (Player.color player)) →
  (∀ k x y ex ey, (a :: rest) !! k = Some x → (a :: rest) !! S k = Some y →
     edges s !! x = Some ex → edges s !! y = Some ey → sharesVertex ex ey) →
  findLongestPathFromEdge depth s a playerId visited = Ok r →
  Z.of_nat (length (a :: rest)) ≤ r.
Proof.
  induction rest as [|b rest IH]; intros a depth visited r Hnodup Hfresh Howned Hadj Hrun.
  - destruct depth as [|depth']; [done|].
    rewrite findLongestPathFromEdge_S in Hrun.
    destruct (edges s !! a) as [ea|]; [|done]. cbn [deref mbind res_bind] in Hrun.
    apply foldlR_mono in Hrun; [cbn; lia|].
    intros b1 v b2 _. apply continue_all_mono.
  - destruct depth as [|depth']; [done|].
    rewrite findLongestPathFromEdge_S in Hrun.
    destruct (Howned a) as (ea & Hea & Hca); [by left|].
    destruct (Howned b) as (eb & Heb & Hcb); [right; by left|].
    rewrite Hea in Hrun. cbn [deref mbind res_bind] in Hrun.
    set (visited' := {[a]} ∪ visited) in *.
    (* the search that continues through [b] *)
    assert (Hthrough : ∀ v acc acc',
      (Edge.vertex1 eb = v ∨ Edge.vertex2 eb = v) →
      foldlR (continueThrough depth' s a playerId visited') acc
             (getEdgesConnectedToVertex s v) = Ok acc' →
      Z.of_nat (length (a :: b :: rest)) ≤ acc').
    { intros v acc acc' Hv Hfold.
      assert (Hin : b ∈ getEdgesConnectedToVertex s v).
      { unfold getEdgesConnectedToVertex. apply edgeIndices_spec.
        exists eb. split; [done|]. apply orb_true_iff.
        destruct Hv as [Hv|Hv]; [left|right]; by apply bool_decide_eq_true_2. }
      apply list_elem_of_split in Hin as (l1 & l2 & Hl). rewrite Hl in Hfold.
      apply foldlR_split in Hfold as (b1 & b2 & _ & Hstep & Hrest).
      apply continue_all_mono in Hrest.
      unfold continueThrough in Hstep.
      assert (Hab : b ≠ a).
      { intros ->. apply NoDup_cons in Hnodup as [Hnotin _]. apply Hnotin. by left. }
      assert (Hbv : b ∉ visited').
      { unfold visited'. rewrite elem_of_union, elem_of_singleton.
        intros [?|Hbv]; [done|]. apply (Hfresh b); [right; by left|done]. }
      rewrite (bool_decide_eq_false_2 _ Hab), (bool_decide_eq_false_2 _ Hbv) in Hstep.
      rewrite Heb, Hplayer in Hstep. cbn in Hstep.
      rewrite (bool_decide_eq_true_2 _ Hcb) in Hstep.
      destruct (findLongestPathFromEdge depth' s b playerId visited') as [sub|] eqn:Hsub;
        [|done].
      cbn in Hstep. injection Hstep as <-.
      apply IH in Hsub.
      - cbn [length] in *. lia.
      - by apply NoDup_cons in Hnodup as [_ ?].
      - intros x Hx. unfold visited'. rewrite elem_of_union, elem_of_singleton.
        intros [->|Hxv].
        + apply NoDup_cons in Hnodup as [Hnotin _]. by apply Hnotin.
        + apply (Hfresh x); [by right|done].
      - intros x Hx. apply Howned. by right.
      - intros k x y ex ey Hx Hy. apply (Hadj (S k) x y ex ey); done. }
    cbn [foldlR mbind res_bind] in Hrun.
    destruct (foldlR _ 1 (getEdgesConnectedToVertex s (Edge.vertex1 ea))) as [r1|] eqn:H1;
      [|done].
    cbn [mbind res_bind] in Hrun.
    destruct (foldlR _ r1 (getEdgesConnectedToVertex s (Edge.vertex2 ea))) as [r2|] eqn:H2;
      [|done].
    cbn [mbind res_bind] in Hrun. injection Hrun as <-.
    destruct (Hadj 0%nat a b ea eb eq_refl eq_refl Hea Heb) as [Hs|[Hs|[Hs|Hs]]].
    + apply continue_all_mono in H2. apply (Hthrough _ _ _ (or_introl Hs)) in H1. lia.
    + apply continue_all_mono in H2. apply (Hthrough _ _ _ (or_intror Hs)) in H1. lia.
    + by apply (Hthrough _ _ _ (or_introl Hs)) in H2.
    + by apply (Hthrough _ _ _ (or_intror Hs)) in H2.
Qed.

End Sequence.

Section Bound.
Variables (s : GameState) (playerId : nat) (player : Player.t) (owned : gset nat).
Hypothesis Hplayer : players s !! playerId = Some player.
Hypothesis Howned : ∀ i edge,
  edges s !! i = Some edge → Edge.road edge = Some (Player.color player) → i ∈ owned.

(** The search from [a] counts no more than the player's unvisited
    edges. *)
Lemma findLongestPathFromEdge_upper depth : ∀ a (visited : gset nat) r,
  a ∈ owned → a ∉ visited →
  findLongestPathFromEdge depth s a playerId visited = Ok r →
  r ≤ Z.of_nat (size (owned ∖ visited)).
Proof.
  induction depth as [|depth' IH]; intros a visited r Ha Hfresh Hrun; [done|].
  rewrite findLongestPathFromEdge_S in Hrun.
  destruct (edges s !! a) as [ea|]; [|done]. cbn [deref mbind res_bind] in Hrun.
  assert (Hsize : size (owned ∖ ({[a]} ∪ visited)) = (size (owned ∖ visited) - 1)%nat).
  { replace (owned ∖ ({[a]} ∪ visited)) with ((owned ∖ visited) ∖ {[a]}).
    - rewrite size_difference, size_singleton; [done|].
      intros x ->%elem_of_singleton. by apply elem_of_difference.
    - apply set_eq. intros x.
      rewrite !elem_of_difference, elem_of_union, elem_of_singleton. tauto. }
  assert (Hpos : (1 ≤ size (owned ∖ visited))%nat).
  { assert (size (owned ∖ visited) ≠ 0%nat); [|lia].
    apply size_non_empty_iff. intros Hempty.
    apply (not_elem_of_empty (C := gset nat) a). rewrite <- Hempty.
    by apply elem_of_difference. }
  revert Hrun. apply (foldlR_post (λ r, r ≤ Z.of_nat (size (owned ∖ visited)))); [lia|].
  intros acc v acc' _ Hacc.
  apply (foldlR_post (λ r, r ≤ Z.of_nat (size (owned ∖ visited)))); [done|].
  clear acc Hacc. intros acc n acc1 _ Hacc Hstep. unfold continueThrough in Hstep.
  destruct (negb (bool_decide (n = a))) eqn:Hna; cbn [andb] in Hstep; [|by injection Hstep as <-].
  destruct (bool_decide (n ∈ {[a]} ∪ visited)) eqn:Hnv; cbn [negb] in Hstep;
    [by injection Hstep as <-|].
  apply bool_decide_eq_false_1 in Hnv.
  destruct (edges s !! n) as [nextEdge|] eqn:Hn; [|done].
  rewrite Hplayer in Hstep. cbn in Hstep.
  case_bool_decide as Hroad; [|by injection Hstep as <-].
  destruct (findLongestPathFromEdge depth' s n playerId ({[a]} ∪ visited)) as [sub|] eqn:Hsub;
    [|done].
  cbn in Hstep. injection Hstep as <-.
  apply IH in Hsub; [|by eapply Howned|done].
  rewrite Hsize in Hsub. lia.
Qed.

End Bound.

(** What the search of C7 computes.  If the edges that carry a player's roads
    can be listed so that each has an endpoint in common with the
    next, [calculateLongestRoad] returns their number.  This is so on
    a straight chain of 5 edges, where 5 is also the longest trail,
    and it is so on a "Y", whose edges can be listed branch after
    branch through the fork. *)
Lemma calculateLongestRoad_adjacentSequence (s : GameState) (playerId : nat)
    (player : Player.t) (es : list nat) :
  players s !! playerId = Some player →
  adjacentSequence s (Player.color player) es →
  calculateLongestRoad s playerId = Ok (Z.of_nat (length es)).
Proof.
  intros Hplayer (Hnodup & Hes & Hadj).
  destruct (calculateLongestRoad_returns s playerId) as [n Hrun]; [by eexists|].
  rewrite Hrun. f_equal.
  destruct es as [|a rest].
  { (* no roads *)
    unfold calculateLongestRoad in Hrun.
    destruct (edges s) as [|e0 es0] eqn:Hedges; [by injection Hrun as <-|].
    rewrite <- Hedges in *. rewrite Hplayer in Hrun. cbn [deref mbind res_bind] in Hrun.
    destruct (edgeIndices _ (edges s)) as [|i0 is'] eqn:Hroads; [by injection Hrun as <-|].
    assert (Hi0 : i0 ∈ edgeIndices
              (λ _ edge, bool_decide (Edge.road edge = Some (Player.color player)))
              (edges s)) by (rewrite Hroads; by left).
    apply edgeIndices_spec in Hi0 as (e & He & Hroad%bool_decide_eq_true_1).
    assert (i0 ∈ @nil nat) as Hnil%elem_of_nil by (apply Hes; eauto). done. }
  assert (Ha : a ∈ edgeIndices
            (λ _ edge, bool_decide (Edge.road edge = Some (Player.color player)))
            (edges s)).
  { destruct (proj1 (Hes a)) as (ea & Hea & Hroad); [by left|].
    apply edgeIndices_spec. exists ea. split; [done|]. by apply bool_decide_eq_true_2. }
  unfold calculateLongestRoad in Hrun.
  destruct (edges s) as [|e0 es0] eqn:Hedges.
  { rewrite <- Hedges in Ha. rewrite Hedges in Ha. by apply elem_of_nil in Ha. }
  rewrite <- Hedges in *. rewrite Hplayer in Hrun. cbn [deref mbind res_bind] in Hrun.
  destruct (edgeIndices _ (edges s)) as [|i0 is'] eqn:Hroads; [by apply elem_of_nil in Ha|].
  rewrite <- Hroads in *. clear Hroads i0 is'.
  apply Z.le_antisymm.
  - (* no more than the number of roads *)
    revert Hrun. apply (foldlR_post (λ r, r ≤ Z.of_nat (length (a :: rest)))); [lia|].
    intros acc start acc' Hstart Hacc Hstep.
    destruct (findLongestPathFromEdge _ s start playerId ∅) as [len|] eqn:Hlen; [|done].
    cbn in Hstep. injection Hstep as <-.
    apply (findLongestPathFromEdge_upper s playerId player (list_to_set (a :: rest)))
      in Hlen; [| done | | |].
    + rewrite difference_empty_L, size_list_to_set in Hlen by done. lia.
    + intros i edge Hi Hroad. apply elem_of_list_to_set, Hes. eauto.
    + apply edgeIndices_spec in Hstart as (e & He & Hroad%bool_decide_eq_true_1).
      apply elem_of_list_to_set, Hes. eauto.
    + apply not_elem_of_empty.
  - (* at least the sequence from its first edge *)
    apply list_elem_of_split in Ha as (l1 & l2 & Hl). rewrite Hl in Hrun.
    apply foldlR_split in Hrun as (b1 & b2 & _ & Hstep & Hrest).
    destruct (findLongestPathFromEdge _ s a playerId ∅) as [len|] eqn:Hlen; [|done].
    cbn in Hstep. injection Hstep as <-.
    apply foldlR_mono in Hrest.
    2:{ intros b x b' _ Hx.
        destruct (findLongestPathFromEdge _ s x playerId ∅); [|done].
        cbn in Hx. injection Hx as <-. lia. }
    apply (findLongestPathFromEdge_lower s playerId player Hplayer rest) in Hlen;
      [lia|done|intros x _; apply not_elem_of_empty| |done].
    intros x Hx. by apply Hes.
Qed.

Lemma calculateLongestRoad_sequence_of s playerId color es :
  Player.color <$> players s !! playerId = Some color →
  adjacentSequence s color es →
  calculateLongestRoad s playerId = Ok (Z.of_nat (length es)).
Proof.
  intros Hcolor Hseq. destruct (players s !! playerId) as [player|] eqn:Hp; [|done].
  injection Hcolor as <-. by eapply calculateLongestRoad_adjacentSequence.
Qed.

(** a test of [adjacentSequence] that can be run *)
Lemma adjacentSequence_check s color es :
  bool_decide (NoDup es) = true →
  forallb (λ i, bool_decide (i ∈ es))
          (edgeIndices (λ _ e, bool_decide (Edge.road e = Some color)) (edges s)) = true →
  forallb (λ i, bool_decide
             (i ∈ edgeIndices (λ _ e, bool_decide (Edge.road e = Some color)) (edges s)))
          es = true →
  forallb (λ ab : nat * nat,
             match edges s !! ab.1, edges s !! ab.2 with
             | Some ea, Some eb => bool_decide (sharesVertex ea eb)
             | _, _ => true
             end) (zip es (tail es)) = true →
  adjacentSequence s color es.
Proof.
  intros Hnodup Hsub Hsup Hadj. split_and!.
  - exact (bool_decide_eq_true_1 _ Hnodup).
  - intros i. split.
    + intros Hi. rewrite forallb_forall in Hsup.
      specialize (Hsup i (proj1 (list_elem_of_In _ _) Hi)).
      apply bool_decide_eq_true_1, edgeIndices_spec in Hsup as (e & He & Hroad).
      exists e. split; [done|]. by apply bool_decide_eq_true_1 in Hroad.
    + intros (e & He & Hroad). rewrite forallb_forall in Hsub.
      eapply bool_decide_eq_true_1, Hsub, list_elem_of_In, edgeIndices_spec.
      exists e. split; [done|]. by apply bool_decide_eq_true_2.
  - intros k a b ea eb Ha Hb Hea Heb. rewrite forallb_forall in Hadj.
    specialize (Hadj (a, b)). cbn [fst snd] in Hadj. rewrite Hea, Heb in Hadj.
    eapply bool_decide_eq_true_1, Hadj, list_elem_of_In, list_elem_of_lookup.
    exists k. apply lookup_zip_with_Some. exists a, b. split; [done|]. split; [done|].
    by rewrite lookup_tail.
Qed.

(** ** Builds outside the setup (C10, C4) *)

Lemma list_fmap_alter_same {A B} (g : A → B) (f : A → A) i (l : list A) :
  (∀ x, g (f x) = g x) → g <$> alter f i l = g <$> l.
Proof.
  intros Hg. apply list_eq. intros j. rewrite !list_lookup_fmap, list_lookup_alter.
  case_decide; subst; [|done]. destruct (l !! j); cbn; [by rewrite Hg|done].
Qed.

Section NormalBuilds.
Context `{JsMath}.

Lemma updateLongestRoad_frame :
  preserves (λ e, (edges (state e), vertices (state e), phase (state e),
                   playerBuilt <$> players (state e))) updateLongestRoad.
Proof.
  unfold updateLongestRoad, updatePlayer.
  repeat first
    [ frame_step
    | match goal with
      | |- preserves _ (modifyS _) =>
          intros ?; cbn; f_equal; by apply list_fmap_alter_same
      end ].
Qed.

(** A settlement outside the setup needs only: an existing player who
    can afford it, an existing empty vertex, and the distance rule. *)
Lemma buildSettlement_normal vertexId playerId e player vertex :
  inInitialPlacement e = false →
  players (state e) !! playerId = Some player →
  canAffordSettlement player = true →
  vertices (state e) !! vertexId = Some vertex →
  Vertex.building vertex = None →
  checkDistanceRule (state e) vertexId = Ok true →
  buildSettlement vertexId playerId e =
    (Ok true,
     withState
       (set_players (alter payForSettlement playerId)
         (set_players (alter (Player.set_victoryPoints (λ n, n + 1)) playerId)
           (set_players (alter (Player.set_settlements (λ n, n + 1)) playerId)
             (set_vertices (alter (Vertex.set_playerColor (Some (Player.color player)))
                                  vertexId)
               (set_vertices (alter (Vertex.set_building (Some settlement)) vertexId)
                 (state e)))))) e).
Proof.
  intros Hinit Hp Hafford Hv Hfree Hfar. unfold buildSettlement. rewrite Hinit.
  unfold mbind, M_bind, getS, liftR. rewrite Hp. cbn [deref]. rewrite Hafford.
  cbn [negb]. rewrite Hv. cbn [deref]. rewrite Hfree, Hfar. reflexivity.
Qed.

(** A city needs only: an existing vertex with a settlement, an
    existing player of the settlement's colour who can afford it. *)
Lemma buildCity_normal vertexId playerId e player vertex :
  vertices (state e) !! vertexId = Some vertex →
  Vertex.building vertex = Some settlement →
  players (state e) !! playerId = Some player →
  Vertex.playerColor vertex = Some (Player.color player) →
  canAffordCity player = true →
  buildCity vertexId playerId e =
    (Ok true,
     withState
       (set_players (alter payForCity playerId)
         (set_players (alter (Player.set_victoryPoints (λ n, n + 1)) playerId)
           (set_players (alter (Player.set_settlements (λ n, n - 1)) playerId)
             (set_players (alter (Player.set_cities (λ n, n + 1)) playerId)
               (set_vertices (alter (Vertex.set_building (Some city)) vertexId)
                 (state e)))))) e).
Proof.
  intros Hv Hs Hp Hc Hafford. unfold buildCity.
  unfold mbind, M_bind, getS, liftR. rewrite Hv. cbn [deref]. rewrite Hs.
  rewrite bool_decide_eq_true_2 by done. cbn [negb]. rewrite Hp. cbn [deref].
  rewrite Hc, bool_decide_eq_true_2 by done. cbn [negb]. rewrite Hafford. reflexivity.
Qed.

(** A road outside the setup needs only: an existing free edge, an
    existing player who can afford it, and the connection test. *)
Lemma buildRoad_normal edgeId playerId vertexId e player edge :
  inInitialPlacement e = false ∨ vertexId = None →
  playersWf (state e) →
  edges (state e) !! edgeId = Some edge →
  Edge.road edge = None →
  players (state e) !! playerId = Some player →
  canAffordRoad player = true →
  isRoadConnected (state e) edgeId playerId = Ok true →
  ∃ e', buildRoad edgeId playerId vertexId e = (Ok true, e') ∧
    edges (state e') = alter (Edge.set_road (Some (Player.color player))) edgeId
                             (edges (state e)) ∧
    vertices (state e') = vertices (state e) ∧
    phase (state e') = phase (state e) ∧
    playerBuilt <$> players (state e')
    = playerBuilt <$> alter (λ p, payForRoad (Player.set_roads (λ n, n + 1) p)) playerId
                            (players (state e)).
Proof.
  intros Hnormal Hwf He Hfree Hp Hafford Hconn.
  assert (buildRoad edgeId playerId vertexId e = buildRoadNormal edgeId playerId e) as ->.
  { unfold buildRoad. destruct Hnormal as [Hn | ->]; [|done].
    destruct vertexId; [|done]. by rewrite Hn. }
  unfold buildRoadNormal.
  unfold mbind at 1, M_bind at 1, getS. cbn beta iota.
  unfold mbind at 1, M_bind at 1, liftR. rewrite He. cbn [deref]. rewrite Hfree.
  unfold mbind at 1, M_bind at 1, liftR. rewrite Hp. cbn [deref]. rewrite Hafford.
  cbn [negb].
  unfold mbind at 1, M_bind at 1, liftR. rewrite Hconn. cbn [negb].
  unfold mbind at 1, M_bind at 1, updateEdge, modifyS. cbn beta iota.
  unfold mbind at 1, M_bind at 1, updatePlayer, modifyS. cbn beta iota.
  unfold mbind at 1, M_bind at 1, updatePlayer, modifyS. cbn beta iota.
  cbn [state initialPlacement rng console].
  set (e1 := mkEngine _ _ _ _).
  destruct (updateLongestRoad_returns e1) as [e' Hrun].
  { unfold e1. cbn [state].
    apply (playersWf_alter _ _ _ (λ s, s)); [by intros []|done|done|].
    apply (playersWf_alter _ _ _ (λ s, s)); [by intros []|done|done|].
    destruct Hwf as [Hids Hh]. split; [exact Hids|exact Hh]. }
  pose proof (updateLongestRoad_frame e1) as Hframe. rewrite Hrun in Hframe.
  cbn [snd] in Hframe. injection Hframe as Hedges Hvertices Hphase Hplayers.
  exists e'. unfold mbind, M_bind. rewrite Hrun. split; [done|].
  rewrite Hedges, Hvertices, Hphase, Hplayers. unfold e1. cbn.
  split_and!; try done.
  apply list_eq. intros j. rewrite !list_lookup_fmap.
  destruct (decide (j = playerId)) as [->|Hne].
  - rewrite !list_lookup_alter_eq. by destruct (players (state e) !! playerId).
  - by rewrite !list_lookup_alter_ne.
Qed.

End NormalBuilds.

(** C10.  Outside the setup the three build commands test only what
    they build on: no hypothesis below mentions the phase, the current
    seat or the dice.  For any seat [playerId] of the player array, a
    settlement is built whenever the player can afford it, the vertex
    exists and is empty and the distance rule holds; a city whenever
    the vertex holds a settlement of the player's colour and the player
    can afford it; a road whenever the edge exists and is free, the
    player can afford it and the connection test passes.  Each returns
    [true] and writes the building and the payment. *)
Theorem builds_consult_neither_phase_nor_seat `{JsMath} (e : Engine) (playerId : nat)
    (player : Player.t) :
  players (state e) !! playerId = Some player →
  (∀ vertexId vertex,
     inInitialPlacement e = false →
     canAffordSettlement player = true →
     vertices (state e) !! vertexId = Some vertex →
     Vertex.building vertex = None →
     checkDistanceRule (state e) vertexId = Ok true →
     ∃ e', buildSettlement vertexId playerId e = (Ok true, e') ∧
       vertices (state e') !! vertexId
         = Some (Vertex.set_playerColor (Some (Player.color player))
                   (Vertex.set_building (Some settlement) vertex)) ∧
       players (state e') !! playerId
         = Some (payForSettlement (Player.set_victoryPoints (λ n, n + 1)
                   (Player.set_settlements (λ n, n + 1) player)))) ∧
  (∀ vertexId vertex,
     vertices (state e) !! vertexId = Some vertex →
     Vertex.building vertex = Some settlement →
     Vertex.playerColor vertex = Some (Player.color player) →
     canAffordCity player = true →
     ∃ e', buildCity vertexId playerId e = (Ok true, e') ∧
       vertices (state e') !! vertexId = Some (Vertex.set_building (Some city) vertex) ∧
       players (state e') !! playerId
         = Some (payForCity (Player.set_victoryPoints (λ n, n + 1)
                   (Player.set_settlements (λ n, n - 1)
                      (Player.set_cities (λ n, n + 1) player))))) ∧
  (∀ edgeId edge vertexId,
     inInitialPlacement e = false ∨ vertexId = None →
     playersWf (state e) →
     edges (state e) !! edgeId = Some edge →
     Edge.road edge = None →
     canAffordRoad player = true →
     isRoadConnected (state e) edgeId playerId = Ok true →
     ∃ e', buildRoad edgeId playerId vertexId e = (Ok true, e') ∧
       edges (state e') !! edgeId
         = Some (Edge.set_road (Some (Player.color player)) edge) ∧
       playerBuilt <$> players (state e') !! playerId
         = Some (playerBuilt (payForRoad (Player.set_roads (λ n, n + 1) player)))).
Proof.
  intros Hp. split_and!.
  - intros v vertex Hinit Hafford Hv Hfree Hfar.
    eexists. split; [by eapply buildSettlement_normal|]. cbn. split.
    + by rewrite !list_lookup_alter_eq, Hv.
    + by rewrite !list_lookup_alter_eq, Hp.
  - intros v vertex Hv Hs Hc Hafford.
    eexists. split; [by eapply buildCity_normal|]. cbn. split.
    + by rewrite !list_lookup_alter_eq, Hv.
    + by rewrite !list_lookup_alter_eq, Hp.
  - intros ed edge vid Hnormal Hwf He Hfree Hafford Hconn.
    destruct (buildRoad_normal ed playerId vid e player edge)
      as (e' & Hrun & Hedges & _ & _ & Hplayers); try done.
    exists e'. split; [done|]. split.
    + by rewrite Hedges, list_lookup_alter_eq, He.
    + rewrite <- list_lookup_fmap, Hplayers, list_lookup_fmap.
      by rewrite list_lookup_alter_eq, Hp.
Qed.


(** ** The drawn board (C9) *)

Lemma countIf_cons {A} (f : A → bool) a l :
  countIf f (a :: l) = ((if f a then 1 else 0) + countIf f l)%nat.
Proof. unfold countIf. cbn. by destruct (f a). Qed.

Lemma countIf_perm {A} (f : A → bool) l k : l ≡ₚ k → countIf f l = countIf f k.
Proof.
  induction 1 as [|a l k _ IH|a b l|l k m _ IH1 _ IH2];
    rewrite ?countIf_cons; [done|by rewrite IH|lia|congruence].
Qed.

Lemma countPairs_perm {A} (f : A → A → bool) l k :
  (∀ a b, f a b = f b a) → l ≡ₚ k → countPairs f l = countPairs f k.
Proof.
  intros Hsym. induction 1 as [|a l k Hperm IH|a b l|l k m _ IH1 _ IH2]; cbn [countPairs].
  - done.
  - by rewrite IH, (countIf_perm _ _ _ Hperm).
  - rewrite !countIf_cons, (Hsym a b). lia.
  - congruence.
Qed.

Lemma countIf_le {A B} (R : A → B → Prop) (f : A → bool) (g : B → bool) l k :
  Forall2 R l k → (∀ x y, R x y → g y = true → f x = true) →
  (countIf g k ≤ countIf f l)%nat.
Proof.
  intros Hall Hfg. induction Hall as [|x y l k Hxy _ IH]; [done|].
  rewrite !countIf_cons. specialize (Hfg x y Hxy).
  destruct (g y); [rewrite Hfg by done|destruct (f x)]; lia.
Qed.

Lemma countPairs_le {A B} (R : A → B → Prop) (f : A → A → bool) (g : B → B → bool) l k :
  Forall2 R l k →
  (∀ x y x' y', R x y → R x' y' → g y y' = true → f x x' = true) →
  (countPairs g k ≤ countPairs f l)%nat.
Proof.
  intros Hall Hfg. induction Hall as [|x y l k Hxy Hall IH]; [done|].
  cbn [countPairs].
  pose proof (countIf_le R (f x) (g y) l k Hall) as Hle.
  specialize (Hle ltac:(intros x' y' ?; by apply Hfg)). lia.
Qed.

Lemma Forall2_perm_l {A B} (R : A → B → Prop) (l l' : list A) :
  l ≡ₚ l' → ∀ k, Forall2 R l k → ∃ k', k ≡ₚ k' ∧ Forall2 R l' k'.
Proof.
  induction 1 as [|a l l' _ IH|a b l|l l' l'' _ IH1 _ IH2]; intros k Hall.
  - exists k. split; [done|]. by inversion Hall.
  - inversion Hall as [|? y ? k0 Hay Hrest]; subst.
    destruct (IH k0 Hrest) as (k' & Hperm & Hall').
    exists (y :: k'). split; [by constructor|by constructor].
  - inversion Hall as [|? y ? k0 Hay Hrest]; subst.
    inversion Hrest as [|? z ? k1 Hbz Hrest']; subst.
    exists (z :: y :: k1). split; [apply perm_swap|by repeat constructor].
  - destruct (IH1 k Hall) as (k' & Hperm & Hall').
    destruct (IH2 k' Hall') as (k'' & Hperm' & Hall'').
    exists k''. split; [by etrans|done].
Qed.

(** *** Rounding inside a rectangle *)

Lemma gridKey_le (z : Z) (v : Q) :
  (inject_Z z <= v * grid)%Q → gridKey z <= Qfloor (v * 10 + (1 # 2)).
Proof.
  intros Hz. change (gridKey z) with (Qfloor ((10 * z + 500000) # 1000000)).
  apply Qfloor_resp_le.
  rewrite (Qmake_Qdiv (10 * z + 500000) 1000000), inject_Z_plus, inject_Z_mult.
  unfold grid in Hz. apply Qle_shift_div_r; [done|]. 
  change (inject_Z 10) with 10%Q. change (inject_Z 500000) with 500000%Q.
  change (inject_Z (Z.pos 1000000)) with 1000000%Q. lra.
Qed.

Lemma gridKey_ge (z : Z) (v : Q) :
  (v * grid <= inject_Z z)%Q → Qfloor (v * 10 + (1 # 2)) <= gridKey z.
Proof.
  intros Hz. change (gridKey z) with (Qfloor ((10 * z + 500000) # 1000000)).
  apply Qfloor_resp_le.
  rewrite (Qmake_Qdiv (10 * z + 500000) 1000000), inject_Z_plus, inject_Z_mult.
  unfold grid in Hz. apply Qle_shift_div_l; [done|]. 
  change (inject_Z 10) with 10%Q. change (inject_Z 500000) with 500000%Q.
  change (inject_Z (Z.pos 1000000)) with 1000000%Q. lra.
Qed.

Lemma round10_key (v : Q) : round10 v = (inject_Z (Qfloor (v * 10 + (1 # 2))) / 10)%Q.
Proof. reflexivity. Qed.

Lemma Qeq_bool_key (k1 k2 : Z) :
  Qeq_bool (inject_Z k1 / 10) (inject_Z k2 / 10) = bool_decide (k1 = k2).
Proof.
  case_bool_decide as Hk.
  - subst. by apply Qeq_bool_iff.
  - apply not_true_is_false. intros Heq%Qeq_bool_iff. apply Hk.
    unfold Qeq, Qdiv, Qmult, Qinv, inject_Z in Heq. cbn in Heq. lia.
Qed.

Lemma round10_box p b :
  inBox p b → robust b = true →
  round10 p.1 = (inject_Z (boxKey b).1 / 10)%Q ∧
  round10 p.2 = (inject_Z (boxKey b).2 / 10)%Q.
Proof.
  intros (Hp1 & Hp2 & Hp3 & Hp4).
  unfold robust. rewrite !andb_true_iff, !Z.eqb_eq. intros [Hx Hy].
  apply gridKey_le in Hp1, Hp3. apply gridKey_ge in Hp2, Hp4.
  rewrite !round10_key. unfold boxKey. cbn [fst snd].
  split; do 2 f_equal; lia.
Qed.

Lemma sameKey_boxes p q a b :
  inBox p a → inBox q b → robust a = true → robust b = true →
  sameKey (round10 p.1, round10 p.2) (round10 q.1, round10 q.2)
  = bool_decide (boxKey a = boxKey b).
Proof.
  intros Hp Hq Ha Hb.
  destruct (round10_box p a Hp Ha) as [-> ->], (round10_box q b Hq Hb) as [-> ->].
  unfold sameKey. cbn [fst snd]. rewrite !Qeq_bool_key.
  destruct (boxKey a) as [ax ay], (boxKey b) as [bx b_y]. cbn [fst snd].
  repeat case_bool_decide; simplify_eq; done.
Qed.

(** *** Squared distances between rectangles *)

Lemma squareBounds_spec (lo hi : Z) (d : Q) :
  (inject_Z lo <= d)%Q → (d <= inject_Z hi)%Q →
  (inject_Z (squareBounds lo hi).1 <= d * d)%Q ∧
  (d * d <= inject_Z (squareBounds lo hi).2)%Q.
Proof.
  intros Hlo Hhi. unfold squareBounds. cbn [fst snd]. rewrite !inject_Z_mult. split.
  - destruct (Z.leb_spec 0 lo) as [H0|H0].
    { rewrite Zle_Qle in H0. change (inject_Z 0) with 0%Q in H0. nra. }
    destruct (Z.leb_spec hi 0) as [H1|H1].
    { rewrite Zle_Qle in H1. rewrite inject_Z_opp. change (inject_Z 0) with 0%Q in H1. nra. }
    change (inject_Z 0) with 0%Q. nra.
  - destruct (Z.leb_spec (- lo) hi) as [H0|H0].
    + rewrite Zle_Qle, inject_Z_opp in H0. nra.
    + apply Z.lt_le_incl in H0. rewrite Zle_Qle, !inject_Z_opp in *. nra.
Qed.

Lemma boxNear_spec p q a b :
  inBox p a → inBox q b → boxNear a b = true →
  (3599 <= (q.1 - p.1) * (q.1 - p.1) + (q.2 - p.2) * (q.2 - p.2))%Q ∧
  ((q.1 - p.1) * (q.1 - p.1) + (q.2 - p.2) * (q.2 - p.2) <= 3601)%Q.
Proof.
  intros (Hp1 & Hp2 & Hp3 & Hp4) (Hq1 & Hq2 & Hq3 & Hq4).
  unfold boxNear. cbn zeta. rewrite andb_true_iff, !Z.leb_le, !Zle_Qle, !inject_Z_plus.
  intros [Hleast Hmost].
  destruct (squareBounds_spec (b.1.1 - a.1.2) (b.1.2 - a.1.1) ((q.1 - p.1) * grid))
    as [Hx1 Hx2]; [unfold Z.sub; rewrite inject_Z_plus, inject_Z_opp; lra..|].
  destruct (squareBounds_spec (b.2.1 - a.2.2) (b.2.2 - a.2.1) ((q.2 - p.2) * grid))
    as [Hy1 Hy2]; [unfold Z.sub; rewrite inject_Z_plus, inject_Z_opp; lra..|].
  change (inject_Z 3599000000000000) with 3599000000000000%Q in Hleast.
  change (inject_Z 3601000000000000) with 3601000000000000%Q in Hmost.
  unfold grid in *. split; lra.
Qed.

Lemma boxAdjacent_sym a b : boxAdjacent a b = boxAdjacent b a.
Proof. unfold boxAdjacent. apply andb_comm. Qed.

Lemma cornerSpots_eq : distinctBoxes layoutBoxes = cornerSpots.
Proof. vm_compute. reflexivity. Qed.

Lemma layoutBoxes_robust : Forall (λ b, robust b = true) layoutBoxes.
Proof.
  apply Forall_forall. intros b Hb%list_elem_of_In. revert b Hb.
  apply forallb_forall. vm_compute. reflexivity.
Qed.

Lemma cornerSpots_pairs : countPairs boxAdjacent cornerSpots = 72%nat.
Proof. vm_compute. reflexivity. Qed.

Lemma Qmult_le_l_weak (k a b : Q) : (0 <= k)%Q → (a <= b)%Q → (k * a <= k * b)%Q.
Proof. intros. nra. Qed.

Section Drawn.
Context `{JsMath}.

Lemma placeHex_fold_positions nums cells acc :
  (λ h, (Hex.x h, Hex.y h)) <$> (foldl (placeHex nums) acc cells).1
  = ((λ h, (Hex.x h, Hex.y h)) <$> acc.1) ++ (cellPosition <$> cells.*1).
Proof.
  revert acc. induction cells as [|[[row col] r] cells IH]; intros [hs k]; cbn [foldl].
  - cbn. by rewrite app_nil_r.
  - rewrite IH. cbn [placeHex fst snd]. rewrite fmap_app. cbn.
    by rewrite <- app_assoc.
Qed.

Lemma createBoard_positions supply :
  (λ h, (Hex.x h, Hex.y h)) <$> (createBoard supply).1.1.1 = cellPosition <$> layoutCells.
Proof.
  unfold createBoard.
  pose proof (shuffleArray_length boardResources supply) as Hlen.
  destruct (shuffleArray boardResources supply) as [shuffledResources supply1].
  destruct (shuffleArray NUMBER_TOKENS supply1) as [shuffledNumbers supply2].
  cbn [fst snd] in *. rewrite placeHex_fold_positions. cbn [fst fmap list_fmap app].
  rewrite fst_zip; [done|]. rewrite Hlen. cbn. lia.
Qed.

Lemma closeTo_boxes v1 v2 a b :
  accurate →
  inBox (Vertex.x v1, Vertex.y v1) a → inBox (Vertex.x v2, Vertex.y v2) b →
  boxAdjacent a b = true → closeTo v1 v2 = true.
Proof.
  intros (_ & _ & _ & Hsqrt) Ha Hb [Hnear _]%andb_true_iff.
  destruct (boxNear_spec _ _ a b Ha Hb Hnear) as [Hlo Hhi]. cbn [fst snd] in Hlo, Hhi.
  unfold closeTo, distance. cbn zeta.
  destruct (Hsqrt _ Hlo Hhi) as [H48 H72].
  unfold Qltb, hexSize. rewrite andb_true_iff, !negb_true_iff. split.
  - apply not_true_is_false. intros Hle%Qle_bool_iff. lra.
  - apply not_true_is_false. intros Hle%Qle_bool_iff. lra.
Qed.

(** the corner of a hex lies in the rectangle of its cell *)
Lemma corner_inBox hex cell i :
  accurate → (i < 6)%nat → (Hex.x hex, Hex.y hex) = cellPosition cell →
  inBox (cornerX hex i, cornerY hex i) (cornerBox cell i).
Proof.
  intros (Hs1 & Hs2 & Hdir & _) Hi Hpos.
  destruct (Hdir i Hi) as (Hc1 & Hc2 & Hs3 & Hs4).
  apply (f_equal fst) in Hpos as Hx. apply (f_equal snd) in Hpos as Hy.
  unfold cellPosition in Hx, Hy. cbn [fst snd] in Hx, Hy.
  unfold inBox, cornerBox, cornerX, cornerY. cbn [fst snd]. rewrite Hx, Hy.
  unfold hexWidth, hexHeight.
  assert (Hcol : (0 <= inject_Z (Z.of_nat cell.2))%Q)
    by (change 0%Q with (inject_Z 0); rewrite <- Zle_Qle; lia).
  generalize dependent (inject_Z (Z.of_nat cell.2)). intros col Hx Hcol.
  generalize (inject_Z (Z.of_nat cell.1)). intros row.
  set (k := (col + (if bool_decide ((cell.1 `mod` 2)%nat = 1%nat) then 1 # 2 else 0))%Q).
  assert (Hk : (0 <= k)%Q) by (unfold k; case_bool_decide; lra).
  assert (Hlow : (k * (17320508 # 10000000) <= k * sqrt3)%Q)
    by (apply Qmult_le_l_weak; done).
  assert (Hhigh : (k * sqrt3 <= k * (17320509 # 10000000))%Q)
    by (apply Qmult_le_l_weak; done).
  clearbody k. unfold hexSize, grid, tolerance in *.
  split_and!.
  - eapply Qle_trans; [apply Qfloor_le|]. lra.
  - eapply Qle_trans; [|apply Qle_ceiling]. lra.
  - eapply Qle_trans; [apply Qfloor_le|]. lra.
  - eapply Qle_trans; [|apply Qle_ceiling]. lra.
Qed.

Lemma cornerPositions_fold hexes :
  cornerPositions hexes = foldl noteCorner [] (flat_map hexCorners hexes).
Proof.
  change (cornerPositions hexes)
    with (foldl (λ vp hex, foldl noteCorner vp (hexCorners hex)) [] hexes).
  generalize (@nil (Q * Q * (Q * Q))).
  induction hexes as [|hex hexes IH]; intros acc; [done|].
  cbn [foldl flat_map]. by rewrite foldl_app, <- IH.
Qed.

Lemma corners_inBox hexes cells :
  accurate →
  Forall2 (λ hex cell, (Hex.x hex, Hex.y hex) = cellPosition cell) hexes cells →
  Forall2 inBox (flat_map hexCorners hexes)
          (flat_map (λ cell, cornerBox cell <$> seq 0 6) cells).
Proof.
  intros Hacc. induction 1 as [|hex cell hexes cells Hpos _ IH]; [constructor|].
  cbn [flat_map]. apply Forall2_app; [|done].
  unfold hexCorners. apply Forall2_fmap, Forall_Forall2_diag, Forall_forall.
  intros i Hi%elem_of_seq. apply corner_inBox; [done|lia|done].
Qed.

Lemma existsb_entries acc accB p b :
  Forall2 entryInBox acc accB → inBox p b → robust b = true →
  existsb (λ entry : Q * Q * (Q * Q), sameKey entry.1 (round10 p.1, round10 p.2)) acc
  = existsb (λ b', bool_decide (boxKey b' = boxKey b)) accB.
Proof.
  intros Hall Hp Hb. induction Hall as [|entry b' acc accB (Hkey & Hin & Hrobust) _ IH];
    [done|].
  cbn [existsb]. rewrite IH, Hkey. f_equal. by apply sameKey_boxes.
Qed.

Lemma noteCorner_boxes ps bs :
  Forall2 inBox ps bs → Forall (λ b, robust b = true) bs →
  ∀ acc accB, Forall2 entryInBox acc accB →
  Forall2 entryInBox (foldl noteCorner acc ps) (foldl noteBox accB bs).
Proof.
  induction 1 as [|p b ps bs Hp _ IH]; intros Hrobust acc accB Hacc; [done|].
  inversion Hrobust as [|? ? Hb Hrest]; subst. cbn [foldl]. apply IH; [done|].
  unfold noteCorner, noteBox. cbn zeta. rewrite (existsb_entries acc accB p b) by done.
  destruct (existsb _ accB); [done|].
  apply Forall2_app; [done|]. constructor; [|constructor].
  split; [done|]. by split.
Qed.

(** the corners that [calculateVertexPositions] finds on a board with
    the hexes of the layout lie in the rectangles of [cornerSpots],
    one in each *)
Lemma cornerPositions_boxes hexes :
  accurate →
  Forall2 (λ hex cell, (Hex.x hex, Hex.y hex) = cellPosition cell) hexes layoutCells →
  Forall2 inBox (cornerPositions hexes).*2 cornerSpots.
Proof.
  intros Hacc Hcells. rewrite cornerPositions_fold, <- cornerSpots_eq.
  apply Forall2_fmap_l.
  eapply Forall2_impl;
    [apply (noteCorner_boxes (flat_map hexCorners hexes) layoutBoxes)|].
  - by apply corners_inBox.
  - apply layoutBoxes_robust.
  - constructor.
  - by intros entry b (_ & Hin & _).
Qed.

Lemma insertPosition_perm p l : insertPosition p l ≡ₚ p :: l.
Proof.
  induction l as [|q l IH]; [done|]. cbn [insertPosition].
  destruct (positionBefore p q); [done|]. rewrite IH. apply perm_swap.
Qed.

Lemma sortPositions_perm l acc :
  foldl (λ sorted p, insertPosition p sorted) acc l ≡ₚ acc ++ l.
Proof.
  revert acc. induction l as [|p l IH]; intros acc; cbn [foldl].
  - by rewrite app_nil_r.
  - rewrite IH, insertPosition_perm. cbn [app]. apply Permutation_middle.
Qed.

(** the positions written by [calculateVertexPositions] *)
Lemma writePositions_lookup (ps : list (Q * Q)) (vs : list Vertex.t) :
  length (foldl (λ vertices (ip : nat * (Q * Q)),
                   alter (λ v, Vertex.mk (Vertex.id v) ip.2.1 ip.2.2
                                         (Vertex.building v) (Vertex.playerColor v))
                         ip.1 vertices)
                vs (imap pair ps)) = length vs ∧
  ∀ j v p,
    foldl (λ vertices (ip : nat * (Q * Q)),
             alter (λ v, Vertex.mk (Vertex.id v) ip.2.1 ip.2.2
                                   (Vertex.building v) (Vertex.playerColor v))
                   ip.1 vertices)
          vs (imap pair ps) !! j = Some v →
    ps !! j = Some p → (Vertex.x v, Vertex.y v) = p.
Proof.
  induction ps as [|q ps [Hlen IH]] using rev_ind.
  { split; [done|]. intros j v p _ Hp. by rewrite lookup_nil in Hp. }
  rewrite imap_app, foldl_app. cbn [imap foldl fst snd].
  split; [by rewrite length_alter|].
  rewrite Nat.add_0_r. intros j v p Hv Hp.
  destruct (decide (j = length ps)) as [->|Hne].
  - rewrite list_lookup_alter_eq in Hv. rewrite list_lookup_middle in Hp by done.
    destruct (_ !! length ps) as [v0|]; [|done]. cbn in Hv. simplify_eq.
    by destruct p.
  - rewrite list_lookup_alter_ne in Hv by done.
    assert (j < length ps)%nat.
    { apply lookup_lt_Some in Hp. rewrite length_app in Hp. cbn in Hp. lia. }
    rewrite lookup_app_l in Hp by done. by eapply IH.
Qed.

Lemma calculateVertexPositions_boxes hexes vs bs :
  Forall2 inBox ((cornerPositions hexes).*2) bs → length vs = length bs →
  ∃ bs', bs ≡ₚ bs' ∧ Forall2 vertexInBox (calculateVertexPositions hexes vs) bs'.
Proof.
  intros Hboxes Hlen. unfold calculateVertexPositions.
  pose proof (sortPositions_perm ((cornerPositions hexes).*2) []) as Hperm.
  cbn [app] in Hperm. symmetry in Hperm.
  destruct (Forall2_perm_l inBox _ _ Hperm bs Hboxes) as (bs' & Hbs & Hsorted).
  exists bs'. split; [done|].
  destruct (writePositions_lookup
              (foldl (λ sorted p, insertPosition p sorted) [] (cornerPositions hexes).*2) vs)
    as [Hlen' Hwritten].
  apply Forall2_same_length_lookup. split.
  - by rewrite Hlen', Hlen, Hbs.
  - intros j v b Hv Hb.
    destruct (Forall2_lookup_r _ _ _ _ _ Hsorted Hb) as (p & Hp & Hin).
    unfold vertexInBox. by rewrite (Hwritten j v p Hv Hp).
Qed.

(** *** Counting the edges that are connected *)

Lemma connectPair_closeTo v1 acc v2 :
  connectPair v1 acc v2 =
    if (acc.2 <? length acc.1)%nat && closeTo v1 v2
    then (alter (Edge.set_vertices (Vertex.id v1) (Vertex.id v2)) acc.2 acc.1, S acc.2)
    else acc.
Proof.
  unfold connectPair, closeTo. cbn zeta. destruct (acc.2 <? length acc.1)%nat; [|done].
  cbn [andb]. by destruct (_ && _).
Qed.

Lemma connectInner_filled n v1 rest : ∀ acc,
  Forall (λ v2, Vertex.id v1 < Vertex.id v2 < n)%nat rest →
  filledTo n acc.2 acc.1 → (acc.2 ≤ length acc.1)%nat →
  let r := foldl (connectPair v1) acc rest in
  filledTo n r.2 r.1 ∧ length r.1 = length acc.1 ∧
  r.2 = ((acc.2 + countIf (closeTo v1) rest) `min` length acc.1)%nat.
Proof.
  induction rest as [|v2 rest IH]; intros [es k] Hids Hfilled Hk; cbn [fst snd] in *.
  - cbn. unfold countIf. cbn. split; [done|]. split; [done|]. lia.
  - inversion Hids as [|? ? Hid Hrest]; subst. cbn [foldl]. rewrite countIf_cons.
    rewrite connectPair_closeTo. cbn [fst snd].
    destruct (k <? length es)%nat eqn:Hlt; cbn [andb].
    + apply Nat.ltb_lt in Hlt. destruct (closeTo v1 v2).
      * destruct (IH (alter (Edge.set_vertices (Vertex.id v1) (Vertex.id v2)) k es, S k))
          as (Hf & Hl & Hr); cbn [fst snd]; [done| |by rewrite length_alter|].
        { intros j edge Hj Hedge. destruct (decide (j = k)) as [->|Hne].
          - rewrite list_lookup_alter_eq in Hedge.
            destruct (es !! k) as [edge0|]; [|done]. cbn in Hedge. by simplify_eq.
          - rewrite list_lookup_alter_ne in Hedge by done.
            apply (Hfilled j); [lia|done]. }
        cbn [fst snd] in Hl, Hr. rewrite length_alter in Hl, Hr.
        split; [done|]. split; [done|]. lia.
      * destruct (IH (es, k)) as (Hf & Hl & Hr); cbn [fst snd]; [done..|].
        split; [done|]. split; [done|]. cbn [fst snd] in Hr. lia.
    + apply Nat.ltb_ge in Hlt.
      destruct (IH (es, k)) as (Hf & Hl & Hr); cbn [fst snd]; [done..|].
      split; [done|]. split; [done|]. cbn [fst snd] in Hr. lia.
Qed.

Lemma connectFrom_filled vs : ∀ k acc,
  vertexIdsFrom k vs →
  filledTo (k + length vs) acc.2 acc.1 → (acc.2 ≤ length acc.1)%nat →
  let r := connectFrom vs acc in
  filledTo (k + length vs) r.2 r.1 ∧ length r.1 = length acc.1 ∧
  r.2 = ((acc.2 + countPairs closeTo vs) `min` length acc.1)%nat.
Proof.
  induction vs as [|v1 rest IH]; intros k acc Hids Hfilled Hk; cbn [connectFrom countPairs].
  - cbn zeta. split; [done|]. split; [done|]. lia.
  - assert (Hrest : vertexIdsFrom (S k) rest).
    { intros i v Hi. rewrite (Hids (S i) v Hi). lia. }
    assert (Hv1 : Vertex.id v1 = k).
    { rewrite (Hids 0%nat v1 eq_refl). lia. }
    cbn [length] in *.
    destruct (connectInner_filled (k + S (length rest)) v1 rest acc) as (Hf & Hl & Hr);
      [|done..|].
    { apply Forall_lookup. intros i v2 Hi. rewrite (Hrest i v2 Hi), Hv1.
      apply lookup_lt_Some in Hi. lia. }
    replace (k + S (length rest))%nat with (S k + length rest)%nat in * by lia.
    destruct (IH (S k) (foldl (connectPair v1) acc rest) Hrest Hf) as (Hf' & Hl' & Hr').
    { rewrite Hr, Hl. lia. }
    cbn zeta in *. split; [done|]. split; [congruence|]. rewrite Hr', Hr, Hl. lia.
Qed.

(** when at least as many pairs of vertices are close as there are
    edges, [connectEdgesToVertices] connects every edge *)
Lemma connectEdgesToVertices_all vs es :
  vertexIdsFrom 0 vs → (length es ≤ countPairs closeTo vs)%nat →
  length (connectEdgesToVertices vs es) = length es ∧
  Forall (λ e, (Edge.vertex1 e < Edge.vertex2 e < length vs)%nat)
         (connectEdgesToVertices vs es).
Proof.
  intros Hids Hmany. unfold connectEdgesToVertices.
  destruct (connectFrom_filled vs 0 (es, 0%nat) Hids) as (Hf & Hl & Hr); cbn [fst snd].
  { intros j edge Hj. lia. }
  { lia. }
  cbn zeta in *. cbn [fst snd] in *. split; [done|].
  apply Forall_lookup. intros j edge Hedge. apply (Hf j); [|done].
  apply lookup_lt_Some in Hedge. lia.
Qed.

(** on the board of [createBoard], accurate primitives make at least
    72 pairs of the positioned vertices close *)
Lemma drawn_board_pairs supply vs :
  accurate → length vs = 54%nat →
  (72 ≤ countPairs closeTo
          (calculateVertexPositions (createBoard supply).1.1.1 vs))%nat.
Proof.
  intros Hacc Hlen.
  assert (Hcells : Forall2 (λ hex cell, (Hex.x hex, Hex.y hex) = cellPosition cell)
                           (createBoard supply).1.1.1 layoutCells).
  { apply (Forall2_fmap (λ h, (Hex.x h, Hex.y h)) cellPosition eq).
    by apply list_eq_Forall2, createBoard_positions. }
  destruct (calculateVertexPositions_boxes _ vs cornerSpots
              (cornerPositions_boxes _ Hacc Hcells)) as (bs' & Hperm & Hvs);
    [by rewrite Hlen|].
  rewrite <- cornerSpots_pairs.
  rewrite (countPairs_perm boxAdjacent _ _ boxAdjacent_sym Hperm).
  apply (countPairs_le vertexInBox closeTo boxAdjacent _ _ Hvs).
  intros v1 b1 v2 b2 H1 H2 Hadj. by eapply closeTo_boxes.
Qed.

End Drawn.

Lemma edgeEnds_port (es : list Edge.t) k t :
  edgeEnds <$> alter (Edge.set_port t) k es = edgeEnds <$> es.
Proof. by apply list_fmap_alter_same. Qed.

Section DrawnBoard.
Context `{JsMath}.

Lemma newGameEngine_board supply :
  hexes (state (newGameEngine supply)) = (createBoard supply).1.1.1 ∧
  vertices (state (newGameEngine supply)) = (createBoard supply).1.1.2 ∧
  edges (state (newGameEngine supply)) = (createBoard supply).1.2.
Proof.
  unfold newGameEngine, initializeGame.
  by destruct (createBoard supply) as [[[hs vs] es] supply'].
Qed.

Lemma board_assignPorts :
  preserves (λ e, (hexes (state e), vertices (state e), edgeEnds <$> edges (state e)))
            assignPorts.
Proof.
  unfold assignPorts, updateEdge.
  repeat first
    [ frame_step
    | match goal with
      | |- preserves _ (warn _) => by intros ?
      | |- preserves _ (modifyS _) => intros ?; cbn; by rewrite edgeEnds_port
      end ].
Qed.

(** the board after [drawBoard]: the hexes are kept, the vertices are
    positioned, and the edges have the endpoints given by
    [connectEdgesToVertices] *)
Lemma drawBoard_board e :
  let s := state e in
  let s' := state (drawBoard e).2 in
  hexes s' = hexes s ∧
  vertices s' = calculateVertexPositions (hexes s) (vertices s) ∧
  edgeEnds <$> edges s'
  = edgeEnds <$> connectEdgesToVertices (vertices s') (edges s).
Proof.
  cbn zeta. unfold drawBoard, mbind, M_bind, getS, modifyS. cbn [fst snd state].
  match goal with |- context [if ?b then _ else _] => destruct b end.
  - match goal with
    | |- context [assignPorts ?e1] => pose proof (board_assignPorts e1) as Hframe
    end.
    pose proof (f_equal (λ x, x.1.1) Hframe) as Hhexes.
    pose proof (f_equal (λ x, x.1.2) Hframe) as Hvertices.
    pose proof (f_equal snd Hframe) as Hedges.
    cbn beta in Hhexes, Hvertices, Hedges. cbn [fst snd] in Hhexes, Hvertices, Hedges.
    rewrite Hhexes, Hvertices, Hedges. done.
  - done.
Qed.

End DrawnBoard.

(** C9.  [createBoard] always yields 19 hexes, 54 vertices and 72
    edges, and the renderer's pass, which positions the vertices and
    runs [connectEdgesToVertices], keeps these numbers.  With accurate
    floating-point primitives the pass connects every one of the 72
    edges: each edge joins two different vertices of the board, in the
    arrays the renderer computes and in the state of a new game after
    [drawBoard], whatever the random numbers are. *)
Theorem createBoard_counts_and_edges `{JsMath} (supply : list nat) :
  let hs := (createBoard supply).1.1.1 in
  let vs := (createBoard supply).1.1.2 in
  let es := (createBoard supply).1.2 in
  let positioned := calculateVertexPositions hs vs in
  let connected := connectEdgesToVertices positioned es in
  let drawn := state (drawBoard (newGameEngine supply)).2 in
  length hs = 19%nat ∧ length vs = 54%nat ∧ length es = 72%nat ∧
  length positioned = 54%nat ∧ length connected = 72%nat ∧
  length (hexes drawn) = 19%nat ∧ length (vertices drawn) = 54%nat ∧
  length (edges drawn) = 72%nat ∧
  (accurate →
   Forall (λ e, (Edge.vertex1 e < Edge.vertex2 e < 54)%nat) connected ∧
   Forall (λ e, (Edge.vertex1 e < Edge.vertex2 e < 54)%nat) (edges drawn)).
Proof.
  intros hs vs es positioned connected drawn.
  assert (Hv : vs = (λ i, Vertex.mk i 0 0 None None) <$> seq 0 54)
    by apply createBoard_vertices.
  assert (He : es = (λ i, Edge.mk i 0 0 None None) <$> seq 0 72)
    by apply createBoard_edges.
  assert (Hhs : length hs = 19%nat) by apply (createBoard_hexes supply).
  assert (Hvs : length vs = 54%nat) by (by rewrite Hv).
  assert (Hes : length es = 72%nat) by (by rewrite He).
  destruct (vertexIdsFrom_fmap positioned 54) as [Hids Hlen].
  { unfold positioned. rewrite calculateVertexPositions_ids, Hv.
    rewrite <- list_fmap_compose. apply list_fmap_id. }
  destruct (connectEdgesToVertices_spec positioned es Hids) as [Hlen' _].
  { rewrite He. apply Forall_fmap, Forall_forall. intros i _. by left. }
  destruct (newGameEngine_board supply) as (Hnew1 & Hnew2 & Hnew3).
  destruct (drawBoard_board (newGameEngine supply)) as (Hd1 & Hd2 & Hd3).
  cbn zeta in Hd1, Hd2, Hd3. rewrite Hnew1, Hnew2 in Hd2. rewrite Hnew1 in Hd1.
  rewrite Hd2, Hnew3 in Hd3.
  change (hexes drawn = hs) in Hd1. change (vertices drawn = positioned) in Hd2.
  change (edgeEnds <$> edges drawn = edgeEnds <$> connected) in Hd3.
  assert (Hconnected : length connected = 72%nat) by (by rewrite <- Hes).
  assert (Hdrawn : length (edges drawn) = 72%nat).
  { by rewrite <- (length_fmap edgeEnds), Hd3, length_fmap. }
  split_and!; [done|done|done|done|done|by rewrite Hd1|by rewrite Hd2|done|].
  intros Hacc.
  assert (Hall : Forall (λ e, (Edge.vertex1 e < Edge.vertex2 e < 54)%nat) connected).
  { destruct (connectEdgesToVertices_all positioned es Hids) as [_ Hall].
    - rewrite Hes. by apply drawn_board_pairs.
    - by rewrite Hlen in Hall. }
  split; [done|].
  apply (Forall_fmap edgeEnds (λ ends, (ends.1 < ends.2 < 54)%nat)) in Hall.
  rewrite <- Hd3 in Hall. by apply Forall_fmap in Hall.
Qed.


(** ** Winning (C4) *)

Lemma phaseBlind_ret {A} (a : A) : phaseBlind (mret a).
Proof. intros ph e. split; [done|]. by exists ph. Qed.

Lemma phaseBlind_bind {A B} (m : M A) (k : A → M B) :
  phaseBlind m → (∀ a, phaseBlind (k a)) → phaseBlind (m ≫= k).
Proof.
  intros Hm Hk ph e. unfold mbind, M_bind.
  destruct (Hm ph e) as [Hres [ph' Hst]].
  destruct (m (inPhase ph e)) as [r1 e1], (m e) as [r e2]. cbn [fst snd] in *. subst r1 e1.
  destruct r as [a|err]; [apply Hk|]. split; [done|]. by exists ph'.
Qed.

Lemma phaseBlind_getS {B} (k : GameState → M B) :
  (∀ s ph, k (set_phase ph s) = k s) → (∀ s, phaseBlind (k s)) → phaseBlind (getS ≫= k).
Proof.
  intros Hk Hblind ph e. unfold mbind, M_bind, getS. cbn [state inPhase withState].
  rewrite Hk. apply Hblind.
Qed.

Lemma phaseBlind_read {A} (g : Engine → res A) :
  (∀ ph e, g (inPhase ph e) = g e) → phaseBlind (λ e, (g e, e)).
Proof. intros Hg ph e. cbn [fst snd]. split; [apply Hg|]. by exists ph. Qed.

Lemma phaseBlind_modifyS (f : GameState → GameState) :
  (∀ s ph, ∃ ph', f (set_phase ph s) = set_phase ph' (f s)) → phaseBlind (modifyS f).
Proof.
  intros Hf ph e. split; [done|]. destruct (Hf (state e) ph) as [ph' Heq]. exists ph'.
  unfold modifyS, inPhase, withState. cbn [snd state initialPlacement rng console].
  by rewrite Heq.
Qed.

Lemma phaseBlind_modifyPlacements f : phaseBlind (modifyPlacements f).
Proof. intros ph e. split; [done|]. by exists ph. Qed.

Lemma phaseBlind_forEach {A} (l : list A) (body : A → M unit) :
  (∀ a, phaseBlind (body a)) → phaseBlind (forEach l body).
Proof.
  intros Hbody. induction l as [|a l IH]; [apply phaseBlind_ret|].
  cbn [forEach]. apply phaseBlind_bind; [apply Hbody|by intros].
Qed.

Lemma phaseBlind_case {A} (c : Engine → bool) (m1 m2 : M A) :
  (∀ ph e, c (inPhase ph e) = c e) → phaseBlind m1 → phaseBlind m2 →
  phaseBlind (λ e, if c e then m1 e else m2 e).
Proof. intros Hc H1 H2 ph e. rewrite Hc. destruct (c e); [apply H1|apply H2]. Qed.

Lemma noBuildingAt_phase ph s l : noBuildingAt (set_phase ph s) l = noBuildingAt s l.
Proof. induction l as [|v l IH]; [done|]. cbn [noBuildingAt]. by rewrite IH. Qed.

Lemma checkDistanceRule_phase ph s v :
  checkDistanceRule (set_phase ph s) v = checkDistanceRule s v.
Proof. apply noBuildingAt_phase. Qed.

Lemma findLongestPathFromEdge_phase ph s depth :
  findLongestPathFromEdge depth (set_phase ph s) = findLongestPathFromEdge depth s.
Proof.
  induction depth as [|depth IH]; [done|].
  cbn [findLongestPathFromEdge]. by rewrite IH.
Qed.

Lemma longestRoadStep_phase ph s :
  longestRoadStep (set_phase ph s) = longestRoadStep s.
Proof.
  unfold longestRoadStep, calculateLongestRoad.
  cbn [edges set_phase]. by rewrite findLongestPathFromEdge_phase.
Qed.

Ltac phase_free :=
  intros; cbv beta;
  unfold canPlaceSettlement, inPhase, withState; cbn [state];
  rewrite ?checkDistanceRule_phase, ?longestRoadStep_phase; reflexivity.

Ltac phaseBlind_step :=
  first
    [ apply phaseBlind_ret
    | apply phaseBlind_getS; [phase_free | intros ?]
    | apply (phaseBlind_read _); phase_free
    | apply phaseBlind_modifyS; intros; eexists; reflexivity
    | apply phaseBlind_modifyPlacements
    | apply phaseBlind_case; [intros; reflexivity | |]
    | apply phaseBlind_forEach; intros ?
    | apply phaseBlind_bind; [|intros ?]
    | match goal with
      | |- phaseBlind (match ?x with _ => _ end) => destruct x
      | |- phaseBlind (if ?b then _ else _) => destruct b
      end ].

Lemma neverEnds_frame {A} (m : M A) :
  preserves (λ e, phase (state e)) m → neverEnds m.
Proof. intros Hm e. by rewrite Hm. Qed.

Lemma neverEnds_bind {A B} (m : M A) (k : A → M B) :
  neverEnds m → (∀ a, neverEnds (k a)) → neverEnds (m ≫= k).
Proof.
  intros Hm Hk e. unfold mbind, M_bind. specialize (Hm e).
  destruct (m e) as [[a|err] e1]; cbn [snd] in *; [|done].
  intros Hover. by apply Hm, (Hk a).
Qed.

Section Winning.
Context `{JsMath}.

Lemma phase_buildSettlement v p : preserves (λ e, phase (state e)) (buildSettlement v p).
Proof. frame_auto. Qed.
Lemma phase_buildCity v p : preserves (λ e, phase (state e)) (buildCity v p).
Proof. frame_auto. Qed.
Lemma phase_buildRoadNormal ed p : preserves (λ e, phase (state e)) (buildRoadNormal ed p).
Proof. frame_auto. Qed.

Lemma endTurn_run e q :
  players (state e) !! ((currentPlayerIndex (state e) + 1) `mod` 4)%nat = Some q →
  ∃ e', endTurn e = (Ok tt, e') ∧
    currentPlayerIndex (state e') = ((currentPlayerIndex (state e) + 1) `mod` 4)%nat ∧
    phase (state e') = if 10 <=? Player.victoryPoints q then GameOver else RollingDice.
Proof.
  intros Hq. unfold endTurn, mbind, M_bind, modifyS, getS, liftR.
  cbn -[Nat.modulo Z.leb]. rewrite Hq. cbn -[Nat.modulo Z.leb].
  destruct (10 <=? Player.victoryPoints q); eexists; done.
Qed.

Lemma phaseBlind_liftS_engine {A} (f : GameState → res A) :
  (∀ s ph, f (set_phase ph s) = f s) → phaseBlind (liftS f).
Proof. intros Hf ph e. unfold liftS. cbn. split; [apply Hf|]. by exists ph. Qed.

Lemma phaseBlind_buildSettlement v p : phaseBlind (buildSettlement v p).
Proof.
  unfold buildSettlement, placeInitialSettlement, giveInitialResources,
    updateVertex, updatePlayer, liftR.
  repeat first [ apply phaseBlind_liftS_engine; phase_free | phaseBlind_step ].
Qed.

Lemma phaseBlind_buildCity v p : phaseBlind (buildCity v p).
Proof.
  unfold buildCity, updateVertex, updatePlayer, liftR.
  repeat phaseBlind_step.
Qed.

Lemma phaseBlind_updateLongestRoad : phaseBlind updateLongestRoad.
Proof.
  unfold updateLongestRoad, updatePlayer, liftR.
  repeat phaseBlind_step.
Qed.

Lemma phaseBlind_buildRoadNormal ed p : phaseBlind (buildRoadNormal ed p).
Proof.
  unfold buildRoadNormal, updateEdge, updatePlayer, liftR.
  repeat first [ apply phaseBlind_updateLongestRoad | phaseBlind_step ].
Qed.

Lemma phaseBlind_advanceIfTurnComplete p : phaseBlind (advanceIfTurnComplete p).
Proof.
  assert (Hadv : phaseBlind advanceToNextPlayer).
  { unfold advanceToNextPlayer. repeat phaseBlind_step. }
  intros ph e. unfold advanceIfTurnComplete.
  change (getCurrentPlacementStatus (inPhase ph e) p) with (getCurrentPlacementStatus e p).
  change (initialPlacementRound (state (inPhase ph e))) with (initialPlacementRound (state e)).
  repeat case_match; first [apply Hadv | split; [done|by exists ph]].
Qed.

Lemma phaseBlind_buildRoad ed p vid : phaseBlind (buildRoad ed p vid).
Proof.
  unfold buildRoad. destruct vid as [v|]; [|apply phaseBlind_buildRoadNormal].
  apply phaseBlind_case; [intros; reflexivity| |apply phaseBlind_buildRoadNormal].
  apply phaseBlind_bind.
  { unfold placeInitialRoad, updateEdge, updatePlayer, liftR. repeat phaseBlind_step. }
  intros success. apply phaseBlind_bind; [|intros; apply phaseBlind_ret].
  destruct success; [apply phaseBlind_advanceIfTurnComplete|apply phaseBlind_ret].
Qed.

Lemma neverEnds_execute c e :
  c ≠ CmdEndTurn →
  phase (state (execute c e)) = GameOver → phase (state e) = GameOver.
Proof.
  intros Hc. destruct c; cbn [execute]; [| | | | | |done].
  - apply neverEnds_frame. preserves_auto.
  - revert e. change (neverEnds rollDice). unfold rollDice.
    repeat first
      [ apply neverEnds_frame; solve [preserves_auto]
      | apply neverEnds_bind; [|intros ?]
      | match goal with
        | |- neverEnds (if ?b then _ else _) => destruct b
        | |- neverEnds (modifyS (set_phase MainPhase)) => by intros ?
        end ].
  - apply neverEnds_frame, phase_buildSettlement.
  - apply neverEnds_frame, phase_buildCity.
  - revert e. change (neverEnds (buildRoad edgeId playerId vertexId)).
    assert (Hnormal : neverEnds (buildRoadNormal edgeId playerId))
      by apply neverEnds_frame, phase_buildRoadNormal.
    intros e. unfold buildRoad. destruct vertexId as [v|]; [|apply Hnormal].
    destruct (inInitialPlacement e); [|apply Hnormal].
    revert e. apply neverEnds_bind; [apply neverEnds_frame; preserves_auto|intros success].
    apply neverEnds_bind; [|by intros ? ?].
    destruct success; [|by intros ?].
    intros e. unfold advanceIfTurnComplete, advanceToNextPlayer.
    unfold mbind, M_bind, getS, modifyS. cbn beta iota.
    repeat case_match; cbn; done.
  - apply neverEnds_frame. unfold moveRobber. repeat preserves_step.
Qed.

Lemma endTurn_over e :
  phase (state (endTurn e).2) = GameOver
  ↔ ∃ q, players (state e) !! ((currentPlayerIndex (state e) + 1) `mod` 4)%nat = Some q ∧
         10 ≤ Player.victoryPoints q.
Proof.
  unfold endTurn, mbind, M_bind, modifyS, getS, liftR. cbn -[Nat.modulo Z.leb].
  destruct (players (state e) !! _) as [q|]; cbn -[Nat.modulo Z.leb].
  - destruct (10 <=? Player.victoryPoints q) eqn:Hvp; cbn.
    + apply Z.leb_le in Hvp. split; [|done]. intros _. by exists q.
    + apply Z.leb_gt in Hvp. split; [done|]. intros (q' & [= <-] & ?). lia.
  - split; [done|]. by intros (q & ? & _).
Qed.

Lemma phase_buildRoad e ed p vid :
  phase (state (buildRoad ed p vid e).2) = phase (state e) ∨
  (inInitialPlacement e = true ∧ vid ≠ None ∧
   phase (state (buildRoad ed p vid e).2) = RollingDice).
Proof.
  unfold buildRoad. destruct vid as [v|]; [|left; apply phase_buildRoadNormal].
  destruct (inInitialPlacement e) eqn:Hsetup; [|left; apply phase_buildRoadNormal].
  pose proof (ltac:(preserves_auto) :
    preserves (λ e, phase (state e)) (placeInitialRoad ed p v)) as Hplace.
  specialize (Hplace e). unfold mbind, M_bind.
  destruct (placeInitialRoad ed p v e) as [[[]|] e1]; cbn [snd] in *;
    rewrite <- Hplace; [|by left..].
  unfold advanceIfTurnComplete, advanceToNextPlayer, mbind, M_bind, getS, modifyS.
  repeat case_match; simplify_eq; cbn; first [by left | by right].
Qed.

End Winning.

(** C4, as the code has it.  Outside the setup, a player with 9
    victory points whose settlement passes the checks builds it and
    has 10 points, and the phase is what it was.  No build command
    writes the phase: a settlement and a city never do, and a road
    leaves it as it was or, when it is the setup road that ends the
    setup, sets it to [RollingDice].  No build command reads the phase
    either: started in any other phase it gives the same answer and
    makes the same changes, so a settlement, a city or a road that
    passes its checks is accepted in every phase, [GameOver] included.
    The game-over phase is entered by [endTurn] alone: every other
    command, [rollDice], [moveRobber] and [drawBoard] included, leaves
    a game that is not over not over; and [endTurn] enters it exactly
    when the player of the seat that becomes current has 10 points or
    more. *)
Theorem win_is_declared_by_endTurn `{JsMath} :
  (∀ e vertexId playerId player vertex,
     inInitialPlacement e = false →
     players (state e) !! playerId = Some player →
     Player.victoryPoints player = 9 →
     canAffordSettlement player = true →
     vertices (state e) !! vertexId = Some vertex →
     Vertex.building vertex = None →
     checkDistanceRule (state e) vertexId = Ok true →
     ∃ e', buildSettlement vertexId playerId e = (Ok true, e') ∧
       Player.victoryPoints <$> players (state e') !! playerId = Some 10 ∧
       phase (state e') = phase (state e)) ∧
  (∀ e q,
     players (state e) !! ((currentPlayerIndex (state e) + 1) `mod` 4)%nat = Some q →
     ∃ e', endTurn e = (Ok tt, e') ∧
       currentPlayerIndex (state e') = ((currentPlayerIndex (state e) + 1) `mod` 4)%nat ∧
       phase (state e') = if 10 <=? Player.victoryPoints q then GameOver else RollingDice) ∧
  (∀ e vertexId playerId,
     phase (state (buildSettlement vertexId playerId e).2) = phase (state e) ∧
     phase (state (buildCity vertexId playerId e).2) = phase (state e)) ∧
  (∀ e edgeId playerId vertexId,
     inInitialPlacement e = false ∨ vertexId = None →
     phase (state (buildRoad edgeId playerId vertexId e).2) = phase (state e)) ∧
  (∀ e edgeId playerId vertexId,
     phase (state (buildRoad edgeId playerId vertexId e).2) = phase (state e) ∨
     (inInitialPlacement e = true ∧ vertexId ≠ None ∧
      phase (state (buildRoad edgeId playerId vertexId e).2) = RollingDice)) ∧
  (∀ vertexId playerId edgeId roadVertex,
     phaseBlind (buildSettlement vertexId playerId) ∧
     phaseBlind (buildCity vertexId playerId) ∧
     phaseBlind (buildRoad edgeId playerId roadVertex)) ∧
  (∀ e vertexId playerId player vertex,
     vertices (state e) !! vertexId = Some vertex →
     Vertex.building vertex = Some settlement →
     players (state e) !! playerId = Some player →
     Vertex.playerColor vertex = Some (Player.color player) →
     canAffordCity player = true →
     ∃ e', buildCity vertexId playerId e = (Ok true, e') ∧
       phase (state e') = phase (state e)) ∧
  (∀ e edgeId playerId vertexId player edge,
     inInitialPlacement e = false ∨ vertexId = None →
     playersWf (state e) →
     edges (state e) !! edgeId = Some edge →
     Edge.road edge = None →
     players (state e) !! playerId = Some player →
     canAffordRoad player = true →
     isRoadConnected (state e) edgeId playerId = Ok true →
     ∃ e', buildRoad edgeId playerId vertexId e = (Ok true, e') ∧
       phase (state e') = phase (state e)) ∧
  (∀ c e,
     phase (state (execute c e)) = GameOver → phase (state e) ≠ GameOver →
     c = CmdEndTurn) ∧
  (∀ e,
     phase (state (endTurn e).2) = GameOver
     ↔ ∃ q, players (state e) !! ((currentPlayerIndex (state e) + 1) `mod` 4)%nat = Some q ∧
            10 ≤ Player.victoryPoints q).
Proof.
  split_and!.
  - intros e v p player vertex Hinit Hp Hvp Hafford Hv Hfree Hfar.
    eexists. split; [by eapply buildSettlement_normal|]. cbn. split; [|done].
    rewrite !list_lookup_alter_eq, Hp. cbn. by rewrite Hvp.
  - apply @endTurn_run.
  - intros e v p. split; [apply phase_buildSettlement|apply phase_buildCity].
  - intros e ed p vid Hnormal.
    assert (buildRoad ed p vid e = buildRoadNormal ed p e) as ->.
    { unfold buildRoad. destruct Hnormal as [Hn | ->]; [|done].
      destruct vid; [|done]. by rewrite Hn. }
    apply phase_buildRoadNormal.
  - intros e ed p vid. apply phase_buildRoad.
  - intros v p ed vid. split_and!;
      [apply phaseBlind_buildSettlement|apply phaseBlind_buildCity|apply phaseBlind_buildRoad].
  - intros e v p player vertex Hv Hs Hp Hc Hafford.
    eexists. split; [by eapply buildCity_normal|]. done.
  - intros e ed p vid player edge Hnormal Hwf He Hfree Hp Hafford Hconn.
    destruct (buildRoad_normal ed p vid e player edge)
      as (e' & Hrun & _ & _ & Hphase & _); try done.
    by exists e'.
  - intros c e Hover Hbefore.
    assert (c = CmdEndTurn ∨ c ≠ CmdEndTurn) as [|Hc]
      by (destruct c; first [by left | by right]); [done|].
    by apply neverEnds_execute in Hover.
  - apply endTurn_over.
Qed.


(* ===================================================================== *)
(** * Further properties of the engine *)

#[local] Open Scope Z_scope.

(** ** The shuffle *)

Lemma draw_rest n supply : length (draw n supply).2 = (length supply - 1)%nat.
Proof. destruct supply as [|r rest]; cbn; lia. Qed.

Lemma draw_lt n supply : (0 < n)%nat → ((draw n supply).1 < n)%nat.
Proof.
  intros Hn. destruct supply as [|r rest]; cbn; [done|].
  apply Nat.mod_upper_bound. lia.
Qed.

Lemma shuffleFrom_rest {A} (i : nat) (l : list A) (supply : list nat) :
  length (shuffleFrom i l supply).2 = (length supply - i)%nat.
Proof.
  revert l supply. induction i as [|i IH]; intros l supply; cbn [shuffleFrom]; [cbn; lia|].
  pose proof (draw_rest (S (S i)) supply) as Hd.
  destruct (draw (S (S i)) supply) as [j supply']. cbn [snd] in Hd.
  rewrite IH, Hd. lia.
Qed.

(** X1.  [shuffleArray] returns a permutation of its argument: no
    element is lost, added or duplicated, whatever the random numbers
    are.  It asks for one random number per position but the first,
    and a list of at most one element is returned as it is. *)
Theorem shuffleArray_permutes {A} (array : list A) (supply : list nat) :
  (shuffleArray array supply).1 ≡ₚ array ∧
  length (shuffleArray array supply).1 = length array ∧
  length (shuffleArray array supply).2 = (length supply - (length array - 1))%nat ∧
  ((length array ≤ 1)%nat → shuffleArray array supply = (array, supply)).
Proof.
  split; [apply shuffleArray_Permutation|]. split; [apply shuffleArray_length|].
  split; [apply shuffleFrom_rest|].
  intros Hshort. unfold shuffleArray.
  replace (length array - 1)%nat with 0%nat by lia. reflexivity.
Qed.

(** ** The tiles of a new board *)

Section Tiles.
Context `{JsMath}.
Variable nums : list nat.

Lemma placeHex_fold_resources cells acc :
  Hex.resourceType <$> (foldl (placeHex nums) acc cells).1
  = (Hex.resourceType <$> acc.1) ++ cells.*2.
Proof.
  revert acc. induction cells as [|[[row col] r] cells IH]; intros [hs k]; cbn [foldl].
  - cbn. by rewrite app_nil_r.
  - rewrite IH. cbn [placeHex fst snd]. rewrite fmap_app. cbn.
    by rewrite <- app_assoc.
Qed.

Lemma placeHex_fold_robberOnDesert cells acc :
  Forall robberOnDesert acc.1 →
  Forall robberOnDesert (foldl (placeHex nums) acc cells).1.
Proof.
  revert acc. induction cells as [|[[row col] r] cells IH]; intros [hs k] Hall; [done|].
  cbn [foldl]. apply IH. cbn [placeHex fst snd].
  apply Forall_app_2; [done|]. by constructor.
Qed.

Lemma placeHex_fold_desert cells acc :
  Forall (λ h, Hex.resourceType h = Desert → Hex.numberToken h = None) acc.1 →
  Forall (λ h, Hex.resourceType h = Desert → Hex.numberToken h = None)
         (foldl (placeHex nums) acc cells).1.
Proof.
  revert acc. induction cells as [|[[row col] r] cells IH]; intros [hs k] Hall; [done|].
  cbn [foldl]. apply IH. cbn [placeHex fst snd].
  apply Forall_app_2; [done|]. constructor; [|done]. cbn.
  intros ->. by rewrite bool_decide_eq_true_2.
Qed.

Lemma placeHex_fold_numbers cells acc :
  (acc.2 + countProductive cells.*2 ≤ length nums)%nat →
  omap Hex.numberToken (foldl (placeHex nums) acc cells).1
  = omap Hex.numberToken acc.1 ++ take (countProductive cells.*2) (drop acc.2 nums).
Proof.
  revert acc. induction cells as [|[[row col] r] cells IH]; intros [hs k] Hk.
  - cbn. by rewrite app_nil_r.
  - rewrite fmap_cons in Hk |- *. unfold countProductive in Hk |- *.
    rewrite filter_cons in Hk |- *. fold (countProductive cells.*2) in Hk |- *.
    cbn [fst snd] in Hk |- *. cbn [foldl]. rewrite IH; cbn [placeHex fst snd].
    + rewrite omap_app. cbn [omap]. rewrite <- app_assoc. f_equal.
      destruct (decide (r = Desert)) as [Hr|Hr].
      * rewrite !(bool_decide_eq_true_2 (r = Desert)) by done.
        rewrite decide_False by (intros Hne; by apply Hne). done.
      * rewrite !(bool_decide_eq_false_2 (r = Desert)) by done.
        rewrite decide_True in Hk |- * by done. cbn [length] in *.
        destruct (nums !! k) as [n|] eqn:Hn.
        -- cbn. by rewrite (drop_S _ _ _ Hn).
        -- apply lookup_ge_None in Hn. lia.
    + destruct (decide (r = Desert)) as [Hr|Hr].
      * rewrite (bool_decide_eq_true_2 (r = Desert)) by done.
        rewrite decide_False in Hk by (intros Hne; by apply Hne). exact Hk.
      * rewrite (bool_decide_eq_false_2 (r = Desert)) by done.
        rewrite decide_True in Hk by done. cbn [length] in Hk.
        unfold countProductive. lia.
Qed.

End Tiles.

(** X2.  Whatever the random numbers are, the 19 hexes of a new board
    carry, in the fixed positions of the 3-4-5-4-3 layout, a
    permutation of the 19 tiles (3 brick, 4 wood, 4 sheep, 4 wheat, 3
    ore, 1 desert); the robber stands exactly on the desert; the
    desert has no number token and the 18 other hexes carry a
    permutation of the 18 number tokens. *)
Theorem createBoard_tiles `{JsMath} (supply : list nat) :
  let hexes := (createBoard supply).1.1.1 in
  Hex.resourceType <$> hexes ≡ₚ boardResources ∧
  (λ h, (Hex.x h, Hex.y h)) <$> hexes = cellPosition <$> layoutCells ∧
  Forall (λ h, Hex.hasRobber h = bool_decide (Hex.resourceType h = Desert)) hexes ∧
  Forall (λ h, Hex.resourceType h = Desert ↔ Hex.numberToken h = None) hexes ∧
  omap Hex.numberToken hexes ≡ₚ NUMBER_TOKENS.
Proof.
  unfold createBoard.
  pose proof (shuffleArray_Permutation boardResources supply) as Hperm.
  pose proof (shuffleArray_length boardResources supply) as Hlen.
  destruct (shuffleArray boardResources supply) as [shuffledResources supply1].
  pose proof (shuffleArray_Permutation NUMBER_TOKENS supply1) as Hperm2.
  pose proof (shuffleArray_length NUMBER_TOKENS supply1) as Hlen2.
  destruct (shuffleArray NUMBER_TOKENS supply1) as [shuffledNumbers supply2].
  cbn [fst snd] in *.
  assert (Hsnd : (zip layoutCells shuffledResources).*2 = shuffledResources).
  { apply snd_zip. rewrite Hlen. cbn. lia. }
  assert (Hfst : (zip layoutCells shuffledResources).*1 = layoutCells).
  { apply fst_zip. rewrite Hlen. cbn. lia. }
  assert (Hcount : countProductive shuffledResources = 18%nat).
  { unfold countProductive. by rewrite Hperm. }
  split_and!.
  - by rewrite placeHex_fold_resources, Hsnd.
  - rewrite placeHex_fold_positions. cbn [fst fmap list_fmap app].
    by rewrite Hfst.
  - by apply placeHex_fold_robberOnDesert.
  - pose proof (placeHex_fold_desert shuffledNumbers
                  (zip layoutCells shuffledResources) ([], 0%nat)) as Hd.
    pose proof (placeHex_fold_tokens shuffledNumbers
                  (zip layoutCells shuffledResources) ([], 0%nat)) as Ht.
    cbn [fst snd] in Hd, Ht. rewrite Hsnd, Hcount, Hlen2 in Ht.
    specialize (Hd ltac:(constructor)).
    assert (Hfits : (0 + 18 ≤ length NUMBER_TOKENS)%nat) by (cbn [length NUMBER_TOKENS]; lia).
    specialize (Ht Hfits ltac:(constructor)).
    rewrite Forall_forall in Hd, Ht. apply Forall_forall. intros h Hh. split.
    + by apply Hd.
    + intros Hnone. destruct (decide (Hex.resourceType h = Desert)) as [|Hne]; [done|].
      by destruct (Ht h Hh Hne).
  - rewrite placeHex_fold_numbers; cbn [fst snd omap app].
    + rewrite Hsnd, Hcount, drop_0.
      rewrite take_ge by (rewrite Hlen2; cbn [length NUMBER_TOKENS]; lia). done.
    + rewrite Hsnd, Hcount, Hlen2. cbn [length NUMBER_TOKENS]. lia.
Qed.

(** ** Rolling the dice *)

Lemma forEach_returns {A} (l : list A) (body : A → M unit) :
  (∀ a e, ∃ e', body a e = (Ok tt, e')) → ∀ e, ∃ e', forEach l body e = (Ok tt, e').
Proof.
  intros Hbody. induction l as [|a l IH]; intros e; cbn [forEach]; [by eexists|].
  destruct (Hbody a e) as [e1 Hrun]. rewrite (bind_Ok _ _ _ _ _ Hrun). apply IH.
Qed.

Lemma discardResources_returns i player count e :
  ∃ e', discardResources i player count e = (Ok tt, e').
Proof.
  unfold discardResources, shuffleM. unfold mbind at 1, M_bind at 1.
  destruct (shuffleArray _ (rng e)) as [shuffled rest].
  apply forEach_returns. intros r e1. by eexists.
Qed.

Lemma handleRobberActivation_returns e :
  ∃ e', handleRobberActivation e = (Ok tt, e').
Proof.
  unfold handleRobberActivation. unfold mbind at 1, M_bind at 1, getS. cbn beta iota.
  apply forEach_returns. intros [i p] e1. cbn [fst].
  unfold mbind, M_bind, getS. cbn beta iota.
  destruct (players (state e1) !! i) as [player|]; [|by eexists].
  destruct (7 <? _); [apply discardResources_returns|by eexists].
Qed.

Section Dice.
Context `{JsMath}.

(** the fields a roll sets before it pays out *)
Let rolled : Engine → _ := λ e,
  (diceRolled (state e), lastDiceRoll (state e), lastDie1 (state e), lastDie2 (state e),
   rollHistory (state e), currentPlayerIndex (state e), hexes (state e),
   vertices (state e), edges (state e), initialPlacement e).

Lemma rolled_handleRobberActivation : preserves rolled handleRobberActivation.
Proof. frame_auto. Qed.

Lemma rolled_distributeResources total : preserves rolled (distributeResources total).
Proof. frame_auto. Qed.

Lemma endTurn_resets_dice e : diceRolled (state (endTurn e).2) = false.
Proof.
  unfold endTurn, mbind, M_bind, modifyS, getS, liftR. cbn -[Nat.modulo Z.leb].
  destruct (players (state e) !! _) as [q|]; cbn -[Nat.modulo Z.leb]; [|done].
  by destruct (10 <=? Player.victoryPoints q).
Qed.

(** X3.  The dice are rolled once per turn.  With the dice already
    rolled, [rollDice] raises and changes nothing.  Otherwise it
    returns two dice between 1 and 6 and their sum, records them,
    counts the sum in the roll history, pays out (or, on a 7, makes
    the rich discard) and enters the main phase without changing the
    seat; a second roll then raises, and [endTurn] makes the dice
    available again. *)
Theorem rollDice_once_per_turn (e : Engine) :
  hexIdsArePositions (hexes (state e)) →
  if diceRolled (state e) then rollDice e = (Throw DiceAlreadyRolled, e)
  else ∃ die1 die2 e',
    rollDice e = (Ok (die1, die2, (die1 + die2)%nat), e') ∧
    (1 ≤ die1 ≤ 6)%nat ∧ (1 ≤ die2 ≤ 6)%nat ∧
    diceRolled (state e') = true ∧
    lastDiceRoll (state e') = Some (die1 + die2)%nat ∧
    lastDie1 (state e') = Some die1 ∧ lastDie2 (state e') = Some die2 ∧
    rollHistory (state e') = addCount (die1 + die2)%nat 1 (rollHistory (state e)) ∧
    phase (state e') = MainPhase ∧
    currentPlayerIndex (state e') = currentPlayerIndex (state e) ∧
    rollDice e' = (Throw DiceAlreadyRolled, e') ∧
    diceRolled (state (endTurn e').2) = false.
Proof.
  intros Hids. destruct (diceRolled (state e)) eqn:Hrolled.
  { unfold rollDice. unfold mbind, M_bind, getS. cbn beta iota. by rewrite Hrolled. }
  unfold rollDice. unfold mbind at 1, M_bind at 1, getS. cbn beta iota.
  rewrite Hrolled.
  unfold mbind at 1, M_bind at 1, random.
  pose proof (draw_lt 6 (rng e) ltac:(lia)) as Hr1.
  destruct (draw 6 (rng e)) as [r1 rest1]. cbn [fst] in Hr1. cbn beta iota.
  unfold mbind at 1, M_bind at 1. cbn [rng].
  pose proof (draw_lt 6 rest1 ltac:(lia)) as Hr2.
  destruct (draw 6 rest1) as [r2 rest2]. cbn [fst] in Hr2. cbn beta iota zeta.
  unfold mbind at 1, M_bind at 1, modifyS at 1. cbn beta iota. cbn [state initialPlacement rng console].
  unfold mbind at 1, M_bind at 1, modifyS at 1. cbn beta iota. cbn [state initialPlacement rng console].
  set (total := (r1 + 1 + (r2 + 1))%nat).
  set (e1 := mkEngine _ _ _ _).
  assert (Hpay : ∃ e2, (if bool_decide (total = 7%nat) then handleRobberActivation
                         else distributeResources total) e1 = (Ok tt, e2) ∧
                        rolled e2 = rolled e1).
  { case_bool_decide.
    - destruct (handleRobberActivation_returns e1) as [e2 Hrun]. exists e2.
      split; [done|]. pose proof (rolled_handleRobberActivation e1) as Hf.
      by rewrite Hrun in Hf.
    - destruct (distributeResources_creditedBy total e1) as (s' & Hrun & _); [done|].
      eexists. split; [done|]. pose proof (rolled_distributeResources total e1) as Hf.
      by rewrite Hrun in Hf. }
  destruct Hpay as (e2 & Hrun & Hframe).
  rewrite (bind_Ok _ _ _ _ _ Hrun).
  unfold mbind, M_bind, modifyS. cbn beta iota.
  injection Hframe as Hflag Hlast Hd1 Hd2 Hhist Hseat Hhexes Hverts Hedges Hip.
  exists (r1 + 1)%nat, (r2 + 1)%nat. eexists. split; [reflexivity|].
  cbn [state diceRolled lastDiceRoll lastDie1 lastDie2 rollHistory phase
       currentPlayerIndex set_phase].
  split; [lia|]. split; [lia|].
  split_and!; try done.
  - unfold rollDice, mbind, M_bind, getS. cbn beta iota. cbn [state diceRolled set_phase].
    rewrite Hflag. unfold e1. reflexivity.
  - apply endTurn_resets_dice.
Qed.

End Dice.

(** ** Rejected builds *)

Lemma neverFalse_true : neverFalse (mret true).
Proof. intros e. discriminate. Qed.

Lemma neverFalse_bind {A} (m : M A) (k : A → M bool) :
  (∀ a, neverFalse (k a)) → neverFalse (m ≫= k).
Proof.
  intros Hk e. unfold mbind, M_bind. destruct (m e) as [[a|err] e1]; [apply Hk|discriminate].
Qed.

Lemma quiet_ret b : quiet (mret b).
Proof. by intros e _. Qed.

Lemma quiet_neverFalse m : neverFalse m → quiet m.
Proof. intros Hm e Hfalse. by destruct (Hm e). Qed.

(** a step that reads but does not write *)
Lemma quiet_read {A} (m : M A) (k : A → M bool) :
  (∀ e, (m e).2 = e) → (∀ a, quiet (k a)) → quiet (m ≫= k).
Proof.
  intros Hm Hk e. unfold mbind, M_bind. specialize (Hm e).
  destruct (m e) as [[a|err] e1]; cbn in Hm; subst e1; [apply Hk|done].
Qed.

Lemma quiet_if (b : bool) (m1 m2 : M bool) : quiet m1 → quiet m2 → quiet (if b then m1 else m2).
Proof. by destruct b. Qed.

Ltac quiet_step :=
  first
    [ apply quiet_ret
    | apply quiet_read; [intros ?; reflexivity | intros ?]
    | apply quiet_if
    | match goal with
      | |- quiet (match ?x with _ => _ end) => destruct x
      end
    | apply quiet_neverFalse; repeat (apply neverFalse_bind; intros ?); apply neverFalse_true ].

Section Rejected.
Context `{JsMath}.

Lemma quiet_placeInitialSettlement v p : quiet (placeInitialSettlement v p).
Proof.
  unfold placeInitialSettlement. repeat quiet_step.
  apply quiet_neverFalse. repeat (apply neverFalse_bind; intros ?).
  destruct (bool_decide _); repeat (apply neverFalse_bind; intros ?); apply neverFalse_true.
Qed.

Lemma quiet_placeInitialRoad ed p v : quiet (placeInitialRoad ed p v).
Proof. unfold placeInitialRoad. repeat quiet_step. Qed.

Lemma quiet_buildRoadNormal ed p : quiet (buildRoadNormal ed p).
Proof. unfold buildRoadNormal. repeat quiet_step. Qed.

Lemma quiet_buildSettlement v p : quiet (buildSettlement v p).
Proof.
  intros e. unfold buildSettlement. destruct (inInitialPlacement e).
  - apply quiet_placeInitialSettlement.
  - revert e. change (quiet (
      s ← getS;
      player ← liftR (deref (players s !! p));
      if negb (canAffordSettlement player) then mret false else
      vertex ← liftR (deref (vertices s !! v));
      if Vertex.building vertex is Some _ then mret false else
      far ← liftR (checkDistanceRule s v);
      if negb far then mret false else
      updateVertex v (Vertex.set_building (Some settlement));;
      updateVertex v (Vertex.set_playerColor (Some (Player.color player)));;
      updatePlayer p (Player.set_settlements (λ n, n + 1));;
      updatePlayer p (Player.set_victoryPoints (λ n, n + 1));;
      updatePlayer p payForSettlement;;
      mret true)).
    repeat quiet_step.
Qed.

Lemma quiet_buildCity v p : quiet (buildCity v p).
Proof. unfold buildCity. repeat quiet_step. Qed.

Lemma quiet_buildRoad ed p vid : quiet (buildRoad ed p vid).
Proof.
  intros e. unfold buildRoad. destruct vid as [v|]; [|apply quiet_buildRoadNormal].
  destruct (inInitialPlacement e); [|apply quiet_buildRoadNormal].
  intros Hfalse.
  pose proof (quiet_placeInitialRoad ed p v e) as Hq.
  unfold mbind, M_bind in *.
  destruct (placeInitialRoad ed p v e) as [[[|]|err] e1]; cbn in *.
  - destruct (advanceIfTurnComplete p e1) as [[[]|err] e2]; done.
  - by rewrite Hq.
  - done.
Qed.

(** X4.  A build that is refused has no effect: whenever
    [buildSettlement], [buildCity] or [buildRoad] returns [false], in
    the setup or after it, the engine is exactly as before the call. *)
Theorem rejected_build_changes_nothing (e : Engine) :
  (∀ vertexId playerId,
     (buildSettlement vertexId playerId e).1 = Ok false →
     (buildSettlement vertexId playerId e).2 = e) ∧
  (∀ vertexId playerId,
     (buildCity vertexId playerId e).1 = Ok false →
     (buildCity vertexId playerId e).2 = e) ∧
  (∀ edgeId playerId vertexId,
     (buildRoad edgeId playerId vertexId e).1 = Ok false →
     (buildRoad edgeId playerId vertexId e).2 = e).
Proof.
  split_and!; intros.
  - by apply quiet_buildSettlement.
  - by apply quiet_buildCity.
  - by apply quiet_buildRoad.
Qed.

End Rejected.

(** ** What the menus offer *)

Lemma forEach_inv {A} (I : Engine → Prop) (l : list A) (body : A → M unit) :
  (∀ a e, I e → ∃ e', body a e = (Ok tt, e') ∧ I e') →
  ∀ e, I e → ∃ e', forEach l body e = (Ok tt, e') ∧ I e'.
Proof.
  intros Hbody. induction l as [|a l IH]; intros e He; cbn [forEach]; [by eexists|].
  destruct (Hbody a e He) as (e1 & Hrun & He1). rewrite (bind_Ok _ _ _ _ _ Hrun).
  by apply IH.
Qed.

(** facts of membership in a list that is given *)
Ltac offer_facts :=
  repeat match goal with
  | |- context [?x ∈ ?l] =>
      lazymatch goal with
      | _ : x ∈ l |- _ => fail
      | _ : x ∉ l |- _ => fail
      | _ => first [ assert (x ∈ l) by compute_done | assert (x ∉ l) by compute_done ]
      end
  end.

Section Offers.
Context `{JsMath}.

Lemma giveInitialResources_returns vertexId playerId e :
  is_Some (vertices (state e) !! vertexId) →
  is_Some (players (state e) !! playerId) →
  ∃ e', giveInitialResources vertexId playerId e = (Ok tt, e').
Proof.
  intros [vertex Hv] Hp. unfold giveInitialResources.
  unfold mbind at 1, M_bind at 1, liftS, getHexesAdjacentToVertex.
  rewrite Hv. cbn [deref mbind res_bind].
  match goal with
  | |- ∃ e', forEach ?l ?body e = _ =>
      destruct (forEach_inv (λ e1, is_Some (players (state e1) !! playerId)) l body)
        with (e := e) as (e' & Hrun & _); [|done|by exists e']
  end.
  intros hex e1 [q Hq]. destruct (_ && _).
  - unfold mbind, M_bind, getS, liftR. rewrite Hq. cbn. eexists. split; [done|].
    cbn. by rewrite list_lookup_alter_is_Some, Hq.
  - eexists. split; [done|]. by rewrite Hq.
Qed.

Lemma placeInitialSettlement_true vertexId playerId e :
  is_Some (players (state e) !! playerId) →
  (placeInitialSettlement vertexId playerId e).1 = Ok true
  ↔ canPlaceSettlement e vertexId playerId = Ok true.
Proof.
  intros [player Hp]. split.
  - unfold placeInitialSettlement. unfold mbind at 1, M_bind at 1.
    destruct (canPlaceSettlement e vertexId playerId) as [[|]|err]; [done| |]; discriminate.
  - intros Hcan. rewrite (placeInitialSettlement_run _ _ _ player Hcan Hp).
    destruct (canPlaceSettlement_vertex _ _ _ Hcan) as (vertex & Hv & _).
    case_bool_decide; [|done].
    destruct (giveInitialResources_returns vertexId playerId
                (settled vertexId playerId (Player.color player) e)) as [e' Hrun].
    + cbn. by rewrite !list_lookup_alter_is_Some, Hv.
    + cbn. by rewrite !list_lookup_alter_is_Some, Hp.
    + by rewrite (bind_Ok _ _ _ _ _ Hrun).
Qed.

Lemma advanceIfTurnComplete_returns playerId e :
  (advanceIfTurnComplete playerId e).1 = Ok tt.
Proof.
  unfold advanceIfTurnComplete.
  repeat case_match; try done; apply advanceToNextPlayer_control.
Qed.

Lemma buildRoad_setup_true edgeId playerId vid e :
  inInitialPlacement e = true →
  is_Some (players (state e) !! playerId) →
  (buildRoad edgeId playerId (Some vid) e).1 = Ok true
  ↔ canPlaceRoad e edgeId playerId vid = Ok true.
Proof.
  intros Hinit [player Hp]. unfold buildRoad. rewrite Hinit.
  unfold placeInitialRoad.
  unfold mbind at 1, M_bind at 1. unfold mbind at 1, M_bind at 1.
  destruct (canPlaceRoad e edgeId playerId vid) as [[|]|err]; cbn [negb].
  - unfold mbind at 1 2, M_bind at 1 2, getS, liftR. rewrite Hp.
    unfold mbind, M_bind, updateEdge, updatePlayer, modifyS, modifyPlacements, mret, M_ret.
    cbn -[advanceIfTurnComplete].
    match goal with |- context [advanceIfTurnComplete playerId ?e1] =>
      pose proof (advanceIfTurnComplete_returns playerId e1) as Hadv;
      destruct (advanceIfTurnComplete playerId e1) as [[[]|err] e2] end; done.
  - cbn. split; discriminate.
  - cbn. split; discriminate.
Qed.


End Offers.

(** ** Neighbours, the distance rule and the connection of a road *)

(** a [Set] filled by a loop, read back in insertion order *)
Lemma collect_fold {A} (g : A → option nat) (l : list A) : ∀ acc,
  let r := foldl (λ acc x, match g x with
                           | Some v => if bool_decide (v ∈ acc) then acc else acc ++ [v]
                           | None => acc
                           end) acc l in
  (NoDup acc → NoDup r) ∧ ∀ w, w ∈ r ↔ w ∈ acc ∨ ∃ x, x ∈ l ∧ g x = Some w.
Proof.
  induction l as [|x l IH]; intros acc; cbn [foldl].
  - split; [done|]. intros w. split; [by left|]. intros [?|(x & Hx & _)]; [done|].
    by apply elem_of_nil in Hx.
  - destruct (IH (match g x with
                  | Some v => if bool_decide (v ∈ acc) then acc else acc ++ [v]
                  | None => acc
                  end)) as [IHnd IHin].
    split.
    + intros Hnd. apply IHnd. destruct (g x) as [v|]; [|done].
      case_bool_decide as Hv; [done|].
      apply NoDup_app. split_and!; [done| |apply NoDup_singleton].
      intros y Hy ->%list_elem_of_singleton. done.
    + intros w. rewrite IHin. split.
      * intros [Hw|(y & Hy & Hg)].
        -- destruct (g x) as [v|] eqn:Hgx; [|by left].
           case_bool_decide as Hv; [by left|].
           apply elem_of_app in Hw as [Hw| ->%list_elem_of_singleton]; [by left|].
           right. exists x. split; [left|done].
        -- right. exists y. split; [by right|done].
      * intros [Hw|(y & Hy & Hg)].
        -- left. destruct (g x) as [v|]; [|done].
           case_bool_decide; [done|]. apply elem_of_app. by left.
        -- apply elem_of_cons in Hy as [-> |Hy].
           ++ left. rewrite Hg. case_bool_decide; [done|].
              apply elem_of_app. right. by apply list_elem_of_singleton.
           ++ right. by exists y.
Qed.

Lemma getAdjacentVertices_spec s vertexId :
  NoDup (getAdjacentVertices s vertexId) ∧
  ∀ w, w ∈ getAdjacentVertices s vertexId
       ↔ ∃ edge, edge ∈ edges s ∧ joins edge vertexId w.
Proof.
  unfold getAdjacentVertices.
  pose proof (collect_fold
    (λ edge, if decide (Edge.vertex1 edge = vertexId) then Some (Edge.vertex2 edge)
             else if decide (Edge.vertex2 edge = vertexId) then Some (Edge.vertex1 edge)
             else None) (edges s) []) as [Hnd Hin].
  cbn zeta in Hnd, Hin. split; [apply Hnd, NoDup_nil_2|].
  intros w. rewrite Hin. split.
  - intros [Hw|(edge & Hedge & Hg)]; [by apply elem_of_nil in Hw|].
    exists edge. split; [done|]. unfold joins.
    destruct (decide (Edge.vertex1 edge = vertexId)); [injection Hg as <-; by left|].
    destruct (decide (Edge.vertex2 edge = vertexId)); [injection Hg as <-; by right|done].
  - intros (edge & Hedge & Hj). right. exists edge. split; [done|].
    destruct (decide (Edge.vertex1 edge = vertexId)) as [H1|H1].
    + destruct Hj as [[_ <-]|[H2 <-]]; [done|]. by rewrite H1, H2.
    + destruct Hj as [[? _]|[H2 <-]]; [done|]. by rewrite decide_True.
Qed.

Lemma noBuildingAt_spec s adj :
  (noBuildingAt s adj = Ok true
   ↔ ∀ w, w ∈ adj → ∃ vertex, vertices s !! w = Some vertex ∧ Vertex.building vertex = None) ∧
  (noBuildingAt s adj = Ok false
   → ∃ w vertex, w ∈ adj ∧ vertices s !! w = Some vertex ∧ Vertex.building vertex ≠ None) ∧
  ((∀ w, w ∈ adj → is_Some (vertices s !! w)) → ∃ b, noBuildingAt s adj = Ok b).
Proof.
  induction adj as [|a adj (IHt & IHf & IHr)]; cbn [noBuildingAt].
  - split_and!; [|done|by eexists]. split; [|done]. intros _ w Hw. by apply elem_of_nil in Hw.
  - destruct (vertices s !! a) as [vertex|] eqn:Ha; cbn [deref mbind res_bind].
    + destruct (Vertex.building vertex) as [b|] eqn:Hb.
      * split_and!.
        -- split; [done|]. intros Hall. destruct (Hall a) as (vertex' & Hv & Hn); [left|].
           congruence.
        -- intros _. exists a, vertex. split_and!; [left|done|congruence].
        -- by eexists.
      * split_and!.
        -- rewrite IHt. split.
           ++ intros Hall w [-> |Hw]%elem_of_cons; [by exists vertex|by apply Hall].
           ++ intros Hall w Hw. apply Hall. by right.
        -- intros (w & vertex' & Hw & Hrest)%IHf. exists w, vertex'. split; [by right|done].
        -- intros Hall. apply IHr. intros w Hw. apply Hall. by right.
    + split_and!.
      * split; [done|]. intros Hall. destruct (Hall a) as (vertex' & Hv & _); [left|].
        congruence.
      * done.
      * intros Hall. destruct (Hall a) as [vertex' Hv]; [left|]. congruence.
Qed.

(** X6.  The distance rule reads the edge array: the neighbours of a
    vertex are the other ends of the edges that have it as an end,
    each listed once, and [checkDistanceRule] answers [true] exactly
    when every one of them is a vertex of the board without a
    building.  It answers [false] only for a neighbour with a
    building, and it returns whenever the neighbours exist. *)
Theorem distance_rule_reads_the_edges (s : GameState) (vertexId : nat) :
  NoDup (getAdjacentVertices s vertexId) ∧
  (∀ w, w ∈ getAdjacentVertices s vertexId
        ↔ ∃ edge, edge ∈ edges s ∧ joins edge vertexId w) ∧
  (checkDistanceRule s vertexId = Ok true
   ↔ ∀ edge w, edge ∈ edges s → joins edge vertexId w →
       ∃ vertex, vertices s !! w = Some vertex ∧ Vertex.building vertex = None) ∧
  (checkDistanceRule s vertexId = Ok false
   → ∃ edge w vertex, edge ∈ edges s ∧ joins edge vertexId w ∧
       vertices s !! w = Some vertex ∧ Vertex.building vertex ≠ None) ∧
  ((∀ edge w, edge ∈ edges s → joins edge vertexId w → is_Some (vertices s !! w))
   → ∃ b, checkDistanceRule s vertexId = Ok b).
Proof.
  destruct (getAdjacentVertices_spec s vertexId) as [Hnd Hin].
  destruct (noBuildingAt_spec s (getAdjacentVertices s vertexId)) as (Ht & Hf & Hr).
  unfold checkDistanceRule. split_and!; [done|done| | |].
  - rewrite Ht. split.
    + intros Hall edge w Hedge Hj. apply Hall, Hin. by exists edge.
    + intros Hall w (edge & Hedge & Hj)%Hin. by apply (Hall edge).
  - intros (w & vertex & (edge & Hedge & Hj)%Hin & Hv & Hb)%Hf. by exists edge, w, vertex.
  - intros Hall. apply Hr. intros w (edge & Hedge & Hj)%Hin. by apply (Hall edge).
Qed.

Lemma getConnectedEdges_spec s edgeId edge :
  edges s !! edgeId = Some edge →
  ∃ l, getConnectedEdges s edgeId = Ok l ∧
    ∀ j, j ∈ l ↔ j ≠ edgeId ∧ ∃ other, edges s !! j = Some other ∧ sharesVertex edge other.
Proof.
  intros He. unfold getConnectedEdges. rewrite He.
  destruct (edges s) as [|e0 es] eqn:Hes; [done|]. cbn [deref mbind res_bind].
  eexists. split; [done|]. intros j. rewrite edgeIndices_spec.
  unfold sharesVertex. split.
  - intros (other & Ho & Hp). apply andb_prop in Hp as [Hne Hsh].
    apply negb_true_iff, bool_decide_eq_false in Hne. split; [done|]. exists other.
    split; [done|].
    repeat (apply orb_prop in Hsh as [Hsh|Hsh]); apply bool_decide_eq_true in Hsh; tauto.
  - intros (Hne & other & Ho & Hsh). exists other. split; [done|].
    apply andb_true_intro. split; [by apply negb_true_iff, bool_decide_eq_false|].
    rewrite !orb_true_iff, !bool_decide_eq_true. tauto.
Qed.

(** X7.  What connects a road.  For an edge and a player that exist
    and two end vertices that exist, [isRoadConnected] returns, and it
    answers [true] exactly when the player has a building on an end of
    the edge or a road on another edge that shares an end with it. *)
Theorem road_connects_to_own_building_or_road (s : GameState) (edgeId playerId : nat)
    (edge : Edge.t) (player : Player.t) :
  edges s !! edgeId = Some edge →
  players s !! playerId = Some player →
  is_Some (vertices s !! Edge.vertex1 edge) →
  is_Some (vertices s !! Edge.vertex2 edge) →
  ∃ b, isRoadConnected s edgeId playerId = Ok b ∧
    (b = true ↔
       (∃ v vertex, (v = Edge.vertex1 edge ∨ v = Edge.vertex2 edge) ∧
          vertices s !! v = Some vertex ∧ ownedBy (Player.color player) vertex = true) ∨
       (∃ j other, j ≠ edgeId ∧ edges s !! j = Some other ∧
          sharesVertex edge other ∧ Edge.road other = Some (Player.color player))).
Proof.
  intros He Hp [v1 Hv1] [v2 Hv2].
  destruct (getConnectedEdges_spec s edgeId edge He) as (l & Hl & Hin).
  unfold isRoadConnected. rewrite He. cbn [deref mbind res_bind].
  rewrite Hv1. cbn [deref mbind res_bind]. rewrite Hp, Hv2, Hl. cbn [deref mbind res_bind].
  set (color := Player.color player).
  assert (Hown : ∀ v, (if Vertex.building v is Some _
                       then Ok (bool_decide (Vertex.playerColor v = Some color))
                       else Ok false) = Ok (ownedBy color v)).
  { intros v. unfold ownedBy. destruct (Vertex.building v); [|done].
    rewrite (bool_decide_eq_true_2 (Some _ ≠ None)) by done. done. }
  rewrite !Hown. cbn [mbind res_bind].
  destruct (ownedBy color v1) eqn:Ho1.
  { eexists. split; [done|]. split; [|done]. intros _. left. exists (Edge.vertex1 edge), v1.
    auto. }
  destruct (ownedBy color v2) eqn:Ho2.
  { eexists. split; [done|]. split; [|done]. intros _. left. exists (Edge.vertex2 edge), v2.
    auto. }
  set (owned := λ connectedEdgeId : nat,
         match edges s !! connectedEdgeId with
         | Some connectedEdge => bool_decide (Edge.road connectedEdge = Some color)
         | None => false
         end).
  exists (existsb owned l). split; [by destruct l|].
  rewrite existsb_exists. split.
  - intros (j & Hj%list_elem_of_In & Howned). right.
    apply Hin in Hj as (Hne & other & Ho & Hsh). exists j, other.
    unfold owned in Howned. rewrite Ho in Howned. by apply bool_decide_eq_true in Howned.
  - intros [(v & vertex & [->| ->] & Hv & Ho)|(j & other & Hne & Ho & Hsh & Hroad)];
      [congruence|congruence|].
    exists j. split.
    + apply list_elem_of_In, Hin. split; [done|]. by exists other.
    + unfold owned. rewrite Ho. by apply bool_decide_eq_true.
Qed.

(** ** The corners of a hex, and the robber *)

Lemma collect_fold_length {A} (g : A → option nat) (l : list A) : ∀ acc,
  (length (foldl (λ acc x, match g x with
                           | Some v => if bool_decide (v ∈ acc) then acc else acc ++ [v]
                           | None => acc
                           end) acc l) ≤ length acc + length l)%nat.
Proof.
  induction l as [|x l IH]; intros acc; cbn [foldl length]; [lia|].
  etrans; [apply IH|]. destruct (g x) as [v|]; [|lia].
  case_bool_decide; [lia|]. rewrite length_app. cbn. lia.
Qed.

Lemma filter_none {A} (f : A → bool) (l : list A) :
  (∀ x, x ∈ l → f x = false) → List.filter f l = [].
Proof.
  induction l as [|x l IH]; intros Hf; cbn [List.filter]; [done|].
  rewrite (Hf x) by left. apply IH. intros y Hy. apply Hf. by right.
Qed.

Section Corners.
Context `{JsMath}.

Lemma closestVertex_close vs vx vy i :
  closestVertex vs vx vy = Some i →
  ∃ vertex, vs !! i = Some vertex ∧
    Qltb (distance (Vertex.x vertex) (Vertex.y vertex) vx vy) 5 = true.
Proof.
  unfold closestVertex.
  set (close := λ i, ∃ vertex, vs !! i = Some vertex ∧
                 Qltb (distance (Vertex.x vertex) (Vertex.y vertex) vx vy) 5 = true).
  assert (Hgen : ∀ (l : list (nat * Vertex.t)) acc,
            Forall (λ iv, vs !! iv.1 = Some iv.2) l →
            (∀ i, acc.1 = Some i → close i) →
            ∀ i, (foldl (closerVertex vx vy) acc l).1 = Some i → close i).
  { induction l as [|iv l IH]; intros acc Hl Hacc j; cbn [foldl]; [by apply Hacc|].
    inversion Hl; subst. apply IH; [done|].
    intros k. unfold closerVertex.
    destruct (_ && Qltb _ 5) eqn:Hnear; [|by apply Hacc].
    cbn [fst]. intros [= <-]. apply andb_prop in Hnear as [_ Hnear].
    by exists iv.2. }
  apply Hgen; [|done].
  apply Forall_lookup. intros j [k v] Hj. cbn [fst snd].
  by apply list_lookup_imap_Some in Hj as (v' & Hv' & [= -> ->]).
Qed.

(** X8.  The vertices a hex pays.  For a hex of the board,
    [getVerticesAdjacentToHex] returns at most six vertices, each
    once, and every one of them is a vertex of the board for which
    [getHexesAdjacentToVertex] lists that hex. *)
Theorem paid_vertices_touch_the_hex (s : GameState) (hexId : nat) (hex : Hex.t) :
  hexes s !! hexId = Some hex →
  ∃ l, getVerticesAdjacentToHex s hexId = Ok l ∧ NoDup l ∧ (length l ≤ 6)%nat ∧
    ∀ v, v ∈ l →
      ∃ vertex hs, vertices s !! v = Some vertex ∧
        getHexesAdjacentToVertex s v = Ok hs ∧ hex ∈ hs.
Proof.
  intros Hhex. unfold getVerticesAdjacentToHex. rewrite Hhex. cbn [deref mbind res_bind].
  eexists. split; [done|]. unfold cornerVertices.
  pose proof (collect_fold
    (λ i, closestVertex (vertices s) (cornerX hex i) (cornerY hex i)) (seq 0 6) [])
    as [Hnd Hin].
  pose proof (collect_fold_length
    (λ i, closestVertex (vertices s) (cornerX hex i) (cornerY hex i)) (seq 0 6) [])
    as Hlen.
  cbn zeta in Hnd, Hin. split; [apply Hnd, NoDup_nil_2|]. split; [exact Hlen|].
  intros v [Hv|(i & Hi & Hclosest)]%Hin; [by apply elem_of_nil in Hv|].
  apply closestVertex_close in Hclosest as (vertex & Hvertex & Hnear).
  exists vertex. unfold getHexesAdjacentToVertex. rewrite Hvertex. cbn [deref mbind res_bind].
  eexists. split; [done|]. split; [done|].
  apply list_elem_of_In, filter_In. split.
  - apply list_elem_of_In, list_elem_of_lookup. by exists hexId.
  - unfold hexTouches. apply existsb_exists. exists i. split; [|done].
    by apply list_elem_of_In.
Qed.

(** X9.  The robber blocks a hex.  After [moveRobber hexId] a hex
    produces on a roll exactly when the roll is its number and it is
    not the hex the robber landed on, the robber landing only on a
    productive hex of the board.  So a roll whose only hex carries
    the robber changes nothing. *)
Theorem robber_blocks_production (e : Engine) (hexId : nat) :
  let e' := (moveRobber hexId e).2 in
  let landed := match hexes (state e) !! hexId with
                | Some target => bool_decide (Hex.resourceType target ≠ Desert)
                | None => false
                end in
  (∀ j h roll, hexes (state e') !! j = Some h →
     producesOn roll h
     = bool_decide (Hex.numberToken h = Some roll) && negb (bool_decide (j = hexId) && landed)) ∧
  (∀ roll, landed = true →
     (∀ j h, hexes (state e) !! j = Some h → Hex.numberToken h = Some roll → j = hexId) →
     distributeResources roll e' = (Ok tt, e')).
Proof.
  intros e' landed.
  assert (Hhexes : hexes (state e')
                   = if landed then alter (Hex.set_hasRobber true) hexId
                                         (liftRobber <$> hexes (state e))
                     else liftRobber <$> hexes (state e)).
  { unfold e', landed, moveRobber, mbind, M_bind, modifyS, getS. cbn.
    fold liftRobber. rewrite list_lookup_fmap.
    destruct (hexes (state e) !! hexId) as [target|]; cbn; [|done].
    assert (Hex.resourceType (liftRobber target) = Hex.resourceType target) as ->
      by (unfold liftRobber; by destruct (Hex.hasRobber target)).
    by case_bool_decide. }
  clearbody e' landed.
  assert (Hlift : ∀ h roll, producesOn roll (liftRobber h)
                            = bool_decide (Hex.numberToken h = Some roll)).
  { intros h roll. unfold producesOn, liftRobber.
    destruct (Hex.hasRobber h) eqn:Hr; cbn; rewrite ?Hr; apply andb_true_r. }
  assert (Hprod : ∀ j h roll, hexes (state e') !! j = Some h →
     producesOn roll h
     = bool_decide (Hex.numberToken h = Some roll)
       && negb (bool_decide (j = hexId) && landed)).
  { intros j h roll. rewrite Hhexes. destruct landed.
    - rewrite list_lookup_alter. case_decide as Hj; [subst j|].
      + rewrite list_lookup_fmap. destruct (hexes (state e) !! hexId) as [h0|]; [|done].
        intros [= <-]. rewrite (bool_decide_eq_true_2 (hexId = hexId)) by done.
        unfold producesOn. cbn. reflexivity.
      + rewrite list_lookup_fmap. destruct (hexes (state e) !! j) as [h0|]; [|done].
        intros [= <-]. rewrite (bool_decide_eq_false_2 (j = hexId)) by done.
        cbn [andb negb]. rewrite andb_true_r, Hlift.
        unfold liftRobber. by destruct (Hex.hasRobber h0).
    - rewrite list_lookup_fmap. destruct (hexes (state e) !! j) as [h0|]; [|done].
      intros [= <-]. rewrite andb_false_r. cbn [negb]. rewrite andb_true_r, Hlift.
      unfold liftRobber. by destruct (Hex.hasRobber h0). }
  split; [exact Hprod|].
  intros roll Hlanded Honly. unfold distributeResources.
  unfold mbind at 1, M_bind at 1, getS. cbn beta iota.
  assert (List.filter (producesOn roll) (hexes (state e')) = []) as ->; [|done].
  apply filter_none. intros h (j & Hj)%list_elem_of_lookup.
  rewrite (Hprod j h roll Hj), Hlanded.
  destruct (decide (Hex.numberToken h = Some roll)) as [Htok|Htok];
    [|by rewrite bool_decide_eq_false_2].
  assert (j = hexId) as ->; [|rewrite (bool_decide_eq_true_2 (hexId = hexId)) by done;
                               cbn; by rewrite andb_false_r].
  (* the hex at [j] before the move has the same number *)
  rewrite Hhexes, Hlanded in Hj.
  rewrite list_lookup_alter in Hj. case_decide as Hjh; [done|].
  rewrite list_lookup_fmap in Hj. destruct (hexes (state e) !! j) as [h0|] eqn:Hh0; [|done].
  injection Hj as <-. apply (Honly j h0 Hh0).
  unfold liftRobber in Htok. by destruct (Hex.hasRobber h0).
Qed.

End Corners.

(** ** The discards of a 7 *)

Lemma sum_values_perm (l l' : list Z) : l ≡ₚ l' → foldr Z.add 0 l = foldr Z.add 0 l'.
Proof. induction 1; cbn [foldr]; lia. Qed.

(** the sum over the entries of a hand is the sum over the resources *)
Lemma totalCards_sum (m : gmap ResourceType Z) :
  totalCards m = sumZ (getCount m <$> productive ++ [Desert]).
Proof.
  unfold totalCards. induction m as [|k v m Hk _ IH] using map_first_key_ind.
  - by rewrite map_to_list_empty.
  - erewrite sum_values_perm; [|apply fmap_Permutation, map_to_list_insert; exact Hk].
    cbn [fmap list_fmap foldr snd]. fold (@fmap list _ _ _ (@snd ResourceType Z)).
    rewrite IH. unfold getCount, productive, sumZ. cbn [app fmap list_fmap foldr].
    destruct k; simplify_map_eq; cbn [default]; lia.
Qed.

Lemma cardCount_cons r a l :
  cardCount r (a :: l) = (if decide (a = r) then 1 else 0) + cardCount r l.
Proof.
  unfold cardCount. rewrite filter_cons. case_decide; cbn [length]; lia.
Qed.

Lemma cardCount_app r l1 l2 : cardCount r (l1 ++ l2) = cardCount r l1 + cardCount r l2.
Proof. unfold cardCount. rewrite filter_app, length_app. lia. Qed.

Lemma cardCount_perm r l l' : l ≡ₚ l' → cardCount r l = cardCount r l'.
Proof. intros Hp. unfold cardCount. by rewrite Hp. Qed.

Lemma cardCount_nonneg r l : 0 ≤ cardCount r l.
Proof. unfold cardCount. lia. Qed.

Lemma cardCount_take r n l : cardCount r (take n l) ≤ cardCount r l.
Proof.
  rewrite <- (take_drop n l) at 2. rewrite cardCount_app.
  pose proof (cardCount_nonneg r (drop n l)). lia.
Qed.

Lemma cardCount_replicate r r' n :
  cardCount r (replicate n r') = if decide (r' = r) then Z.of_nat n else 0.
Proof.
  induction n as [|n IH]; [by case_decide|].
  cbn [replicate]. rewrite cardCount_cons, IH. case_decide; lia.
Qed.

Lemma cardCount_total l :
  sumZ ((λ r, cardCount r l) <$> productive ++ [Desert]) = Z.of_nat (length l).
Proof.
  induction l as [|a l IH]; [done|].
  cbn [length]. rewrite Nat2Z.inj_succ, <- IH.
  unfold productive, sumZ. cbn [app fmap list_fmap foldr]. rewrite !cardCount_cons.
  destruct a; repeat case_decide; try done; lia.
Qed.

(** a hand without negative counts holds as many cards of each
    resource as its count says *)
Lemma cardCount_handCards m r :
  (∀ r, 0 ≤ getCount m r) → cardCount r (handCards m) = getCount m r.
Proof.
  intros Hm. unfold handCards, productive. cbn [app flat_map].
  rewrite !cardCount_app.
  assert (Hentry : ∀ r', cardCount r (match m !! r' with
                                      | Some amount => replicate (Z.to_nat amount) r'
                                      | None => []
                                      end)
                         = if decide (r' = r) then getCount m r' else 0).
  { intros r'. specialize (Hm r'). unfold getCount in *.
    destruct (m !! r') as [amount|]; cbn in Hm |- *.
    - rewrite cardCount_replicate. case_decide; lia.
    - by case_decide. }
  rewrite !Hentry. unfold cardCount. cbn [filter list_filter length].
  destruct r; repeat case_decide; try done; lia.
Qed.

Lemma length_handCards m :
  (∀ r, 0 ≤ getCount m r) → Z.of_nat (length (handCards m)) = totalCards m.
Proof.
  intros Hm. rewrite <- cardCount_total, totalCards_sum. f_equal.
  apply list_fmap_ext. intros ? r ?. by apply cardCount_handCards.
Qed.

Lemma sumZ_insert {A} (f : A → Z) (l : list A) i p p' :
  l !! i = Some p → sumZ (f <$> <[i := p']> l) = sumZ (f <$> l) + f p' - f p.
Proof.
  revert i. induction l as [|a l IH]; intros [|i] Hi; try done.
  - injection Hi as ->. cbn. lia.
  - change (f a + sumZ (f <$> <[i:=p']> l) = f a + sumZ (f <$> l) + f p' - f p).
    rewrite (IH i Hi). lia.
Qed.

Lemma list_insert_alter {A} (f : A → A) (l : list A) i x :
  <[i := x]> (alter f i l) = <[i := x]> l.
Proof.
  apply list_eq. intros j. destruct (decide (j = i)) as [->|Hne].
  - destruct (decide (i < length l)%nat).
    + by rewrite !list_lookup_insert_eq by (rewrite ?length_alter; lia).
    + by rewrite !lookup_ge_None_2 by (rewrite !length_insert, ?length_alter; lia).
  - by rewrite !list_lookup_insert_ne, list_lookup_alter_ne by done.
Qed.

(** the loop of [discardResources] over the cards it has drawn *)
Lemma discard_loop i (taken : list ResourceType) : ∀ e1 p,
  players (state e1) !! i = Some p →
  ∃ e2 m',
    forEach taken (λ resource,
      updatePlayer i (Player.set_resources (addCount resource (-1)));;
      modifyS (set_bank (addCount resource 1))) e1 = (Ok tt, e2) ∧
    players (state e2) = <[i := Player.set_resources (λ _, m') p]> (players (state e1)) ∧
    (∀ r, getCount m' r = getCount (Player.resources p) r - cardCount r taken) ∧
    (∀ r, getCount (bank (state e2)) r = getCount (bank (state e1)) r + cardCount r taken).
Proof.
  induction taken as [|a taken IH]; intros e1 p Hp.
  - exists e1, (Player.resources p). split; [done|]. split_and!.
    + by rewrite set_resources_id, list_insert_id.
    + intros r. unfold cardCount. cbn. lia.
    + intros r. unfold cardCount. cbn. lia.
  - cbn [forEach]. unfold mbind at 1, M_bind at 1.
    unfold mbind at 1, M_bind at 1, updatePlayer, modifyS. cbn beta iota.
    cbn [state initialPlacement rng console].
    set (e1' := mkEngine _ _ _ _).
    destruct (IH e1' (Player.set_resources (addCount a (-1)) p))
      as (e2 & m' & Hrun & Hplayers & Hhand & Hbank).
    { unfold e1'. cbn. by rewrite list_lookup_alter_eq, Hp. }
    exists e2, m'. split; [exact Hrun|]. split_and!.
    + rewrite Hplayers. unfold e1'. cbn. rewrite list_insert_alter. by destruct p.
    + intros r. rewrite Hhand. cbn. rewrite getCount_addCount, cardCount_cons.
      repeat case_decide; subst; try lia; congruence.
    + intros r. rewrite Hbank. unfold e1'. cbn. rewrite getCount_addCount, cardCount_cons.
      repeat case_decide; subst; try lia; congruence.
Qed.

Lemma discardResources_spec i p count e1 :
  players (state e1) !! i = Some p →
  (∀ r, 0 ≤ getCount (Player.resources p) r) →
  0 ≤ count ≤ totalCards (Player.resources p) →
  ∃ e2 m',
    discardResources i p count e1 = (Ok tt, e2) ∧
    players (state e2) = <[i := Player.set_resources (λ _, m') p]> (players (state e1)) ∧
    (∀ r, 0 ≤ getCount m' r ≤ getCount (Player.resources p) r) ∧
    totalCards m' = totalCards (Player.resources p) - count ∧
    (∀ r, getCount (bank (state e2)) r
          = getCount (bank (state e1)) r + (getCount (Player.resources p) r - getCount m' r)).
Proof.
  intros Hp Hnonneg Hcount. unfold discardResources, shuffleM.
  unfold mbind at 1, M_bind at 1.
  pose proof (shuffleArray_Permutation (handCards (Player.resources p)) (rng e1)) as Hperm.
  destruct (shuffleArray _ (rng e1)) as [shuffled rest]. cbn [fst] in Hperm.
  set (e1' := mkEngine _ _ _ _).
  set (taken := take (Z.to_nat count) shuffled).
  destruct (discard_loop i taken e1' p Hp) as (e2 & m' & Hrun & Hplayers & Hhand & Hbank).
  exists e2, m'. split; [exact Hrun|]. split; [exact Hplayers|].
  assert (Htaken : ∀ r, cardCount r taken ≤ getCount (Player.resources p) r).
  { intros r. rewrite <- (cardCount_handCards _ r Hnonneg), <- (cardCount_perm r _ _ Hperm).
    apply cardCount_take. }
  assert (Hlen : Z.of_nat (length taken) = count).
  { unfold taken. rewrite length_take, (Permutation_length Hperm).
    pose proof (length_handCards _ Hnonneg). lia. }
  split_and!.
  - intros r. rewrite Hhand. pose proof (cardCount_nonneg r taken). specialize (Htaken r). lia.
  - rewrite !totalCards_sum, <- Hlen, <- (cardCount_total taken).
    unfold productive, sumZ. cbn [app fmap list_fmap foldr]. rewrite !Hhand. lia.
  - intros r. rewrite Hbank, Hhand. unfold e1'. cbn [state]. lia.
Qed.

(** one turn of the loop of [handleRobberActivation] *)
Lemma robber_step i (q p : Player.t) e1 :
  players (state e1) !! i = Some p →
  (∀ r, 0 ≤ getCount (Player.resources p) r) →
  ∃ e2 p',
    (s' ← getS;
     match players s' !! (i, q).1 with
     | Some player =>
         let totalResources := totalCards (Player.resources player) in
         if 7 <? totalResources
         then discardResources (i, q).1 player (totalResources `div` 2)
         else mret tt
     | None => mret tt
     end) e1 = (Ok tt, e2) ∧
    players (state e2) = <[i := p']> (players (state e1)) ∧
    discarded p p' ∧
    (∀ r, getCount (bank (state e2)) r
          = getCount (bank (state e1)) r
            + (getCount (Player.resources p) r - getCount (Player.resources p') r)).
Proof.
  intros Hp Hnonneg. unfold mbind at 1, M_bind at 1, getS. cbn beta iota. cbn [fst].
  rewrite Hp. cbn zeta. unfold discarded.
  destruct (7 <? totalCards (Player.resources p)) eqn:Hrich.
  - apply Z.ltb_lt in Hrich.
    destruct (discardResources_spec i p (totalCards (Player.resources p) `div` 2) e1 Hp Hnonneg)
      as (e2 & m' & Hrun & Hplayers & Hhand & Htotal & Hbank).
    { split; [apply Z.div_pos; lia|]. apply Z.div_le_upper_bound; lia. }
    exists e2, (Player.set_resources (λ _, m') p). split; [exact Hrun|].
    split; [exact Hplayers|]. split; [|exact Hbank]. by destruct p.
  - exists e1, p. split; [done|]. split; [by rewrite list_insert_id|].
    split; [|intros r; lia]. rewrite set_resources_id. split; [done|].
    split; [|done]. intros r. specialize (Hnonneg r). lia.
Qed.

Lemma robber_prefix e :
  (∀ p r, p ∈ players (state e) → 0 ≤ getCount (Player.resources p) r) →
  ∀ k, (k ≤ length (players (state e)))%nat →
  ∃ ek,
    forEach (imap pair (take k (players (state e)))) (λ ip,
      s' ← getS;
      match players s' !! ip.1 with
      | Some player =>
          let totalResources := totalCards (Player.resources player) in
          if 7 <? totalResources
          then discardResources ip.1 player (totalResources `div` 2)
          else mret tt
      | None => mret tt
      end) e = (Ok tt, ek) ∧
    length (players (state ek)) = length (players (state e)) ∧
    (∀ r, inPlay (state ek) r = inPlay (state e) r) ∧
    ∀ i p, players (state e) !! i = Some p →
      ∃ p', players (state ek) !! i = Some p' ∧
        if decide (i < k)%nat then discarded p p' else p' = p.
Proof.
  intros Hnonneg. induction k as [|k IH]; intros Hk.
  - exists e. split; [done|]. split; [done|]. split; [done|].
    intros i p Hp. exists p. split; [done|]. case_decide; [lia|done].
  - destruct IH as (ek & Hrun & Hlen & Hplay & Hseats); [lia|].
    destruct (lookup_lt_is_Some_2 (players (state e)) k) as [pk Hpk]; [lia|].
    rewrite (take_S_r _ _ _ Hpk), imap_app, forEach_app.
    rewrite (bind_Ok _ _ _ _ _ Hrun).
    cbn [imap forEach]. rewrite length_take, Nat.min_l, Nat.add_0_r by lia.
    unfold compose.
    destruct (Hseats k pk Hpk) as (pk' & Hpk' & Hsame). rewrite decide_False in Hsame by lia.
    subst pk'.
    destruct (robber_step k pk pk ek Hpk') as (e2 & p' & Hstep & Hplayers & Hdisc & Hbank).
    { intros r. apply Hnonneg. by apply list_elem_of_lookup_2 in Hpk. }
    rewrite (bind_Ok _ _ _ _ _ Hstep). exists e2. split; [done|].
    split; [by rewrite Hplayers, length_insert|]. split.
    + intros r. rewrite <- Hplay. unfold inPlay.
      rewrite Hplayers, (sumZ_insert _ _ _ _ _ Hpk'), Hbank. lia.
    + intros i p Hp. rewrite Hplayers.
      destruct (decide (i = k)) as [->|Hne].
      * rewrite list_lookup_insert_eq by (rewrite Hlen; lia). exists p'.
        split; [done|]. rewrite decide_True by lia. congruence.
      * rewrite list_lookup_insert_ne by done.
        destruct (Hseats i p Hp) as (q & Hq & Hrel). exists q. split; [done|].
        repeat case_decide; try done; lia.
Qed.

(** X10.  The discards of a 7.  If no hand holds a negative count,
    [handleRobberActivation] returns; every player who held more than
    7 cards has lost half of them, rounded down, and the others have
    lost none; no count of any hand has grown or gone below zero,
    nothing else of a player has changed; and for every resource the
    hands and the bank together hold as many cards as before: the
    discards went to the bank. *)
Theorem robber_discards_half (e : Engine) :
  (∀ p r, p ∈ players (state e) → 0 ≤ getCount (Player.resources p) r) →
  ∃ e', handleRobberActivation e = (Ok tt, e') ∧
    length (players (state e')) = length (players (state e)) ∧
    (∀ r, inPlay (state e') r = inPlay (state e) r) ∧
    ∀ i p, players (state e) !! i = Some p →
      ∃ p', players (state e') !! i = Some p' ∧ discarded p p'.
Proof.
  intros Hnonneg.
  destruct (robber_prefix e Hnonneg (length (players (state e))) ltac:(lia))
    as (e' & Hrun & Hlen & Hplay & Hseats).
  rewrite take_ge in Hrun by lia.
  exists e'. split; [exact Hrun|]. split; [exact Hlen|]. split; [exact Hplay|].
  intros i p Hp. destruct (Hseats i p Hp) as (p' & Hp' & Hrel). exists p'.
  split; [done|]. apply lookup_lt_Some in Hp. by rewrite decide_True in Hrel by lia.
Qed.

(** ** Drawing the board, and the ports *)

Lemma forEach_inv_in {A} (I : Engine → Prop) (l : list A) (body : A → M unit) :
  (∀ a e, a ∈ l → I e → ∃ e', body a e = (Ok tt, e') ∧ I e') →
  ∀ e, I e → ∃ e', forEach l body e = (Ok tt, e') ∧ I e'.
Proof.
  induction l as [|a l IH]; intros Hbody e He; cbn [forEach]; [by eexists|].
  destruct (Hbody a e ltac:(left) He) as (e1 & Hrun & He1). rewrite (bind_Ok _ _ _ _ _ Hrun).
  apply IH; [|done]. intros b e2 Hb. apply Hbody. by right.
Qed.

Lemma insertByAngle_perm x l : insertByAngle x l ≡ₚ x :: l.
Proof.
  induction l as [|y l IH]; cbn [insertByAngle]; [done|].
  destruct (Qltb x.2 y.2); [done|]. rewrite IH. apply Permutation_swap.
Qed.

Lemma sortByAngle_perm l : sortByAngle l ≡ₚ l.
Proof.
  unfold sortByAngle.
  assert (Hgen : ∀ acc, foldl (λ sorted x, insertByAngle x sorted) acc l ≡ₚ acc ++ l).
  { induction l as [|x l IH]; intros acc; cbn [foldl]; [by rewrite app_nil_r|].
    rewrite IH, insertByAngle_perm. cbn. apply Permutation_middle. }
  by rewrite Hgen.
Qed.

Lemma collectAngles_spec (angle : nat → res Q) (ids : list nat) : ∀ acc,
  (∀ id, id ∈ ids → ∃ q, angle id = Ok q) →
  ∃ r, foldlR (λ acc edgeId, a ← angle edgeId; Ok (acc ++ [(edgeId, a)])) acc ids = Ok r ∧
       r.*1 = acc.*1 ++ ids.
Proof.
  induction ids as [|id ids IH]; intros acc Hok; cbn [foldlR].
  - exists acc. by rewrite app_nil_r.
  - destruct (Hok id) as [q ->]; [left|]. cbn [mbind res_bind].
    destruct (IH (acc ++ [(id, q)])) as (r & -> & Hr); [intros; apply Hok; by right|].
    exists r. split; [done|]. rewrite Hr, fmap_app. cbn. by rewrite <- app_assoc.
Qed.

Section Ports.
Context `{JsMath}.

Lemma findBorderVertices_lt s v :
  v ∈ findBorderVertices s → is_Some (vertices s !! v).
Proof.
  unfold findBorderVertices. rewrite list_elem_of_omap.
  intros ([j vertex] & Hin & Hsome). cbn [fst snd] in Hsome.
  apply list_elem_of_lookup in Hin as [k Hk].
  apply list_lookup_imap_Some in Hk as (vertex' & Hv & [= -> ->]).
  repeat case_match; try done. injection Hsome as <-. by eexists.
Qed.

Lemma edgeIndices_NoDup P es : NoDup (edgeIndices P es).
Proof.
  unfold edgeIndices.
  assert (Hgen : ∀ k, NoDup (omap (λ ie : nat * Edge.t, if P ie.1 ie.2 then Some ie.1 else None)
                               (imap (λ i, pair (k + i)%nat) es)) ∧
                      ∀ j, j ∈ omap (λ ie : nat * Edge.t, if P ie.1 ie.2 then Some ie.1 else None)
                                 (imap (λ i, pair (k + i)%nat) es) → (k ≤ j)%nat).
  { induction es as [|e es IH]; intros k; cbn [imap omap list_omap].
    - split; [apply NoDup_nil_2|]. intros j Hj. by apply elem_of_nil in Hj.
    - destruct (IH (S k)) as [IHnd IHge].
      assert (Heq : imap ((λ i, pair (k + i)%nat) ∘ S) es
                    = imap (λ i, pair (S k + i)%nat) es).
      { apply imap_ext. intros i x _. cbn. f_equal. lia. }
      rewrite Heq. cbn [fst snd]. destruct (P (k + 0)%nat e).
      + split.
        * apply NoDup_cons. split; [|done]. intros Hin%IHge. lia.
        * intros j [->|Hj%IHge]%elem_of_cons; lia.
      + split; [done|]. intros j Hj%IHge. lia. }
  destruct (Hgen 0%nat) as [Hnd _]. exact Hnd.
Qed.

Lemma omap_port_none es :
  (∀ edge, edge ∈ es → Edge.port edge = None) → omap Edge.port es = [].
Proof.
  induction es as [|ed es IH]; intros Hnone; cbn [omap list_omap]; [done|].
  rewrite (Hnone ed) by left. apply IH. intros. apply Hnone. by right.
Qed.

Lemma omap_cons {A B} (f : A → option B) a l :
  omap f (a :: l) = match f a with Some y => y :: omap f l | None => omap f l end.
Proof. done. Qed.

(** writing one port *)
Lemma omap_port_alter es k ed t :
  es !! k = Some ed → Edge.port ed = None →
  omap Edge.port (alter (Edge.set_port (Some t)) k es) ≡ₚ t :: omap Edge.port es.
Proof.
  revert k. induction es as [|a es IH]; intros [|k] Hk Hnone; try done; cbn in Hk.
  - injection Hk as ->. cbn. by rewrite Hnone.
  - change (alter (Edge.set_port (Some t)) (S k) (a :: es))
      with (a :: alter (Edge.set_port (Some t)) k es).
    rewrite !omap_cons.
    destruct (Edge.port a); rewrite (IH k Hk Hnone); [apply Permutation_swap|done].
Qed.

(** the writes of the loop of [assignPorts] *)
Lemma ports_fold (kts : list (nat * PortType)) : ∀ es,
  NoDup kts.*1 →
  (∀ k, k ∈ kts.*1 → ∃ ed, es !! k = Some ed ∧ Edge.port ed = None) →
  let es' := foldl (λ es kt, alter (Edge.set_port (Some kt.2)) kt.1 es) es kts in
  omap Edge.port es' ≡ₚ kts.*2 ++ omap Edge.port es ∧
  edgeLine <$> es' = edgeLine <$> es ∧
  (∀ j, j ∉ kts.*1 → es' !! j = es !! j).
Proof.
  induction kts as [|[k t] kts IH]; intros es Hnd Hfree; cbn [foldl fmap list_fmap fst snd].
  - done.
  - apply NoDup_cons in Hnd as [Hk Hnd]. cbn [fst snd] in *.
    destruct (Hfree k) as (ed & Hed & Hnone); [left|].
    destruct (IH (alter (Edge.set_port (Some t)) k es) Hnd) as (Hports & Hlines & Hrest).
    { intros j Hj. destruct (Hfree j) as (ej & Hej & Hnj); [by right|].
      exists ej. rewrite list_lookup_alter_ne; [done|]. by intros ->. }
    split_and!.
    + rewrite Hports, (omap_port_alter _ _ _ _ Hed Hnone). cbn.
      by rewrite Permutation_middle.
    + rewrite Hlines. by apply list_fmap_alter_same.
    + intros j Hj. apply not_elem_of_cons in Hj as [Hjk Hj].
      by rewrite (Hrest j Hj), list_lookup_alter_ne.
Qed.

Lemma borderEdge_exists s edgeId :
  edgeId ∈ findBorderEdges s →
  ∃ edge, edges s !! edgeId = Some edge ∧
    is_Some (vertices s !! Edge.vertex1 edge) ∧ is_Some (vertices s !! Edge.vertex2 edge).
Proof.
  unfold findBorderEdges. rewrite edgeIndices_spec. intros (edge & He & HP).
  apply andb_prop in HP as [HP _]. apply andb_prop in HP as [H1 H2].
  apply bool_decide_eq_true in H1, H2. exists edge.
  split; [done|]. split; by apply findBorderVertices_lt.
Qed.

Lemma sortEdgesByPerimeterPosition_returns s :
  ∃ sorted, sortEdgesByPerimeterPosition s (findBorderEdges s) = Ok sorted ∧
            sorted ≡ₚ findBorderEdges s.
Proof.
  unfold sortEdgesByPerimeterPosition.
  destruct (collectAngles_spec (perimeterAngle s) (findBorderEdges s) []) as (r & -> & Hr).
  { intros id (edge & He & [v1 Hv1] & [v2 Hv2])%borderEdge_exists.
    unfold perimeterAngle. rewrite He. cbn [deref mbind res_bind].
    rewrite Hv1. cbn [deref mbind res_bind]. rewrite Hv2. by eexists. }
  cbn [mbind res_bind]. eexists. split; [done|].
  rewrite (sortByAngle_perm r), Hr. done.
Qed.

(** the positions [assignPorts] picks along the sorted border *)
Lemma fixedPortEdges_spec (sorted : list nat) :
  NoDup sorted → (9 ≤ length sorted)%nat →
  let fixed := omap (λ i, sorted !! ((i * (length sorted `div` 9)) `mod` length sorted)%nat)
                    (seq 0 9) in
  NoDup fixed ∧ length fixed = 9%nat.
Proof.
  intros Hnd Hlen. set (n := length sorted). set (iv := (n `div` 9)%nat).
  assert (Hiv : (1 ≤ iv ∧ 9 * iv ≤ n)%nat).
  { unfold iv. split; [apply Nat.div_le_lower_bound; lia|].
    apply Nat.Div0.mul_div_le. }
  assert (Hgen : ∀ idx, NoDup idx → (∀ i, i ∈ idx → i < 9)%nat →
            let l := omap (λ i, sorted !! ((i * iv) `mod` n)%nat) idx in
            NoDup l ∧ length l = length idx ∧
            ∀ x, x ∈ l → ∃ i, i ∈ idx ∧ sorted !! (i * iv)%nat = Some x).
  { induction idx as [|i idx IH]; intros Hnd' Hlt; cbn zeta.
    - split; [apply NoDup_nil_2|]. split; [done|]. intros x Hx. by apply elem_of_nil in Hx.
    - apply NoDup_cons in Hnd' as [Hi Hnd'].
      destruct IH as (IHnd & IHlen & IHin); [done|intros; apply Hlt; by right|].
      assert (Hsmall : (i * iv < n)%nat).
      { assert (i < 9)%nat by (apply Hlt; left). nia. }
      rewrite omap_cons, (Nat.mod_small _ _ Hsmall).
      destruct (lookup_lt_is_Some_2 sorted (i * iv)%nat Hsmall) as [x Hx]. rewrite Hx.
      split_and!.
      + apply NoDup_cons. split; [|done].
        intros (j & Hj & Hxj)%IHin.
        assert (i * iv = j * iv)%nat as Heq
          by (eapply NoDup_lookup; [exact Hnd|exact Hx|exact Hxj]).
        assert (i = j) by nia. by subst.
      + cbn [length]. by rewrite IHlen.
      + intros y [->|Hy]%elem_of_cons.
        * exists i. split; [left|done].
        * destruct (IHin y Hy) as (j & Hj & Hyj). exists j. split; [by right|done]. }
  destruct (Hgen (seq 0 9)) as (H1 & H2 & _).
  - apply NoDup_seq.
  - intros i Hi%elem_of_seq. lia.
  - split; [exact H1|]. by rewrite H2.
Qed.

Lemma fixedPortEdges_in (sorted : list nat) k :
  k ∈ omap (λ i, sorted !! ((i * (length sorted `div` 9)) `mod` length sorted)%nat) (seq 0 9)
  → k ∈ sorted.
Proof.
  rewrite list_elem_of_omap. intros (i & _ & Hk). by apply list_elem_of_lookup_2 in Hk.
Qed.

(** the loop of [assignPorts] *)
Lemma ports_loop (kts : list (nat * PortType)) : ∀ e,
  (∀ k, k ∈ kts.*1 → (k < length (edges (state e)))%nat) →
  forEach kts (λ ep,
    s' ← getS;
    _ ← liftR (deref (edges s' !! ep.1));
    updateEdge ep.1 (Edge.set_port (Some ep.2))) e
  = (Ok tt,
     withState
       (set_edges (λ es, foldl (λ es kt, alter (Edge.set_port (Some kt.2)) kt.1 es) es kts)
                  (state e)) e).
Proof.
  induction kts as [|[k t] kts IH]; intros e Hlt; cbn [forEach foldl].
  - by destruct e as [[] ? ? ?].
  - destruct (lookup_lt_is_Some_2 (edges (state e)) k) as [ed Hed]; [apply Hlt; left|].
    unfold mbind at 1, M_bind at 1.
    unfold mbind at 1, M_bind at 1, getS. cbn beta iota.
    unfold mbind at 1, M_bind at 1, liftR. cbn [fst snd]. rewrite Hed. cbn [deref].
    unfold updateEdge, modifyS. cbn beta iota.
    rewrite IH; [done|].
    intros j Hj. cbn. rewrite length_alter. apply Hlt. by right.
Qed.

(** what [assignPorts] does on a board with at least 9 eligible
    border edges *)
Lemma assignPorts_run e :
  (9 ≤ length (findBorderEdges (state e)))%nat →
  ∃ sorted shuffled,
    sorted ≡ₚ findBorderEdges (state e) ∧ shuffled ≡ₚ allPortTypes ∧
    let fixed := omap (λ i, sorted !! ((i * (length sorted `div` 9)) `mod` length sorted)%nat)
                      (seq 0 9) in
    assignPorts e
    = (Ok tt,
       mkEngine
         (set_edges (λ es, foldl (λ es kt, alter (Edge.set_port (Some kt.2)) kt.1 es) es
                                 (zip fixed shuffled)) (state e))
         (initialPlacement e) (shuffleArray allPortTypes (rng e)).2 (console e)).
Proof.
  intros Hmany. unfold assignPorts.
  unfold mbind at 1, M_bind at 1, getS. cbn beta iota.
  rewrite (proj2 (Nat.ltb_ge _ _) Hmany).
  unfold mbind at 1, M_bind at 1, shuffleM.
  pose proof (shuffleArray_Permutation allPortTypes (rng e)) as Hperm.
  destruct (shuffleArray allPortTypes (rng e)) as [shuffled rest]. cbn [fst snd] in *.
  destruct (sortEdgesByPerimeterPosition_returns (state e)) as (sorted & Hsorted & Hsperm).
  unfold mbind at 1, M_bind at 1, liftR. rewrite Hsorted.
  exists sorted, shuffled. split; [done|]. split; [done|]. cbn zeta.
  rewrite ports_loop; [done|].
  intros k Hk. cbn [state].
  assert (k ∈ sorted) as Hin.
  { apply fixedPortEdges_in. apply list_elem_of_fmap in Hk as ([k' t] & -> & Hkt).
    apply elem_of_zip_l in Hkt. exact Hkt. }
  rewrite Hsperm in Hin. apply borderEdge_exists in Hin as (edge & He & _).
  by apply lookup_lt_Some in He.
Qed.

Lemma assignPorts_returns e : ∃ e', assignPorts e = (Ok tt, e').
Proof.
  destruct (decide (length (findBorderEdges (state e)) < 9)%nat) as [Hfew|Hmany].
  - unfold assignPorts, mbind, M_bind, getS. cbn beta iota.
    rewrite (proj2 (Nat.ltb_lt _ _) Hfew). by eexists.
  - destruct (assignPorts_run e ltac:(lia)) as (sorted & shuffled & _ & _ & ->). by eexists.
Qed.

Lemma connectPair_owner (g : Edge.t → nat * option PlayerColor * option PortType) v1 acc v2 :
  (∀ a b e, g (Edge.set_vertices a b e) = g e) →
  g <$> (connectPair v1 acc v2).1 = g <$> acc.1.
Proof.
  intros Hg. unfold connectPair. repeat case_match; cbn [fst]; try done.
  apply list_fmap_alter_same. intros. apply Hg.
Qed.

Lemma connectEdgesToVertices_owner vs es :
  (λ e, (Edge.id e, Edge.road e, Edge.port e)) <$> connectEdgesToVertices vs es
  = (λ e, (Edge.id e, Edge.road e, Edge.port e)) <$> es.
Proof.
  unfold connectEdgesToVertices. generalize 0%nat. intros k.
  set (g := λ e, (Edge.id e, Edge.road e, Edge.port e)).
  assert (Hinner : ∀ v1 rest acc, g <$> (foldl (connectPair v1) acc rest).1 = g <$> acc.1).
  { intros v1. induction rest as [|v2 rest IH]; intros acc; cbn [foldl]; [done|].
    rewrite IH. by apply connectPair_owner. }
  assert (Hgen : ∀ acc, g <$> (connectFrom vs acc).1 = g <$> acc.1).
  { induction vs as [|v1 rest IH]; intros acc; cbn [connectFrom]; [done|].
    by rewrite IH, Hinner. }
  apply Hgen.
Qed.

Lemma connectEdgesToVertices_edgeOwner vs es :
  edgeOwner <$> connectEdgesToVertices vs es = edgeOwner <$> es.
Proof.
  pose proof (connectEdgesToVertices_owner vs es) as Howner.
  apply (f_equal (fmap (λ x : nat * option PlayerColor * option PortType,
                          (x.1.1, x.1.2)))) in Howner.
  rewrite <- !list_fmap_compose in Howner. exact Howner.
Qed.

Lemma calculateVertexPositions_owner hs vs :
  vertexOwner <$> calculateVertexPositions hs vs = vertexOwner <$> vs.
Proof.
  unfold calculateVertexPositions.
  generalize (imap pair (foldl (λ sorted p, insertPosition p sorted) []
                               ((cornerPositions hs).*2))).
  intros ps. revert vs. induction ps as [|[i p] ps IH]; intros vs; cbn [foldl]; [done|].
  rewrite IH. by apply list_fmap_alter_same.
Qed.

(** the state without its vertex and edge arrays, with what
    identifies the vertices and the edges *)
Let drawn : Engine → _ := λ e,
  (set_vertices (λ _, []) (set_edges (λ _, []) (state e)), initialPlacement e,
   vertexOwner <$> vertices (state e), edgeOwner <$> edges (state e)).

Lemma drawn_drawBoard : preserves drawn drawBoard.
Proof.
  unfold drawBoard, assignPorts, updateEdge.
  repeat first
    [ frame_step
    | match goal with
      | |- preserves _ (modifyS (set_vertices (calculateVertexPositions _))) =>
          intros ?; unfold drawn; cbn;
          by rewrite calculateVertexPositions_owner
      | |- preserves _ (modifyS (set_edges (connectEdgesToVertices _))) =>
          intros ?; unfold drawn; cbn;
          by rewrite connectEdgesToVertices_edgeOwner
      | |- preserves _ (modifyS (set_edges (alter (Edge.set_port _) _))) =>
          intros ?; unfold drawn; cbn; f_equal; by apply list_fmap_alter_same
      | |- preserves _ (warn _) => intros ?; reflexivity
      end ].
Qed.


(** X12.  Nine ports.  On a board with at least 9 eligible border
    edges and no port yet, [assignPorts] returns after giving ports to
    nine of the eligible border edges: the ports on the board are then
    the nine of [allPortTypes], one of each specific resource and four
    generic ones, in some order.  It changes the ports and nothing
    else of the game state, and writes no warning. *)
Theorem assignPorts_places_nine_ports (e : Engine) :
  (9 ≤ length (findBorderEdges (state e)))%nat →
  (∀ edge, edge ∈ edges (state e) → Edge.port edge = None) →
  ∃ e', assignPorts e = (Ok tt, e') ∧
    omap Edge.port (edges (state e')) ≡ₚ allPortTypes ∧
    (∀ j edge', edges (state e') !! j = Some edge' → Edge.port edge' ≠ None →
       j ∈ findBorderEdges (state e)) ∧
    edgeLine <$> edges (state e') = edgeLine <$> edges (state e) ∧
    state e' = set_edges (λ _, edges (state e')) (state e) ∧
    initialPlacement e' = initialPlacement e ∧ console e' = console e.
Proof.
  intros Hmany Hnone.
  destruct (assignPorts_run e Hmany) as (sorted & shuffled & Hsorted & Hshuffled & Hrun).
  cbn zeta in Hrun. eexists. split; [exact Hrun|]. cbn [state initialPlacement console].
  set (fixed := omap _ (seq 0 9)) in *.
  assert (Hnd : NoDup sorted) by (rewrite Hsorted; apply edgeIndices_NoDup).
  destruct (fixedPortEdges_spec sorted Hnd) as [Hfnd Hflen];
    [by rewrite Hsorted|]. fold fixed in Hfnd, Hflen.
  assert (Hslen : length shuffled = 9%nat) by (by rewrite Hshuffled).
  assert (Hfst : (zip fixed shuffled).*1 = fixed) by (apply fst_zip; lia).
  assert (Hsnd : (zip fixed shuffled).*2 = shuffled) by (apply snd_zip; lia).
  assert (Hborder : ∀ k, k ∈ fixed → k ∈ findBorderEdges (state e)).
  { intros k Hk. rewrite <- Hsorted. by apply fixedPortEdges_in. }
  destruct (ports_fold (zip fixed shuffled) (edges (state e))) as (Hports & Hlines & Hrest).
  { by rewrite Hfst. }
  { rewrite Hfst. intros k (edge & He & _)%Hborder%borderEdge_exists. exists edge.
    split; [done|]. apply Hnone. by apply list_elem_of_lookup_2 in He. }
  cbn zeta in Hports, Hlines, Hrest. cbn [edges set_edges].
  split_and!; try done.
  - by rewrite Hports, Hsnd, (omap_port_none _ Hnone), app_nil_r.
  - intros j edge' Hj Hport. apply Hborder.
    destruct (decide (j ∈ fixed)) as [|Hout]; [done|].
    rewrite Hrest in Hj by (by rewrite Hfst). destruct Hport. apply Hnone.
    by apply list_elem_of_lookup_2 in Hj.
Qed.

End Ports.

(** ** Bounds of the road length *)

Lemma length_edgeIndices (f : Edge.t → bool) es :
  length (edgeIndices (λ _ e, f e) es) = length (List.filter f es).
Proof.
  unfold edgeIndices.
  assert (Hgen : ∀ (g : nat → nat),
            length (omap (λ ie : nat * Edge.t, if f ie.2 then Some ie.1 else None)
                         (imap (λ i, pair (g i)) es))
            = length (List.filter f es)).
  { induction es as [|e es IH]; intros g; [done|].
    cbn [imap List.filter]. rewrite omap_cons. cbn [fst snd].
    specialize (IH (g ∘ S)). unfold compose in *.
    destruct (f e); cbn [length]; by rewrite IH. }
  apply (Hgen (λ i, i)).
Qed.

(** X13.  Bounds of the road length.  For a player of the game
    [calculateLongestRoad] returns a length that is at most the number
    of the player's roads and at least the length of every chain of
    the player's roads in which each road has an end in common with
    the next; it is 0 exactly when the player has no road. *)
Theorem road_length_between_chain_and_count (s : GameState) (playerId : nat)
    (player : Player.t) :
  players s !! playerId = Some player →
  ∃ n, calculateLongestRoad s playerId = Ok n ∧
    0 ≤ n ≤ Z.of_nat (roadCount s (Player.color player)) ∧
    (n = 0 ↔ roadCount s (Player.color player) = 0%nat) ∧
    ∀ es, roadChain s (Player.color player) es → Z.of_nat (length es) ≤ n.
Proof.
  intros Hplayer.
  destruct (calculateLongestRoad_returns s playerId) as [n Hrun]; [by eexists|].
  exists n. split; [exact Hrun|].
  set (color := Player.color player).
  remember (edgeIndices (λ _ edge, bool_decide (Edge.road edge = Some color)) (edges s))
    as playerRoads eqn:Hdef.
  assert (Hnodup : NoDup playerRoads) by (rewrite Hdef; apply edgeIndices_NoDup).
  assert (Hcount : length playerRoads = roadCount s color).
  { rewrite Hdef. apply (length_edgeIndices (λ e, bool_decide (Edge.road e = Some color))). }
  assert (Hroads : ∀ i, i ∈ playerRoads
                        ↔ ∃ edge, edges s !! i = Some edge ∧ Edge.road edge = Some color).
  { intros i. rewrite Hdef, edgeIndices_spec.
    split; intros (edge & He & Hroad); exists edge; split; try done.
    - by apply bool_decide_eq_true_1 in Hroad.
    - by apply bool_decide_eq_true_2. }
  unfold calculateLongestRoad in Hrun.
  destruct (edges s) as [|e0 es0] eqn:Hedges.
  { injection Hrun as <-. unfold roadCount. rewrite Hedges. cbn.
    split; [lia|]. split; [done|]. intros es (_ & Hown & _).
    destruct es as [|a es]; [cbn; lia|]. destruct (Hown a) as (edge & He & _); [left|].
    rewrite Hedges in He. done. }
  rewrite <- Hedges in *. rewrite Hplayer in Hrun. cbn [deref mbind res_bind] in Hrun.
  fold color in Hrun. rewrite <- Hdef in Hrun. clear Hdef.
  destruct playerRoads as [|i0 is'] eqn:Hlist.
  { injection Hrun as <-. rewrite <- Hcount. cbn [length].
    split; [lia|]. split; [done|]. intros es (_ & Hown & _).
    destruct es as [|a es]; [cbn; lia|].
    assert (a ∈ @nil nat) as Hnil%elem_of_nil; [|done].
    apply Hroads, Hown. by left. }
  rewrite <- Hlist in *.
  assert (Hupper : n ≤ Z.of_nat (length playerRoads)).
  { revert Hrun. apply (foldlR_post (λ r, r ≤ Z.of_nat (length playerRoads))); [lia|].
    intros acc start acc' Hstart Hacc Hstep.
    destruct (findLongestPathFromEdge _ s start playerId ∅) as [len|] eqn:Hlen; [|done].
    cbn in Hstep. injection Hstep as <-.
    apply (findLongestPathFromEdge_upper s playerId player (list_to_set playerRoads))
      in Hlen; [| done | | |].
    + rewrite difference_empty_L, size_list_to_set in Hlen by done. lia.
    + intros i edge Hi Hroad. apply elem_of_list_to_set, Hroads. eauto.
    + by apply elem_of_list_to_set.
    + apply not_elem_of_empty. }
  assert (Hlower : ∀ a rest, roadChain s color (a :: rest) →
                             Z.of_nat (length (a :: rest)) ≤ n).
  { intros a rest (Hnd & Hown & Hadj).
    assert (Ha : a ∈ playerRoads) by (apply Hroads, Hown; left).
    apply list_elem_of_split in Ha as (l1 & l2 & Hl). rewrite Hl in Hrun.
    apply foldlR_split in Hrun as (b1 & b2 & _ & Hstep & Hrest).
    destruct (findLongestPathFromEdge _ s a playerId ∅) as [len|] eqn:Hlen; [|done].
    cbn in Hstep. injection Hstep as <-.
    apply foldlR_mono in Hrest.
    2:{ intros b x b' _ Hx.
        destruct (findLongestPathFromEdge _ s x playerId ∅); [|done].
        cbn in Hx. injection Hx as <-. lia. }
    apply (findLongestPathFromEdge_lower s playerId player Hplayer rest) in Hlen;
      [lia|done|intros x _; apply not_elem_of_empty|done|done]. }
  assert (Hone : 1 ≤ n).
  { assert (Hi0 : i0 ∈ playerRoads) by (rewrite Hlist; left).
    apply (Hlower i0 []). split_and!.
    - apply NoDup_singleton.
    - intros i ->%list_elem_of_singleton. by apply Hroads.
    - intros k a b ea eb _ Hb. by destruct k. }
  rewrite <- Hcount. split; [lia|]. split.
  - rewrite Hlist. cbn [length]. split; [lia|done].
  - intros [|a rest] Hchain; [cbn; lia|]. by apply Hlower.
Qed.

(** ** Invariants of the players *)

Lemma keeps_ret {A} (a : A) : keeps (mret a).
Proof. by intros e. Qed.

Lemma keeps_bind {A B} (m : M A) (k : A → M B) :
  keeps m → (∀ a, keeps (k a)) → keeps (m ≫= k).
Proof.
  intros Hm Hk e He. unfold mbind, M_bind. specialize (Hm e He).
  destruct (m e) as [[a|err] e1]; [by apply Hk|done].
Qed.

(** the invariant through a step of which more is known *)
Lemma bind_sound {A B} (m : M A) (k : A → M B) e (Q : A → Engine → Prop) :
  match m e with
  | (Ok a, e1) => Q a e1
  | (Throw _, e1) => sound (state e1)
  end →
  (∀ a e1, Q a e1 → sound (state (k a e1).2)) →
  sound (state ((m ≫= k) e).2).
Proof.
  intros Hm Hk. unfold mbind, M_bind. destruct (m e) as [[a|err] e1]; [by apply Hk|done].
Qed.

Lemma keeps_forEach {A} (l : list A) (body : A → M unit) :
  (∀ a, keeps (body a)) → keeps (forEach l body).
Proof.
  intros Hbody. induction l as [|a l IH]; [apply keeps_ret|].
  cbn [forEach]. apply keeps_bind; [apply Hbody|by intros].
Qed.

(** a step that leaves the players and the recorded holder alone *)
Lemma keeps_frame {A} (m : M A) :
  preserves (λ e, (players (state e), longestRoadPlayer (state e))) m → keeps m.
Proof.
  intros Hm e He. specialize (Hm e). cbn beta in Hm. injection Hm as Hp Hl.
  intros i p Hi. rewrite Hp in Hi. rewrite Hl. by apply He.
Qed.

Lemma sound_alter s s' i f :
  sound s →
  players s' = alter f i (players s) →
  longestRoadPlayer s' = longestRoadPlayer s →
  (∀ p, players s !! i = Some p →
        accounted p → accounted (f p) ∧ Player.hasLongestRoad (f p) = Player.hasLongestRoad p) →
  sound s'.
Proof.
  intros Hs Hp Hl Hf j q. rewrite Hp, Hl, list_lookup_alter.
  case_decide as Hj; [subst j|by apply Hs].
  destruct (players s !! i) as [p|] eqn:Hi; [|done]. intros [= <-].
  destruct (Hs i p Hi) as [Hacc Hflag]. destruct (Hf p eq_refl Hacc) as [Hacc' Hflag'].
  split; [done|]. by rewrite Hflag'.
Qed.

Lemma keeps_updatePlayer i f :
  (∀ p, accounted p → accounted (f p) ∧ Player.hasLongestRoad (f p) = Player.hasLongestRoad p)
  → keeps (updatePlayer i f).
Proof.
  intros Hf e He. apply (sound_alter (state e) _ i f); [done|done|done|]. intros p _. apply Hf.
Qed.

(** two writes to the same player that balance only together *)
Lemma keeps_updatePlayer2 {A} i f g (k : M A) :
  (∀ p, accounted p → accounted (g (f p))
                      ∧ Player.hasLongestRoad (g (f p)) = Player.hasLongestRoad p) →
  keeps k → keeps (updatePlayer i f;; updatePlayer i g;; k).
Proof.
  intros Hf Hk e He. unfold mbind, M_bind, updatePlayer, modifyS. cbn beta iota.
  apply Hk. cbn [state].
  apply (sound_alter (state e) _ i (g ∘ f)); [done| |done|intros p _; apply Hf].
  cbn. by rewrite list_alter_alter_eq.
Qed.

Lemma accounted_gain r amount p :
  0 ≤ amount → accounted p →
  accounted (Player.set_resources (addCount r amount) p)
  ∧ Player.hasLongestRoad (Player.set_resources (addCount r amount) p)
    = Player.hasLongestRoad p.
Proof.
  intros Hamount [Hvp Hhand]. split; [|done]. split; [done|].
  intros r'. cbn. rewrite getCount_addCount.
  pose proof (Hhand r). pose proof (Hhand r'). case_decide; lia.
Qed.

Ltac keeps_step :=
  first
    [ apply keeps_ret
    | apply keeps_bind; [|intros]
    | apply keeps_forEach; intros
    | match goal with
      | |- keeps (match ?x with _ => _ end) => destruct x
      | |- keeps (if ?b then _ else _) => destruct b
      end
    | apply keeps_frame; solve [repeat frame_step] ].

Section Invariants.
Context `{JsMath}.

Lemma keeps_giveInitialResources v p : keeps (giveInitialResources v p).
Proof.
  unfold giveInitialResources. repeat keeps_step.
  apply keeps_updatePlayer. intros q. by apply accounted_gain.
Qed.

Lemma keeps_placeInitialSettlement v p : keeps (placeInitialSettlement v p).
Proof.
  unfold placeInitialSettlement.
  apply keeps_bind; [by intros e|intros ok].
  destruct (negb ok); [apply keeps_ret|].
  apply keeps_bind; [apply keeps_frame; repeat frame_step|intros s].
  apply keeps_bind; [apply keeps_frame; unfold updateVertex; repeat frame_step|intros _].
  apply keeps_bind; [apply keeps_frame; repeat frame_step|intros player].
  apply keeps_bind; [apply keeps_frame; unfold updateVertex; repeat frame_step|intros _].
  apply keeps_updatePlayer2.
  { intros q [Hvp Hhand]. split; [|done]. split; [cbn; lia|done]. }
  apply keeps_bind; [apply keeps_frame; repeat frame_step|intros _].
  destruct (bool_decide _); [|apply keeps_ret].
  apply keeps_bind; [apply keeps_giveInitialResources|intros; apply keeps_ret].
Qed.

Lemma keeps_placeInitialRoad ed p v : keeps (placeInitialRoad ed p v).
Proof.
  unfold placeInitialRoad.
  apply keeps_bind; [by intros e|intros ok].
  destruct (negb ok); [apply keeps_ret|].
  apply keeps_bind; [apply keeps_frame; repeat frame_step|intros s].
  apply keeps_bind; [apply keeps_frame; repeat frame_step|intros player].
  apply keeps_bind; [apply keeps_frame; unfold updateEdge; repeat frame_step|intros _].
  apply keeps_bind.
  { apply keeps_updatePlayer. intros q [Hvp Hhand]. by split. }
  intros _. apply keeps_bind; [apply keeps_frame; repeat frame_step|intros; apply keeps_ret].
Qed.

Lemma keeps_advanceIfTurnComplete p : keeps (advanceIfTurnComplete p).
Proof.
  apply keeps_frame. intros e. unfold advanceIfTurnComplete.
  assert (Hadv : preserves (λ e, (players (state e), longestRoadPlayer (state e)))
                   advanceToNextPlayer) by frame_auto.
  repeat case_match; first [apply Hadv|done].
Qed.

Lemma canAffordSettlement_pays p :
  canAffordSettlement p = true → accounted p →
  accounted (payForSettlement
               (Player.set_victoryPoints (λ n, n + 1) (Player.set_settlements (λ n, n + 1) p))).
Proof.
  unfold canAffordSettlement. rewrite !andb_true_iff, !Z.leb_le.
  intros (((Hb & Hw) & Hs) & Hg) [Hvp Hhand]. split; [cbn; lia|].
  intros r. unfold payForSettlement, payForCity, payForRoad. cbn -[addCount getCount].
  rewrite !getCount_addCount.
  pose proof (Hhand r). repeat case_decide; subst; first [lia | congruence].
Qed.

Lemma canAffordCity_pays p :
  canAffordCity p = true → accounted p →
  accounted (payForCity
               (Player.set_victoryPoints (λ n, n + 1)
                  (Player.set_settlements (λ n, n - 1) (Player.set_cities (λ n, n + 1) p)))).
Proof.
  unfold canAffordCity. rewrite !andb_true_iff, !Z.leb_le.
  intros (Hg & Ho) [Hvp Hhand]. split; [cbn; lia|].
  intros r. unfold payForSettlement, payForCity, payForRoad. cbn -[addCount getCount].
  rewrite !getCount_addCount.
  pose proof (Hhand r). repeat case_decide; subst; first [lia | congruence].
Qed.

Lemma canAffordRoad_pays p :
  canAffordRoad p = true → accounted p →
  accounted (payForRoad (Player.set_roads (λ n, n + 1) p)).
Proof.
  unfold canAffordRoad. rewrite !andb_true_iff, !Z.leb_le.
  intros (Hb & Hw) [Hvp Hhand]. split; [cbn; lia|].
  intros r. unfold payForSettlement, payForCity, payForRoad. cbn -[addCount getCount].
  rewrite !getCount_addCount.
  pose proof (Hhand r). repeat case_decide; subst; first [lia | congruence].
Qed.

Lemma keeps_buildSettlement v p : keeps (buildSettlement v p).
Proof.
  intros e He. unfold buildSettlement.
  destruct (inInitialPlacement e); [by apply keeps_placeInitialSettlement|].
  unfold mbind, M_bind, getS, liftR, updateVertex, updatePlayer, modifyS. cbn beta iota.
  destruct (players (state e) !! p) as [player|] eqn:Hp; cbn [deref]; [|done].
  destruct (canAffordSettlement player) eqn:Hafford; cbn [negb]; [|done].
  destruct (vertices (state e) !! v) as [vertex|]; cbn [deref]; [|done].
  destruct (Vertex.building vertex); [done|].
  destruct (checkDistanceRule (state e) v) as [[|]|err]; cbn [negb]; [|done|done].
  cbn [snd state].
  eapply (sound_alter (state e) _ p
            (payForSettlement ∘ Player.set_victoryPoints (λ n, n + 1)
               ∘ Player.set_settlements (λ n, n + 1))); [done| |done|].
  - cbn. by rewrite !list_alter_alter_eq.
  - intros q Hq Hacc. assert (q = player) as -> by congruence.
    split; [by apply canAffordSettlement_pays|done].
Qed.

Lemma keeps_buildCity v p : keeps (buildCity v p).
Proof.
  intros e He. unfold buildCity.
  unfold mbind, M_bind, getS, liftR, updateVertex, updatePlayer, modifyS. cbn beta iota.
  destruct (vertices (state e) !! v) as [vertex|]; cbn [deref]; [|done].
  destruct (bool_decide (Vertex.building vertex = Some settlement)); cbn [negb]; [|done].
  destruct (players (state e) !! p) as [player|] eqn:Hp; cbn [deref]; [|done].
  destruct (bool_decide (Vertex.playerColor vertex = _)); cbn [negb]; [|done].
  destruct (canAffordCity player) eqn:Hafford; cbn [negb]; [|done].
  cbn [snd state].
  eapply (sound_alter (state e) _ p
            (payForCity ∘ Player.set_victoryPoints (λ n, n + 1)
               ∘ Player.set_settlements (λ n, n - 1) ∘ Player.set_cities (λ n, n + 1)));
    [done| |done|].
  - cbn. by rewrite !list_alter_alter_eq.
  - intros q Hq Hacc. assert (q = player) as -> by congruence.
    split; [by apply canAffordCity_pays|done].
Qed.

(** [updateLongestRoad] takes the flag and its 2 points from the
    holder before it gives them to anybody *)
Lemma keeps_updateLongestRoad : keeps updateLongestRoad.
Proof.
  intros e He. unfold updateLongestRoad.
  apply (bind_sound getS _ e (λ s e1, e1 = e ∧ s = state e)); [done|].
  intros s e1 [-> ->].
  apply (bind_sound _ _ e (λ _ e1, e1 = e)).
  { unfold liftR. by destruct (foldlR _ _ _). }
  intros [longestPlayer longestLength] e1 ->.
  destruct (5 <=? longestLength); [|done].
  (* after the first step nobody carries the flag *)
  apply (bind_sound _ _ e
           (λ _ e1, sound (state e1) ∧
                    longestRoadPlayer (state e1) = longestRoadPlayer (state e) ∧
                    ∀ j q, players (state e1) !! j = Some q →
                           Player.hasLongestRoad q = false)).
  { destruct (longestRoadPlayer (state e)) as [holder|] eqn:Hholder.
    - unfold mbind, M_bind, liftR.
      destruct (players (state e) !! holder) as [prev|] eqn:Hprev; cbn [deref]; [|done].
      destruct (Player.hasLongestRoad prev) eqn:Hflag.
      + unfold updatePlayer, modifyS. cbn [state]. split_and!.
        * intros j q. cbn. rewrite list_lookup_alter. case_decide as Hj; [subst j|].
          -- rewrite Hprev. intros [= <-]. destruct (He holder prev Hprev) as [[Hvp Hhand] _].
             split; [|done]. split; [|done]. cbn. rewrite Hflag in Hvp. lia.
          -- intros Hq. destruct (He j q Hq) as [Hacc Hhold]. split; [done|].
             intros Hfl. specialize (Hhold Hfl). congruence.
        * done.
        * intros j q. cbn. rewrite list_lookup_alter.
          case_decide as Hj; [subst j|].
          -- rewrite Hprev. by intros [= <-].
          -- intros Hq. destruct (He j q Hq) as [_ Hhold].
             destruct (Player.hasLongestRoad q); [|done]. specialize (Hhold eq_refl).
             congruence.
      + split; [done|]. split; [done|]. intros j q Hq.
        destruct (He j q Hq) as [_ Hhold].
        destruct (Player.hasLongestRoad q) eqn:Hfl; [|done]. specialize (Hhold eq_refl).
        assert (j = holder) as -> by congruence. congruence.
    - split; [done|]. split; [done|]. intros j q Hq.
      destruct (He j q Hq) as [_ Hhold].
      destruct (Player.hasLongestRoad q); [|done]. specialize (Hhold eq_refl). congruence. }
  intros _ e1 (He1 & Hsame & Hflags).
  destruct longestPlayer as [newHolder|]; [|done].
  case_bool_decide as Hnew; [|done].
  unfold mbind, M_bind, getS, liftR, updatePlayer, modifyS. cbn beta iota.
  destruct (players (state e1) !! newHolder) as [q|] eqn:Hq; cbn [deref]; [|done].
  cbn [snd state]. intros j p. cbn. rewrite list_lookup_alter.
  case_decide as Hj; [subst j|].
  - rewrite Hq. intros [= <-]. destruct (He1 newHolder q Hq) as [[Hvp Hhand] _].
    split; [|done]. split; [|done]. cbn. rewrite (Hflags newHolder q Hq) in Hvp. lia.
  - intros Hp. destruct (He1 j p Hp) as [Hacc _]. split; [done|].
    by rewrite (Hflags j p Hp).
Qed.

Lemma keeps_buildRoadNormal ed p : keeps (buildRoadNormal ed p).
Proof.
  intros e He. unfold buildRoadNormal.
  unfold mbind at 1, M_bind at 1, getS. cbn beta iota.
  unfold mbind at 1, M_bind at 1, liftR.
  destruct (edges (state e) !! ed) as [edge|]; cbn [deref]; [|done].
  destruct (Edge.road edge); [done|].
  unfold mbind at 1, M_bind at 1, liftR.
  destruct (players (state e) !! p) as [player|] eqn:Hp; cbn [deref]; [|done].
  destruct (canAffordRoad player) eqn:Hafford; cbn [negb]; [|done].
  unfold mbind at 1, M_bind at 1, liftR.
  destruct (isRoadConnected (state e) ed p) as [[|]|err]; cbn [negb]; [|done|done].
  unfold mbind at 1, M_bind at 1, updateEdge, modifyS. cbn beta iota.
  unfold mbind at 1, M_bind at 1, updatePlayer, modifyS. cbn beta iota.
  unfold mbind at 1, M_bind at 1, updatePlayer, modifyS. cbn beta iota.
  cbn [state initialPlacement rng console].
  set (e1 := mkEngine _ _ _ _).
  assert (He1 : sound (state e1)).
  { eapply (sound_alter (state e) _ p (payForRoad ∘ Player.set_roads (λ n, n + 1)));
      [done| |done|].
    - unfold e1. cbn. by rewrite !list_alter_alter_eq.
    - intros q Hq Hacc. assert (q = player) as -> by congruence.
      split; [by apply canAffordRoad_pays|done]. }
  pose proof (keeps_updateLongestRoad e1 He1) as He2.
  unfold mbind, M_bind. by destruct (updateLongestRoad e1) as [[[]|err] e2].
Qed.

Lemma keeps_buildRoad ed p vid : keeps (buildRoad ed p vid).
Proof.
  intros e He. unfold buildRoad.
  destruct vid as [v|]; [|by apply keeps_buildRoadNormal].
  destruct (inInitialPlacement e); [|by apply keeps_buildRoadNormal].
  revert e He. change (keeps (success ← placeInitialRoad ed p v;
                              (if success : bool then advanceIfTurnComplete p else mret tt);;
                              mret success)).
  apply keeps_bind; [apply keeps_placeInitialRoad|intros success].
  apply keeps_bind; [|intros; apply keeps_ret].
  destruct success; [apply keeps_advanceIfTurnComplete|apply keeps_ret].
Qed.

Lemma keeps_distributeResources roll : keeps (distributeResources roll).
Proof.
  unfold distributeResources, creditVertex. repeat keeps_step.
  apply keeps_updatePlayer. intros q. apply accounted_gain. by case_bool_decide.
Qed.

Lemma keeps_handleRobberActivation : keeps handleRobberActivation.
Proof.
  intros e He.
  assert (Hnonneg : ∀ p r, p ∈ players (state e) → 0 ≤ getCount (Player.resources p) r).
  { intros p r (i & Hi)%list_elem_of_lookup. by destruct (He i p Hi) as [[_ Hhand] _]. }
  destruct (robber_prefix e Hnonneg (length (players (state e))) ltac:(lia))
    as (e' & Hrun & Hlen & _ & Hseats).
  rewrite take_ge in Hrun by lia.
  assert (Hholder : longestRoadPlayer (state (handleRobberActivation e).2)
                    = longestRoadPlayer (state e)).
  { assert (Hframe : preserves (λ e, longestRoadPlayer (state e)) handleRobberActivation)
      by frame_auto.
    apply Hframe. }
  assert (Heq : handleRobberActivation e = (Ok tt, e')) by exact Hrun.
  rewrite Heq in Hholder |- *. cbn [snd] in *.
  intros i p' Hp'. rewrite Hholder.
  assert (is_Some (players (state e) !! i)) as [p Hp].
  { apply lookup_lt_is_Some. rewrite <- Hlen. by apply lookup_lt_Some in Hp'. }
  destruct (Hseats i p Hp) as (q & Hq & Hrel).
  apply lookup_lt_Some in Hp as Hlt. rewrite decide_True in Hrel by lia.
  assert (q = p') as -> by congruence.
  destruct Hrel as (Hsame & Hhand & _). destruct (He i p Hp) as [[Hvp _] Hflag].
  rewrite Hsame. cbn. split; [|done]. split; [done|]. intros r. apply Hhand.
Qed.

Lemma keeps_rollDice : keeps rollDice.
Proof.
  unfold rollDice.
  repeat first [ apply keeps_handleRobberActivation | apply keeps_distributeResources
               | keeps_step ].
Qed.

Lemma keeps_endTurn : keeps endTurn.
Proof. apply keeps_frame. frame_auto. Qed.

Lemma keeps_moveRobber hexId : keeps (moveRobber hexId).
Proof. apply keeps_frame. unfold moveRobber. repeat frame_step. Qed.

Lemma keeps_drawBoard : keeps drawBoard.
Proof.
  apply keeps_frame. unfold drawBoard, assignPorts, updateEdge.
  repeat first [frame_step | match goal with |- preserves _ (warn _) => by intros ? end].
Qed.

Lemma sound_newGameEngine supply : sound (state (newGameEngine supply)).
Proof.
  unfold newGameEngine, initializeGame.
  destruct (createBoard supply) as [[[hs vs] es] supply']. cbn [state players longestRoadPlayer].
  intros i p Hi.
  assert (Hnew : ∀ id color, accounted (createPlayer id color)
                             ∧ Player.hasLongestRoad (createPlayer id color) = false).
  { intros id color. split; [|done]. split; [done|]. by intros []. }
  do 4 (destruct i as [|i]; [injection Hi as <-; split; [apply Hnew|done]|]).
  done.
Qed.

Lemma reachable_sound e : reachable e → sound (state e).
Proof.
  induction 1 as [supply|e c _ IH]; [apply sound_newGameEngine|].
  destruct c; cbn [execute].
  - by apply keeps_drawBoard.
  - by apply keeps_rollDice.
  - by apply keeps_buildSettlement.
  - by apply keeps_buildCity.
  - by apply keeps_buildRoad.
  - by apply keeps_moveRobber.
  - by apply keeps_endTurn.
Qed.

(** X14.  The books of the players.  In every state a game can
    reach, each player's victory points are the number of the
    player's settlements, plus 2 for each city, plus 2 with the
    longest-road flag; no hand holds a negative count of any
    resource; and a player with the flag is the recorded holder of the
    longest road. *)
Theorem reachable_players_are_sound (e : Engine) :
  reachable e →
  ∀ i p, players (state e) !! i = Some p →
    Player.victoryPoints p
    = Player.settlements p + 2 * Player.cities p
      + (if Player.hasLongestRoad p then 2 else 0) ∧
    (∀ r, 0 ≤ getCount (Player.resources p) r) ∧
    (Player.hasLongestRoad p = true → longestRoadPlayer (state e) = Some i).
Proof.
  intros Hreach i p Hp.
  destruct (reachable_sound e Hreach i p Hp) as [[Hvp Hhand] Hflag]. done.
Qed.

End Invariants.

(** ** The shape of the game *)

Lemma connectEdgesToVertices_ids `{JsMath} vs es :
  Edge.id <$> connectEdgesToVertices vs es = Edge.id <$> es.
Proof.
  pose proof (connectEdgesToVertices_owner vs es) as Howner.
  apply (f_equal (fmap (λ x : nat * option PlayerColor * option PortType, x.1.1)))
    in Howner.
  rewrite <- !list_fmap_compose in Howner. exact Howner.
Qed.

Lemma hexTile_liftRobber (hs : list Hex.t) :
  hexTile <$> ((λ hex, if Hex.hasRobber hex then Hex.set_hasRobber false hex else hex) <$> hs)
  = hexTile <$> hs.
Proof.
  rewrite <- list_fmap_compose. apply list_fmap_ext. intros i h _. cbn.
  by destruct (Hex.hasRobber h).
Qed.

Ltac shape_step :=
  first
    [ frame_step
    | match goal with
      | |- preserves _ (warn _) => by intros ?
      | |- preserves _ (modifyS (set_vertices (calculateVertexPositions _))) =>
          intros ?; unfold shape; cbn; by rewrite calculateVertexPositions_ids
      | |- preserves _ (modifyS (set_edges (connectEdgesToVertices _))) =>
          intros ?; unfold shape; cbn; by rewrite connectEdgesToVertices_ids
      | |- preserves _ (modifyS (set_hexes (fmap _))) =>
          intros ?; unfold shape; cbn; by rewrite hexTile_liftRobber
      | |- preserves _ (modifyS _) =>
          intros ?; unfold shape; cbn; rewrite !list_fmap_alter_same by done; reflexivity
      end ].

Section Shape.
Context `{JsMath}.

Lemma shape_advanceIfTurnComplete p : preserves shape (advanceIfTurnComplete p).
Proof.
  intros e. unfold advanceIfTurnComplete.
  assert (Hadv : preserves shape advanceToNextPlayer) by frame_auto.
  repeat case_match; first [apply Hadv|done].
Qed.

Lemma shape_buildSettlement v p : preserves shape (buildSettlement v p).
Proof. unfold_engine. repeat shape_step. Qed.

Lemma shape_buildCity v p : preserves shape (buildCity v p).
Proof. unfold_engine. repeat shape_step. Qed.

Lemma shape_buildRoad ed p v : preserves shape (buildRoad ed p v).
Proof.
  unfold buildRoad. destruct v as [vid|].
  - repeat first [ apply shape_advanceIfTurnComplete | shape_step ];
      unfold_engine; repeat shape_step.
  - change (preserves shape (buildRoadNormal ed p)). unfold_engine. repeat shape_step.
Qed.

Lemma shape_rollDice : preserves shape rollDice.
Proof. unfold_engine. repeat shape_step. Qed.

Lemma shape_endTurn : preserves shape endTurn.
Proof. frame_auto. Qed.

Lemma shape_moveRobber hexId : preserves shape (moveRobber hexId).
Proof. unfold moveRobber. repeat shape_step. Qed.

Lemma shape_drawBoard : preserves shape drawBoard.
Proof. unfold_engine. repeat shape_step. Qed.

Lemma shape_execute c e : shape (execute c e) = shape e.
Proof.
  destruct c; cbn [execute].
  - apply shape_drawBoard.
  - apply shape_rollDice.
  - apply shape_buildSettlement.
  - apply shape_buildCity.
  - apply shape_buildRoad.
  - apply shape_moveRobber.
  - apply shape_endTurn.
Qed.

Lemma shape_newGameEngine supply :
  (shape (newGameEngine supply)).1.1.1.1 = [0; 1; 2; 3]%nat ∧
  (shape (newGameEngine supply)).1.1.1.2 = [Red; Blue; Orange; White] ∧
  Hex.id <$> hexes (state (newGameEngine supply)) = seq 0 19 ∧
  (shape (newGameEngine supply)).1.2 = seq 0 54 ∧
  (shape (newGameEngine supply)).2 = seq 0 72.
Proof.
  unfold shape, newGameEngine, initializeGame.
  pose proof (createBoard_hexes supply) as (Hlen & _ & Hids & _).
  pose proof (createBoard_vertices supply) as Hvs.
  pose proof (createBoard_edges supply) as Hes.
  destruct (createBoard supply) as [[[hs vs] es] supply']. cbn [fst snd state] in *.
  cbn [players hexes vertices edges]. subst vs es.
  split_and!; try done.
  - apply list_eq. intros i. rewrite list_lookup_fmap.
    destruct (hs !! i) as [h|] eqn:Hi.
    + cbn [fmap option_fmap option_map]. rewrite (Hids i h Hi). symmetry.
      apply lookup_seq. split; [done|]. apply lookup_lt_Some in Hi. lia.
    + cbn [fmap option_fmap option_map]. symmetry. apply lookup_ge_None.
      apply lookup_ge_None in Hi. rewrite length_seq. lia.
Qed.

Lemma reachable_shape e :
  reachable e →
  Player.id <$> players (state e) = [0; 1; 2; 3]%nat ∧
  Player.color <$> players (state e) = [Red; Blue; Orange; White] ∧
  Hex.id <$> hexes (state e) = seq 0 19 ∧
  Vertex.id <$> vertices (state e) = seq 0 54 ∧
  Edge.id <$> edges (state e) = seq 0 72.
Proof.
  induction 1 as [supply|e c _ IH].
  - destruct (shape_newGameEngine supply) as (H1 & H2 & H3 & H4 & H5). by split_and!.
  - pose proof (shape_execute c e) as Hshape. unfold shape in Hshape.
    destruct IH as (H1 & H2 & H3 & H4 & H5).
    pose proof (f_equal (λ x, x.1.1.1.1) Hshape) as E1.
    pose proof (f_equal (λ x, x.1.1.1.2) Hshape) as E2.
    pose proof (f_equal (λ x, (λ t : nat * Q * Q * ResourceType * option nat, t.1.1.1.1)
                               <$> x.1.1.2) Hshape) as E3.
    pose proof (f_equal (λ x, x.1.2) Hshape) as E4.
    pose proof (f_equal (λ x, x.2) Hshape) as E5.
    cbn [fst snd] in E1, E2, E3, E4, E5. rewrite <- !list_fmap_compose in E3.
    split_and!; [by rewrite E1|by rewrite E2| |by rewrite E4|by rewrite E5].
    etrans; [exact E3|exact H3].
Qed.

(** X15.  The shape of the game is fixed.  No command changes the
    ids or the colours of the players, the id, position, resource or
    number of a hex, or the id of a vertex or an edge.  So in every
    state a game can reach there are the four players 0 to 3 in the
    colours red, blue, orange and white, 19 hexes, 54 vertices and 72
    edges, each with its array position as its id. *)
Theorem shape_of_the_game_is_fixed (e : Engine) :
  (∀ c, shape (execute c e) = shape e) ∧
  (reachable e →
   Player.id <$> players (state e) = [0; 1; 2; 3]%nat ∧
   Player.color <$> players (state e) = [Red; Blue; Orange; White] ∧
   Hex.id <$> hexes (state e) = seq 0 19 ∧
   Vertex.id <$> vertices (state e) = seq 0 54 ∧
   Edge.id <$> edges (state e) = seq 0 72).
Proof. split; [intros c; apply shape_execute|apply reachable_shape]. Qed.

(** ** The end of the setup *)

Lemma allPlaced_ids e ps ps' :
  Player.id <$> ps = Player.id <$> ps' → allPlaced e ps = allPlaced e ps'.
Proof.
  revert ps'. induction ps as [|p ps IH]; intros [|p' ps'] Hids; try done.
  injection Hids as Hid Hrest. cbn [allPlaced]. rewrite Hid, (IH ps' Hrest). done.
Qed.

Lemma runSetup_ids cs : ∀ e e',
  runSetup cs e = Some e' →
  Player.id <$> players (state e') = Player.id <$> players (state e).
Proof.
  induction cs as [|c cs IH]; intros e e' Hrun; [by injection Hrun as <-|].
  cbn [runSetup] in Hrun. destruct (inInitialPlacement e); [|done].
  destruct (runSetupCommand c e) as [[[|]|] e1] eqn:Hcmd; try done.
  rewrite (IH e1 e' Hrun).
  assert (Hshape : shape e1 = shape e).
  { destruct c as [v p|ed p v]; cbn [runSetupCommand] in Hcmd.
    - pose proof (shape_buildSettlement v p e) as Hs. by rewrite Hcmd in Hs.
    - pose proof (shape_buildRoad ed p (Some v) e) as Hs. by rewrite Hcmd in Hs. }
  exact (f_equal (λ x, x.1.1.1.1) Hshape).
Qed.

(** X16.  The end of the setup.  Start from an engine whose control
    fields are those of a new game and whose players are 0 to 3.
    After any sequence of accepted setup placements,
    [checkInitialPlacementComplete] answers [true] exactly when 16
    placements have been made, which is exactly when the engine has
    left the initial placement phase. *)
Theorem setup_is_complete_after_16 (cs : list SetupCommand) (e e' : Engine) :
  controlOf e = startControl →
  Player.id <$> players (state e) = [0; 1; 2; 3]%nat →
  runSetup cs e = Some e' →
  checkInitialPlacementComplete e' = Ok (bool_decide (length cs = 16%nat)) ∧
  isInitialPlacementPhase e' = negb (bool_decide (length cs = 16%nat)).
Proof.
  intros Hstart Hids Hrun.
  destruct (runSetup_schedule cs 0 e e' Hstart ltac:(lia) Hrun) as (Hlen & _ & Hctl & _).
  cbn [plus] in Hctl.
  pose proof (runSetup_ids cs e e' Hrun) as Hids'. rewrite Hids in Hids'.
  assert (Hat : ∀ k, (k ≤ 16)%nat →
            c_setup (controlAt k) = negb (bool_decide (k = 16%nat)) ∧
            ∀ e0, initialPlacement e0 = c_placements (controlAt k) →
                  allPlaced e0 [createPlayer 0 Red; createPlayer 1 Blue;
                                createPlayer 2 Orange; createPlayer 3 White]
                  = Ok (bool_decide (k = 16%nat))).
  { intros k Hk.
    do 17 (destruct k as [|k];
           [split; [by vm_compute|];
            intros e0 He0; unfold allPlaced, placementsOf; rewrite He0; by vm_compute|]).
    lia. }
  destruct (Hat (length cs) Hlen) as [Hsetup Hall]. rewrite <- Hctl in Hsetup, Hall.
  split; [|exact Hsetup].
  unfold checkInitialPlacementComplete.
  rewrite (allPlaced_ids e' _ [createPlayer 0 Red; createPlayer 1 Blue;
                               createPlayer 2 Orange; createPlayer 3 White]) by done.
  by apply Hall.
Qed.

End Shape.

(** ** The seat *)

Section Seat.
Context `{JsMath}.

Let seat : Engine → nat := λ e, currentPlayerIndex (state e).

Lemma seat_advanceToNextPlayer e :
  (seat e < 4)%nat → (seat (advanceToNextPlayer e).2 < 4)%nat.
Proof.
  intros He. unfold advanceToNextPlayer, mbind, M_bind, getS, modifyS, seat in *.
  cbn beta iota. repeat case_bool_decide; cbn -[Nat.modulo];
    first [exact He | lia | apply Nat.mod_upper_bound; lia].
Qed.

Lemma seat_execute c e : (seat e < 4)%nat → (seat (execute c e) < 4)%nat.
Proof.
  intros He. destruct c; cbn [execute].
  - by rewrite (ltac:(preserves_auto) : preserves seat drawBoard).
  - by rewrite (ltac:(preserves_auto) : preserves seat rollDice).
  - by rewrite (ltac:(preserves_auto) : preserves seat (buildSettlement vertexId playerId)).
  - by rewrite (ltac:(preserves_auto) : preserves seat (buildCity vertexId playerId)).
  - assert (Hnormal : preserves seat (buildRoadNormal edgeId playerId)) by preserves_auto.
    unfold buildRoad. destruct vertexId as [v|]; [|by rewrite Hnormal].
    destruct (inInitialPlacement e); [|by rewrite Hnormal].
    pose proof ((ltac:(preserves_auto) :
                   preserves seat (placeInitialRoad edgeId playerId v)) e) as Hplace.
    unfold mbind, M_bind.
    destruct (placeInitialRoad edgeId playerId v e) as [[[|]|err] e1]; cbn [snd] in Hplace;
      [|change (seat e1 < 4)%nat; by rewrite Hplace
       |change (seat e1 < 4)%nat; by rewrite Hplace].
    assert (seat (advanceIfTurnComplete playerId e1).2 < 4)%nat as Hadv.
    { unfold advanceIfTurnComplete.
      repeat case_match; first [apply seat_advanceToNextPlayer|cbn [snd]]; by rewrite Hplace. }
    change (seat (match advanceIfTurnComplete playerId e1 with
                  | (Ok _, e2) => (Ok true, e2)
                  | (Throw err, e2) => (Throw err, e2)
                  end).2 < 4)%nat.
    by destruct (advanceIfTurnComplete playerId e1) as [[[]|err] e2].
  - by rewrite (ltac:(unfold moveRobber; repeat preserves_step) :
                  preserves seat (moveRobber hexId)).
  - unfold endTurn, mbind, M_bind, modifyS, getS, liftR, seat. cbn -[Nat.modulo Z.leb].
    destruct (players (state e) !! _) as [q|]; cbn -[Nat.modulo Z.leb];
      [destruct (10 <=? Player.victoryPoints q)|]; cbn -[Nat.modulo];
      apply Nat.mod_upper_bound; lia.
Qed.

Lemma reachable_seat e : reachable e → (seat e < 4)%nat.
Proof.
  induction 1 as [supply|e c _ IH]; [|by apply seat_execute].
  unfold seat, newGameEngine, initializeGame.
  destruct (createBoard supply) as [[[hs vs] es] supply']. cbn. lia.
Qed.

(** X17.  The current player always exists.  In every state a game
    can reach the current seat is one of 0 to 3, [getCurrentPlayer]
    returns the player of that seat, whose id is the seat, and
    [endTurn] returns, passing the turn to the next seat around the
    table. *)
Theorem current_player_always_exists (e : Engine) :
  reachable e →
  (currentPlayerIndex (state e) < 4)%nat ∧
  (∃ current, getCurrentPlayer (state e) = Some current ∧
              Player.id current = currentPlayerIndex (state e)) ∧
  ∃ e', endTurn e = (Ok tt, e') ∧
        currentPlayerIndex (state e')
        = ((currentPlayerIndex (state e) + 1) `mod` 4)%nat.
Proof.
  intros Hreach. pose proof (reachable_seat e Hreach) as Hseat. unfold seat in Hseat.
  destruct (reachable_shape e Hreach) as (Hids & _).
  assert (Hplayer : ∀ i, (i < 4)%nat →
            ∃ p, players (state e) !! i = Some p ∧ Player.id p = i).
  { intros i Hi.
    assert ((Player.id <$> players (state e)) !! i = Some i) as Hl.
    { rewrite Hids. by do 4 (destruct i as [|i]; [done|]); lia. }
    rewrite list_lookup_fmap in Hl.
    destruct (players (state e) !! i) as [p|]; [|done]. injection Hl as Hl. by exists p. }
  split; [done|]. split.
  - destruct (Hplayer _ Hseat) as (p & Hp & Hid). by exists p.
  - destruct (Hplayer ((currentPlayerIndex (state e) + 1) `mod` 4)%nat) as (q & Hq & _).
    { apply Nat.mod_upper_bound. lia. }
    destruct (endTurn_run e q Hq) as (e' & Hrun & Hnext & _). by exists e'.
Qed.

End Seat.

(** ** Pieces stay on the board *)

Lemma piecesKept_owner e e' :
  vertexOwner <$> vertices (state e') = vertexOwner <$> vertices (state e) →
  edgeOwner <$> edges (state e') = edgeOwner <$> edges (state e) →
  piecesKept e e'.
Proof.
  intros Hvs Hes. split.
  - intros i vertex b Hi Hb.
    assert ((vertexOwner <$> vertices (state e')) !! i = Some (vertexOwner vertex)) as Hl
      by (by rewrite Hvs, list_lookup_fmap, Hi).
    rewrite list_lookup_fmap in Hl.
    destruct (vertices (state e') !! i) as [vertex'|]; [|done].
    injection Hl as _ Hb' Hc'. exists vertex'. split; [done|]. split; [done|]. left. congruence.
  - intros j edge c Hj Hc.
    assert ((edgeOwner <$> edges (state e')) !! j = Some (edgeOwner edge)) as Hl
      by (by rewrite Hes, list_lookup_fmap, Hj).
    rewrite list_lookup_fmap in Hl.
    destruct (edges (state e') !! j) as [edge'|]; [|done].
    injection Hl as _ Hr. exists edge'. split; [done|]. congruence.
Qed.

Lemma piecesKept_same e e' :
  vertices (state e') = vertices (state e) → edges (state e') = edges (state e) →
  piecesKept e e'.
Proof. intros Hvs Hes. apply piecesKept_owner; congruence. Qed.

(** a command that has written to an empty vertex only *)
Lemma piecesKept_vertex e e' v d :
  edges (state e') = edges (state e) →
  <[v := d]> (vertices (state e')) = <[v := d]> (vertices (state e)) →
  (∃ vertex, vertices (state e) !! v = Some vertex ∧ Vertex.building vertex = None) →
  piecesKept e e'.
Proof.
  intros Hes Hvs (vertex & Hv & Hfree). split.
  - intros i vertex0 b Hi Hb.
    assert (i ≠ v) as Hne by (intros ->; congruence).
    assert (vertices (state e') !! i = Some vertex0) as Hi'.
    { rewrite <- (list_lookup_insert_ne (vertices (state e')) v i d) by done.
      by rewrite Hvs, list_lookup_insert_ne. }
    exists vertex0. split; [done|]. split; [done|]. by left.
  - intros j edge c Hj Hc. exists edge. by rewrite Hes.
Qed.

(** a command that has written to a free edge only *)
Lemma piecesKept_edge e e' ed d :
  vertices (state e') = vertices (state e) →
  <[ed := d]> (edges (state e')) = <[ed := d]> (edges (state e)) →
  (∃ edge, edges (state e) !! ed = Some edge ∧ Edge.road edge = None) →
  piecesKept e e'.
Proof.
  intros Hvs Hes (edge & He & Hfree). split.
  - intros i vertex b Hi Hb. exists vertex. rewrite Hvs. split; [done|]. split; [done|].
    by left.
  - intros j edge0 c Hj Hc.
    assert (j ≠ ed) as Hne by (intros ->; congruence).
    exists edge0. split; [|done].
    rewrite <- (list_lookup_insert_ne (edges (state e')) ed j d) by done.
    by rewrite Hes, list_lookup_insert_ne.
Qed.

Ltac written_step :=
  first
    [ frame_step
    | match goal with
      | |- preserves _ (modifyS (set_vertices (alter _ _))) =>
          intros ?; cbn; by rewrite list_insert_alter
      | |- preserves _ (modifyS (set_edges (alter _ _))) =>
          intros ?; cbn; by rewrite list_insert_alter
      end ].

Section Pieces.
Context `{JsMath}.

Lemma canPlaceRoad_edge e edgeId playerId vertexId :
  canPlaceRoad e edgeId playerId vertexId = Ok true →
  ∃ edge, edges (state e) !! edgeId = Some edge ∧ Edge.road edge = None.
Proof.
  unfold canPlaceRoad. case_bool_decide; [done|].
  destruct (placementsOf e playerId) as [pl|]; cbn [deref mbind res_bind]; [|done].
  case_match; [done|].
  destruct (edges (state e) !! edgeId) as [edge|]; cbn [deref mbind res_bind]; [|done].
  destruct (Edge.road edge) eqn:Hr; [done|]. intros _. by exists edge.
Qed.

Lemma buildSettlement_touches v p e :
  (buildSettlement v p e).2 = e ∨
  ∃ vertex, vertices (state e) !! v = Some vertex ∧ Vertex.building vertex = None.
Proof.
  unfold buildSettlement. destruct (inInitialPlacement e).
  - unfold placeInitialSettlement. unfold mbind at 1, M_bind at 1.
    destruct (canPlaceSettlement e v p) as [[|]|err] eqn:Hcan; [|by left|by left].
    right. apply canPlaceSettlement_vertex in Hcan as (vertex & Hv & Hfree & _).
    by exists vertex.
  - unfold mbind, M_bind, getS, liftR. cbn beta iota.
    destruct (players (state e) !! p) as [player|]; cbn [deref]; [|by left].
    destruct (canAffordSettlement player); cbn [negb]; [|by left].
    destruct (vertices (state e) !! v) as [vertex|]; cbn [deref]; [|by left].
    destruct (Vertex.building vertex) eqn:Hb; [by left|]. right. by exists vertex.
Qed.

Lemma buildRoad_touches ed p vid e :
  (buildRoad ed p vid e).2 = e ∨
  ∃ edge, edges (state e) !! ed = Some edge ∧ Edge.road edge = None.
Proof.
  assert (Hnormal : (buildRoadNormal ed p e).2 = e ∨
            ∃ edge, edges (state e) !! ed = Some edge ∧ Edge.road edge = None).
  { unfold buildRoadNormal.
    unfold mbind at 1, M_bind at 1, getS. cbn beta iota.
    unfold mbind at 1, M_bind at 1, liftR.
    destruct (edges (state e) !! ed) as [edge|]; cbn [deref]; [|by left].
    destruct (Edge.road edge) eqn:Hr; [by left|]. right. by exists edge. }
  unfold buildRoad. destruct vid as [v|]; [|done].
  destruct (inInitialPlacement e); [|done].
  unfold placeInitialRoad. unfold mbind at 1, M_bind at 1. unfold mbind at 1, M_bind at 1.
  destruct (canPlaceRoad e ed p v) as [[|]|err] eqn:Hcan; [|by left|by left].
  right. by apply canPlaceRoad_edge in Hcan.
Qed.

(** X18.  Pieces stay on the board.  No command removes a building
    or a road or changes its colour: after any command every vertex
    that carried a building still carries one of the same colour,
    the same building or a city in its place, and every edge that
    carried a road still carries it. *)
Theorem pieces_are_never_removed (c : Command) (e : Engine) :
  piecesKept e (execute c e).
Proof.
  set (d := Vertex.mk 0 0 0 None None). set (dE := Edge.mk 0 0 0 None None).
  destruct c; cbn [execute].
  - (* drawBoard *)
    pose proof (drawn_drawBoard e) as Hframe. cbn beta in Hframe.
    apply piecesKept_owner.
    + exact (f_equal (λ x, x.1.2) Hframe).
    + exact (f_equal (λ x, x.2) Hframe).
  - (* rollDice *)
    pose proof ((ltac:(frame_auto) :
      preserves (λ e, (vertices (state e), edges (state e))) rollDice) e) as Hframe.
    injection Hframe as Hvs Hes. by apply piecesKept_same.
  - (* buildSettlement *)
    destruct (buildSettlement_touches vertexId playerId e) as [->|Hfree];
      [by apply piecesKept_same|].
    pose proof ((ltac:(unfold_engine; repeat written_step) :
      preserves (λ e, (edges (state e), <[vertexId := d]> (vertices (state e))))
                (buildSettlement vertexId playerId)) e) as Hframe.
    injection Hframe as Hes Hvs. by apply (piecesKept_vertex _ _ vertexId d).
  - (* buildCity *)
    split.
    + intros i vertex b Hi Hb. unfold buildCity.
      unfold mbind, M_bind, getS, liftR, updateVertex, updatePlayer, modifyS. cbn beta iota.
      assert (Hsame : ∃ vertex', vertices (state e) !! i = Some vertex' ∧
                Vertex.playerColor vertex' = Vertex.playerColor vertex ∧
                (Vertex.building vertex' = Some b ∨ Vertex.building vertex' = Some city)).
      { exists vertex. split; [done|]. split; [done|]. by left. }
      destruct (vertices (state e) !! vertexId) as [target|] eqn:Ht; cbn [deref]; [|done].
      case_bool_decide; cbn [negb]; [|done].
      destruct (players (state e) !! playerId) as [player|]; cbn [deref]; [|done].
      case_bool_decide; cbn [negb]; [|done].
      destruct (canAffordCity player); cbn [negb]; [|done].
      cbn. rewrite list_lookup_alter. case_decide as Hiv; [subst i|done].
      rewrite Hi. eexists. split; [done|]. split; [done|]. by right.
    + intros j edge col Hj Hroad. exists edge. split; [|done].
      by rewrite (ltac:(frame_auto) :
        preserves (λ e, edges (state e)) (buildCity vertexId playerId)).
  - (* buildRoad *)
    destruct (buildRoad_touches edgeId playerId vertexId e) as [->|Hfree];
      [by apply piecesKept_same|].
    assert (Hframe : preserves (λ e, (vertices (state e), <[edgeId := dE]> (edges (state e))))
                       (buildRoad edgeId playerId vertexId)).
    { assert (Hadv : ∀ p, preserves
                (λ e, (vertices (state e), <[edgeId := dE]> (edges (state e))))
                (advanceIfTurnComplete p)).
      { intros p e0. unfold advanceIfTurnComplete.
        assert (Hnext : preserves
                  (λ e, (vertices (state e), <[edgeId := dE]> (edges (state e))))
                  advanceToNextPlayer) by frame_auto.
        repeat case_match; first [apply Hnext|done]. }
      unfold buildRoad. destruct vertexId as [vid|].
      - repeat first [ apply Hadv | written_step ]; unfold_engine; repeat written_step.
      - change (preserves (λ e, (vertices (state e), <[edgeId := dE]> (edges (state e))))
                          (buildRoadNormal edgeId playerId)).
        unfold_engine. repeat written_step. }
    specialize (Hframe e). injection Hframe as Hvs Hes.
    by apply (piecesKept_edge _ _ edgeId dE).
  - (* moveRobber *)
    pose proof ((ltac:(unfold moveRobber; repeat frame_step) :
      preserves (λ e, (vertices (state e), edges (state e))) (moveRobber hexId)) e)
      as Hframe.
    injection Hframe as Hvs Hes. by apply piecesKept_same.
  - (* endTurn *)
    pose proof ((ltac:(frame_auto) :
      preserves (λ e, (vertices (state e), edges (state e))) endTurn) e) as Hframe.
    injection Hframe as Hvs Hes. by apply piecesKept_same.
Qed.

End Pieces.


(* ===================================================================== *)
(** * The sample game *)

#[local] Existing Instance exactMath.

Lemma reachable_executeAll `{JsMath} cs e : reachable e → reachable (executeAll cs e).
Proof.
  revert e. induction cs as [|c cs IH]; intros e He; [done|].
  apply IH. by apply reachable_step.
Qed.

Lemma runSetup_app `{JsMath} cs1 cs2 e :
  runSetup (cs1 ++ cs2) e = runSetup cs1 e ≫= runSetup cs2.
Proof.
  revert e. induction cs1 as [|c cs1 IH]; intros e; [done|].
  cbn [runSetup app]. destruct (inInitialPlacement e); [|done].
  destruct (runSetupCommand c e) as [[[|]|] e1]; done.
Qed.

Lemma runSetup_reachable `{JsMath} cs e e' :
  runSetup cs e = Some e' → reachable e → reachable e'.
Proof.
  revert e. induction cs as [|c cs IH]; intros e Hrun He.
  - by injection Hrun as <-.
  - cbn [runSetup] in Hrun. destruct (inInitialPlacement e); [|done].
    destruct (runSetupCommand c e) as [[[|]|] e1] eqn:Hc; try done.
    apply (IH e1 Hrun).
    destruct c as [v p|ed p v]; cbn [runSetupCommand] in Hc.
    + replace e1 with (execute (CmdBuildSettlement v p) e) by (unfold execute; by rewrite Hc).
      by apply reachable_step.
    + replace e1 with (execute (CmdBuildRoad ed p (Some v)) e) by (unfold execute; by rewrite Hc).
      by apply reachable_step.
Qed.

Lemma tokenIfProductive_check hs :
  forallb (λ h, bool_decide (Hex.resourceType h = Desert) ||
                bool_decide (Hex.numberToken h ≠ None)) hs = true →
  Forall tokenIfProductive hs.
Proof.
  intros Hall. apply Forall_forall. intros h Hin Hres.
  rewrite forallb_forall in Hall. specialize (Hall h).
  rewrite bool_decide_eq_false_2 in Hall by done. cbn in Hall.
  eapply bool_decide_eq_true_1, Hall. by apply list_elem_of_In.
Qed.

Lemma forallb_elem_of {A} (f : A → bool) (P : A → Prop) (l : list A) :
  (∀ a, f a = true → P a) → forallb f l = true → ∀ a, a ∈ l → P a.
Proof.
  intros Hf Hall a Ha. rewrite forallb_forall in Hall.
  by apply Hf, Hall, list_elem_of_In.
Qed.

Lemma playersWf_check s :
  forallb (λ p, bool_decide (is_Some (players s !! Player.id p))) (players s) = true →
  (if longestRoadPlayer s is Some h then bool_decide (is_Some (players s !! h)) else true)
    = true →
  playersWf s.
Proof.
  intros Hall Hh. split.
  - intros p Hin. rewrite forallb_forall in Hall.
    eapply bool_decide_eq_true_1, Hall. by apply list_elem_of_In.
  - intros h Hl. rewrite Hl in Hh. by eapply bool_decide_eq_true_1.
Qed.

Lemma sampleNew_eq : sampleNew = newGameEngine sampleSupply.
Proof. vm_compute. reflexivity. Qed.

Lemma sampleDrawn_eq : sampleDrawn = execute CmdDrawBoard sampleNew.
Proof. vm_compute. reflexivity. Qed.

Lemma setupHalf_run : runSetup (take 8 setupMoves) sampleDrawn = Some setupHalf.
Proof. vm_compute. reflexivity. Qed.

Lemma setupDone_run : runSetup (drop 8 setupMoves) setupHalf = Some setupDone.
Proof. vm_compute. reflexivity. Qed.

Lemma setupMoves_run : runSetup setupMoves sampleDrawn = Some setupDone.
Proof.
  rewrite <- (take_drop 8 setupMoves), runSetup_app, setupHalf_run. apply setupDone_run.
Qed.

Lemma roadGame_eq :
  roadGame
  = executeAll [CmdRollDice; CmdEndTurn; CmdRollDice; CmdEndTurn; CmdRollDice] setupDone.
Proof. vm_compute. reflexivity. Qed.

Lemma sheepGame_eq : sheepGame = execute CmdEndTurn roadGame.
Proof. vm_compute. reflexivity. Qed.

Lemma sheepRolled_eq : sheepRolled = execute CmdRollDice sheepGame.
Proof. vm_compute. reflexivity. Qed.

Lemma idleGame_eq : idleGame = executeAll longGame sheepRolled.
Proof. vm_compute. reflexivity. Qed.

Lemma wonGame_eq : wonGame = execute (CmdBuildSettlement 52 1) idleGame.
Proof. vm_compute. reflexivity. Qed.

Lemma overGame_eq : overGame = executeAll [CmdRollDice; CmdEndTurn] wonGame.
Proof. vm_compute. reflexivity. Qed.

Lemma bonusGame_eq :
  bonusGame
  = executeAll [CmdBuildRoad 26 0 None; CmdBuildRoad 35 0 None; CmdBuildRoad 43 0 None]
               roadGame.
Proof. vm_compute. reflexivity. Qed.

Lemma fifthRoadLaid_eq :
  fifthRoadLaid
  = let before := executeAll [CmdBuildRoad 26 0 None; CmdBuildRoad 35 0 None] roadGame in
    withState (set_edges (alter (Edge.set_road (Some Red)) 43%nat) (state before)) before.
Proof. vm_compute. reflexivity. Qed.

Lemma forkGame_eq :
  forkGame
  = executeAll [CmdBuildRoad 7 0 None; CmdBuildRoad 25 0 None; CmdBuildRoad 11 0 None]
               roadGame.
Proof. vm_compute. reflexivity. Qed.

Lemma sampleNew_reachable : reachable sampleNew.
Proof. rewrite sampleNew_eq. apply reachable_new. Qed.
Lemma sampleDrawn_reachable : reachable sampleDrawn.
Proof. rewrite sampleDrawn_eq. apply reachable_step, sampleNew_reachable. Qed.
Lemma setupDone_reachable : reachable setupDone.
Proof. exact (runSetup_reachable _ _ _ setupMoves_run sampleDrawn_reachable). Qed.
Lemma roadGame_reachable : reachable roadGame.
Proof. rewrite roadGame_eq. apply reachable_executeAll, setupDone_reachable. Qed.
Lemma sheepGame_reachable : reachable sheepGame.
Proof. rewrite sheepGame_eq. apply reachable_step, roadGame_reachable. Qed.
Lemma sheepRolled_reachable : reachable sheepRolled.
Proof. rewrite sheepRolled_eq. apply reachable_step, sheepGame_reachable. Qed.
Lemma idleGame_reachable : reachable idleGame.
Proof. rewrite idleGame_eq. apply reachable_executeAll, sheepRolled_reachable. Qed.
Lemma wonGame_reachable : reachable wonGame.
Proof. rewrite wonGame_eq. apply reachable_step, idleGame_reachable. Qed.
Lemma overGame_reachable : reachable overGame.
Proof. rewrite overGame_eq. apply reachable_executeAll, wonGame_reachable. Qed.
Lemma bonusGame_reachable : reachable bonusGame.
Proof. rewrite bonusGame_eq. apply reachable_executeAll, roadGame_reachable. Qed.
Lemma forkGame_reachable : reachable forkGame.
Proof. rewrite forkGame_eq. apply reachable_executeAll, roadGame_reachable. Qed.

(** ** The board (C9, C8) *)

(** With the exact stand-ins too, the renderer's pass connects all 72
    edges of a new board, each to two different vertices. *)
Example connectEdges_exact_board :
  length (vertices (state sampleDrawn)) = 54%nat ∧
  length (edges (state sampleDrawn)) = 72%nat ∧
  forallb (λ e, (Edge.vertex1 e <? Edge.vertex2 e)%nat && (Edge.vertex2 e <? 54)%nat)
          (edges (state sampleDrawn)) = true.
Proof. split_and!; vm_compute; reflexivity. Qed.

Lemma nearMath_accurate : @accurate nearMath.
Proof.
  split; [cbn; lra|]. split; [cbn; lra|]. split.
  - intros i Hi. unfold tolerance. cbn [cosCorner sinCorner nearMath].
    do 6 (destruct i as [|i]; [cbn; split_and!; lra|]). lia.
  - intros q Hlo Hhi. cbn [js_sqrt nearMath].
    assert (3599 <= Qfloor q) by (change 3599 with (Qfloor 3599); by apply Qfloor_resp_le).
    assert (Qfloor q <= 3601) by (change 3601 with (Qfloor 3601); by apply Qfloor_resp_le).
    assert (59 <= Z.sqrt (Qfloor q)) by (change 59 with (Z.sqrt 3599); by apply Z.sqrt_le_mono).
    assert (Z.sqrt (Qfloor q) <= 60) by (change 60 with (Z.sqrt 3601); by apply Z.sqrt_le_mono).
    split.
    + change 48%Q with (inject_Z 48). rewrite <- Zlt_Qlt. lia.
    + change 72%Q with (inject_Z 72). rewrite <- Zlt_Qlt. lia.
Qed.

Lemma createBoard_counts_and_edges_witness :
  @accurate nearMath ∧
  Forall (λ e, (Edge.vertex1 e < Edge.vertex2 e < 54)%nat)
         (edges (state (@drawBoard nearMath (@newGameEngine nearMath sampleSupply)).2)).
Proof.
  split; [apply nearMath_accurate|].
  apply (@createBoard_counts_and_edges nearMath sampleSupply), nearMath_accurate.
Defined.

Lemma assignPorts_too_few_border_edges_witness :
  assignPorts sampleNew =
    (Ok tt, mkEngine (state sampleNew) (initialPlacement sampleNew) (rng sampleNew)
                     (console sampleNew ++ [length (findBorderEdges (state sampleNew))])).
Proof.
  apply (assignPorts_too_few_border_edges sampleNew).
  vm_compute. lia.
Defined.

(** C8 as stated fails: on a board whose vertices the renderer has not
    positioned yet there is no eligible border edge, and [assignPorts]
    neither raises nor aborts anything.  The edges keep no port, the
    game state is untouched, and the game stays playable: seat 0 can
    place its first settlement. *)
Lemma assignPorts_skips_silently :
  let e' := (assignPorts sampleNew).2 in
  (length (findBorderEdges (state sampleNew)) < 9)%nat ∧
  (assignPorts sampleNew).1 = Ok tt ∧
  state e' = state sampleNew ∧
  forallb (λ edge, bool_decide (Edge.port edge = None)) (edges (state e')) = true ∧
  (buildSettlement 0 0 e').1 = Ok true.
Proof.
  intros e'. split; [vm_compute; lia|].
  split_and!; vm_compute; reflexivity.
Qed.

(** ** The robber (C2) *)

Lemma robber_on_at_most_one_hex_witness :
  (robberCount (hexes (state (execute (CmdMoveRobber 3) sampleNew))) ≤ 1)%nat.
Proof.
  apply robber_on_at_most_one_hex.
  apply reachable_step, sampleNew_reachable.
Defined.

(** C2 as stated fails: moving the robber to the desert hex (hex 17 of
    this board) is a reachable state in which no hex holds the robber. *)
Lemma robber_can_leave_the_board :
  let e := execute (CmdMoveRobber 17) sampleNew in
  reachable e ∧
  Hex.resourceType <$> hexes (state sampleNew) !! 17%nat = Some Desert ∧
  robberCount (hexes (state sampleNew)) = 1%nat ∧
  robberCount (hexes (state e)) = 0%nat ∧
  robberCount (hexes (state e)) ≠ 1%nat.
Proof.
  split; [apply reachable_step, sampleNew_reachable|].
  split; [vm_compute; reflexivity|]. split; [vm_compute; reflexivity|].
  assert (Hnone : robberCount (hexes (state (execute (CmdMoveRobber 17) sampleNew))) = 0%nat)
    by (vm_compute; reflexivity).
  split; [exact Hnone|]. cbv zeta. rewrite Hnone. discriminate.
Qed.

(** ** Production (C1) *)

Lemma distributeResources_credits_owners_witness :
  ∃ e', distributeResources 8 sheepGame = (Ok tt, e') ∧
    bank (state e') = bank (state sheepGame) ∧
    length (players (state e')) = length (players (state sheepGame)) ∧
    ∀ i p, players (state sheepGame) !! i = Some p →
      ∃ p', players (state e') !! i = Some p' ∧
        ∀ r, getCount (Player.resources p') r
             = getCount (Player.resources p) r + production (state sheepGame) 8 i r.
Proof.
  apply (distributeResources_credits_owners 8 sheepGame).
  apply hexIdsArePositions_check. vm_compute. reflexivity.
Defined.

(** Seat 0's settlement on vertex 17 is a corner of hex 8 (sheep,
    token 8): it earns seat 0 one sheep on an 8, and two once it is a
    city. *)
Example production_settlement_and_city :
  production (state sheepGame) 8 0 Sheep = 1 ∧
  production
     (set_vertices (alter (Vertex.set_building (Some city)) 17%nat) (state sheepGame))
     8 0 Sheep = 2.
Proof. split; vm_compute; reflexivity. Qed.

(** C1 as stated fails in a reachable state: the roll of 8 credits
    seat 0 one sheep, and the bank still holds its 76 sheep. *)
Lemma distributeResources_never_debits_bank :
  reachable sheepGame ∧ reachable sheepRolled ∧
  sheepRolled = execute CmdRollDice sheepGame ∧
  lastDiceRoll (state sheepRolled) = Some 8%nat ∧
  (Player.resources <$> players (state sheepGame) !! 0%nat) ≫= (.!! Sheep) = Some 0 ∧
  (Player.resources <$> players (state sheepRolled) !! 0%nat) ≫= (.!! Sheep) = Some 1 ∧
  bank (state sheepGame) !! Sheep = Some 76 ∧
  bank (state sheepRolled) !! Sheep = Some 76 ∧
  bank (state sheepRolled) !! Sheep ≠ Some 75.
Proof.
  split; [apply sheepGame_reachable|].
  split; [apply sheepRolled_reachable|].
  split; [apply sheepRolled_eq|].
  assert (Hbank : bank (state sheepRolled) !! Sheep = Some 76) by (vm_compute; reflexivity).
  split_and!; [vm_compute; reflexivity..|exact Hbank|rewrite Hbank; discriminate].
Qed.

(** ** The setup (C5, C6) *)

Lemma setup_follows_schedule_witness :
  (length setupMoves ≤ 16)%nat ∧
  (λ c, (setupKind c, setupSeat c)) <$> setupMoves
    = take (length setupMoves) setupSchedule ∧
  initialPlacementPhase (state setupDone) = bool_decide (length setupMoves < 16)%nat ∧
  initialPlacementRound (state setupDone)
    = (if bool_decide (length setupMoves < 8)%nat then 1 else 2)%nat ∧
  currentPlayerIndex (state setupDone)
    = default 0%nat (snd <$> setupSchedule !! length setupMoves) ∧
  (length setupMoves = 16%nat → phase (state setupDone) = RollingDice).
Proof.
  apply (setup_follows_schedule setupMoves sampleDrawn setupDone).
  - vm_compute. reflexivity.
  - exact setupMoves_run.
Defined.

Lemma initial_settlement_resources_witness :
  ∃ vertex, vertices (state setupHalf) !! 10%nat = Some vertex ∧
  ∃ e', buildSettlement 10 3 setupHalf = (Ok true, e') ∧
    length (players (state e')) = length (players (state setupHalf)) ∧
    ∀ i p, players (state setupHalf) !! i = Some p →
      ∃ p', players (state e') !! i = Some p' ∧
        ∀ r, getCount (Player.resources p') r
             = getCount (Player.resources p) r
               + (if bool_decide (initialPlacementRound (state setupHalf) = 2%nat
                                  ∧ i = 3%nat)
                  then incidentHexes (state setupHalf) vertex r else 0).
Proof.
  eexists. split; [vm_compute; reflexivity|].
  apply (initial_settlement_resources 10 3 setupHalf).
  - vm_compute. reflexivity.
  - vm_compute. reflexivity.
  - vm_compute. reflexivity.
  - vm_compute. eexists. reflexivity.
  - apply tokenIfProductive_check. vm_compute. reflexivity.
Defined.

(** Seat 3's second settlement, on vertex 10, touches a wood hex and a
    sheep hex: it is granted one wood and one sheep, and nobody else
    anything; the settlements of round 1 were granted nothing. *)
Example initial_grants_on_the_board :
  hands sampleDrawn = [[0; 0; 0; 0; 0]; [0; 0; 0; 0; 0]; [0; 0; 0; 0; 0]; [0; 0; 0; 0; 0]] ∧
  hands setupHalf = [[0; 0; 0; 0; 0]; [0; 0; 0; 0; 0]; [0; 0; 0; 0; 0]; [0; 0; 0; 0; 0]] ∧
  hands (execute (CmdBuildSettlement 10 3) setupHalf)
    = [[0; 0; 0; 0; 0]; [0; 0; 0; 0; 0]; [0; 0; 0; 0; 0]; [0; 1; 1; 0; 0]].
Proof. split_and!; vm_compute; reflexivity. Qed.

(** ** Builds out of turn and after the win (C10, C4) *)

Lemma builds_consult_neither_phase_nor_seat_witness :
  reachable idleGame ∧
  currentPlayerIndex (state idleGame) = 0%nat ∧
  diceRolled (state idleGame) = false ∧
  phase (state idleGame) = RollingDice ∧
  (buildSettlement 42 1 idleGame).1 = Ok true ∧
  (buildCity 0 1 idleGame).1 = Ok true ∧
  (buildRoad 30 1 None idleGame).1 = Ok true.
Proof.
  split; [apply idleGame_reachable|].
  split; [vm_compute; reflexivity|]. split; [vm_compute; reflexivity|].
  split; [vm_compute; reflexivity|].
  assert (∃ player, players (state idleGame) !! 1%nat = Some player ∧
                    Player.color player = Blue ∧
                    canAffordSettlement player = true ∧
                    canAffordCity player = true ∧
                    canAffordRoad player = true)
    as (player & Hp & Hcolor & Hs & Hc & Hr).
  { eexists. split; [vm_compute; reflexivity|]. split_and!; vm_compute; reflexivity. }
  destruct (builds_consult_neither_phase_nor_seat idleGame 1 player Hp)
    as (Hsettle & Hcity & Hroad).
  split_and!.
  - assert (∃ vertex, vertices (state idleGame) !! 42%nat = Some vertex
                      ∧ Vertex.building vertex = None) as (vertex & Hv & Hb).
    { eexists. split; vm_compute; reflexivity. }
    destruct (Hsettle 42%nat vertex) as (e' & Hrun & _).
    + vm_compute; reflexivity.
    + exact Hs.
    + exact Hv.
    + exact Hb.
    + vm_compute; reflexivity.
    + rewrite Hrun. reflexivity.
  - assert (∃ vertex, vertices (state idleGame) !! 0%nat = Some vertex
                      ∧ Vertex.building vertex = Some settlement
                      ∧ Vertex.playerColor vertex = Some Blue) as (vertex & Hv & Hb & Hvc).
    { eexists. split_and!; vm_compute; reflexivity. }
    destruct (Hcity 0%nat vertex) as (e' & Hrun & _).
    + exact Hv.
    + exact Hb.
    + rewrite Hcolor. exact Hvc.
    + exact Hc.
    + rewrite Hrun. reflexivity.
  - assert (∃ edge, edges (state idleGame) !! 30%nat = Some edge
                    ∧ Edge.road edge = None) as (edge & He & Hfree).
    { eexists. split; vm_compute; reflexivity. }
    destruct (Hroad 30%nat edge None) as (e' & Hrun & _).
    + right. reflexivity.
    + apply playersWf_check; vm_compute; reflexivity.
    + exact He.
    + exact Hfree.
    + exact Hr.
    + vm_compute; reflexivity.
    + rewrite Hrun. reflexivity.
Defined.

Lemma win_is_declared_by_endTurn_witness :
  ∃ e', buildSettlement 52 1 idleGame = (Ok true, e') ∧
    Player.victoryPoints <$> players (state e') !! 1%nat = Some 10 ∧
    phase (state e') = phase (state idleGame).
Proof.
  assert (∃ player, players (state idleGame) !! 1%nat = Some player ∧
                    Player.victoryPoints player = 9 ∧
                    canAffordSettlement player = true) as (player & Hp & Hvp & Hs).
  { eexists. split; [vm_compute; reflexivity|]. split; vm_compute; reflexivity. }
  assert (∃ vertex, vertices (state idleGame) !! 52%nat = Some vertex
                    ∧ Vertex.building vertex = None) as (vertex & Hv & Hb).
  { eexists. split; vm_compute; reflexivity. }
  destruct win_is_declared_by_endTurn as (Hsettlement & _).
  apply (Hsettlement idleGame 52%nat 1%nat player vertex).
  - vm_compute; reflexivity.
  - exact Hp.
  - exact Hvp.
  - exact Hs.
  - exact Hv.
  - exact Hb.
  - vm_compute; reflexivity.
Defined.

(** C4 as stated fails in a reachable game.  Seat 1 goes from 9 to 10
    points by building a settlement while seat 0 is to roll, and the
    phase is still [RollingDice]; seat 0 rolls; the game-over phase is
    entered only when seat 0 ends its turn, which makes seat 1
    current.  In the game-over phase a settlement, a city and a road
    of seat 1 are all accepted and built. *)
Lemma builds_are_accepted_after_game_over :
  reachable idleGame ∧
  wonGame = execute (CmdBuildSettlement 52 1) idleGame ∧
  overGame = executeAll [CmdRollDice; CmdEndTurn] wonGame ∧
  seatPoints idleGame 1 = Some (9, false) ∧
  (buildSettlement 52 1 idleGame).1 = Ok true ∧
  seatPoints wonGame 1 = Some (10, false) ∧
  phase (state idleGame) = RollingDice ∧
  phase (state wonGame) = RollingDice ∧
  phase (state (execute CmdRollDice wonGame)) = MainPhase ∧
  phase (state overGame) = GameOver ∧
  currentPlayerIndex (state overGame) = 1%nat ∧
  (buildSettlement 42 1 overGame).1 = Ok true ∧
  buildingAt (buildSettlement 42 1 overGame).2 42 = Some (settlement, Blue) ∧
  (buildCity 0 1 overGame).1 = Ok true ∧
  buildingAt (buildCity 0 1 overGame).2 0 = Some (city, Blue) ∧
  (buildRoad 30 1 None overGame).1 = Ok true ∧
  roadAt (buildRoad 30 1 None overGame).2 30 = Some Blue ∧
  phase (state (executeAll [CmdBuildCity 0 1; CmdBuildRoad 30 1 None] overGame))
    = GameOver ∧
  seatPoints (executeAll [CmdBuildCity 0 1; CmdBuildRoad 30 1 None] overGame) 1
    = Some (11, false).
Proof.
  split; [apply idleGame_reachable|].
  split; [apply wonGame_eq|]. split; [apply overGame_eq|].
  split_and!; vm_compute; reflexivity.
Qed.

(** ** The longest-road bonus (C3) *)

(** C3 fails in a reachable state.  Seat 0 holds the bonus with a road
    of 5, longer than everybody else's; it builds a sixth road.  The
    scoring that follows finds seat 0 longest again, takes the 2
    points and the flag away from it as "previous holder", and does
    not give them back because the holder did not change: seat 0 stays
    the recorded holder with 2 points fewer. *)
Theorem holder_loses_bonus_by_extending :
  let e' := (buildRoad 51 0 None bonusGame).2 in
  reachable bonusGame ∧
  longestRoadPlayer (state bonusGame) = Some 0%nat ∧
  seatPoints bonusGame 0 = Some (4, true) ∧
  (λ i, calculateLongestRoad (state bonusGame) i) <$> [0; 1; 2; 3]%nat
    = [Ok 5; Ok 1; Ok 1; Ok 1] ∧
  (buildRoad 51 0 None bonusGame).1 = Ok true ∧
  (λ i, calculateLongestRoad (state e') i) <$> [0; 1; 2; 3]%nat
    = [Ok 6; Ok 1; Ok 1; Ok 1] ∧
  longestRoadPlayer (state e') = Some 0%nat ∧
  seatPoints e' 0 = Some (2, false) ∧
  (λ i, fst <$> seatPoints e' i) <$> [1; 2; 3]%nat
    = (λ i, fst <$> seatPoints bonusGame i) <$> [1; 2; 3]%nat.
Proof.
  split; [apply bonusGame_reachable|].
  split_and!; vm_compute; reflexivity.
Qed.

(** The general lemma on the holder applies to [bonusGame]: scoring it
    again, with nothing changed, strips seat 0 of the bonus. *)
Example rescoring_strips_the_holder :
  updateLongestRoad bonusGame
  = (Ok tt, withState (set_players (alter loseBonus 0%nat) (state bonusGame)) bonusGame) ∧
  seatPoints bonusGame 0 = Some (4, true) ∧
  seatPoints (updateLongestRoad bonusGame).2 0 = Some (2, false).
Proof.
  assert (∃ holder, players (state bonusGame) !! 0%nat = Some holder ∧
                    Player.id holder = 0%nat ∧ Player.hasLongestRoad holder = true)
    as (holder & Hholder & Hid & Hflag).
  { eexists. split_and!; vm_compute; reflexivity. }
  split; [|split; vm_compute; reflexivity].
  apply (updateLongestRoad_strips_holder bonusGame 0 holder
           (λ i, if decide (i = 0%nat) then 5 else 1)).
  - apply (forallb_elem_of
             (λ p, match calculateLongestRoad (state bonusGame) (Player.id p) with
                   | Ok n => n =? (if decide (Player.id p = 0%nat) then 5 else 1)
                   | Throw _ => false
                   end)).
    + intros p Hp. destruct (calculateLongestRoad _ _) as [n|]; [|done].
      by apply Z.eqb_eq in Hp as ->.
    + vm_compute. reflexivity.
  - vm_compute. reflexivity.
  - exact Hholder.
  - exact Hid.
  - exact Hflag.
  - vm_compute. discriminate.
  - apply (forallb_elem_of
             (λ p, (if decide (Player.id p = 0%nat) then 5 else 1) <=? 5)).
    + intros p Hp. by apply Z.leb_le.
    + vm_compute. reflexivity.
Qed.

(** The general lemma on the transfer applies to [fifthRoadLaid]: when
    the scoring runs, seat 0 becomes the holder, with 2 points more. *)
Example bonus_moves_to_the_longest :
  let e' := (updateLongestRoad fifthRoadLaid).2 in
  longestRoadPlayer (state fifthRoadLaid) = None ∧
  longestRoadPlayer (state e') = Some 0%nat ∧
  seatPoints fifthRoadLaid 0 = Some (2, false) ∧
  seatPoints e' 0 = Some (4, true) ∧
  e' = withState (set_longestRoad (Some 0%nat) 5
                    (set_players (alter winBonus 0%nat) (stripHolder (state fifthRoadLaid))))
                 fifthRoadLaid.
Proof.
  intros e'.
  assert (Hrun : updateLongestRoad fifthRoadLaid = (Ok tt, e')) by (vm_compute; reflexivity).
  assert (Hnew : longestRoadPlayer (state e') = Some 0%nat) by (vm_compute; reflexivity).
  assert (Hold : longestRoadPlayer (state fifthRoadLaid) = None)
    by (vm_compute; reflexivity).
  split; [exact Hold|]. split; [exact Hnew|].
  split; [vm_compute; reflexivity|]. split; [vm_compute; reflexivity|].
  refine (proj2 (proj2 (proj2 (updateLongestRoad_moves_bonus fifthRoadLaid e' 0
           (λ i, if decide (i = 0%nat) then 5 else 1) _ _ _ _)))).
  - apply (forallb_elem_of
             (λ p, match calculateLongestRoad (state fifthRoadLaid) (Player.id p) with
                   | Ok n => n =? (if decide (Player.id p = 0%nat) then 5 else 1)
                   | Throw _ => false
                   end)).
    + intros p Hp. destruct (calculateLongestRoad _ _) as [n|]; [|done].
      by apply Z.eqb_eq in Hp as ->.
    + vm_compute. reflexivity.
  - exact Hrun.
  - exact Hnew.
  - rewrite Hold. discriminate.
Qed.

(** ** The longest-road search (C7) *)

(** C7 fails in a reachable state.  Seat 0 owns the five edges of a
    "Y" whose branches have 2, 2 and 1 edges.  The longest trail joins
    the two long branches and has 4 edges, but the search continues
    from either end of every edge it reaches, turns around at the fork
    through the short branch, and returns 5, the number of owned edges;
    seat 0 is given the longest-road bonus for it. *)
Theorem fork_counts_every_edge :
  reachable forkGame ∧
  roadsOf forkGame Red = [(4, 8); (7, 12); (8, 12); (12, 17); (17, 22)]%nat ∧
  longestTrail (state forkGame) 0 = Some 4 ∧
  calculateLongestRoad (state forkGame) 0 = Ok 5 ∧
  longestRoadPlayer (state forkGame) = Some 0%nat ∧
  seatPoints forkGame 0 = Some (4, true).
Proof.
  split; [apply forkGame_reachable|].
  split_and!; vm_compute; reflexivity.
Qed.

(** On the straight chain of [bonusGame] the search and the longest
    trail agree: both are 5. *)
Example chain_of_five :
  roadsOf bonusGame Red = [(8, 12); (12, 17); (17, 23); (23, 29); (29, 35)]%nat ∧
  longestTrail (state bonusGame) 0 = Some 5 ∧
  calculateLongestRoad (state bonusGame) 0 = Ok 5.
Proof. split_and!; vm_compute; reflexivity. Qed.

(** The chain of [bonusGame] and the "Y" of [forkGame] are both
    sequences of adjacent edges: the search returns 5 on either. *)
Example chain_and_fork_are_sequences :
  adjacentSequence (state bonusGame) Red [12; 19; 26; 35; 43]%nat ∧
  adjacentSequence (state forkGame) Red [7; 12; 11; 19; 25]%nat ∧
  calculateLongestRoad (state bonusGame) 0 = Ok 5 ∧
  calculateLongestRoad (state forkGame) 0 = Ok 5.
Proof.
  assert (Hchain : adjacentSequence (state bonusGame) Red [12; 19; 26; 35; 43]%nat)
    by (apply adjacentSequence_check; vm_compute; reflexivity).
  assert (Hfork : adjacentSequence (state forkGame) Red [7; 12; 11; 19; 25]%nat)
    by (apply adjacentSequence_check; vm_compute; reflexivity).
  split; [done|]. split; [done|]. split.
  - apply (calculateLongestRoad_sequence_of _ _ Red [12; 19; 26; 35; 43]%nat); [|done].
    vm_compute. reflexivity.
  - apply (calculateLongestRoad_sequence_of _ _ Red [7; 12; 11; 19; 25]%nat); [|done].
    vm_compute. reflexivity.
Qed.

(** ** Further properties on the sample game *)

Lemma rollDice_once_per_turn_witness :
  if diceRolled (state sheepGame) then rollDice sheepGame = (Throw DiceAlreadyRolled, sheepGame)
  else ∃ die1 die2 e',
    rollDice sheepGame = (Ok (die1, die2, (die1 + die2)%nat), e') ∧
    (1 ≤ die1 ≤ 6)%nat ∧ (1 ≤ die2 ≤ 6)%nat ∧
    diceRolled (state e') = true ∧
    lastDiceRoll (state e') = Some (die1 + die2)%nat ∧
    lastDie1 (state e') = Some die1 ∧ lastDie2 (state e') = Some die2 ∧
    rollHistory (state e') = addCount (die1 + die2)%nat 1 (rollHistory (state sheepGame)) ∧
    phase (state e') = MainPhase ∧
    currentPlayerIndex (state e') = currentPlayerIndex (state sheepGame) ∧
    rollDice e' = (Throw DiceAlreadyRolled, e') ∧
    diceRolled (state (endTurn e').2) = false.
Proof.
  apply (rollDice_once_per_turn sheepGame).
  apply hexIdsArePositions_check. vm_compute. reflexivity.
Defined.


Lemma road_connects_to_own_building_or_road_witness :
  ∃ edge player,
    edges (state idleGame) !! 30%nat = Some edge ∧
    players (state idleGame) !! 1%nat = Some player ∧
    ∃ b, isRoadConnected (state idleGame) 30 1 = Ok b ∧
      (b = true ↔
         (∃ v vertex, (v = Edge.vertex1 edge ∨ v = Edge.vertex2 edge) ∧
            vertices (state idleGame) !! v = Some vertex ∧
            ownedBy (Player.color player) vertex = true) ∨
         (∃ j other, j ≠ 30%nat ∧ edges (state idleGame) !! j = Some other ∧
            sharesVertex edge other ∧ Edge.road other = Some (Player.color player))).
Proof.
  eexists. eexists. split; [vm_compute; reflexivity|]. split; [vm_compute; reflexivity|].
  apply (road_connects_to_own_building_or_road (state idleGame) 30 1).
  - vm_compute. reflexivity.
  - vm_compute. reflexivity.
  - vm_compute. by eexists.
  - vm_compute. by eexists.
Defined.

Lemma paid_vertices_touch_the_hex_witness :
  ∃ hex, hexes (state sheepGame) !! 8%nat = Some hex ∧
  ∃ l, getVerticesAdjacentToHex (state sheepGame) 8 = Ok l ∧ NoDup l ∧ (length l ≤ 6)%nat ∧
    ∀ v, v ∈ l →
      ∃ vertex hs, vertices (state sheepGame) !! v = Some vertex ∧
        getHexesAdjacentToVertex (state sheepGame) v = Ok hs ∧ hex ∈ hs.
Proof.
  eexists. split; [vm_compute; reflexivity|].
  apply (paid_vertices_touch_the_hex (state sheepGame) 8).
  vm_compute. reflexivity.
Defined.

Lemma robber_discards_half_witness :
  ∃ e', handleRobberActivation idleGame = (Ok tt, e') ∧
    length (players (state e')) = length (players (state idleGame)) ∧
    (∀ r, inPlay (state e') r = inPlay (state idleGame) r) ∧
    ∀ i p, players (state idleGame) !! i = Some p →
      ∃ p', players (state e') !! i = Some p' ∧ discarded p p'.
Proof.
  apply (robber_discards_half idleGame).
  intros p r (i & Hi)%list_elem_of_lookup.
  by destruct (reachable_sound idleGame idleGame_reachable i p Hi) as [[_ Hhand] _].
Defined.

Lemma road_length_between_chain_and_count_witness :
  ∃ player, players (state forkGame) !! 0%nat = Some player ∧
  ∃ n, calculateLongestRoad (state forkGame) 0 = Ok n ∧
    0 ≤ n ≤ Z.of_nat (roadCount (state forkGame) (Player.color player)) ∧
    (n = 0 ↔ roadCount (state forkGame) (Player.color player) = 0%nat) ∧
    ∀ es, roadChain (state forkGame) (Player.color player) es → Z.of_nat (length es) ≤ n.
Proof.
  eexists. split; [vm_compute; reflexivity|].
  apply (road_length_between_chain_and_count (state forkGame) 0).
  vm_compute. reflexivity.
Defined.

Lemma reachable_players_are_sound_witness :
  ∃ p, players (state idleGame) !! 1%nat = Some p ∧
    Player.victoryPoints p
    = Player.settlements p + 2 * Player.cities p
      + (if Player.hasLongestRoad p then 2 else 0) ∧
    (∀ r, 0 ≤ getCount (Player.resources p) r) ∧
    (Player.hasLongestRoad p = true → longestRoadPlayer (state idleGame) = Some 1%nat).
Proof.
  eexists. split; [vm_compute; reflexivity|].
  apply (reachable_players_are_sound idleGame idleGame_reachable 1).
  vm_compute. reflexivity.
Defined.

Lemma setup_is_complete_after_16_witness :
  checkInitialPlacementComplete setupDone = Ok (bool_decide (length setupMoves = 16%nat)) ∧
  isInitialPlacementPhase setupDone = negb (bool_decide (length setupMoves = 16%nat)).
Proof.
  apply (setup_is_complete_after_16 setupMoves sampleDrawn setupDone).
  - vm_compute. reflexivity.
  - vm_compute. reflexivity.
  - exact setupMoves_run.
Defined.

Lemma current_player_always_exists_witness :
  (currentPlayerIndex (state idleGame) < 4)%nat ∧
  (∃ current, getCurrentPlayer (state idleGame) = Some current ∧
              Player.id current = currentPlayerIndex (state idleGame)) ∧
  ∃ e', endTurn idleGame = (Ok tt, e') ∧
        currentPlayerIndex (state e')
        = ((currentPlayerIndex (state idleGame) + 1) `mod` 4)%nat.
Proof. apply (current_player_always_exists idleGame). apply idleGame_reachable. Defined.

Lemma assignPorts_places_nine_ports_witness :
  ∃ e', assignPorts samplePortless = (Ok tt, e') ∧
    omap Edge.port (edges (state e')) ≡ₚ allPortTypes ∧
    (∀ j edge', edges (state e') !! j = Some edge' → Edge.port edge' ≠ None →
       j ∈ findBorderEdges (state samplePortless)) ∧
    edgeLine <$> edges (state e') = edgeLine <$> edges (state samplePortless) ∧
    state e' = set_edges (λ _, edges (state e')) (state samplePortless) ∧
    initialPlacement e' = initialPlacement samplePortless ∧
    console e' = console samplePortless.
Proof.
  apply (assignPorts_places_nine_ports samplePortless).
  - vm_compute. lia.
  - apply (forallb_elem_of (λ edge, bool_decide (Edge.port edge = None))).
    + intros edge. apply bool_decide_eq_true_1.
    + vm_compute. reflexivity.
Defined.
